(* ===== verification/_CoqProject ===== *)
-Q . S2P
Prelude.v
CppStd.v
Logger.v
RESP.v
RESPProofs.v
UnorderedMap.v
Storage.v
StdPlatform.v
StorageProofs.v
StorageSpec.v
StorageRefine.v
StorageClock.v
StorageMemory.v
AOF.v
Dispatcher.v
DispatcherProofs.v
Connection.v
Server.v
ServerProofs.v
ServerTheorems.v
Effects.v
Interleaving.v
Recovery.v
Durability.v
Main.v
Concurrent.v
ConcurrentProofs.v
ConcurrentTheorems.v
