(* ===== verification/Prelude.v ===== *)
(** * A verified model of the distributed in-memory key-value store

    The program is a server in C++ that speaks the RESP protocol, keeps strings
    with optional deadlines in a sharded table, logs mutating commands to an
    append-only file, replays the file at start-up, and replicates by streaming
    the file to read-only replicas. This development models its sources as
    Rocq functions and proves what makes them correct, and, where they are not,
    proves concrete counterexamples.

    ** The parts and the files that model them

    - [Prelude]: byte strings, machine integers, the outcomes of C++ code
      ([res]: a value, an exception, undefined behaviour, or out of fuel),
      automation, shared lemmas. [CppStd]: what the sources use of the C++
      library on strings and numbers ([find], [substr], [erase],
      [from_chars], [to_string], [toupper]).
    - Protocol, [src/protocol/RESP.cpp]: [RESP] has the value type, [serialize]
      and the recursive parser ([read_line], [parse_internal], [parse]);
      [RESPProofs] its theorems.
    - Storage, [src/storage/StorageEngine.cpp]: [UnorderedMap] is the interface
      the engine expects of [std::unordered_map], with its laws and an
      association-list implementation; [Storage] has the engine: one
      [..._locked] function per critical section, [with_shard] for the choice of
      the shard, the public operations, eviction and the sweeper.
      [StdPlatform] is a concrete platform (hash, generator, string capacities
      as in libstdc++) on which everything can be evaluated.
      [StorageProofs] has the invariant and the frame lemmas, [StorageSpec] the
      abstract specification (a step relation on a finite map of live keys with
      deadlines, and one on all stored entries for clock readings that go back),
      [StorageRefine] the refinement, [StorageClock] the refinement without an
      order of the readings, [StorageMemory] the memory accounting and the
      eviction.
    - Persistence and metrics, [src/storage/AOFLogger.cpp],
      [src/server/Metrics.cpp]: [AOF].
    - Commands, [src/server/CommandDispatcher.cpp]: [Dispatcher] has one
      function per command and [dispatch]; [DispatcherProofs] its theorems.
    - Connections, [src/net/Connection.cpp]: [Connection], with the loop over
      short writes and the ownership of descriptors.
    - Server, [src/server/Server.cpp]: [Server] has the replay loop, start-up
      and accept loop, the loop that serves a client, the streaming of the file
      to a replica and the worker of a replica; [ServerProofs] the lemmas on
      byte streams, [ServerTheorems] the theorems.
    - Restarts: [Effects] says key by key, without a clock, what replaying a
      list of journal entries leaves; [Interleaving] lets the steps of client
      threads interleave: engine calls, the rounds of the key loops of [DEL] and
      [EXISTS], the writes to the file, each made of the dispatcher's own code
      ([act], [cstep]); [Recovery] compares what a restart recovers after such an
      interleaving, [Durability] the same for requests one after the other and
      for a replica.
    - Threads: [Concurrent] has every critical section of the engine as the
      sequence of its accesses to the atomic members ([cs]) and the machine
      that interleaves them ([mstep]); [ConcurrentProofs] has its invariant,
      [ConcurrentTheorems] the theorems. [Interleaving] is one level up.
    - Console output, [src/util/Logger.cpp]: [Logger].
    - Command line, [src/main.cpp]: [Main].

    ** How state and effects are modelled

    State is passed explicitly: [StorageEngine] is the list of the shards'
    tables with the atomic counters, [Ctx] the engine with the logger and the
    metrics, [Session] and [Worker] what a client thread and the replica
    worker keep. [size_t], [uint64_t] and [int64_t] are [Z] with the
    wrap-around written out ([u64], [i64]); signed overflow is [UB]. Clock
    readings are arguments; so are the results of system calls: the chunks
    that [::read] returns, the bytes [::write] accepts ([Net]), the bytes that
    reach the file ([Disk]). Code of the C++ library whose behaviour is not
    fixed by the language is a class with laws: [UnorderedMapLaws],
    [PlatformLaws], [VectorAlloc]. The theorems hold for every instance; the
    concrete ones show that the laws can hold and run the examples.

    ** What the theorems show

    - Protocol: parsing inverts serialization and consumes exactly the frame; a
      proper prefix is reported as incomplete; on arbitrary input the parser
      stays within the buffer and can only throw what [reserve] throws; it terminates
      on input without a bulk length below -1, and diverges on an example with
      one.
    - Engine: every history of calls and sweeper passes refines the
      specification; the invariant is preserved; every call returns except for
      the overflow of a counter; eviction erases exactly the least recently used
      of its samples until enough is freed; storing a new key respects
      the memory limit; the accounting is exact for calls that do not overwrite,
      and a theorem and two examples show how overwriting and self-eviction
      break it.
    - Dispatcher: a data command is exactly one engine call with its reply and
      its journal entry; everything else is harmless; replicas reject writes;
      every change is logged, as a command that at the same instant has the same
      effect; replies parse.
    - Server: replay dispatches exactly the commands of the file and ignores a
      torn one; a client's requests are served in order whatever the chunk
      boundaries; the loop terminates with the exception shown; the handshake
      is understood, the stream sends only the file, and a replica converges to
      the primary's file and commands, also over several connections that break
      between commands; a reconnection inside a command loses it.
    - Durability: a restart recovers every live key with its value and, up to
      the skew [delta] of the two clock readings of [EXPIRE], its deadline, and
      so does a new replica from the primary's stream, for safe histories: no
      memory limit, clock readings that do not go back, and no command that
      depends on the old entry of a key finds it with a deadline that passes
      before the replay ends. General theorems show that the last condition is
      needed (a key made persistent is lost, a counter revived), and what a
      command torn between two elements does to the commands logged after it.
    - Concurrency in the engine: every interleaving of the atomic accesses of
      threads and sweeper, and of changes of the limit, refines the
      specification in the order of the lock releases, in whatever order the
      clock was read; without a memory limit it
      equals the sequential run, counters included, and it cannot deadlock; but
      two writers can exceed the limit together.
    - Concurrency of clients: under every interleaving of engine calls and log
      writes the file gets exactly the journal entries of the executed requests;
      in a safe interleaving in which commands in flight have no common key,
      a restart after a crash at any moment recovers every key that is not in
      flight; otherwise the order of the file can differ from the engine's, and
      a restart then has another value.
    - Console: lines of different threads are never mixed.
    - Connections and command line: short writes, descriptor ownership, options,
      and the life of the process from [main] to the destruction of the server.

    ** Fuel and bounds

    [parse_fuel] is the length of the buffer plus 2: [parse_internal_total]
    shows it is enough when no bulk length is below -1, and
    [parse_internal_mono] that more fuel gives the same result. The loops of
    the server take [loop_fuel], one more than the length of the buffer, since a
    frame takes at least one byte ([client_loop_returns]). [evict_loop] takes
    one more than the number of entries, one of which each round removes, and
    is out of fuel otherwise: [evict_loop_total] shows that it is not.
    [write_loop] takes the length of the data. Buffers are assumed to be smaller
    than 2^63 bytes. The [int] counters of [del] and [exists] overflow at
    [INT_MAX], which is [UB]. The [int] that counts the commands of a replay is
    only printed, and is a natural number here.

    ** What is not modelled

    The texts of the log messages, and how the C library formats the time in
    them; accesses to the atomics in another order than one total order (they
    are relaxed); the detached threads after [main] has destroyed the server;
    signals at other moments than during the replay and in the accept loop;
    [SIGPIPE] on a write to a closed connection; the exhaustion of memory other
    than in [reserve], and of the stack by the recursion of the parser; the
    tests, tools and documents. *)

From Stdlib Require Export ZArith Lia Ascii.
From stdpp Require Export base gmap strings list fin_maps.

#[export] Set Default Goal Selector "!".
#[global] Open Scope Z_scope.

(** ** Byte strings

    The program's [std::string]s are byte sequences; a position in one is a
    [size_t], written as a [Z]. *)

Abbreviation bytes := (list ascii).

(** A string literal of the source. *)
Definition lit (s : string) : bytes := String.list_ascii_of_string s.

Definition size_of (s : bytes) : Z := Z.of_nat (length s).

Definition CR : ascii := Ascii.ascii_of_nat 13.
Definition LF : ascii := Ascii.ascii_of_nat 10.
(** The two-byte line terminator of the protocol. *)
Definition crlf : bytes := [CR; LF].

(** ** Machine integers *)

(** [size_t] and [uint64_t] arithmetic is modulo 2^64. *)
Definition two64 : Z := 2 ^ 64.
Definition u64 (z : Z) : Z := z mod two64.

(** Conversion to [int64_t] is modular (C++20). *)
Definition i64 (z : Z) : Z :=
  let m := u64 z in if m <? 2 ^ 63 then m else m - two64.

Definition INT64_MIN : Z := - 2 ^ 63.
Definition INT64_MAX : Z := 2 ^ 63 - 1.
Definition UINT64_MAX : Z := 2 ^ 64 - 1.
Definition INT_MIN : Z := - 2 ^ 31.
Definition INT_MAX : Z := 2 ^ 31 - 1.

(** [z] is a value of the type [int64_t], resp. [uint64_t]. *)
Definition is_i64 (z : Z) : bool := (INT64_MIN <=? z) && (z <=? INT64_MAX).
Definition is_u64 (z : Z) : bool := (0 <=? z) && (z <=? UINT64_MAX).

(** ** Outcomes of C++ code

    A call returns a value, throws, reaches undefined behaviour, or (in a
    fuelled definition) has not finished within its fuel. *)

Inductive exn :=
  | out_of_range | length_error | bad_alloc | invalid_argument | runtime_error.

Inductive res (A : Type) :=
  | Ok (a : A)
  | Throw (e : exn)
  | UB
  | NoFuel.
Arguments Ok {A} a.
Arguments Throw {A} e.
Arguments UB {A}.
Arguments NoFuel {A}.

#[global] Instance res_ret : MRet res := fun A a => Ok a.
#[global] Instance res_bind : MBind res := fun A B f m =>
  match m with
  | Ok a => f a
  | Throw e => Throw e
  | UB => UB
  | NoFuel => NoFuel
  end.

#[global] Instance exn_eq_dec : EqDecision exn.
Proof. solve_decision. Defined.
#[global] Instance res_eq_dec `{EqDecision A} : EqDecision (res A).
Proof. solve_decision. Defined.

(** The value of a computation that is known to return. *)
Definition got {A} (x : res A) (d : A) : A := match x with Ok a => a | _ => d end.
Definition is_ok {A} (x : res A) : bool := match x with Ok _ => true | _ => false end.

Lemma got_pair {A B} (x : res (A * B)) a d :
  match x with Ok (a', _) => a' = a | _ => False end -> x = Ok (a, snd (got x (a, d))).
Proof. by destruct x as [[a' b]| | |]; intros; subst. Qed.

Lemma got_ok {A} (x : res A) d : is_ok x = true -> x = Ok (got x d).
Proof. by destruct x. Qed.

(** ** Automation *)

Create HintDb kv discriminated.
Create Rewrite HintDb kv.

Lemma bind_Ok {A B} (m : res A) (f : A -> res B) b :
  m ≫= f = Ok b <-> exists a, m = Ok a /\ f a = Ok b.
Proof.
  destruct m as [a| | |]; simpl; split; try discriminate; try (by intros (? & ? & ?)); eauto.
  by intros (a' & [= ->] & ?).
Qed.

(** [Ok] chains in the hypotheses are split into their steps. *)
Ltac res_inv :=
  repeat match goal with
  | H : _ ≫= _ = Ok _ |- _ =>
      apply bind_Ok in H; destruct H as (? & ? & H)
  | H : Ok _ = Ok _ |- _ => injection H as H
  | H : Throw _ = Ok _ |- _ => discriminate H
  | H : UB = Ok _ |- _ => discriminate H
  | H : NoFuel = Ok _ |- _ => discriminate H
  | H : (_, _) = (_, _) |- _ => injection H as H
  end; simplify_eq.

(** Comparisons on [Z] turned into the propositions they decide. *)
Ltac zb :=
  repeat match goal with
  | H : (_ && _) = true |- _ => apply andb_true_iff in H; destruct H
  | H : (_ && _) = false |- _ => apply andb_false_iff in H
  | H : (_ || _) = false |- _ => apply orb_false_iff in H; destruct H
  | H : negb _ = true |- _ => apply negb_true_iff in H
  | H : negb _ = false |- _ => apply negb_false_iff in H
  | H : (_ <? _) = true |- _ => apply Z.ltb_lt in H
  | H : (_ <? _) = false |- _ => apply Z.ltb_ge in H
  | H : (_ <=? _) = true |- _ => apply Z.leb_le in H
  | H : (_ <=? _) = false |- _ => apply Z.leb_gt in H
  | H : (_ =? _) = true |- _ => apply Z.eqb_eq in H
  | H : (_ =? _) = false |- _ => apply Z.eqb_neq in H
  end.

(** A conjunction of tests in [H] split into propositions. *)
Ltac wf_split H := repeat (apply andb_true_iff in H as [H ?]); zb;
  repeat match goal with
  | H : bool_decide _ = true |- _ => apply bool_decide_eq_true in H
  end.

(** Case analysis on the innermost test of the goal. *)
Ltac case_if :=
  match goal with
  | |- context [if ?b then _ else _] =>
      lazymatch b with
      | context [if _ then _ else _] => fail
      | _ => let E := fresh "E" in destruct b eqn:E
      end
  end.

(** ** Integer lemmas *)

Lemma u64_range z : 0 <= u64 z < two64.
Proof. apply Z.mod_pos_bound. done. Qed.

Lemma u64_small z : 0 <= z < two64 -> u64 z = z.
Proof. apply Z.mod_small. Qed.

Lemma u64_idemp z : u64 (u64 z) = u64 z.
Proof. apply u64_small, u64_range. Qed.

Lemma u64_add_l a b : u64 (u64 a + b) = u64 (a + b).
Proof. apply Zplus_mod_idemp_l. Qed.

Lemma u64_add_r a b : u64 (a + u64 b) = u64 (a + b).
Proof. apply Zplus_mod_idemp_r. Qed.

Lemma u64_sub_l a b : u64 (u64 a - b) = u64 (a - b).
Proof. apply Zminus_mod_idemp_l. Qed.

Lemma u64_sub_r a b : u64 (a - u64 b) = u64 (a - b).
Proof. apply Zminus_mod_idemp_r. Qed.

Lemma u64_add_sub a b c : u64 (a + u64 b - c) = u64 (a + b - c).
Proof. rewrite <- u64_sub_l, u64_add_r. apply u64_sub_l. Qed.

#[export] Hint Rewrite u64_add_sub u64_idemp u64_add_l u64_add_r u64_sub_l u64_sub_r : kv.

(** Equality of two wrapped expressions whose arguments agree up to [ring]. *)
Ltac u64_ring := autorewrite with kv; f_equal; ring.

Lemma i64_range z : INT64_MIN <= i64 z <= INT64_MAX.
Proof.
  unfold i64, INT64_MIN, INT64_MAX. pose proof (u64_range z).
  unfold two64 in *. case_if; zb; lia.
Qed.

Lemma i64_small z : INT64_MIN <= z <= INT64_MAX -> i64 z = z.
Proof.
  unfold i64, INT64_MIN, INT64_MAX. intros Hz.
  destruct (decide (0 <= z)) as [H|H].
  - rewrite u64_small by (unfold two64; lia). by destruct (Z.ltb_spec z (2^63)); [|lia].
  - assert (u64 z = z + two64) as ->.
    { unfold u64. rewrite <- (Z.mod_small (z + two64) two64) by (unfold two64; lia).
      rewrite <- (Z_mod_plus_full z 1 two64). f_equal; lia. }
    destruct (Z.ltb_spec (z + two64) (2^63)); unfold two64 in *; lia.
Qed.

Lemma is_i64_spec z : is_i64 z = true <-> INT64_MIN <= z <= INT64_MAX.
Proof. unfold is_i64. rewrite andb_true_iff, !Z.leb_le. done. Qed.

Lemma is_u64_spec z : is_u64 z = true <-> 0 <= z < two64.
Proof. unfold is_u64, UINT64_MAX, two64. rewrite andb_true_iff, !Z.leb_le. lia. Qed.

(** ** List lemmas *)

Lemma size_of_app s t : size_of (s ++ t) = size_of s + size_of t.
Proof. unfold size_of. rewrite length_app. lia. Qed.

Lemma size_of_cons c t : size_of (c :: t) = 1 + size_of t.
Proof. unfold size_of. simpl. lia. Qed.

Lemma size_of_nonneg s : 0 <= size_of s.
Proof. unfold size_of. lia. Qed.

Lemma size_of_nil : size_of [] = 0.
Proof. done. Qed.

Lemma size_of_crlf : size_of crlf = 2.
Proof. done. Qed.

#[export] Hint Resolve size_of_nonneg : kv.
#[export] Hint Rewrite size_of_app size_of_cons size_of_nil size_of_crlf : kv.

(** A proper prefix of [a ++ b] stops inside [a] or inside [b]. *)
Lemma prefix_app_cases {A} (p a b : list A) :
  p `prefix_of` a ++ b -> p <> a ++ b ->
  (p `prefix_of` a /\ p <> a) \/ exists q, p = a ++ q /\ q `prefix_of` b /\ q <> b.
Proof.
  intros [k Hk] Hne.
  assert (a ++ b = p ++ k) as Hk' by done. apply app_eq_inv in Hk' as [(l & E1 & E2)|(l & E1 & E2)]; subst.
  - destruct l as [|x l].
    + right. exists []. rewrite !app_nil_r in *. split_and!; [done|apply prefix_nil|].
      intros <-. by rewrite app_nil_r in Hne.
    + left. split; [by exists (x :: l)|]. intros E.
      apply (f_equal length) in E. rewrite length_app in E. simpl in E. lia.
  - right. exists l. split_and!; [done|by exists k|]. intros E. apply Hne. by rewrite <- E.
Qed.

Lemma list_filter_all {A} (P : A -> Prop) `{!forall x, Decision (P x)} (l : list A) :
  (forall x, x ∈ l -> P x) -> filter P l = l.
Proof.
  induction l as [|x l IH]; intros Hl; [done|].
  rewrite filter_cons_True by (apply Hl; left). f_equal. apply IH. intros y Hy. apply Hl. by right.
Qed.
