(* ===== verification/CppStd.v ===== *)
(** * The parts of the C++ standard library the program calls

    [std::string::find], [substr] and [erase], [std::from_chars],
    [std::to_string] and [std::toupper], as executable functions on byte
    lists, with the round trip between [to_string] and [from_chars] that the
    protocol, the counters and the AOF rely on. *)

From S2P Require Import Prelude.

(** ** [std::string] *)

(** Is [p] a prefix of [s]? *)
Fixpoint starts_with (p s : bytes) : bool :=
  match p, s with
  | [], _ => true
  | c :: p', d :: s' => bool_decide (c = d) && starts_with p' s'
  | _ :: _, [] => false
  end.

Fixpoint find_from (p s : bytes) : option nat :=
  if starts_with p s then Some O
  else match s with
       | [] => None
       | _ :: s' => S <$> find_from p s'
       end.

(** [s.find(p, pos)]; [None] is [npos]. *)
Definition std_find (p s : bytes) (pos : Z) : option Z :=
  if size_of s <? pos then None
  else (fun i => pos + Z.of_nat i) <$> find_from p (drop (Z.to_nat pos) s).

(** [s.substr(pos, n)] throws past the end and clips the length. *)
Definition substr (s : bytes) (pos n : Z) : res bytes :=
  if size_of s <? pos then Throw out_of_range
  else Ok (take (Z.to_nat (Z.min n (size_of s - pos))) (drop (Z.to_nat pos) s)).

(** [s.erase(0, n)]. *)
Definition erase_front (s : bytes) (n : Z) : bytes :=
  drop (Z.to_nat (Z.min n (size_of s))) s.

(** [std::toupper] in the C locale, and its lift to strings. *)
Definition toupper (c : ascii) : ascii :=
  let n := nat_of_ascii c in
  if (97 <=? Z.of_nat n) && (Z.of_nat n <=? 122) then ascii_of_nat (n - 32) else c.

Definition to_upper (s : bytes) : bytes := toupper <$> s.

(** ** Decimal conversions *)

Definition is_digit (c : ascii) : bool :=
  let n := Z.of_nat (nat_of_ascii c) in (48 <=? n) && (n <=? 57).

Definition digit_val (c : ascii) : Z := Z.of_nat (nat_of_ascii c) - 48.

Definition digit_char (d : Z) : ascii := ascii_of_nat (Z.to_nat (d + 48)).

Definition minus_sign : ascii := "-"%char.

(** The longest run of leading digits. *)
Fixpoint take_digits (s : bytes) : bytes :=
  match s with
  | c :: s' => if is_digit c then c :: take_digits s' else []
  | [] => []
  end.

Definition dec_value (ds : bytes) : Z :=
  foldl (fun a c => 10 * a + digit_val c) 0 ds.

Inductive errc := errc_ok | errc_invalid_argument | errc_result_out_of_range.

#[global] Instance errc_eq_dec : EqDecision errc.
Proof. solve_decision. Defined.

Record from_chars_result := FromChars { fc_ptr : Z; fc_ec : errc; fc_val : Z }.

(** [std::from_chars] for an integer type with range [lo..hi], base 10: a
    minus sign only for a signed type, no white space, no plus sign; [ptr] is
    past the digits. [fc_val] is only assigned when [fc_ec] is [errc_ok]. *)
Definition from_chars_range (signed : bool) (lo hi : Z) (s : bytes) : from_chars_result :=
  let neg := signed && starts_with [minus_sign] s in
  let body := if neg then drop 1 s else s in
  let ds := take_digits body in
  let ptr := (if neg then 1 else 0) + size_of ds in
  let v := if neg then - dec_value ds else dec_value ds in
  match ds with
  | [] => FromChars 0 errc_invalid_argument 0
  | _ => if (lo <=? v) && (v <=? hi) then FromChars ptr errc_ok v
         else FromChars ptr errc_result_out_of_range 0
  end.

(** Into an [int64_t], resp. a [uint64_t] or [size_t]. *)
Definition from_chars_i64 : bytes -> from_chars_result :=
  from_chars_range true INT64_MIN INT64_MAX.
Definition from_chars_u64 : bytes -> from_chars_result :=
  from_chars_range false 0 UINT64_MAX.

(** [std::to_string]: the digits of a non-negative number, most significant
    first; [fuel] bounds the number of digits. *)
Fixpoint dec_digits (fuel : nat) (n : Z) (acc : bytes) : bytes :=
  match fuel with
  | O => acc
  | S f => if n <? 10 then digit_char n :: acc
           else dec_digits f (n / 10) (digit_char (n mod 10) :: acc)
  end.

Definition to_string_nonneg (n : Z) : bytes :=
  dec_digits (S (Z.to_nat (Z.log2 n))) n [].

Definition to_string (z : Z) : bytes :=
  if z <? 0 then minus_sign :: to_string_nonneg (- z) else to_string_nonneg z.

Example to_string_ex : to_string (-9223372036854775808) = lit "-9223372036854775808".
Proof. reflexivity. Qed.
Example from_chars_ex :
  from_chars_i64 (lit "-12ab") = FromChars 3 errc_ok (-12).
Proof. reflexivity. Qed.

(** ** Lemmas: searching *)

Lemma starts_with_app p s : starts_with p (p ++ s) = true.
Proof.
  induction p as [|c p IH]; simpl; [done|].
  by rewrite bool_decide_eq_true_2.
Qed.

Lemma starts_with_spec p s : starts_with p s = true <-> exists t, s = p ++ t.
Proof.
  revert s. induction p as [|c p IH]; intros s; simpl; [naive_solver|].
  destruct s as [|d s].
  { split; [done|]. by intros (t & ?). }
  rewrite andb_true_iff, bool_decide_eq_true, IH. split.
  - intros [-> (t & ->)]. by exists t.
  - intros (t & [= -> ->]). eauto.
Qed.

Lemma find_from_Some p s i :
  find_from p s = Some i -> exists t, s = take i s ++ p ++ t /\ (i + length p <= length s)%nat.
Proof.
  revert i. induction s as [|c s IH]; intros i; simpl.
  - destruct p; simpl; intros; simplify_eq. by exists [].
  - destruct (starts_with p (c :: s)) eqn:E.
    + intros [= <-]. apply starts_with_spec in E as (t & E). exists t. simpl. split; [done|].
      apply (f_equal length) in E. rewrite length_app in E. simpl in E. lia.
    + intros (j & Hj & ->)%fmap_Some. destruct (IH _ Hj) as (t & Ht & Hl).
      exists t. simpl. rewrite <- Ht. split; [done|lia].
Qed.

(** Appending data after a hit does not move the hit. *)
Lemma find_from_app_Some p s t i :
  p <> [] -> find_from p s = Some i -> find_from p (s ++ t) = Some i.
Proof.
  intros Hp. revert i. induction s as [|c s IH]; intros i; simpl.
  - by destruct p.
  - destruct (starts_with p (c :: s)) eqn:E.
    + intros [= <-]. apply starts_with_spec in E as (r & E).
      replace (c :: s ++ t) with (p ++ (r ++ t))
        by (by rewrite app_assoc, <- E).
      by rewrite starts_with_app.
    + intros (j & Hj & ->)%fmap_Some.
      pose proof (IH _ Hj) as IHj.
      destruct (find_from_Some _ _ _ Hj) as (r & Hr & Hl).
      destruct (starts_with p (c :: s ++ t)) eqn:E'; [|by rewrite IHj].
      exfalso. apply starts_with_spec in E' as (r' & E').
      assert (take (length p) (c :: s) = p) as Hpre.
      { rewrite <- (take_app_le (c :: s) t) by (simpl; lia).
        change ((c :: s) ++ t) with (c :: s ++ t). rewrite E'. apply take_app_length. }
      assert (starts_with p (c :: s) = true); [|congruence].
      apply starts_with_spec. exists (drop (length p) (c :: s)).
      by rewrite <- Hpre at 1; rewrite take_drop.
Qed.

(** A line without the terminator inside it is found whole. *)
Definition no_crlf (s : bytes) : bool := bool_decide (find_from crlf s = None).

Lemma find_crlf_line s t :
  no_crlf s = true -> find_from crlf (s ++ crlf ++ t) = Some (length s).
Proof.
  unfold no_crlf. rewrite bool_decide_eq_true.
  induction s as [|c s IH]; intros Hs.
  - done.
  - rewrite <- app_comm_cons. cbn [find_from] in Hs |- *.
    destruct (starts_with crlf (c :: s)) eqn:E; [done|].
    apply fmap_None in Hs. rewrite (IH Hs).
    destruct (starts_with crlf (c :: s ++ crlf ++ t)) eqn:E'; [|done].
    exfalso. destruct s as [|d s]; simpl in E, E'.
    + by destruct (bool_decide (CR = c)).
    + by rewrite E in E'.
Qed.

(** A proper prefix of a terminated line has no terminator yet. *)
Lemma find_crlf_line_prefix s p :
  no_crlf s = true -> p `prefix_of` s ++ crlf -> p <> s ++ crlf -> find_from crlf p = None.
Proof.
  intros Hs [k Hk] Hne.
  destruct (find_from crlf p) as [i|] eqn:E; [|done]. exfalso.
  pose proof (find_from_app_Some crlf p k i ltac:(done) E) as E'.
  rewrite <- Hk in E'. pose proof (find_crlf_line s [] Hs) as E2.
  rewrite app_nil_r in E2. simplify_eq.
  destruct (find_from_Some _ _ _ E) as (t & Ht & Hl). simpl in Hl.
  apply (f_equal length) in Hk as HL. rewrite !length_app in HL. simpl in HL.
  destruct k as [|x k]; [|simpl in HL; lia].
  apply Hne. by rewrite app_nil_r in Hk.
Qed.

(** ** Lemmas: decimal conversions *)

Lemma digit_char_spec d : 0 <= d < 10 ->
  is_digit (digit_char d) = true /\ digit_val (digit_char d) = d.
Proof.
  intros Hd. assert (d = 0 \/ d = 1 \/ d = 2 \/ d = 3 \/ d = 4 \/ d = 5 \/ d = 6 \/
    d = 7 \/ d = 8 \/ d = 9) as Hc by lia.
  by repeat destruct Hc as [->|Hc]; [..|subst].
Qed.

Lemma dec_value_app a b : dec_value (a ++ b) = foldl (fun x c => 10 * x + digit_val c) (dec_value a) b.
Proof. apply foldl_app. Qed.

Lemma dec_value_snoc a c : dec_value (a ++ [c]) = 10 * dec_value a + digit_val c.
Proof. by rewrite dec_value_app. Qed.

Lemma dec_digits_acc fuel n acc : dec_digits fuel n acc = dec_digits fuel n [] ++ acc.
Proof.
  revert n acc. induction fuel as [|f IH]; intros n acc; simpl; [done|].
  destruct (n <? 10); [done|].
  rewrite IH, (IH _ [_]). by rewrite <- app_assoc.
Qed.

Lemma dec_digits_spec fuel n : 0 <= n < 2 ^ Z.of_nat fuel ->
  Forall (fun c => is_digit c = true) (dec_digits fuel n []) /\ dec_value (dec_digits fuel n []) = n.
Proof.
  revert n. induction fuel as [|f IH]; intros n Hn.
  { simpl in *. split; [constructor|]. cbn. lia. }
  simpl. destruct (Z.ltb_spec n 10) as [H|H].
  - destruct (digit_char_spec n) as [H1 H2]; [lia|]. split; [by repeat constructor|].
    unfold dec_value. simpl. lia.
  - destruct (digit_char_spec (n mod 10)) as [H1 H2]; [apply Z.mod_pos_bound; lia|].
    rewrite dec_digits_acc.
    destruct (IH (n / 10)) as [I1 I2].
    { split; [apply Z.div_pos; lia|]. apply Z.div_lt_upper_bound; [lia|].
      rewrite Nat2Z.inj_succ, Z.pow_succ_r in Hn by lia. lia. }
    split; [apply Forall_app; by repeat constructor|].
    rewrite dec_value_snoc, I2, H2. pose proof (Z.div_mod n 10). lia.
Qed.

Lemma to_string_nonneg_spec n : 0 <= n ->
  Forall (fun c => is_digit c = true) (to_string_nonneg n) /\ dec_value (to_string_nonneg n) = n.
Proof.
  intros Hn. apply dec_digits_spec. split; [done|].
  rewrite Nat2Z.inj_succ, Z2Nat.id by apply Z.log2_nonneg.
  destruct (decide (n = 0)) as [->|]; [done|]. apply Z.log2_spec. lia.
Qed.

Lemma to_string_nonneg_nonempty n : to_string_nonneg n <> [].
Proof.
  unfold to_string_nonneg. simpl. destruct (n <? 10); [done|].
  rewrite dec_digits_acc. by intros [_ ?]%app_eq_nil.
Qed.

Lemma take_digits_all ds t :
  Forall (fun c => is_digit c = true) ds ->
  (forall c t', t = c :: t' -> is_digit c = false) ->
  take_digits (ds ++ t) = ds.
Proof.
  intros H Ht. induction H as [|c ds Hc H IH]; simpl.
  - destruct t as [|c t]; simpl; [done|]. by rewrite (Ht c t).
  - by rewrite Hc, IH.
Qed.

Lemma digit_not_minus ds : Forall (fun c => is_digit c = true) ds ->
  starts_with [minus_sign] ds = false.
Proof.
  intros H. destruct H as [|c ds Hc H]; [done|]. simpl.
  rewrite andb_true_r. apply bool_decide_eq_false. by intros <-.
Qed.

(** [from_chars] reads back what [to_string] wrote, whole. *)
Lemma from_chars_to_string_nonneg signed lo hi n :
  0 <= n -> lo <= n <= hi ->
  from_chars_range signed lo hi (to_string_nonneg n) =
    FromChars (size_of (to_string_nonneg n)) errc_ok n.
Proof.
  intros H0 Hr. destruct (to_string_nonneg_spec n H0) as [Hd Hv].
  unfold from_chars_range. rewrite (digit_not_minus _ Hd), andb_false_r.
  pose proof (take_digits_all (to_string_nonneg n) [] Hd ltac:(done)) as Ht.
  rewrite app_nil_r in Ht. rewrite Ht, Hv, Z.add_0_l.
  destruct (to_string_nonneg n) eqn:E; [by apply to_string_nonneg_nonempty in E|].
  by destruct (Z.leb_spec lo n), (Z.leb_spec n hi); try lia.
Qed.

Lemma from_chars_i64_to_string z : INT64_MIN <= z <= INT64_MAX ->
  from_chars_i64 (to_string z) = FromChars (size_of (to_string z)) errc_ok z.
Proof.
  intros Hz. unfold from_chars_i64, to_string. destruct (Z.ltb_spec z 0) as [H|H].
  2: { by apply from_chars_to_string_nonneg. }
  destruct (to_string_nonneg_spec (- z) ltac:(lia)) as [Hd Hv].
  unfold from_chars_range. cbn [starts_with andb]. rewrite bool_decide_eq_true_2 by done.
  cbn [andb drop]. 
  pose proof (take_digits_all (to_string_nonneg (- z)) [] Hd ltac:(done)) as Ht.
  rewrite app_nil_r in Ht. rewrite drop_0, Ht, Hv, Z.opp_involutive, size_of_cons.
  destruct (to_string_nonneg (- z)) eqn:E; [by apply to_string_nonneg_nonempty in E|].
  by destruct (Z.leb_spec INT64_MIN z), (Z.leb_spec z INT64_MAX); try lia.
Qed.

Lemma from_chars_u64_to_string z : 0 <= z < two64 ->
  from_chars_u64 (to_string z) = FromChars (size_of (to_string z)) errc_ok z.
Proof.
  intros Hz. unfold from_chars_u64, to_string. destruct (Z.ltb_spec z 0) as [H|H]; [lia|].
  apply from_chars_to_string_nonneg; unfold UINT64_MAX, two64 in *; lia.
Qed.

(** A parsed number is in the range of its type. *)
Lemma from_chars_range_ok signed lo hi s :
  fc_ec (from_chars_range signed lo hi s) = errc_ok ->
  lo <= fc_val (from_chars_range signed lo hi s) <= hi.
Proof.
  unfold from_chars_range. destruct (take_digits _) as [|c ds]; [done|].
  destruct ((lo <=? _) && (_ <=? hi)) eqn:E; simpl; [|discriminate].
  zb. done.
Qed.

(** A decimal number holds no line terminator. *)
Lemma digits_no_crlf ds : Forall (fun c => is_digit c = true) ds -> no_crlf ds = true.
Proof.
  unfold no_crlf. rewrite bool_decide_eq_true. induction 1 as [|c ds Hc H IH]; [done|].
  cbn [find_from]. cbn [find_from] in IH.
  destruct (starts_with crlf (c :: ds)) eqn:E; [|by rewrite IH].
  exfalso. apply starts_with_spec in E as (t & [= -> _]). done.
Qed.

Lemma no_crlf_cons c s : no_crlf s = true -> c <> CR -> no_crlf (c :: s) = true.
Proof.
  unfold no_crlf. rewrite !bool_decide_eq_true. intros Hs Hc. cbn [find_from].
  rewrite Hs. destruct (starts_with crlf (c :: s)) eqn:E; [|done].
  exfalso. apply starts_with_spec in E as (t & [= -> _]). done.
Qed.

Lemma to_string_no_crlf z : no_crlf (to_string z) = true.
Proof.
  unfold to_string. case_if; zb.
  - apply no_crlf_cons; [|done]. apply digits_no_crlf, to_string_nonneg_spec. lia.
  - apply digits_no_crlf, to_string_nonneg_spec. lia.
Qed.

#[export] Hint Resolve to_string_no_crlf : kv.

(** A character that is no part of a line end separates. *)
Lemma no_crlf_app s c t : no_crlf s = true -> no_crlf t = true -> c <> LF -> c <> CR ->
  no_crlf (s ++ c :: t) = true.
Proof.
  intros Hs Ht Hc1 Hc2. pose proof (no_crlf_cons c t Ht Hc2) as Hct. clear Ht.
  revert Hs Hct. unfold no_crlf. rewrite !bool_decide_eq_true. intros Hs Hct.
  induction s as [|d s IH]; [done|]. change ((d :: s) ++ c :: t) with (d :: (s ++ c :: t)).
  cbn [find_from] in *. destruct (starts_with crlf (d :: s)) eqn:E1; [done|].
  destruct (find_from crlf s) eqn:E2; [done|]. rewrite IH by done.
  destruct (starts_with crlf (d :: s ++ c :: t)) eqn:E; [|done]. exfalso.
  apply starts_with_spec in E as [u E]. destruct s as [|d' s]; injection E as -> -> _; [done|].
  change (starts_with crlf (crlf ++ s) = false) in E1. by rewrite starts_with_app in E1.
Qed.

Lemma no_crlf_quoted s : no_crlf s = true ->
  no_crlf (lit "ERR unknown command '" ++ s ++ lit "'") = true.
Proof.
  intros Hs. apply (no_crlf_app (lit "ERR unknown command ") "'"%char); [done| |done..].
  by apply (no_crlf_app s "'"%char []).
Qed.
