(* ===== verification/Logger.v ===== *)
(** * The console logger: [include/util/Logger.h], [src/util/Logger.cpp]

    [info] and [error] write one line each to the standard output and to the
    standard error. A line is several insertions into the stream; the mutex
    makes threads write theirs one after the other. The step relation has the
    insertions as separate events of the threads, and the lemma shows what the
    mutex is for: whenever it is free, both streams hold whole lines.

    The text of the time comes from [strftime] and [localtime], so it is an
    argument. *)

From S2P Require Import Prelude CppStd.

Inductive level := INFO | ERROR.

(** The insertions of one call, [std::endl] last. *)
Definition insertions (l : level) (current_time msg : bytes) : list bytes :=
  [lit "["; current_time; match l with INFO => lit "] [INFO] " | ERROR => lit "] [ERROR] " end; msg; [LF]].

Record Console := mkConsole { cout : bytes; cerr : bytes }.

(** [os << s] on the stream of the level. *)
Definition insert_into (l : level) (s : bytes) (c : Console) : Console :=
  match l with
  | INFO => mkConsole (cout c ++ s) (cerr c)
  | ERROR => mkConsole (cout c) (cerr c ++ s)
  end.

Definition write_line (l : level) (current_time msg : bytes) (c : Console) : Console :=
  foldl (fun c s => insert_into l s c) c (insertions l current_time msg).

Definition info : bytes -> bytes -> Console -> Console := write_line INFO.
Definition error : bytes -> bytes -> Console -> Console := write_line ERROR.

Example info_ex :
  info (lit "2024-01-02 03:04:05") (lit "Listen failed") (mkConsole [] []) =
    mkConsole (lit "[2024-01-02 03:04:05] [INFO] Listen failed" ++ [LF]) [].
Proof. reflexivity. Qed.

(** ** Threads *)

(** Who holds the mutex, and what it has left to insert. *)
Record LogState := mkLog { holder : option (nat * level * list bytes); console : Console }.

(** A call of [info] or [error]: the thread, the level, the time, the message. *)
Definition log_call : Type := nat * level * bytes * bytes.

(** The calls that took the mutex label the steps. *)
Inductive log_step : list log_call -> LogState -> LogState -> Prop :=
  | log_lock t l now msg c :
      log_step [(t, l, now, msg)] (mkLog None c) (mkLog (Some (t, l, insertions l now msg)) c)
  | log_insert t l s ss c :
      log_step [] (mkLog (Some (t, l, s :: ss)) c) (mkLog (Some (t, l, ss)) (insert_into l s c))
  | log_unlock t l c :
      log_step [] (mkLog (Some (t, l, [])) c) (mkLog None c).

Inductive log_run : list log_call -> LogState -> LogState -> Prop :=
  | log_run_nil s : log_run [] s s
  | log_run_step cs cs' s1 s2 s3 :
      log_step cs s1 s2 -> log_run cs' s2 s3 -> log_run (cs ++ cs') s1 s3.

(** The lines of the calls, in the order in which they got the mutex. *)
Definition write_lines (cs : list log_call) (c : Console) : Console :=
  foldl (fun c '(t, l, now, msg) => write_line l now msg c) c cs.

(** What is on the console once the holder has finished. *)
Definition settled_console (s : LogState) : Console :=
  match holder s with
  | Some (_, l, ss) => foldl (fun c s => insert_into l s c) (console s) ss
  | None => console s
  end.

Lemma log_run_lines cs s s' : log_run cs s s' ->
  settled_console s' = write_lines cs (settled_console s).
Proof.
  induction 1 as [s|cs cs' s1 s2 s3 Hs Hr IH]; [done|]. rewrite IH. unfold write_lines.
  rewrite foldl_app. f_equal. by destruct Hs.
Qed.

(** Lines are never mixed: when the mutex is free, the console is what the
    calls write one after the other. *)
Lemma log_lines_whole cs c c' :
  log_run cs (mkLog None c) (mkLog None c') -> c' = write_lines cs c.
Proof. intros Hr. exact (log_run_lines _ _ _ Hr). Qed.
