(* ===== verification/RESP.v ===== *)
(** * The RESP protocol: [include/protocol/RESP.h], [src/protocol/RESP.cpp]

    The value type with its constructors, [serialize], and the recursive
    parser on a buffer and a position. [pos] is passed by reference in the
    source, so every parsing function returns the new position with its
    result. The parser recurses on untrusted input and is not structurally
    recursive: it takes fuel, and [NoFuel] stands for a call that has not
    returned yet. *)

From S2P Require Import Prelude CppStd.

Inductive RESPType := SimpleString | Error | Integer | BulkString | Array | Null.

#[global] Instance RESPType_eq_dec : EqDecision RESPType.
Proof. solve_decision. Defined.

Inductive RESPValue := mkRESP {
  type : RESPType;
  string_value : bytes;
  integer_value : Z;
  array_value : list RESPValue
}.

Definition create_simple_string (s : bytes) : RESPValue := mkRESP SimpleString s 0 [].
Definition create_error (e : bytes) : RESPValue := mkRESP Error e 0 [].
Definition create_integer (i : Z) : RESPValue := mkRESP Integer [] i [].
Definition create_bulk_string (s : bytes) : RESPValue := mkRESP BulkString s 0 [].
Definition create_array (arr : list RESPValue) : RESPValue := mkRESP Array [] 0 arr.
Definition create_null : RESPValue := mkRESP Null [] 0 [].

Fixpoint serialize (v : RESPValue) : bytes :=
  match v with
  | mkRESP ty s i arr =>
      match ty with
      | SimpleString => lit "+" ++ s ++ crlf
      | Error => lit "-" ++ s ++ crlf
      | Integer => lit ":" ++ to_string i ++ crlf
      | BulkString => lit "$" ++ to_string (size_of s) ++ crlf ++ s ++ crlf
      | Array => lit "*" ++ to_string (Z.of_nat (length arr)) ++ crlf ++ flat_map serialize arr
      | Null => lit "$-1" ++ crlf
      end
  end.

(** [std::vector<RESPValue>::reserve]: [vector_max_size] is [max_size()], beyond
    which it throws [length_error]; [reserve_limit] is the largest capacity the
    machine can give, beyond which the allocation throws [bad_alloc]. *)
Class VectorAlloc := { reserve_limit : Z; vector_max_size : Z }.

(** What [reserve(n)] throws, if it does. *)
Definition reserve_error `{VectorAlloc} (n : Z) : exn :=
  if vector_max_size <? n then length_error else bad_alloc.

Definition npos : Z := UINT64_MAX.

Definition read_line (buffer : bytes) (pos : Z) : res (option bytes * Z) :=
  match std_find crlf buffer pos with
  | None => Ok (None, pos)
  | Some i =>
      line ← substr buffer pos (i - pos);
      Ok (Some line, i + 2)
  end.

Section parser.
Context `{VectorAlloc}.

(** [parse_elems] is the [for] loop over the elements of an array; a failed
    element makes the caller restore its own start position. *)
Fixpoint parse_internal (fuel : nat) (buffer : bytes) (pos : Z) {struct fuel}
    : res (option RESPValue * Z) :=
  match fuel with
  | O => NoFuel
  | S f =>
      if size_of buffer <=? pos then Ok (None, pos)
      else match buffer !! Z.to_nat pos with
      | None => UB
      | Some prefix =>
          let line_start_pos := pos in
          '(line_opt, pos) ← read_line buffer pos;
          match line_opt with
          | None | Some [] => Ok (None, line_start_pos)
          | Some line =>
              content ← substr line 1 npos;
              if bool_decide (prefix = "+"%char) then
                Ok (Some (create_simple_string content), pos)
              else if bool_decide (prefix = "-"%char) then
                Ok (Some (create_error content), pos)
              else if bool_decide (prefix = ":"%char) then
                let r := from_chars_i64 content in
                if bool_decide (fc_ec r = errc_ok) then
                  Ok (Some (create_integer (fc_val r)), pos)
                else Ok (None, line_start_pos)
              else if bool_decide (prefix = "$"%char) then
                let r := from_chars_i64 content in
                if bool_decide (fc_ec r <> errc_ok) then Ok (None, line_start_pos)
                else
                  let len := fc_val r in
                  if len =? -1 then Ok (Some create_null, pos)
                  else if size_of buffer <? u64 (pos + len + 2) then
                    Ok (None, line_start_pos)
                  else
                    bulk_str ← substr buffer pos (u64 len);
                    Ok (Some (create_bulk_string bulk_str), u64 (pos + (len + 2)))
              else if bool_decide (prefix = "*"%char) then
                let r := from_chars_i64 content in
                if bool_decide (fc_ec r <> errc_ok) then Ok (None, line_start_pos)
                else
                  let count := fc_val r in
                  if count =? -1 then Ok (Some create_null, pos)
                  else if reserve_limit <? u64 count then Throw (reserve_error (u64 count))
                  else
                    '(arr, pos) ← parse_elems f buffer count 0 pos [];
                    match arr with
                    | None => Ok (None, line_start_pos)
                    | Some arr => Ok (Some (create_array arr), pos)
                    end
              else Ok (None, line_start_pos)
          end
      end
  end
with parse_elems (fuel : nat) (buffer : bytes) (count i pos : Z) (arr : list RESPValue)
    {struct fuel} : res (option (list RESPValue) * Z) :=
  match fuel with
  | O => NoFuel
  | S f =>
      if i <? count then
        '(elem, pos) ← parse_internal f buffer pos;
        match elem with
        | None => Ok (None, pos)
        | Some e => parse_elems f buffer count (i + 1) pos (arr ++ [e])
        end
      else Ok (Some arr, pos)
  end.

(** One unit of fuel per byte of the buffer is enough for every input whose
    bulk lengths are not below -1 (see [parse_internal_total]). *)
Definition parse_fuel (buffer : bytes) : nat := length buffer + 2.

(** [RESPParser::parse]: the value with the number of bytes consumed. *)
Definition parse (buffer : bytes) : res (option (RESPValue * Z)) :=
  '(val, pos) ← parse_internal (parse_fuel buffer) buffer 0;
  match val with
  | Some v => Ok (Some (v, pos))
  | None => Ok None
  end.

(** ** Well-formed values

    The values the constructors of [RESP.h] build, with strings that fit
    their frame: what [serialize] can write so that [parse] reads it back. *)
Fixpoint wf (v : RESPValue) : bool :=
  match v with
  | mkRESP ty s i arr =>
      match ty with
      | SimpleString | Error => no_crlf s && (i =? 0) && bool_decide (length arr = 0%nat)
      | Integer => bool_decide (s = []) && is_i64 i && bool_decide (length arr = 0%nat)
      | BulkString => (i =? 0) && bool_decide (length arr = 0%nat)
      | Array => bool_decide (s = []) && (i =? 0) && forallb wf arr
                 && (Z.of_nat (length arr) <=? reserve_limit)
      | Null => bool_decide (s = []) && (i =? 0) && bool_decide (length arr = 0%nat)
      end
  end.

(** The length announced by a bulk header at position [i], if there is one. *)
Definition bulk_len_at (buffer : bytes) (i : nat) : option Z :=
  match buffer !! i with
  | Some "$"%char =>
      match read_line buffer (Z.of_nat i) with
      | Ok (Some line, _) =>
          let r := from_chars_i64 (drop 1 line) in
          if bool_decide (fc_ec r = errc_ok) then Some (fc_val r) else None
      | _ => None
      end
  | _ => None
  end.

(** No position of the buffer reads as a bulk header with a length below -1. *)
Definition lens_ok (buffer : bytes) : bool :=
  forallb (fun i => match bulk_len_at buffer i with Some l => -1 <=? l | None => true end)
    (seq 0 (length buffer)).

End parser.

(** Induction on values, with the hypothesis for every array element. *)
Lemma RESPValue_ind' (P : RESPValue -> Prop) :
  (forall ty s i arr, Forall P arr -> P (mkRESP ty s i arr)) -> forall v, P v.
Proof.
  intros H. fix IH 1. intros [ty s i arr]. apply H.
  induction arr as [|v arr IHarr]; constructor; auto.
Qed.
