(* ===== verification/RESPProofs.v ===== *)
(** * Correctness of the RESP serializer and parser

    The parser reads back every frame the serializer writes, whatever
    follows it in the buffer, and reports a frame that has only partly
    arrived as incomplete; what it returns can always be serialized again.
    It stays inside the buffer, and it returns on every input whose bulk
    lengths are at least -1; the other inputs are shown not to be safe. *)

From S2P Require Import Prelude CppStd RESP.

(** ** Lines *)

Lemma drop_size_of (pre t : bytes) : drop (Z.to_nat (size_of pre)) (pre ++ t) = t.
Proof. unfold size_of. rewrite Nat2Z.id. apply drop_app_length. Qed.

Lemma take_size_of (pre t : bytes) : take (Z.to_nat (size_of pre)) (pre ++ t) = pre.
Proof. unfold size_of. rewrite Nat2Z.id. apply take_app_length. Qed.

Lemma substr_at (pre s t : bytes) :
  substr (pre ++ s ++ t) (size_of pre) (size_of s) = Ok s.
Proof.
  unfold substr. autorewrite with kv.
  destruct (Z.ltb_spec (size_of pre + (size_of s + size_of t)) (size_of pre)).
  { pose proof (size_of_nonneg s). pose proof (size_of_nonneg t). lia. }
  rewrite drop_size_of, Z.min_l; [by rewrite take_size_of|].
  pose proof (size_of_nonneg t). lia.
Qed.

Lemma substr_tail c (s : bytes) : size_of s <= npos -> substr (c :: s) 1 npos = Ok s.
Proof.
  intros Hs. unfold substr. autorewrite with kv. pose proof (size_of_nonneg s).
  destruct (Z.ltb_spec (1 + size_of s) 1); [lia|].
  rewrite Z.min_r by lia. f_equal. simpl. rewrite drop_0.
  rewrite take_ge; [done|]. unfold size_of. lia.
Qed.

Lemma read_line_at (pre line rest : bytes) :
  no_crlf line = true ->
  read_line (pre ++ line ++ crlf ++ rest) (size_of pre) =
    Ok (Some line, size_of pre + size_of line + 2).
Proof.
  intros Hl. unfold read_line, std_find.
  pose proof (size_of_nonneg line). pose proof (size_of_nonneg rest).
  destruct (Z.ltb_spec (size_of (pre ++ line ++ crlf ++ rest)) (size_of pre)) as [Hlt|_].
  { autorewrite with kv in Hlt. lia. }
  rewrite drop_size_of, find_crlf_line by done. cbn [fmap option_fmap option_map].
  replace (size_of pre + Z.of_nat (length line) - size_of pre) with (size_of line)
    by (unfold size_of; lia).
  rewrite substr_at. done.
Qed.

(** The bytes before the first terminator hold none. *)
Lemma find_crlf_first s i : find_from crlf s = Some i -> no_crlf (take i s) = true.
Proof.
  revert i. induction s as [|c s IH]; intros i; [done|].
  cbn [find_from]. destruct (starts_with crlf (c :: s)) eqn:E.
  { by intros [= <-]. }
  intros (j & Hj & ->)%fmap_Some. specialize (IH _ Hj). cbn [take].
  unfold no_crlf in *. rewrite bool_decide_eq_true in *. cbn [find_from].
  rewrite IH. destruct (starts_with crlf (c :: take j s)) eqn:E'; [|done].
  exfalso. apply starts_with_spec in E' as (t & E').
  assert (starts_with crlf (c :: s) = true); [|congruence].
  apply starts_with_spec. exists (t ++ drop j s).
  rewrite app_assoc, <- E'. simpl. by rewrite take_drop.
Qed.

(** What [read_line] returns: the first line of the buffer at [pos], and the
    position after its terminator, still inside the buffer. *)
Lemma read_line_inv buffer pos o pos' :
  0 <= pos <= size_of buffer ->
  read_line buffer pos = Ok (o, pos') ->
  (o = None /\ pos' = pos /\ find_from crlf (drop (Z.to_nat pos) buffer) = None) \/
  exists line rest, o = Some line /\ no_crlf line = true /\
    drop (Z.to_nat pos) buffer = line ++ crlf ++ rest /\
    pos' = pos + size_of line + 2 /\ pos' <= size_of buffer.
Proof.
  intros Hp. unfold read_line, std_find.
  destruct (Z.ltb_spec (size_of buffer) pos); [lia|].
  destruct (find_from crlf (drop (Z.to_nat pos) buffer)) as [i|] eqn:E; cbn; [|naive_solver].
  destruct (find_from_Some _ _ _ E) as (t & Ht & Hl).
  pose proof (find_crlf_first _ _ E) as Hn.
  rewrite length_drop in Hl. cbn in Hl. unfold size_of in *.
  unfold substr. unfold size_of.
  destruct (Z.ltb_spec (Z.of_nat (length buffer)) pos); [lia|]. cbn.
  intros [= <- <-]. right.
  exists (take i (drop (Z.to_nat pos) buffer)), t.
  replace (Z.to_nat ((pos + Z.of_nat i - pos) `min` (Z.of_nat (length buffer) - pos))) with i by lia.
  rewrite length_take, length_drop.
  split_and!; [done|done|done| |]; lia.
Qed.

Section roundtrip.
Context `{VectorAlloc}.

(** ** One frame: the header line decides what is parsed *)

(** The [switch] of [parse_internal], for the prefix [c] and the header
    [content] of a line that starts at [start] and ends before [pos]. *)
Definition parse_switch (f : nat) (buffer : bytes) (c : ascii) (content : bytes)
    (start pos : Z) : res (option RESPValue * Z) :=
  let r := from_chars_i64 content in
  if bool_decide (c = "+"%char) then Ok (Some (create_simple_string content), pos)
  else if bool_decide (c = "-"%char) then Ok (Some (create_error content), pos)
  else if bool_decide (c = ":"%char) then
    if bool_decide (fc_ec r = errc_ok) then Ok (Some (create_integer (fc_val r)), pos)
    else Ok (None, start)
  else if bool_decide (c = "$"%char) then
    if bool_decide (fc_ec r <> errc_ok) then Ok (None, start)
    else if fc_val r =? -1 then Ok (Some create_null, pos)
    else if size_of buffer <? u64 (pos + fc_val r + 2) then Ok (None, start)
    else bulk_str ← substr buffer pos (u64 (fc_val r));
         Ok (Some (create_bulk_string bulk_str), u64 (pos + (fc_val r + 2)))
  else if bool_decide (c = "*"%char) then
    if bool_decide (fc_ec r <> errc_ok) then Ok (None, start)
    else if fc_val r =? -1 then Ok (Some create_null, pos)
    else if reserve_limit <? u64 (fc_val r) then Throw (reserve_error (u64 (fc_val r)))
    else '(arr, pos) ← parse_elems f buffer (fc_val r) 0 pos [];
         match arr with
         | None => Ok (None, start)
         | Some arr => Ok (Some (create_array arr), pos)
         end
  else Ok (None, start).

Lemma parse_switch_bulk f buffer content start pos n p :
  from_chars_i64 content = FromChars p errc_ok n ->
  parse_switch f buffer "$"%char content start pos =
    if n =? -1 then Ok (Some create_null, pos)
    else if size_of buffer <? u64 (pos + n + 2) then Ok (None, start)
    else bulk_str ← substr buffer pos (u64 n);
         Ok (Some (create_bulk_string bulk_str), u64 (pos + (n + 2))).
Proof. intros E. unfold parse_switch. by rewrite E. Qed.

Lemma parse_switch_array f buffer content start pos n p :
  from_chars_i64 content = FromChars p errc_ok n ->
  parse_switch f buffer "*"%char content start pos =
    if n =? -1 then Ok (Some create_null, pos)
    else if reserve_limit <? u64 n then Throw (reserve_error (u64 n))
    else '(arr, pos) ← parse_elems f buffer n 0 pos [];
         match arr with
         | None => Ok (None, start)
         | Some arr => Ok (Some (create_array arr), pos)
         end.
Proof. intros E. unfold parse_switch. by rewrite E. Qed.

Lemma parse_switch_integer f buffer content start pos n p :
  from_chars_i64 content = FromChars p errc_ok n ->
  parse_switch f buffer ":"%char content start pos = Ok (Some (create_integer n), pos).
Proof. intros E. unfold parse_switch. by rewrite E. Qed.

Lemma parse_internal_line f (pre content rest : bytes) c :
  no_crlf (c :: content) = true ->
  size_of (pre ++ (c :: content) ++ crlf ++ rest) <= npos ->
  parse_internal (S f) (pre ++ (c :: content) ++ crlf ++ rest) (size_of pre) =
  parse_switch f (pre ++ (c :: content) ++ crlf ++ rest) c content
    (size_of pre) (size_of pre + size_of content + 3).
Proof.
  intros Hl Hs. cbn [parse_internal].
  pose proof (size_of_nonneg pre). pose proof (size_of_nonneg content).
  pose proof (size_of_nonneg rest).
  assert (size_of content <= npos) as Hc by (autorewrite with kv in Hs; lia).
  destruct (Z.leb_spec (size_of (pre ++ (c :: content) ++ crlf ++ rest)) (size_of pre)) as [Hlt|_].
  { autorewrite with kv in Hlt. lia. }
  assert ((pre ++ (c :: content) ++ crlf ++ rest) !! Z.to_nat (size_of pre) = Some c) as ->.
  { unfold size_of. rewrite Nat2Z.id. rewrite lookup_app_r by lia. by rewrite Nat.sub_diag. }
  rewrite read_line_at by done. cbn [mbind res_bind].
  rewrite substr_tail by done. cbn [mbind res_bind].
  replace (size_of pre + size_of (c :: content) + 2) with (size_of pre + size_of content + 3)
    by (autorewrite with kv; lia).
  done.
Qed.

(** At the end of the buffer, and on an unfinished header line, the frame is
    incomplete. *)
Lemma parse_internal_end f (buffer : bytes) :
  parse_internal (S f) buffer (size_of buffer) = Ok (None, size_of buffer).
Proof. cbn [parse_internal]. by rewrite Z.leb_refl. Qed.

Lemma parse_internal_no_line f (pre p : bytes) :
  find_from crlf p = None ->
  parse_internal (S f) (pre ++ p) (size_of pre) = Ok (None, size_of pre).
Proof.
  intros Hp. cbn [parse_internal]. pose proof (size_of_nonneg pre).
  destruct (Z.leb_spec (size_of (pre ++ p)) (size_of pre)) as [_|Hlt]; [done|].
  destruct ((pre ++ p) !! Z.to_nat (size_of pre)) as [c|] eqn:E.
  2: { apply lookup_ge_None in E. unfold size_of in *. lia. }
  unfold read_line, std_find.
  destruct (Z.ltb_spec (size_of (pre ++ p)) (size_of pre)); [lia|].
  rewrite drop_size_of, Hp. done.
Qed.

(** ** Serialized frames *)

(** The header byte and content of a value's first line, and what follows. *)
Definition header (v : RESPValue) : ascii * bytes * bytes :=
  match v with
  | mkRESP ty s i arr =>
      match ty with
      | SimpleString => ("+"%char, s, [])
      | Error => ("-"%char, s, [])
      | Integer => (":"%char, to_string i, [])
      | BulkString => ("$"%char, to_string (size_of s), s ++ crlf)
      | Array => ("*"%char, to_string (Z.of_nat (length arr)), flat_map serialize arr)
      | Null => ("$"%char, lit "-1", [])
      end
  end.

Lemma serialize_header v c content body :
  header v = (c, content, body) -> serialize v = (c :: content) ++ crlf ++ body.
Proof.
  destruct v as [ty s i arr]. destruct ty; simpl; intros [= <- <- <-];
    by rewrite ?app_nil_r.
Qed.

Lemma header_no_crlf v c content body :
  wf v = true -> header v = (c, content, body) -> no_crlf (c :: content) = true.
Proof.
  destruct v as [ty s i arr]. destruct ty; simpl; intros Hw [= <- <- <-];
    repeat (apply andb_true_iff in Hw as [Hw ?]); auto using no_crlf_cons with kv;
    apply no_crlf_cons; auto with kv; done.
Qed.

Lemma serialize_min v : (3 <= length (serialize v))%nat.
Proof.
  destruct (header v) as [[c content] body] eqn:E.
  rewrite (serialize_header _ _ _ _ E). rewrite !length_app. simpl. lia.
Qed.

(** ** Round trip *)

Definition parses_back (v : RESPValue) : Prop :=
  forall f pre rest, (length (serialize v) <= f)%nat ->
    size_of (pre ++ serialize v ++ rest) <= INT64_MAX ->
    parse_internal f (pre ++ serialize v ++ rest) (size_of pre) =
      Ok (Some v, size_of pre + size_of (serialize v)).

Lemma parse_elems_roundtrip arr : Forall parses_back arr ->
  forall f pre rest i acc, (length (flat_map serialize arr) < f)%nat ->
    size_of (pre ++ flat_map serialize arr ++ rest) <= INT64_MAX ->
    parse_elems f (pre ++ flat_map serialize arr ++ rest) (i + Z.of_nat (length arr)) i
      (size_of pre) acc =
    Ok (Some (acc ++ arr), size_of pre + size_of (flat_map serialize arr)).
Proof.
  induction 1 as [|v arr Hv Harr IH]; intros f pre rest i acc Hf Hs.
  - destruct f as [|f]; [lia|]. cbn [parse_elems length flat_map].
    rewrite Z.add_0_r, Z.ltb_irrefl, app_nil_r, size_of_nil, Z.add_0_r. done.
  - destruct f as [|f]; [lia|]. cbn [parse_elems flat_map] in *.
    rewrite length_app in Hf. pose proof (serialize_min v).
    destruct (Z.ltb_spec i (i + Z.of_nat (length (v :: arr)))) as [_|]; [|simpl in *; lia].
    rewrite <- app_assoc in *. rewrite (Hv f pre) by (done || lia). cbn [mbind res_bind].
    rewrite <- size_of_app, app_assoc.
    replace (i + Z.of_nat (length (v :: arr))) with ((i + 1) + Z.of_nat (length arr))
      by (simpl; lia).
    rewrite IH by (rewrite <- ?app_assoc; done || lia).
    rewrite <- app_assoc. do 2 f_equal. autorewrite with kv. lia.
Qed.

Lemma from_chars_size (s : bytes) :
  size_of s <= INT64_MAX -> from_chars_i64 (to_string (size_of s)) =
    FromChars (size_of (to_string (size_of s))) errc_ok (size_of s).
Proof.
  intros Hs. apply from_chars_i64_to_string. pose proof (size_of_nonneg s).
  unfold INT64_MIN. lia.
Qed.

Lemma flat_map_length arr : Z.of_nat (length arr) <= size_of (flat_map serialize arr).
Proof.
  induction arr as [|v arr IH]; simpl; [done|]. autorewrite with kv.
  pose proof (serialize_min v). unfold size_of in *. lia.
Qed.

(** Two successes with the same value: compare the positions. *)
Ltac ok_pos := apply (f_equal (fun p => Ok (Some _, p))); autorewrite with kv; lia.

(** A header line with [content] at the end of [pre], then [body]: the two
    views of the buffer used below. *)
Lemma frame_split (pre content body rest : bytes) c :
  pre ++ ((c :: content) ++ crlf ++ body) ++ rest =
  (pre ++ (c :: content) ++ crlf) ++ body ++ rest /\
  pre ++ ((c :: content) ++ crlf ++ body) ++ rest =
  pre ++ (c :: content) ++ crlf ++ (body ++ rest) /\
  size_of (pre ++ (c :: content) ++ crlf) = size_of pre + size_of content + 3.
Proof. rewrite <- !app_assoc. split_and!; [done..|]. autorewrite with kv. lia. Qed.

Lemma parse_line_frame f (pre body rest content : bytes) c :
  no_crlf (c :: content) = true ->
  size_of (pre ++ ((c :: content) ++ crlf ++ body) ++ rest) <= INT64_MAX ->
  parse_internal (S f) (pre ++ ((c :: content) ++ crlf ++ body) ++ rest) (size_of pre) =
  parse_switch f ((pre ++ (c :: content) ++ crlf) ++ body ++ rest) c content
    (size_of pre) (size_of (pre ++ (c :: content) ++ crlf)).
Proof.
  intros Hn Hs. destruct (frame_split pre content body rest c) as (E1 & E2 & ->).
  rewrite <- E1. rewrite E2 in *. apply parse_internal_line; [done|].
  unfold npos, UINT64_MAX, INT64_MAX in *. lia.
Qed.

(** The body of a bulk frame, at the end of [pre]. *)
Lemma parse_bulk_body f (pre s rest : bytes) start :
  size_of (pre ++ (s ++ crlf) ++ rest) <= INT64_MAX ->
  parse_switch f (pre ++ (s ++ crlf) ++ rest) "$"%char (to_string (size_of s)) start (size_of pre) =
    Ok (Some (create_bulk_string s), size_of pre + size_of s + 2).
Proof.
  intros Hs. pose proof (size_of_nonneg s). pose proof (size_of_nonneg pre).
  pose proof (size_of_nonneg rest). rewrite <- app_assoc in *. autorewrite with kv in Hs.
  unfold INT64_MAX in *.
  erewrite parse_switch_bulk by (apply from_chars_size; unfold INT64_MAX; lia).
  destruct (Z.eqb_spec (size_of s) (-1)); [lia|].
  rewrite !u64_small by (unfold two64; lia).
  destruct (Z.ltb_spec (size_of (pre ++ s ++ crlf ++ rest)) (size_of pre + size_of s + 2)) as [Hlt|_].
  { autorewrite with kv in Hlt. lia. }
  rewrite substr_at. cbn [mbind res_bind]. ok_pos.
Qed.

(** The elements of an array frame, at the end of [pre]. *)
Lemma parse_array_body f (pre rest : bytes) arr start :
  Forall parses_back arr -> (length (flat_map serialize arr) < f)%nat ->
  Z.of_nat (length arr) <= reserve_limit ->
  size_of (pre ++ flat_map serialize arr ++ rest) <= INT64_MAX ->
  parse_switch f (pre ++ flat_map serialize arr ++ rest) "*"%char
    (to_string (Z.of_nat (length arr))) start (size_of pre) =
    Ok (Some (create_array arr), size_of pre + size_of (flat_map serialize arr)).
Proof.
  intros HF Hf Hr Hs. pose proof (flat_map_length arr). pose proof (size_of_nonneg pre).
  pose proof (size_of_nonneg rest). autorewrite with kv in Hs. unfold INT64_MAX in *.
  erewrite parse_switch_array
    by (apply from_chars_i64_to_string; unfold INT64_MIN, INT64_MAX; lia).
  destruct (Z.eqb_spec (Z.of_nat (length arr)) (-1)); [lia|].
  rewrite !u64_small by (unfold two64; lia).
  destruct (Z.ltb_spec reserve_limit (Z.of_nat (length arr))); [lia|].
  rewrite (parse_elems_roundtrip arr HF) with (i := 0); [done|done|].
  autorewrite with kv. unfold INT64_MAX. lia.
Qed.

(** The parser reads a serialized value back from any place in a buffer. *)
Lemma parse_serialize_internal v : wf v = true -> parses_back v.
Proof.
  induction v as [ty s i arr IH] using RESPValue_ind'. intros Hw f pre rest Hf Hs.
  destruct (header (mkRESP ty s i arr)) as [[c content] body] eqn:E.
  pose proof (header_no_crlf _ _ _ _ Hw E) as Hn.
  rewrite (serialize_header _ _ _ _ E) in *.
  destruct f as [|f]; [simpl in Hf; lia|]. rewrite parse_line_frame by done.
  destruct (frame_split pre content body rest c) as (Hb & _ & Hl).
  rewrite Hb in Hs.
  assert (size_of pre + size_of ((c :: content) ++ crlf ++ body) =
    size_of (pre ++ (c :: content) ++ crlf) + size_of body) as ->
    by (autorewrite with kv; lia).
  destruct ty; simpl in E; injection E as <- <- <-; simpl in Hw; wf_split Hw;
    subst; try (destruct arr; [|done]).
  - ok_pos.
  - ok_pos.
  - erewrite parse_switch_integer by (by apply from_chars_i64_to_string, is_i64_spec). ok_pos.
  - rewrite parse_bulk_body by done. ok_pos.
  - rewrite parse_array_body; [done| | |done..].
    + rewrite Forall_forall in IH |- *. intros v Hv. apply IH; [done|].
      by apply (proj1 (forallb_forall wf arr)); [|apply list_elem_of_In].
    + rewrite !length_app in Hf. simpl in Hf. lia.
  - ok_pos.
Qed.

(** ** Frames that have only partly arrived *)

Definition incomplete (v : RESPValue) : Prop :=
  forall f pre p, p `prefix_of` serialize v -> p <> serialize v -> (length p < f)%nat ->
    size_of (serialize v) <= INT64_MAX -> size_of (pre ++ p) <= INT64_MAX ->
    parse_internal f (pre ++ p) (size_of pre) = Ok (None, size_of pre).

Lemma parse_elems_incomplete arr :
  Forall parses_back arr -> Forall incomplete arr ->
  forall f pre q i acc, q `prefix_of` flat_map serialize arr -> q <> flat_map serialize arr ->
    (length q + 1 < f)%nat -> size_of (flat_map serialize arr) <= INT64_MAX ->
    size_of (pre ++ q) <= INT64_MAX ->
    exists pos, parse_elems f (pre ++ q) (i + Z.of_nat (length arr)) i (size_of pre) acc =
      Ok (None, pos).
Proof.
  induction arr as [|v arr IH]; intros Hb Hi f pre q i acc Hq Hne Hf Hs1 Hs2.
  { apply prefix_nil_inv in Hq. done. }
  inversion_clear Hb as [|? ? Hvb Hb']. inversion_clear Hi as [|? ? Hvi Hi'].
  destruct f as [|f]; [lia|]. cbn [parse_elems flat_map] in *.
  destruct (Z.ltb_spec i (i + Z.of_nat (length (v :: arr)))) as [_|]; [|simpl in *; lia].
  rewrite size_of_app in Hs1. pose proof (size_of_nonneg (flat_map serialize arr)).
  pose proof (size_of_nonneg (serialize v)).
  apply prefix_app_cases in Hq as [[Hq Hq']|(q' & -> & Hq & Hq')]; [|..|done].
  - rewrite (Hvi f pre q) by (done || lia). cbn. eauto.
  - rewrite length_app in Hf. pose proof (serialize_min v).
    rewrite (Hvb f pre q') by (done || lia). cbn [mbind res_bind].
    rewrite <- size_of_app, app_assoc in *.
    replace (i + Z.of_nat (length (v :: arr))) with ((i + 1) + Z.of_nat (length arr))
      by (simpl; lia).
    rewrite size_of_app in Hs1. apply IH; try done; lia.
Qed.

Lemma parse_bulk_incomplete f (pre q : bytes) s start :
  q `prefix_of` s ++ crlf -> q <> s ++ crlf -> size_of s + 2 <= INT64_MAX ->
  size_of (pre ++ q) <= INT64_MAX ->
  parse_switch f (pre ++ q) "$"%char (to_string (size_of s)) start (size_of pre) = Ok (None, start).
Proof.
  intros [k Hk] Hne Hs Hb. pose proof (size_of_nonneg s). pose proof (size_of_nonneg pre).
  assert (size_of q < size_of s + 2).
  { destruct k as [|x k]; [by rewrite app_nil_r in Hk|].
    apply (f_equal size_of) in Hk. autorewrite with kv in Hk.
    pose proof (size_of_nonneg k). lia. }
  rewrite size_of_app in Hb. pose proof (size_of_nonneg q). unfold INT64_MAX in *.
  erewrite parse_switch_bulk by (apply from_chars_size; unfold INT64_MAX; lia).
  destruct (Z.eqb_spec (size_of s) (-1)); [lia|].
  rewrite !u64_small by (unfold two64; lia).
  by destruct (Z.ltb_spec (size_of (pre ++ q)) (size_of pre + size_of s + 2)) as [_|Hge];
    [|rewrite size_of_app in Hge; lia].
Qed.

Lemma parse_array_incomplete f (pre q : bytes) arr start :
  Forall parses_back arr -> Forall incomplete arr ->
  q `prefix_of` flat_map serialize arr -> q <> flat_map serialize arr ->
  (length q + 1 < f)%nat -> Z.of_nat (length arr) <= reserve_limit ->
  size_of (flat_map serialize arr) <= INT64_MAX -> size_of (pre ++ q) <= INT64_MAX ->
  parse_switch f (pre ++ q) "*"%char (to_string (Z.of_nat (length arr))) start (size_of pre) =
    Ok (None, start).
Proof.
  intros Hb Hi Hq Hne Hf Hr Hs1 Hs2. pose proof (flat_map_length arr).
  unfold INT64_MAX in *.
  erewrite parse_switch_array
    by (apply from_chars_i64_to_string; unfold INT64_MIN, INT64_MAX; lia).
  destruct (Z.eqb_spec (Z.of_nat (length arr)) (-1)); [lia|].
  rewrite !u64_small by (unfold two64; lia).
  destruct (Z.ltb_spec reserve_limit (Z.of_nat (length arr))); [lia|].
  destruct (parse_elems_incomplete arr Hb Hi f pre q 0 []) as [pos E]; try done.
  rewrite Z.add_0_l in E. by rewrite E.
Qed.

Lemma wf_elems ty s i arr : wf (mkRESP ty s i arr) = true ->
  Forall (fun v => wf v = true) arr.
Proof.
  destruct ty; simpl; intros Hw; wf_split Hw; try (by destruct arr).
  apply Forall_forall. intros v Hv.
  by apply (proj1 (forallb_forall wf arr)); [|apply list_elem_of_In].
Qed.

(** A proper prefix of a frame is an incomplete frame. *)
Lemma parse_incomplete_internal v : wf v = true -> incomplete v.
Proof.
  induction v as [ty s i arr IH] using RESPValue_ind'. intros Hw f pre p Hp Hne Hf Hs1 Hs2.
  destruct (header (mkRESP ty s i arr)) as [[c content] body] eqn:E.
  pose proof (header_no_crlf _ _ _ _ Hw E) as Hn. pose proof (wf_elems _ _ _ _ Hw) as Harr.
  rewrite (serialize_header _ _ _ _ E) in *.
  destruct f as [|f]; [lia|]. rewrite app_assoc in Hp, Hne, Hs1.
  apply prefix_app_cases in Hp as [[Hp Hp']|(q & -> & Hq & Hq')]; [| |done].
  { apply parse_internal_no_line. by apply (find_crlf_line_prefix (c :: content)). }
  rewrite <- app_assoc in *. rewrite !length_app in Hf. simpl in Hf.
  pose proof (parse_line_frame f pre q [] content c Hn) as HL.
  rewrite !app_nil_r in HL. rewrite HL by done.
  assert (size_of ((pre ++ (c :: content) ++ crlf) ++ q) <= INT64_MAX)
    by (by rewrite <- !app_assoc).
  autorewrite with kv in Hs1. pose proof (size_of_nonneg content).
  destruct ty; simpl in E; injection E as <- <- <-; simpl in Hw; wf_split Hw; subst;
    try (by apply prefix_nil_inv in Hq).
  - autorewrite with kv in Hs1. pose proof (size_of_nonneg s).
    apply parse_bulk_incomplete; try done; lia.
  - apply parse_array_incomplete; try done; try lia.
    + eapply Forall_impl; [done|]. apply parse_serialize_internal.
    + rewrite Forall_forall in IH, Harr |- *. auto.
Qed.

(** ** Arbitrary input *)

(** A call inside the buffer finds no frame, or reads a header line. *)
Lemma parse_internal_cases f buffer pos :
  0 <= pos <= size_of buffer -> size_of buffer < INT64_MAX ->
  parse_internal (S f) buffer pos = Ok (None, pos) \/
  exists pre c content rest, buffer = pre ++ (c :: content) ++ crlf ++ rest /\
    pos = size_of pre /\ no_crlf (c :: content) = true /\
    parse_internal (S f) buffer pos =
      parse_switch f buffer c content pos (pos + size_of content + 3).
Proof.
  intros Hp Hs.
  assert (exists pre t, buffer = pre ++ t /\ pos = size_of pre) as (pre & t & -> & ->).
  { exists (take (Z.to_nat pos) buffer), (drop (Z.to_nat pos) buffer).
    rewrite take_drop. split; [done|]. unfold size_of in *. rewrite length_take. lia. }
  destruct (find_from crlf t) as [i|] eqn:E.
  2: { left. by apply parse_internal_no_line. }
  destruct (find_from_Some _ _ _ E) as (rest & Ht & _). pose proof (find_crlf_first _ _ E) as Hn.
  destruct (take i t) as [|c content] eqn:E'.
  - left. subst t. cbn [parse_internal].
    destruct (Z.leb_spec (size_of (pre ++ [] ++ crlf ++ rest)) (size_of pre)) as [_|_]; [done|].
    assert ((pre ++ [] ++ crlf ++ rest) !! Z.to_nat (size_of pre) = Some CR) as ->.
    { unfold size_of. rewrite Nat2Z.id, lookup_app_r by lia. by rewrite Nat.sub_diag. }
    by rewrite read_line_at.
  - right. exists pre, c, content, rest. subst t. split_and!; [done..|].
    apply parse_internal_line; [done|]. unfold INT64_MAX, npos, UINT64_MAX in *. lia.
Qed.

(** The bulk length read from the header at [pos] is the one [lens_ok] bounds. *)
Lemma lens_ok_at pre content rest p n :
  lens_ok (pre ++ ("$"%char :: content) ++ crlf ++ rest) = true ->
  no_crlf ("$"%char :: content) = true ->
  from_chars_i64 content = FromChars p errc_ok n -> -1 <= n.
Proof.
  unfold lens_ok. rewrite forallb_forall. intros Hall Hn Hc.
  specialize (Hall (length pre)). unfold bulk_len_at in Hall.
  rewrite lookup_app_r, Nat.sub_diag in Hall by lia. cbn [app lookup list_lookup] in Hall.
  change (Z.of_nat (length pre)) with (size_of pre) in Hall.
  change (pre ++ "$"%char :: content ++ crlf ++ rest)
    with (pre ++ ("$"%char :: content) ++ crlf ++ rest) in Hall.
  rewrite read_line_at in Hall by done. cbn [drop] in Hall.
  rewrite drop_0, Hc in Hall. cbn in Hall. apply Z.leb_le, Hall, in_seq.
  rewrite !length_app. simpl. lia.
Qed.

(** What a call that returns has done. *)
Definition parse_post (buffer : bytes) (pos : Z) (r : res (option RESPValue * Z)) : Prop :=
  match r with
  | Ok (None, p) => p = pos
  | Ok (Some v, p) =>
      wf v = true /\ 0 <= p <= size_of buffer /\ (lens_ok buffer = true -> pos < p)
  | Throw e => e = length_error \/ e = bad_alloc
  | UB => False
  | NoFuel => True
  end.

Definition elems_post (buffer : bytes) (pos : Z) (n : Z)
    (r : res (option (list RESPValue) * Z)) : Prop :=
  match r with
  | Ok (None, p) => True
  | Ok (Some l, p) => Forall (fun v => wf v = true) l /\ Z.of_nat (length l) = Z.max 0 n /\
      0 <= p <= size_of buffer /\ (lens_ok buffer = true -> pos <= p)
  | Throw e => e = length_error \/ e = bad_alloc
  | UB => False
  | NoFuel => True
  end.

Lemma bulk_post buffer f pre content rest p n :
  buffer = pre ++ ("$"%char :: content) ++ crlf ++ rest ->
  no_crlf ("$"%char :: content) = true -> size_of buffer < INT64_MAX ->
  from_chars_i64 content = FromChars p errc_ok n ->
  parse_post buffer (size_of pre)
    (parse_switch f buffer "$"%char content (size_of pre) (size_of pre + size_of content + 3)).
Proof.
  intros Hb Hn Hs Hc. rewrite (parse_switch_bulk _ _ _ _ _ _ _ Hc).
  pose proof (from_chars_range_ok true INT64_MIN INT64_MAX content) as Hr.
  unfold from_chars_i64 in Hc. rewrite Hc in Hr. cbn in Hr. specialize (Hr eq_refl).
  pose proof (size_of_nonneg pre). pose proof (size_of_nonneg content).
  assert (size_of pre + size_of content + 3 <= size_of buffer) as Hle.
  { subst buffer. autorewrite with kv. pose proof (size_of_nonneg rest). lia. }
  destruct (Z.eqb_spec n (-1)) as [->|Hn1].
  { cbn. split_and!; try done; lia. }
  destruct (Z.ltb_spec (size_of buffer) (u64 (size_of pre + size_of content + 3 + n + 2)))
    as [|Hu]; [done|].
  unfold substr. destruct (Z.ltb_spec (size_of buffer) (size_of pre + size_of content + 3)); [lia|].
  cbn. rewrite Z.add_assoc. split_and!; [done|apply u64_range|done|].
  intros Hl. subst buffer. pose proof (lens_ok_at _ _ _ _ _ Hl Hn Hc).
  rewrite u64_small in *; unfold two64, INT64_MAX in *; lia.
Qed.

Lemma switch_post buffer f pre c content rest :
  buffer = pre ++ (c :: content) ++ crlf ++ rest ->
  no_crlf (c :: content) = true -> size_of buffer < INT64_MAX ->
  (forall n pos, 0 <= pos <= size_of buffer ->
     elems_post buffer pos n (parse_elems f buffer n 0 pos [])) ->
  parse_post buffer (size_of pre)
    (parse_switch f buffer c content (size_of pre) (size_of pre + size_of content + 3)).
Proof.
  intros Hb Hn Hs IH. pose proof (size_of_nonneg pre). pose proof (size_of_nonneg content).
  assert (size_of pre + size_of content + 3 <= size_of buffer) as Hle.
  { subst buffer. autorewrite with kv. pose proof (size_of_nonneg rest). lia. }
  pose proof (from_chars_range_ok true INT64_MIN INT64_MAX content) as Hr.
  destruct (from_chars_i64 content) as [p ec n] eqn:Hc.
  unfold from_chars_i64 in Hc. rewrite Hc in Hr. cbn in Hr.
  assert (no_crlf content = true) as Hn'.
  { unfold no_crlf in *. rewrite bool_decide_eq_true in *. cbn [find_from] in Hn.
    destruct (starts_with _ _); [done|]. by apply fmap_None in Hn. }
  unfold parse_switch. change (from_chars_range true INT64_MIN INT64_MAX) with from_chars_i64 in Hc.
  rewrite Hc. cbn [fc_ec fc_val].
  case_bool_decide; [cbn; rewrite Hn'; split_and!; done || lia|].
  case_bool_decide; [cbn; rewrite Hn'; split_and!; done || lia|].
  case_bool_decide.
  { case_bool_decide; [|done]. cbn. split_and!; [|lia..].
    rewrite (proj2 (is_i64_spec n)); auto. }
  case_bool_decide; [subst c|].
  { case_bool_decide as He; [done|]. subst ec.
    pose proof (bulk_post _ f pre content rest p n Hb Hn Hs Hc) as HB.
    by rewrite (parse_switch_bulk _ _ _ _ _ _ _ Hc) in HB. }
  case_bool_decide; [|done].
  case_bool_decide as He; [done|]. subst ec.
  specialize (Hr eq_refl).
  destruct (Z.eqb_spec n (-1)); [cbn; split_and!; done || lia|].
  destruct (Z.ltb_spec reserve_limit (u64 n)).
  { cbn. unfold reserve_error. destruct (_ <? _); auto. }
  pose proof (IH n (size_of pre + size_of content + 3) ltac:(lia)) as HE.
  destruct (parse_elems _ _ _ _ _ _) as [[[l|] p']| | |]; cbn in *; try done.
  destruct HE as (Hw & Hl & Hp & Hlp). split_and!; [|lia|lia|intros Hl'; specialize (Hlp Hl'); lia].
  rewrite Hl. apply andb_true_iff. split.
  - apply forallb_forall. intros v Hv. rewrite Forall_forall in Hw.
    by apply Hw, list_elem_of_In.
  - apply Z.leb_le. pose proof (u64_range n). destruct (Z.max_spec 0 n) as [[? ->]|[? ->]]; [|lia].
    rewrite u64_small in *; unfold INT64_MAX, two64 in *; lia.
Qed.

Lemma parse_internal_post f :
  (forall buffer pos, 0 <= pos <= size_of buffer -> size_of buffer < INT64_MAX ->
     parse_post buffer pos (parse_internal f buffer pos)) /\
  (forall buffer n i pos acc, 0 <= pos <= size_of buffer -> size_of buffer < INT64_MAX ->
     Forall (fun v => wf v = true) acc -> Z.of_nat (length acc) = i ->
     elems_post buffer pos (Z.max i n) (parse_elems f buffer n i pos acc)).
Proof.
  induction f as [|f [IHp IHe]]; [done|]. split.
  - intros buffer pos Hp Hs.
    destruct (parse_internal_cases f buffer pos) as [E|(pre & c & content & rest & Hb & -> & Hn & E)];
      [done|lia|by rewrite E|].
    rewrite E. apply (switch_post buffer f pre c content rest); try done.
    intros n pos Hpos. specialize (IHe buffer n 0 pos []). cbn in IHe.
    destruct (parse_elems _ _ _ _ _ _) as [[[l|] p']| | |]; cbn in *; auto.
    rewrite Z.max_assoc in IHe. auto.
  - intros buffer n i pos acc Hp Hs Hacc Hi. cbn [parse_elems].
    destruct (Z.ltb_spec i n).
    + specialize (IHp buffer pos Hp Hs).
      destruct (parse_internal f buffer pos) as [[[v|] p]| | |]; cbn in *; try done.
      destruct IHp as (Hv & Hpp & Hlp).
      assert (Forall (fun v => wf v = true) (acc ++ [v])) as Hacc' by (apply Forall_app; auto).
      specialize (IHe buffer n (i + 1) p (acc ++ [v]) Hpp Hs Hacc').
      rewrite length_app in IHe. cbn in IHe. specialize (IHe ltac:(lia)).
      destruct (parse_elems f buffer n (i + 1) p (acc ++ [v])) as [[[l|] p']| | |]; cbn in *; try done.
      destruct IHe as (? & ? & ? & Hlq). split_and!; try done; try lia.
      intros Hl. specialize (Hlp Hl). specialize (Hlq Hl). lia.
    + cbn. split_and!; try done; lia.
Qed.

(** Every element consumes at least one byte, so the remaining length bounds
    the depth of the calls. *)
Lemma parse_internal_total f :
  (forall buffer pos, 0 <= pos <= size_of buffer -> size_of buffer < INT64_MAX ->
     lens_ok buffer = true -> size_of buffer - pos < Z.of_nat f ->
     parse_internal f buffer pos <> NoFuel) /\
  (forall buffer n i pos acc, 0 <= pos <= size_of buffer -> size_of buffer < INT64_MAX ->
     lens_ok buffer = true -> size_of buffer - pos + 1 < Z.of_nat f ->
     parse_elems f buffer n i pos acc <> NoFuel).
Proof.
  induction f as [|f [IHp IHe]]; [split; lia|]. split.
  - intros buffer pos Hp Hs Hl Hf.
    destruct (parse_internal_cases f buffer pos) as [E|(pre & c & content & rest & Hb & -> & Hn & E)];
      [done|lia|by rewrite E|].
    rewrite E. unfold parse_switch. repeat case_if; try done; unfold substr; try (by case_if).
    specialize (IHe buffer (fc_val (from_chars_i64 content)) 0
      (size_of pre + size_of content + 3) []).
    destruct (parse_elems _ _ _ _ _ _) as [[[l|] p']| | |]; try done.
    exfalso. apply IHe; try done.
    + subst buffer. autorewrite with kv. pose proof (size_of_nonneg content).
      pose proof (size_of_nonneg rest). pose proof (size_of_nonneg pre). lia.
    + pose proof (size_of_nonneg content). lia.
  - intros buffer n i pos acc Hp Hs Hl Hf. cbn [parse_elems].
    destruct (Z.ltb_spec i n); [|done].
    pose proof (proj1 (parse_internal_post f) buffer pos Hp Hs) as Hpost.
    specialize (IHp buffer pos Hp Hs Hl ltac:(lia)).
    destruct (parse_internal f buffer pos) as [[[v|] p]| | |]; try done.
    cbn in Hpost. destruct Hpost as (_ & Hpp & Hlp). specialize (Hlp Hl).
    apply IHe; try done. lia.
Qed.

(** More fuel never changes the answer of a call that has returned. *)
Lemma parse_internal_mono f :
  (forall buffer pos, parse_internal f buffer pos <> NoFuel ->
     forall f', (f <= f')%nat -> parse_internal f' buffer pos = parse_internal f buffer pos) /\
  (forall buffer n i pos acc, parse_elems f buffer n i pos acc <> NoFuel ->
     forall f', (f <= f')%nat -> parse_elems f' buffer n i pos acc = parse_elems f buffer n i pos acc).
Proof.
  induction f as [|f [IHp IHe]]; [done|]. split.
  - intros buffer pos Hnf [|f'] Hf; [lia|]. cbn [parse_internal] in *.
    destruct (size_of buffer <=? pos); [done|].
    destruct (buffer !! Z.to_nat pos) as [c|]; [|done].
    destruct (read_line buffer pos) as [[[[|x l]|] p]| | |]; try done. cbn [mbind res_bind] in *.
    destruct (substr (x :: l) 1 npos) as [content| | |]; try done. cbn [mbind res_bind] in *.
    repeat (case_if; try done).
    rewrite (IHe buffer _ 0 p [] ) by (lia || by intros E'; rewrite E' in Hnf). done.
  - intros buffer n i pos acc Hnf [|f'] Hf; [lia|]. cbn [parse_elems] in *.
    destruct (i <? n); [|done].
    rewrite (IHp buffer pos) by (lia || by intros E'; rewrite E' in Hnf).
    destruct (parse_internal f buffer pos) as [[[v|] p]| | |]; try done.
    cbn [mbind res_bind] in *. apply IHe; [done|lia].
Qed.

(** ** [RESPParser::parse] *)

Lemma parse_serialize v rest : wf v = true ->
  size_of (serialize v ++ rest) <= INT64_MAX ->
  parse (serialize v ++ rest) = Ok (Some (v, size_of (serialize v))).
Proof.
  intros Hw Hs. unfold parse, parse_fuel.
  pose proof (parse_serialize_internal v Hw (length (serialize v ++ rest) + 2)%nat [] rest) as E.
  cbn [app] in E. rewrite size_of_nil, ?Z.add_0_l in E. rewrite E; [done| |done].
  rewrite length_app. lia.
Qed.

Lemma parse_prefix v p : wf v = true -> size_of (serialize v) <= INT64_MAX ->
  p `prefix_of` serialize v -> p <> serialize v -> parse p = Ok None.
Proof.
  intros Hw Hs Hp Hne. unfold parse, parse_fuel.
  assert (size_of p <= INT64_MAX).
  { destruct Hp as [k Hk]. rewrite Hk, size_of_app in Hs. pose proof (size_of_nonneg k). lia. }
  pose proof (parse_incomplete_internal v Hw (length p + 2)%nat [] p Hp Hne) as E.
  cbn [app] in E. rewrite size_of_nil, ?Z.add_0_l in E. rewrite E; [done|lia|done..].
Qed.

Lemma parse_nil : parse [] = Ok None.
Proof. done. Qed.

Lemma parse_wf buffer v n : size_of buffer < INT64_MAX ->
  parse buffer = Ok (Some (v, n)) -> wf v = true /\ 0 <= n <= size_of buffer.
Proof.
  intros Hs. unfold parse. pose proof (size_of_nonneg buffer).
  pose proof (proj1 (parse_internal_post (parse_fuel buffer)) buffer 0 ltac:(lia) Hs) as HP.
  destruct (parse_internal _ _ _) as [[[v'|] p]| | |]; cbn in *; intros ?; simplify_eq.
  tauto.
Qed.

End roundtrip.

(** ** Properties *)

(** The limits of libstdc++ on a 64-bit machine: [max_size()] of a vector of
    72-byte [RESPValue]s, and 64 GiB of memory. *)
Definition libstdcxx_alloc : VectorAlloc :=
  {| reserve_limit := 2 ^ 36 / 72; vector_max_size := (2 ^ 63 - 1) / 72 |}.

(** The frame [SET k v] as a client sends it. *)
Definition set_request (k v : bytes) : RESPValue :=
  create_array [create_bulk_string (lit "SET"); create_bulk_string k; create_bulk_string v].

(** C3. Round trip: the parser reads a serialized well-formed value back from
    the front of any buffer, consuming exactly its bytes, whatever follows. *)
Theorem parse_serialize_roundtrip `{VectorAlloc} v rest :
  wf v = true -> size_of (serialize v ++ rest) <= INT64_MAX ->
  parse (serialize v ++ rest) = Ok (Some (v, size_of (serialize v))).
Proof. apply parse_serialize. Qed.

Lemma parse_serialize_roundtrip_witness :
  @parse libstdcxx_alloc (serialize (set_request (lit "k") (lit "v")) ++ lit "*1") =
    Ok (Some (set_request (lit "k") (lit "v"), 27)).
Proof.
  exact (@parse_serialize_roundtrip libstdcxx_alloc
    (set_request (lit "k") (lit "v")) (lit "*1") eq_refl ltac:(vm_compute; discriminate)).
Defined.

(** C14. Streaming: a proper prefix of a serialized value is reported as an
    incomplete frame, never as a value, an exception or a non-terminating call. *)
Theorem parse_incomplete_frame `{VectorAlloc} v p :
  wf v = true -> size_of (serialize v) <= INT64_MAX ->
  p `prefix_of` serialize v -> p <> serialize v -> parse p = Ok None.
Proof. apply parse_prefix. Qed.

Lemma parse_incomplete_frame_witness :
  @parse libstdcxx_alloc (take 20 (serialize (set_request (lit "k") (lit "v")))) = Ok None.
Proof.
  apply (@parse_incomplete_frame libstdcxx_alloc (set_request (lit "k") (lit "v")));
    [reflexivity|vm_compute; discriminate|apply prefix_take|vm_compute; discriminate].
Defined.



(** C19. Termination: when no bulk header of the buffer announces a length
    below -1, the parser returns, and its answer does not depend on the fuel
    of the model. *)
Theorem parse_terminates `{VectorAlloc} buffer fuel :
  size_of buffer < INT64_MAX -> lens_ok buffer = true ->
  (parse_fuel buffer <= fuel)%nat ->
  parse_internal (parse_fuel buffer) buffer 0 <> NoFuel /\
  parse_internal fuel buffer 0 = parse_internal (parse_fuel buffer) buffer 0.
Proof.
  intros Hs Hl Hf. pose proof (size_of_nonneg buffer).
  assert (parse_internal (parse_fuel buffer) buffer 0 <> NoFuel) as Hn.
  { apply (proj1 (parse_internal_total _)); try done. unfold parse_fuel, size_of in *. lia. }
  split; [done|]. by apply (proj1 (parse_internal_mono _)).
Qed.

Lemma parse_terminates_witness :
  let buffer := lit "*2" ++ crlf ++ lit "$-1" ++ crlf in
  lens_ok buffer = true /\
  @parse_internal libstdcxx_alloc 1000 buffer 0 =
    @parse_internal libstdcxx_alloc (parse_fuel buffer) buffer 0.
Proof.
  cbv zeta. split; [reflexivity|].
  apply (@parse_terminates libstdcxx_alloc _ 1000); [reflexivity|reflexivity|vm_compute; lia].
Defined.

(** An array of two whose first element moves the position back to the start
    of the buffer. *)
Definition recursion_bomb : bytes := lit "*2" ++ crlf ++ lit "$-12" ++ crlf.

(** A negative bulk length defeats the bounds check of [parse_internal]: on
    this 10-byte frame the recursion never ends, whatever the fuel. *)
Lemma parse_bomb_diverges `{VectorAlloc} fuel :
  2 <= reserve_limit -> parse_internal fuel recursion_bomb 0 = NoFuel.
Proof.
  intros Hr. induction fuel as [fuel IH] using lt_wf_ind.
  destruct fuel as [|fuel]; [done|].
  change (parse_internal (S fuel) recursion_bomb 0) with
    (parse_switch fuel recursion_bomb "*"%char (lit "2") 0 4).
  rewrite (parse_switch_array _ _ _ _ _ 2 1) by reflexivity. cbn [Z.eqb].
  destruct (Z.ltb_spec reserve_limit (u64 2)) as [Hlt|_].
  { change (u64 2) with 2 in Hlt. lia. }
  destruct fuel as [|fuel]; [done|]. cbn [parse_elems Z.ltb Z.compare].
  destruct fuel as [|fuel]; [done|].
  assert (parse_internal (S fuel) recursion_bomb 4 =
    Ok (Some (create_bulk_string []), 0)) as -> by reflexivity.
  cbn [mbind res_bind parse_elems Z.ltb Z.add Z.compare Pos.compare Pos.compare_cont].
  rewrite IH by lia. done.
Qed.
