(* ===== verification/UnorderedMap.v ===== *)
(** * [std::unordered_map] as an interface

    The storage engine keeps its entries in [std::unordered_map] and looks at
    the layout of the table: the eviction code samples buckets and the
    sweeper walks in iteration order. The layout is the library's business,
    so the table is a type class: operations, and the laws the C++ standard
    gives them (iteration visits every element once; a write through an
    iterator keeps the layout; [erase] keeps the order of the other elements;
    insertion may rehash, so it may reorder). The engine's theorems are proved
    against this interface; [AssocTable] below is an implementation of it. *)

From S2P Require Import Prelude.

Class UnorderedMap (V M : Type) := {
  um_new : M;
  um_elements : M -> list (bytes * V);       (* [begin()] to [end()] *)
  um_find : bytes -> M -> option V;
  um_insert : bytes -> V -> M -> M;          (* a key that is not there *)
  um_update : bytes -> V -> M -> M;          (* [it->second = v] *)
  um_erase : bytes -> M -> M;
  um_bucket_count : M -> Z;
  um_bucket : M -> Z -> list bytes           (* keys from [begin(i)] to [end(i)] *)
}.

Class UnorderedMapLaws (V M : Type) `{UnorderedMap V M} : Prop := {
  um_new_elements : um_elements um_new = [];
  um_nodup m : NoDup (um_elements m).*1;
  um_find_elements k v m : um_find k m = Some v <-> (k, v) ∈ um_elements m;
  um_insert_elements k v m :
    um_find k m = None -> um_elements (um_insert k v m) ≡ₚ (k, v) :: um_elements m;
  um_update_elements k v m :
    um_elements (um_update k v m) =
      (fun p => (p.1, if bool_decide (p.1 = k) then v else p.2)) <$> um_elements m;
  um_erase_elements k m :
    um_elements (um_erase k m) = filter (fun p => p.1 <> k) (um_elements m);
  um_bucket_count_pos m : um_elements m <> [] -> 0 < um_bucket_count m;
  um_bucket_keys k m i : k ∈ um_bucket m i -> k ∈ (um_elements m).*1;
  um_bucket_cover k m : k ∈ (um_elements m).*1 ->
    exists i, 0 <= i < um_bucket_count m /\ k ∈ um_bucket m i
}.

(** [m[k] = v] and [try_emplace] then assignment: overwrite or insert. *)
Definition um_put `{UnorderedMap V M} (k : bytes) (v : V) (m : M) : M :=
  match um_find k m with
  | Some _ => um_update k v m
  | None => um_insert k v m
  end.

(** The sum of a measure over the elements of a table. *)
Definition zsum (l : list Z) : Z := foldr Z.add 0 l.

Definition um_sum `{UnorderedMap V M} (f : bytes -> V -> Z) (m : M) : Z :=
  zsum ((fun p => f p.1 p.2) <$> um_elements m).

Lemma zsum_cons x l : zsum (x :: l) = x + zsum l.
Proof. done. Qed.

Lemma zsum_app l l' : zsum (l ++ l') = zsum l + zsum l'.
Proof. induction l as [|x l IH]; simpl; [done|]. rewrite IH. lia. Qed.

#[global] Instance zsum_perm : Proper ((≡ₚ) ==> (=)) zsum.
Proof. intros l l' H. induction H; simpl; lia. Qed.

(** ** Consequences of the laws *)

Section laws.
Context `{UnorderedMapLaws V M}.
Implicit Types (k : bytes) (v : V) (m : M).

Lemma um_find_new k : um_find k um_new = None.
Proof.
  destruct (um_find k um_new) eqn:E; [|done].
  apply um_find_elements in E. rewrite um_new_elements in E. by apply not_elem_of_nil in E.
Qed.

Lemma um_find_None k m : um_find k m = None <-> k ∉ (um_elements m).*1.
Proof.
  split.
  - intros Hn ((k' & v) & -> & Hin)%list_elem_of_fmap. simpl in *.
    apply um_find_elements in Hin. congruence.
  - intros Hn. destruct (um_find k m) as [v|] eqn:E; [|done].
    destruct Hn. apply um_find_elements in E. apply list_elem_of_fmap. by exists (k, v).
Qed.

Lemma um_find_is_Some k m : is_Some (um_find k m) <-> k ∈ (um_elements m).*1.
Proof.
  rewrite <- not_eq_None_Some, um_find_None. split; [apply dec_stable|]. naive_solver.
Qed.

Lemma um_find_ext m m' k k' :
  (forall v, (k, v) ∈ um_elements m <-> (k', v) ∈ um_elements m') ->
  um_find k m = um_find k' m'.
Proof. intros E. apply option_eq. intros v. by rewrite !um_find_elements. Qed.

Lemma um_find_erase k k' m :
  um_find k' (um_erase k m) = if bool_decide (k' = k) then None else um_find k' m.
Proof.
  case_bool_decide as E.
  - subst. apply um_find_None. rewrite um_erase_elements.
    intros ((k' & v) & -> & [Hne _]%list_elem_of_filter)%list_elem_of_fmap. done.
  - apply um_find_ext. intros v. rewrite um_erase_elements, list_elem_of_filter. naive_solver.
Qed.

Lemma um_find_update k k' v m :
  um_find k' (um_update k v m) =
    if bool_decide (k' = k) then (fun _ => v) <$> um_find k m else um_find k' m.
Proof.
  case_bool_decide as E.
  - subst k'. destruct (um_find k m) as [v'|] eqn:F; simpl.
    + apply um_find_elements. rewrite um_update_elements. apply list_elem_of_fmap.
      exists (k, v'). simpl. rewrite bool_decide_eq_true_2 by done.
      split; [done|by apply um_find_elements].
    + rewrite um_find_None in *. rewrite um_update_elements, <- list_fmap_compose.
      done.
  - apply um_find_ext. intros v'. rewrite um_update_elements, list_elem_of_fmap. split.
    + intros ((k1 & v1) & [= -> ->] & Hin). simpl. by rewrite bool_decide_eq_false_2.
    + intros Hin. exists (k', v'). simpl. by rewrite bool_decide_eq_false_2.
Qed.

Lemma um_find_insert k k' v m : um_find k m = None ->
  um_find k' (um_insert k v m) = if bool_decide (k' = k) then Some v else um_find k' m.
Proof.
  intros Hn. case_bool_decide as E.
  - subst. apply um_find_elements. rewrite um_insert_elements by done. left.
  - apply um_find_ext. intros v'. rewrite um_insert_elements by done.
    rewrite elem_of_cons. naive_solver.
Qed.

Lemma um_find_put k k' v m :
  um_find k' (um_put k v m) = if bool_decide (k' = k) then Some v else um_find k' m.
Proof.
  unfold um_put. destruct (um_find k m) eqn:E.
  - rewrite um_find_update, E. done.
  - by apply um_find_insert.
Qed.

Lemma um_put_length k v m :
  length (um_elements (um_put k v m)) =
    (length (um_elements m) + if um_find k m is Some _ then 0 else 1)%nat.
Proof.
  unfold um_put. destruct (um_find k m) eqn:E.
  - rewrite um_update_elements, length_fmap. lia.
  - rewrite um_insert_elements by done. simpl. lia.
Qed.

(** ** Sums *)

Lemma um_elements_erase_perm k v m : um_find k m = Some v ->
  um_elements m ≡ₚ (k, v) :: um_elements (um_erase k m).
Proof.
  intros F. rewrite um_erase_elements. apply um_find_elements in F.
  pose proof (um_nodup m) as Hnd. induction (um_elements m) as [|[k' v'] l IH].
  { by apply not_elem_of_nil in F. }
  apply NoDup_cons in Hnd as [Hni Hnd]. rewrite filter_cons. simpl in *.
  apply elem_of_cons in F as [[= <- <-]|F].
  - rewrite decide_False by naive_solver. constructor.
    rewrite list_filter_all; [done|]. intros [k1 v1] Hin E. simpl in E. subst k1. apply Hni.
    apply list_elem_of_fmap. by exists (k, v1).
  - rewrite decide_True.
    { rewrite Permutation_swap. constructor. by apply IH. }
    simpl. intros E. subst k'. apply Hni. apply list_elem_of_fmap. by exists (k, v).
Qed.

Lemma um_sum_erase f k v m : um_find k m = Some v ->
  um_sum f (um_erase k m) = um_sum f m - f k v.
Proof.
  intros F. unfold um_sum. rewrite (um_elements_erase_perm _ _ _ F), fmap_cons, zsum_cons. cbn [fst snd]. lia.
Qed.

Lemma um_erase_length k v m : um_find k m = Some v ->
  length (um_elements m) = S (length (um_elements (um_erase k m))).
Proof. intros F. by rewrite (um_elements_erase_perm _ _ _ F). Qed.

Lemma um_sum_insert f k v m : um_find k m = None ->
  um_sum f (um_insert k v m) = um_sum f m + f k v.
Proof.
  intros F. unfold um_sum.
  rewrite um_insert_elements, fmap_cons, zsum_cons by done. cbn [fst snd]. lia.
Qed.

Lemma um_update_erase_elements k v m :
  um_elements (um_erase k (um_update k v m)) = um_elements (um_erase k m).
Proof.
  rewrite !um_erase_elements, um_update_elements.
  induction (um_elements m) as [|[k' v'] l IH]; [done|]. cbn [fmap list_fmap].
  rewrite !filter_cons. cbn [fst snd].
  case_decide as E; [|done]. rewrite bool_decide_eq_false_2 by done. by f_equal.
Qed.

Lemma um_sum_update f k v v' m : um_find k m = Some v ->
  um_sum f (um_update k v' m) = um_sum f m - f k v + f k v'.
Proof.
  intros F. pose proof (um_sum_erase f k v m F) as E.
  assert (um_find k (um_update k v' m) = Some v') as F'.
  { rewrite um_find_update, F. by rewrite bool_decide_eq_true_2. }
  pose proof (um_sum_erase f k v' _ F') as E'.
  unfold um_sum in *. rewrite um_update_erase_elements in E'. lia.
Qed.

Lemma um_sum_put f k v m :
  um_sum f (um_put k v m) =
    um_sum f m - from_option (f k) 0 (um_find k m) + f k v.
Proof.
  unfold um_put. destruct (um_find k m) as [v0|] eqn:E; simpl.
  - by apply um_sum_update.
  - rewrite um_sum_insert by done. lia.
Qed.

Lemma um_sum_nonneg f m : (forall k v, 0 <= f k v) -> 0 <= um_sum f m.
Proof.
  intros Hf. unfold um_sum. induction (um_elements m) as [|[k v] l IH]; [done|].
  rewrite fmap_cons, zsum_cons. cbn [fst snd]. specialize (Hf k v). lia.
Qed.

Lemma um_sum_ge f k v m : (forall k v, 0 <= f k v) -> um_find k m = Some v -> f k v <= um_sum f m.
Proof.
  intros Hf F. pose proof (um_sum_erase f k v m F).
  pose proof (um_sum_nonneg f (um_erase k m) Hf). lia.
Qed.

End laws.

#[export] Hint Rewrite @um_find_new : kv.

(** ** An implementation

    A table as the list of its elements in iteration order, new elements
    first, spread over 13 buckets by the hash of the key. *)

Section assoc_table.
Context {V : Type} (hash : bytes -> Z).

Record AssocTable := MkTable {
  at_list : list (bytes * V);
  at_nodup : NoDup at_list.*1
}.

Fixpoint assoc (k : bytes) (l : list (bytes * V)) : option V :=
  match l with
  | [] => None
  | (k', v) :: l' => if bool_decide (k' = k) then Some v else assoc k l'
  end.

Lemma assoc_None k l : assoc k l = None -> k ∉ l.*1.
Proof.
  induction l as [|[k' v] l IH]; simpl; [intros _; apply not_elem_of_nil|].
  case_bool_decide; [done|]. intros Hn. apply not_elem_of_cons. auto.
Qed.

Lemma nodup_update k v (l : list (bytes * V)) : NoDup l.*1 ->
  NoDup ((fun p => (p.1, if bool_decide (p.1 = k) then v else p.2)) <$> l).*1.
Proof. by rewrite <- list_fmap_compose. Qed.

Lemma nodup_erase k (l : list (bytes * V)) : NoDup l.*1 ->
  NoDup (filter (fun p => p.1 <> k) l).*1.
Proof. intros Hl. eapply sublist_NoDup; [exact Hl|]. apply fmap_sublist, sublist_filter. Qed.

Definition at_insert (k : bytes) (v : V) (t : AssocTable) : AssocTable :=
  match decide (k ∈ (at_list t).*1) with
  | left _ => t
  | right Hn => MkTable ((k, v) :: at_list t) (NoDup_cons_2 k _ Hn (at_nodup t))
  end.

#[global] Instance assoc_unordered_map : UnorderedMap V AssocTable := {|
  um_new := MkTable [] (NoDup_nil_2);
  um_elements := at_list;
  um_find k t := assoc k (at_list t);
  um_insert := at_insert;
  um_update k v t := MkTable _ (nodup_update k v _ (at_nodup t));
  um_erase k t := MkTable _ (nodup_erase k _ (at_nodup t));
  um_bucket_count _ := 13;
  um_bucket t i := filter (fun k => hash k mod 13 = i) (at_list t).*1
|}.

Lemma assoc_Some k v l : NoDup l.*1 -> assoc k l = Some v <-> (k, v) ∈ l.
Proof.
  induction l as [|[k' v'] l IH]; simpl; intros Hnd.
  { split; [done|]. by intros ?%not_elem_of_nil. }
  apply NoDup_cons in Hnd as [Hni Hnd]. rewrite elem_of_cons.
  case_bool_decide as E.
  - subst. split; [naive_solver|]. intros [[= ->]|Hin]; [done|].
    destruct Hni. apply list_elem_of_fmap. by exists (k, v).
  - rewrite IH by done. naive_solver.
Qed.

#[global] Instance assoc_unordered_map_laws : UnorderedMapLaws V AssocTable.
Proof.
  split; try done.
  - apply at_nodup.
  - intros k v t. apply assoc_Some, at_nodup.
  - intros k v t Hn. cbn in *. unfold at_insert.
    destruct (decide _) as [Hin|]; [|done]. by apply assoc_None in Hn.
  - intros k t i. cbn. rewrite list_elem_of_filter. tauto.
  - intros k t Hk. exists (hash k mod 13). split; [by apply Z.mod_pos_bound|].
    by apply list_elem_of_filter.
Qed.

End assoc_table.
Arguments AssocTable V : clear implicits.
