(* ===== verification/Storage.v ===== *)
(** * The storage engine: [include/storage/StorageEngine.h],
      [include/storage/DictEntry.h], [src/storage/StorageEngine.cpp]

    Each public operation reads the clock, locks one shard and runs a
    critical section on that shard's table and on the engine's atomic
    counters. A critical section is a function [..._locked] from the table
    and the counters to their new values; [with_shard] selects the shard and
    writes it back. The sweeper thread is [sweep_pass].

    Clock readings (values of [now_ms]) are arguments: [now] for the one an operation
    takes, [seed] for the one that seeds the generator of the eviction code. *)

From S2P Require Import Prelude CppStd UnorderedMap.

(** [value_cap] is [value.capacity()]: the memory accounting counts it, and
    it depends on the history of the string object, not only on its bytes. *)
Record DictEntry := mkEntry {
  value : bytes;
  value_cap : Z;
  expire_at_ms : Z;
  last_access_ms : Z
}.

(** What the implementation of the standard library decides. *)
Class Platform := {
  Dict : Type;
  dict_map :: UnorderedMap DictEntry Dict;
  std_hash : bytes -> Z;                  (* [std::hash<std::string>] *)
  Rng : Type;                             (* [std::mt19937] *)
  rng_seed : Z -> Rng;
  rng_uniform : Z -> Rng -> Z * Rng;      (* [uniform_int_distribution(0, n-1)] *)
  cap_copy : Z -> Z;                      (* capacity of a string built from n bytes *)
  cap_assign : Z -> Z -> Z;               (* after copy assignment: old capacity, new size *)
  cap_move : Z -> Z -> Z;                 (* after move assignment: old capacity, new size *)
  sizeof_DictEntry : Z
}.

Class PlatformLaws `{P : Platform} : Prop := {
  dict_laws :: UnorderedMapLaws DictEntry Dict;
  std_hash_range k : 0 <= std_hash k < two64;
  rng_uniform_range n g : 0 < n -> 0 <= fst (rng_uniform n g) < n;
  cap_copy_ge n : 0 <= n -> n <= cap_copy n;
  cap_assign_ge c n : 0 <= n -> n <= cap_assign c n;
  cap_move_ge c n : 0 <= n -> n <= cap_move c n;
  sizeof_DictEntry_pos : 0 < sizeof_DictEntry
}.

(** The atomic members of [StorageEngine]. *)
Record Atomics := mkAtomics {
  total_memory_usage : Z;
  max_memory_bytes : Z;
  keyspace_hits : Z;
  keyspace_misses : Z;
  evicted_keys : Z;
  expired_keys : Z
}.

Definition fetch_add_total (n : Z) (a : Atomics) : Atomics :=
  mkAtomics (u64 (total_memory_usage a + n)) (max_memory_bytes a) (keyspace_hits a)
    (keyspace_misses a) (evicted_keys a) (expired_keys a).
Definition fetch_sub_total (n : Z) (a : Atomics) : Atomics :=
  mkAtomics (u64 (total_memory_usage a - n)) (max_memory_bytes a) (keyspace_hits a)
    (keyspace_misses a) (evicted_keys a) (expired_keys a).
Definition count_hit (a : Atomics) : Atomics :=
  mkAtomics (total_memory_usage a) (max_memory_bytes a) (u64 (keyspace_hits a + 1))
    (keyspace_misses a) (evicted_keys a) (expired_keys a).
Definition count_miss (a : Atomics) : Atomics :=
  mkAtomics (total_memory_usage a) (max_memory_bytes a) (keyspace_hits a)
    (u64 (keyspace_misses a + 1)) (evicted_keys a) (expired_keys a).
Definition count_evicted (a : Atomics) : Atomics :=
  mkAtomics (total_memory_usage a) (max_memory_bytes a) (keyspace_hits a)
    (keyspace_misses a) (u64 (evicted_keys a + 1)) (expired_keys a).
Definition count_expired (a : Atomics) : Atomics :=
  mkAtomics (total_memory_usage a) (max_memory_bytes a) (keyspace_hits a)
    (keyspace_misses a) (evicted_keys a) (u64 (expired_keys a + 1)).

(** [it->second.expire_at_ms > 0 && it->second.expire_at_ms <= now]. *)
Definition is_expired (e : DictEntry) (now : Z) : bool :=
  (0 <? expire_at_ms e) && (expire_at_ms e <=? now).

(** [now_ms()], from the reading of the system clock in nanoseconds since the
    epoch: [duration_cast] rounds towards zero, and the [int64_t] count is
    converted to [uint64_t]. *)
Definition now_ms (ns : Z) : Z := u64 (i64 (Z.quot ns 1000000)).

(** The readings are values of their type, and from the epoch on they follow
    the clock. *)
Lemma now_ms_range ns : 0 <= now_ms ns < two64.
Proof. apply u64_range. Qed.

Lemma now_ms_mono ns ns' : 0 <= ns <= ns' -> ns' <= INT64_MAX -> 0 <= now_ms ns <= now_ms ns'.
Proof.
  intros Hn Hm. unfold INT64_MAX in Hm. split; [apply now_ms_range|]. unfold now_ms.
  assert (0 <= Z.quot ns 1000000 <= Z.quot ns' 1000000) as Hq
    by (split; [apply Z.quot_pos; lia|apply Z.quot_le_mono; lia]).
  assert (Z.quot ns' 1000000 <= ns') as Hq' by (rewrite Z.quot_div_nonneg by lia; apply Z.div_le_upper_bound; lia).
  rewrite !i64_small by (unfold INT64_MIN, INT64_MAX; lia).
  rewrite !u64_small by (unfold two64; lia). lia.
Qed.

Section engine.
Context `{Platform}.

Record StorageEngine := mkEngine {
  shards : list Dict;
  atomics : Atomics;
  running : bool
}.

Definition new_engine (num_shards : nat) : StorageEngine :=
  mkEngine (replicate num_shards um_new) (mkAtomics 0 0 0 0 0 0) true.

Definition set_max_memory (bytes : Z) (eng : StorageEngine) : StorageEngine :=
  let a := atomics eng in
  mkEngine (shards eng)
    (mkAtomics (total_memory_usage a) (u64 bytes) (keyspace_hits a) (keyspace_misses a)
       (evicted_keys a) (expired_keys a))
    (running eng).

Definition memory_usage (eng : StorageEngine) : Z := total_memory_usage (atomics eng).
Definition get_max_memory (eng : StorageEngine) : Z := max_memory_bytes (atomics eng).
Definition get_keyspace_hits (eng : StorageEngine) : Z := keyspace_hits (atomics eng).
Definition get_keyspace_misses (eng : StorageEngine) : Z := keyspace_misses (atomics eng).
Definition get_evicted_keys (eng : StorageEngine) : Z := evicted_keys (atomics eng).
Definition get_expired_keys (eng : StorageEngine) : Z := expired_keys (atomics eng).

(** [entry_cost]. Every key that reaches it is a copy of a request string
    or the key stored in the table, itself such a copy. *)
Definition entry_cost (key : bytes) (value_capacity : Z) : Z :=
  u64 (cap_copy (size_of key) + value_capacity + sizeof_DictEntry + 32).

Definition get_shard_index (key : bytes) (eng : StorageEngine) : Z :=
  std_hash key mod Z.of_nat (length (shards eng)).

(** Run a critical section on the shard of [key]. With no shard at all the
    remainder by zero is undefined behaviour. *)
Definition with_shard {R} (key : bytes) (f : Dict -> Atomics -> res (R * Dict * Atomics))
    (eng : StorageEngine) : res (R * StorageEngine) :=
  let idx := Z.to_nat (get_shard_index key eng) in
  match shards eng !! idx with
  | None => UB
  | Some shard =>
      '(r, shard', a') ← f shard (atomics eng);
      Ok (r, mkEngine (<[idx := shard']> (shards eng)) a' (running eng))
  end.

(** ** Eviction *)

(** One iteration of the sampling loop: the best iterator so far, the access
    time it has, the generator. *)
Definition sample_bucket (shard : Dict) (num_buckets : Z)
    (st : option (bytes * DictEntry) * Z * Rng) : option (bytes * DictEntry) * Z * Rng :=
  let '(best_it, oldest_time, rng) := st in
  let '(bucket_idx, rng) := rng_uniform num_buckets rng in
  match um_bucket shard bucket_idx with
  | [] => (best_it, oldest_time, rng)
  | k :: _ =>
      match um_find k shard with
      | Some e => if last_access_ms e <? oldest_time
                  then (Some (k, e), last_access_ms e, rng)
                  else (best_it, oldest_time, rng)
      | None => (best_it, oldest_time, rng)
      end
  end.

Definition sample_five (shard : Dict) (rng : Rng) : option (bytes * DictEntry) * Z * Rng :=
  Nat.iter 5 (sample_bucket shard (um_bucket_count shard)) (None, UINT64_MAX, rng).

(** The [while] loop. A loop that does not end is [NoFuel]; each round erases
    one element, so a round more than there are elements is enough fuel (see
    [evict_loop_total]). *)
Fixpoint evict_loop (fuel : nat) (needed_bytes freed : Z) (rng : Rng) (shard : Dict)
    (a : Atomics) : res (Z * Dict * Atomics) :=
  match fuel with
  | O => NoFuel
  | S f =>
      match um_elements shard with
      | [] => Ok (freed, shard, a)
      | first :: _ =>
          if freed <? needed_bytes then
            if um_bucket_count shard =? 0 then Ok (freed, shard, a)
            else
              let '(best_it, _, rng) := sample_five shard rng in
              let '(k, e) := default first best_it in
              let cost := entry_cost k (value_cap e) in
              evict_loop f needed_bytes (u64 (freed + cost)) rng (um_erase k shard)
                (count_evicted (fetch_sub_total cost a))
          else Ok (freed, shard, a)
      end
  end.

Definition evict_from_shard (seed needed_bytes : Z) (shard : Dict) (a : Atomics)
    : res (Z * Dict * Atomics) :=
  evict_loop (S (length (um_elements shard))) needed_bytes 0 (rng_seed seed) shard a.

(** The admission test shared by [set], [incr] and [decr]: evict when the
    limit would be exceeded; [false] when not enough could be freed. *)
Definition make_room (new_cost old_cost seed : Z) (shard : Dict) (a : Atomics)
    : res (bool * Dict * Atomics) :=
  let current_mem := total_memory_usage a in
  let max_mem := max_memory_bytes a in
  if (0 <? max_mem) && (u64 (max_mem + old_cost) <? u64 (current_mem + new_cost)) then
    let needed := u64 (u64 (current_mem + new_cost) - u64 (max_mem + old_cost)) in
    '(freed, shard, a) ← evict_from_shard seed needed shard a;
    Ok (negb (freed <? needed), shard, a)
  else Ok (true, shard, a).

(** ** Critical sections *)

Definition set_locked (key val : bytes) (now seed : Z) (shard : Dict) (a : Atomics)
    : res (bool * Dict * Atomics) :=
  let new_cost := entry_cost key (cap_copy (size_of val)) in
  let old_cost := match um_find key shard with
                  | Some e => entry_cost key (value_cap e)
                  | None => 0
                  end in
  '(ok, shard, a) ← make_room new_cost old_cost seed shard a;
  if negb ok then Ok (false, shard, a)
  else
    let a := fetch_add_total (u64 (new_cost - old_cost)) a in
    match um_find key shard with
    | None => Ok (true, um_insert key (mkEntry val (cap_copy (size_of val)) 0 now) shard, a)
    | Some e =>
        Ok (true, um_update key (mkEntry val (cap_assign (value_cap e) (size_of val)) 0 now) shard, a)
    end.

Definition get_locked (key : bytes) (now : Z) (shard : Dict) (a : Atomics)
    : res (option bytes * Dict * Atomics) :=
  match um_find key shard with
  | Some e =>
      if is_expired e now then
        Ok (None, um_erase key shard,
            count_miss (count_expired (fetch_sub_total (entry_cost key (value_cap e)) a)))
      else
        Ok (Some (value e),
            um_update key (mkEntry (value e) (value_cap e) (expire_at_ms e) now) shard,
            count_hit a)
  | None => Ok (None, shard, count_miss a)
  end.

(** The body of the loop of [del]; the result says whether the key went. *)
Definition del_locked (key : bytes) (shard : Dict) (a : Atomics) : res (bool * Dict * Atomics) :=
  match um_find key shard with
  | Some e => Ok (true, um_erase key shard, fetch_sub_total (entry_cost key (value_cap e)) a)
  | None => Ok (false, shard, a)
  end.

(** The body of the loop of [exists]. *)
Definition exists_locked (key : bytes) (now : Z) (shard : Dict) (a : Atomics)
    : res (bool * Dict * Atomics) :=
  match um_find key shard with
  | Some e =>
      if is_expired e now then
        Ok (false, um_erase key shard,
            count_miss (count_expired (fetch_sub_total (entry_cost key (value_cap e)) a)))
      else
        Ok (true, um_update key (mkEntry (value e) (value_cap e) (expire_at_ms e) now) shard,
            count_hit a)
  | None => Ok (false, shard, count_miss a)
  end.

(** The second half of [incr] and [decr]: [it] is the live entry, [val] its
    number. [val++] on [INT64_MAX] is a signed overflow. *)
Definition store_counter (delta : Z) (key : bytes) (it : option DictEntry) (val expire_at : Z)
    (now seed : Z) (shard : Dict) (a : Atomics) : res (option Z * Dict * Atomics) :=
  let val := val + delta in
  if negb (is_i64 val) then UB
  else
    let new_val_str := to_string val in
    let new_cost := entry_cost key (cap_copy (size_of new_val_str)) in
    let old_cost := match it with
                    | Some e => entry_cost key (value_cap e)
                    | None => 0
                    end in
    '(ok, shard, a) ← make_room new_cost old_cost seed shard a;
    if negb ok then Ok (None, shard, a)
    else
      let a := fetch_add_total (u64 (new_cost - old_cost)) a in
      let old_cap := match um_find key shard with
                     | Some e => value_cap e
                     | None => cap_copy 0
                     end in
      Ok (Some val,
          um_put key (mkEntry new_val_str (cap_move old_cap (size_of new_val_str)) expire_at now) shard,
          a).

(** [incr] is [delta = 1], [decr] is [delta = -1]. *)
Definition counter_locked (delta : Z) (key : bytes) (now seed : Z) (shard : Dict) (a : Atomics)
    : res (option Z * Dict * Atomics) :=
  match um_find key shard with
  | Some e =>
      if is_expired e now then
        store_counter delta key None 0 0 now seed (um_erase key shard)
          (fetch_sub_total (entry_cost key (value_cap e)) a)
      else
        let r := from_chars_i64 (value e) in
        if bool_decide (fc_ec r <> errc_ok) || negb (fc_ptr r =? size_of (value e)) then
          Ok (None, shard, a)
        else store_counter delta key (Some e) (fc_val r) (expire_at_ms e) now seed shard a
  | None => store_counter delta key None 0 0 now seed shard a
  end.

(** [expire] and [expire_at] differ in the deadline they store. *)
Definition expire_at_locked (key : bytes) (deadline now : Z) (shard : Dict) (a : Atomics)
    : res (bool * Dict * Atomics) :=
  match um_find key shard with
  | Some e =>
      if is_expired e now then
        Ok (false, um_erase key shard,
            count_expired (fetch_sub_total (entry_cost key (value_cap e)) a))
      else
        Ok (true, um_update key (mkEntry (value e) (value_cap e) deadline now) shard, a)
  | None => Ok (false, shard, a)
  end.

Definition expire_locked (key : bytes) (ms_offset now : Z) (shard : Dict) (a : Atomics)
    : res (bool * Dict * Atomics) :=
  expire_at_locked key (u64 (now + ms_offset)) now shard a.

Definition pttl_locked (key : bytes) (now : Z) (shard : Dict) (a : Atomics)
    : res (Z * Dict * Atomics) :=
  match um_find key shard with
  | Some e =>
      if 0 <? expire_at_ms e then
        if expire_at_ms e <=? now then
          Ok (-2, um_erase key shard, fetch_sub_total (entry_cost key (value_cap e)) a)
        else Ok (i64 (expire_at_ms e - now), shard, a)
      else Ok (-1, shard, a)
  | None => Ok (-2, shard, a)
  end.

Definition persist_locked (key : bytes) (now : Z) (shard : Dict) (a : Atomics)
    : res (bool * Dict * Atomics) :=
  match um_find key shard with
  | Some e =>
      if is_expired e now then
        Ok (false, um_erase key shard, fetch_sub_total (entry_cost key (value_cap e)) a)
      else if expire_at_ms e =? 0 then Ok (false, shard, a)
      else Ok (true, um_update key (mkEntry (value e) (value_cap e) 0 now) shard, a)
  | None => Ok (false, shard, a)
  end.

(** ** Public operations *)

Definition set (key val : bytes) (now seed : Z) : StorageEngine -> res (bool * StorageEngine) :=
  with_shard key (set_locked key val now seed).

Definition get (key : bytes) (now : Z) : StorageEngine -> res (option bytes * StorageEngine) :=
  with_shard key (get_locked key now).

Definition incr (key : bytes) (now seed : Z) : StorageEngine -> res (option Z * StorageEngine) :=
  with_shard key (counter_locked 1 key now seed).

Definition decr (key : bytes) (now seed : Z) : StorageEngine -> res (option Z * StorageEngine) :=
  with_shard key (counter_locked (-1) key now seed).

Definition expire (key : bytes) (ms_offset now : Z) : StorageEngine -> res (bool * StorageEngine) :=
  with_shard key (expire_locked key ms_offset now).

Definition expire_at (key : bytes) (absolute_ms now : Z)
    : StorageEngine -> res (bool * StorageEngine) :=
  with_shard key (expire_at_locked key absolute_ms now).

Definition pttl (key : bytes) (now : Z) : StorageEngine -> res (Z * StorageEngine) :=
  with_shard key (pttl_locked key now).

Definition persist (key : bytes) (now : Z) : StorageEngine -> res (bool * StorageEngine) :=
  with_shard key (persist_locked key now).

(** The loops of [del] and [exists]: one critical section per key. The counter
    is an [int], and [count++] on [INT_MAX] is a signed overflow. *)
Fixpoint count_keys (f : bytes -> Dict -> Atomics -> res (bool * Dict * Atomics))
    (keys : list bytes) (count : Z) (eng : StorageEngine) : res (Z * StorageEngine) :=
  match keys with
  | [] => Ok (count, eng)
  | key :: keys' =>
      '(b, eng) ← with_shard key (f key) eng;
      if b : bool then
        if INT_MAX <? count + 1 then UB else count_keys f keys' (count + 1) eng
      else count_keys f keys' count eng
  end.

Definition del (keys : list bytes) : StorageEngine -> res (Z * StorageEngine) :=
  count_keys del_locked keys 0.

Definition exists_ (keys : list bytes) (now : Z) : StorageEngine -> res (Z * StorageEngine) :=
  count_keys (fun key => exists_locked key now) keys 0.

(** ** The sweeper *)

(** The [for] loop over one shard. [its] is the rest of the iteration: erasing
    an element keeps the order of the others. *)
Fixpoint sweep_loop (its : list (bytes * DictEntry)) (checked : Z) (now : Z) (shard : Dict)
    (a : Atomics) : Dict * Atomics :=
  match its with
  | [] => (shard, a)
  | (k, e) :: its' =>
      if checked <? 20 then
        if is_expired e now then
          sweep_loop its' (checked + 1) now (um_erase k shard)
            (count_expired (fetch_sub_total (entry_cost k (value_cap e)) a))
        else sweep_loop its' (checked + 1) now shard a
      else (shard, a)
  end.

Definition sweep_shard (now : Z) (shard : Dict) (a : Atomics) : Dict * Atomics :=
  sweep_loop (um_elements shard) 0 now shard a.

(** One pass over the shards; [owns_lock i] tells whether [try_to_lock]
    succeeded on the i-th one. *)
Fixpoint sweep_shards (i : nat) (owns_lock : nat -> bool) (now : Z) (ss : list Dict) (a : Atomics)
    : list Dict * Atomics :=
  match ss with
  | [] => ([], a)
  | s :: ss' =>
      let '(s', a') := if owns_lock i then sweep_shard now s a else (s, a) in
      let '(ss'', a'') := sweep_shards (S i) owns_lock now ss' a' in
      (s' :: ss'', a'')
  end.

Definition sweep_pass (owns_lock : nat -> bool) (now : Z) (eng : StorageEngine) : StorageEngine :=
  let '(ss, a) := sweep_shards 0 owns_lock now (shards eng) (atomics eng) in
  mkEngine ss a (running eng).

(** [~StorageEngine] clears [running_] and joins the sweeper. *)
Definition stop_sweeper (eng : StorageEngine) : StorageEngine :=
  mkEngine (shards eng) (atomics eng) false.

(** The sweeper's loop, on the rounds it makes: whether the engine is being
    destroyed during the sleep of the round, the clock reading and the outcome
    of [try_to_lock]. *)
Fixpoint background_sweeper (rounds : list (bool * Z * (nat -> bool))) (eng : StorageEngine)
    : StorageEngine :=
  match rounds with
  | [] => eng
  | (destroyed, now, owns_lock) :: rounds' =>
      if negb (running eng) then eng
      else
        let eng := if destroyed then stop_sweeper eng else eng in
        if negb (running eng) then eng
        else background_sweeper rounds' (sweep_pass owns_lock now eng)
  end.

End engine.
