(* ===== verification/StdPlatform.v ===== *)
(** * A concrete platform

    libstdc++'s rules for string capacities (15 bytes of local buffer, exact
    allocation on construction, capacity kept or at least doubled on
    assignment), the 48-byte [DictEntry] of a 64-bit build, the association
    table of [UnorderedMap], and small concrete functions for the hash and the
    generator. The theorems of the development hold for every platform with
    the laws of [PlatformLaws]; this instance shows the laws can hold and runs
    the examples. *)

From S2P Require Import Prelude CppStd RESP RESPProofs UnorderedMap Storage.

(** A polynomial byte hash. *)
Definition poly_hash (s : bytes) : Z :=
  foldl (fun h c => u64 (h * 31 + Z.of_nat (nat_of_ascii c))) 7 s.

Lemma poly_hash_range s : 0 <= poly_hash s < two64.
Proof.
  unfold poly_hash. assert (0 <= 7 < two64) as H by done. revert H. generalize 7.
  induction s as [|c s IH]; intros z Hz; simpl; [done|]. apply IH, u64_range.
Qed.

(** A linear congruential generator. *)
Definition lcg (n g : Z) : Z * Z :=
  let g' := u64 (g * 6364136223846793005 + 1442695040888963407) in (g' mod n, g').

Definition sso_capacity : Z := 15.

#[export] Instance libstdcxx : Platform := {|
  Dict := AssocTable DictEntry;
  dict_map := assoc_unordered_map poly_hash;
  std_hash := poly_hash;
  Rng := Z;
  rng_seed z := u64 z;
  rng_uniform := lcg;
  cap_copy n := Z.max sso_capacity n;
  cap_assign c n := if n <=? c then c else Z.max n (2 * c);
  cap_move c n := if n <=? sso_capacity then Z.max c sso_capacity else n;
  sizeof_DictEntry := 48
|}.

#[export] Instance libstdcxx_laws : PlatformLaws.
Proof.
  split; cbn; try done.
  - apply assoc_unordered_map_laws.
  - apply poly_hash_range.
  - intros n g Hn. by apply Z.mod_pos_bound.
  - intros; lia.
  - intros c n Hn. destruct (Z.leb_spec n c); lia.
  - intros c n Hn. unfold sso_capacity. destruct (Z.leb_spec n 15); lia.
Qed.

(** The server's engine: 16 shards. *)
Definition engine0 : StorageEngine := new_engine 16.

Example set_get_ex :
  ('(ok, eng) ← set (lit "k") (lit "v") 100 100 engine0;
   '(v, eng) ← get (lit "k") 101 eng;
   Ok (ok, v, memory_usage eng)) = Ok (true, Some (lit "v"), 15 + 15 + 48 + 32).
Proof. vm_compute. reflexivity. Qed.
