(* ===== verification/StorageProofs.v ===== *)
(** * The storage engine: invariant and frame

    Lemmas on the critical sections and their lift to the engine: which keys
    an operation may change, the placement invariant (every key lives in the
    shard its hash selects), the ranges of the stored fields and counters,
    and the exit conditions of the eviction loop. *)

From S2P Require Import Prelude CppStd UnorderedMap Storage RESP RESPProofs StdPlatform.

(** ** Specifications of the engine's state *)

Section spec.
Context `{Platform}.

(** The entry the engine holds for a key, expired or not. *)
Definition elookup (key : bytes) (eng : StorageEngine) : option DictEntry :=
  shards eng !! Z.to_nat (get_shard_index key eng) ≫= um_find key.

(** The fields of an entry are values of their types. *)
Definition entry_wf (e : DictEntry) : Prop :=
  0 <= expire_at_ms e < two64 /\ 0 <= last_access_ms e < two64 /\ size_of (value e) <= value_cap e.

Definition shard_wf (s : Dict) : Prop := forall k e, um_find k s = Some e -> entry_wf e.

Definition atomics_wf (a : Atomics) : Prop :=
  0 <= total_memory_usage a < two64 /\ 0 <= max_memory_bytes a < two64 /\
  0 <= keyspace_hits a < two64 /\ 0 <= keyspace_misses a < two64 /\
  0 <= evicted_keys a < two64 /\ 0 <= expired_keys a < two64.

(** The engine's representation invariant. *)
Record engine_wf (eng : StorageEngine) : Prop := {
  wf_shards : shards eng <> [];
  wf_placed i s k : shards eng !! i = Some s -> is_Some (um_find k s) ->
    Z.to_nat (get_shard_index k eng) = i;
  wf_entries i s : shards eng !! i = Some s -> shard_wf s;
  wf_atomics : atomics_wf (atomics eng)
}.

(** [s'] holds [s]'s entries, except that keys in [except] may differ and any
    key may have been dropped. *)
Definition shrinks_but (except : bytes -> Prop) (s s' : Dict) : Prop :=
  forall k, ~ except k -> um_find k s' = um_find k s \/ um_find k s' = None.

Definition same_but (except : bytes -> Prop) (s s' : Dict) : Prop :=
  forall k, ~ except k -> um_find k s' = um_find k s.

End spec.

(** The cases of a critical section that ended in [Ok]. *)
Ltac locked_cases E :=
  repeat match type of E with
  | context [match um_find ?k ?s with _ => _ end] => destruct (um_find k s) eqn:?F
  | context [if ?b then _ else _] => destruct b eqn:?C
  end; res_inv.

Ltac find_other := intros ? ?; rewrite ?um_find_erase, ?um_find_update;
  rewrite ?bool_decide_eq_false_2 by congruence; done.

Section proofs.
Context `{PL : PlatformLaws}.
Implicit Types (k key : bytes) (s : Dict) (a : Atomics) (e : DictEntry).

(** ** Eviction *)

(** The best candidate of the sampling loop is in the table. *)
Lemma sample_five_found s g best old g' :
  sample_five s g = (best, old, g') ->
  forall k e, best = Some (k, e) -> um_find k s = Some e /\ old = last_access_ms e.
Proof.
  unfold sample_five. generalize (um_bucket_count s) as nb. intros nb.
  assert (forall n best old g', Nat.iter n (sample_bucket s nb) (None, UINT64_MAX, g) = (best, old, g') ->
    forall k e, best = Some (k, e) -> um_find k s = Some e /\ old = last_access_ms e) as HI.
  { induction n as [|n IH]; simpl; intros b o g1 E k e Hb; [simplify_eq|].
    destruct (Nat.iter n _ _) as [[b0 o0] g0] eqn:E0. specialize (IH b0 o0 g0 eq_refl).
    unfold sample_bucket in E. destruct (rng_uniform nb g0) as [i g2].
    destruct (um_bucket s i) as [|k1 ks]; [simplify_eq; auto|].
    destruct (um_find k1 s) as [e1|] eqn:F; [|simplify_eq; auto].
    destruct (_ <? _); simplify_eq; auto. }
  intros E. by eapply (HI 5%nat).
Qed.

(** The element one round of the loop erases: it is in the table. *)
Lemma victim_found s g best old g' k0 e0 l k e :
  um_elements s = (k0, e0) :: l -> sample_five s g = (best, old, g') ->
  default (k0, e0) best = (k, e) -> um_find k s = Some e.
Proof.
  intros El Es Ed. destruct best as [[k1 e1]|]; simpl in Ed; simplify_eq.
  - eapply (sample_five_found _ _ _ _ _ Es). done.
  - apply um_find_elements. rewrite El. left.
Qed.

(** What the loop does to the table and the counters, by induction over its
    rounds: a relation [Q] that one round establishes and that composes. *)
Lemma evict_loop_ind (Q : Dict -> Atomics -> Dict -> Atomics -> Prop) :
  (forall s a, Q s a s a) ->
  (forall s a k e s' a', um_find k s = Some e ->
     Q (um_erase k s) (count_evicted (fetch_sub_total (entry_cost k (value_cap e)) a)) s' a' ->
     Q s a s' a') ->
  forall fuel needed freed g s a freed' s' a',
    evict_loop fuel needed freed g s a = Ok (freed', s', a') -> Q s a s' a'.
Proof.
  intros Q0 Q1. induction fuel as [|f IH]; simpl; intros needed freed g s a freed' s' a' E; [done|].
  destruct (um_elements s) as [|[k0 e0] l] eqn:El; [simplify_eq; auto|].
  destruct (freed <? needed); [|simplify_eq; auto].
  destruct (_ =? 0); [simplify_eq; auto|].
  destruct (sample_five s g) as [[best old] g'] eqn:Es.
  destruct (default (k0, e0) best) as [k e] eqn:Ed.
  eapply Q1; [by eapply victim_found|]. by eapply IH.
Qed.

(** The loop stops because enough was freed or the shard is empty. *)
Lemma evict_loop_exit fuel needed freed g s a freed' s' a' :
  evict_loop fuel needed freed g s a = Ok (freed', s', a') ->
  needed <= freed' \/ um_elements s' = [].
Proof.
  revert freed g s a. induction fuel as [|f IH]; simpl; intros freed g s a E; [done|].
  destruct (um_elements s) as [|[k0 e0] l] eqn:El; [simplify_eq; auto|].
  destruct (Z.ltb_spec freed needed); [|simplify_eq; auto].
  destruct (Z.eqb_spec (um_bucket_count s) 0) as [Hz|_].
  { pose proof (um_bucket_count_pos s). rewrite El in *. naive_solver lia. }
  destruct (sample_five s g) as [[best old] g'].
  destruct (default (k0, e0) best) as [k e]. by eapply IH.
Qed.

(** The loop ends: each round erases the element it picked, so it makes at most
    as many rounds as there are elements. *)
Lemma evict_loop_total fuel needed freed g s a :
  (length (um_elements s) < fuel)%nat ->
  exists freed' s' a', evict_loop fuel needed freed g s a = Ok (freed', s', a').
Proof.
  revert freed g s a. induction fuel as [|f IH]; simpl; intros freed g s a Hl; [lia|].
  destruct (um_elements s) as [|[k0 e0] l] eqn:El; [eauto|].
  destruct (freed <? needed); [|eauto]. destruct (_ =? 0); [eauto|].
  destruct (sample_five s g) as [[best old] g'] eqn:Es.
  destruct (default (k0, e0) best) as [k e] eqn:Ed.
  apply IH. pose proof (um_erase_length k e s) as Hlen.
  rewrite (victim_found _ _ _ _ _ _ _ _ _ _ El Es Ed), El in Hlen. simpl in *.
  specialize (Hlen eq_refl). lia.
Qed.

Lemma evict_from_shard_total seed needed s a :
  exists freed s' a', evict_from_shard seed needed s a = Ok (freed, s', a').
Proof. apply evict_loop_total. lia. Qed.

Lemma evict_shrinks seed needed s a freed s' a' :
  evict_from_shard seed needed s a = Ok (freed, s', a') ->
  shrinks_but (fun _ => False) s s' /\ (forall k e, um_find k s' = Some e -> um_find k s = Some e).
Proof.
  unfold evict_from_shard. revert freed s' a'.
  enough (forall fuel freed g freed' s' a', evict_loop fuel needed freed g s a = Ok (freed', s', a') ->
    (forall k, um_find k s' = um_find k s \/ um_find k s' = None)) as HE.
  { intros freed s' a' E. pose proof (HE _ _ _ _ _ _ E) as HE'. split; [intros k _; apply HE'|].
    intros k e. destruct (HE' k) as [->| ->]; done. }
  intros fuel freed g freed' s' a'.
  apply (evict_loop_ind (fun s _ s' _ => forall k, um_find k s' = um_find k s \/ um_find k s' = None));
    clear -PL; [auto|].
  intros s a k e s' a' F IH k'. destruct (IH k') as [->| ->]; [|by right].
  rewrite um_find_erase. case_bool_decide; auto.
Qed.

Lemma evict_atomics_wf seed needed s a freed s' a' :
  atomics_wf a -> evict_from_shard seed needed s a = Ok (freed, s', a') -> atomics_wf a'.
Proof.
  intros Ha E. unfold evict_from_shard in E. revert E Ha.
  apply (evict_loop_ind (fun _ a _ a' => atomics_wf a -> atomics_wf a')); clear -PL; [done|].
  intros s a k e s' a' F IH (H1 & H2 & H3 & H4 & H5 & H6). apply IH.
  repeat split; cbn; try apply u64_range; tauto.
Qed.

(** ** Admission *)

Lemma make_room_unlimited nc oc seed s a :
  max_memory_bytes a = 0 -> make_room nc oc seed s a = Ok (true, s, a).
Proof. intros Hm. unfold make_room. by rewrite Hm. Qed.

Lemma make_room_spec nc oc seed s a ok s' a' :
  make_room nc oc seed s a = Ok (ok, s', a') ->
  (forall k, um_find k s' = um_find k s \/ um_find k s' = None) /\
  (atomics_wf a -> atomics_wf a') /\ max_memory_bytes a' = max_memory_bytes a /\
  (max_memory_bytes a = 0 -> ok = true /\ s' = s /\ a' = a) /\
  (ok = false -> um_elements s' = []).
Proof.
  unfold make_room. destruct ((0 <? _) && _) eqn:E.
  - intros ([[freed s1] a1] & Ev & [= <- <- <-])%bind_Ok.
    destruct (evict_shrinks _ _ _ _ _ _ _ Ev) as [Hs _].
    split_and!.
    + intros k. apply Hs. auto.
    + intros Ha. by eapply evict_atomics_wf.
    + unfold evict_from_shard in Ev. revert Ev.
      by apply (evict_loop_ind (fun _ a _ a' => max_memory_bytes a' = max_memory_bytes a)).
    + intros Hm. rewrite Hm in E. done.
    + intros Hok. zb. apply evict_loop_exit in Ev as [Hf|]; [lia|done].
  - intros [= <- <- <-]. split_and!; try done; auto.
Qed.

Lemma make_room_total nc oc seed s a : exists ok s' a', make_room nc oc seed s a = Ok (ok, s', a').
Proof.
  unfold make_room. destruct (_ && _); [|eauto].
  match goal with |- context [evict_from_shard _ ?n _ _] =>
    destruct (evict_from_shard_total seed n s a) as (freed & s' & a' & ->) end. cbn. eauto.
Qed.

(** ** Lifting a critical section to the engine *)

Lemma shard_index_lt key eng : shards eng <> [] ->
  (Z.to_nat (get_shard_index key eng) < length (shards eng))%nat.
Proof.
  intros Hne. unfold get_shard_index.
  assert (0 < Z.of_nat (length (shards eng))) by (destruct (shards eng); [done|simpl; lia]).
  pose proof (Z.mod_pos_bound (std_hash key) (Z.of_nat (length (shards eng)))). lia.
Qed.

Lemma with_shard_inv {R} key (f : Dict -> Atomics -> res (R * Dict * Atomics)) eng r eng' :
  with_shard key f eng = Ok (r, eng') ->
  exists s s' a', shards eng !! Z.to_nat (get_shard_index key eng) = Some s /\
    f s (atomics eng) = Ok (r, s', a') /\
    eng' = mkEngine (<[Z.to_nat (get_shard_index key eng) := s']> (shards eng)) a' (running eng).
Proof.
  unfold with_shard. destruct (shards eng !! _) as [s|] eqn:Es; [|done].
  intros ((( r0 & s') & a') & Ef & E)%bind_Ok. simplify_eq. eauto 10.
Qed.

Lemma with_shard_Ok {R} key (f : Dict -> Atomics -> res (R * Dict * Atomics)) eng :
  shards eng <> [] ->
  exists s, shards eng !! Z.to_nat (get_shard_index key eng) = Some s /\
    elookup key eng = um_find key s /\
    forall r s' a', f s (atomics eng) = Ok (r, s', a') ->
      with_shard key f eng =
        Ok (r, mkEngine (<[Z.to_nat (get_shard_index key eng) := s']> (shards eng)) a' (running eng)).
Proof.
  intros Hne. destruct (lookup_lt_is_Some_2 (shards eng) _ (shard_index_lt key eng Hne)) as [s Hs].
  exists s. split_and!; [done|unfold elookup; by rewrite Hs|].
  intros r s' a' Ef. unfold with_shard. rewrite Hs, Ef. done.
Qed.

Lemma insert_shard_index key eng i s' a' b :
  get_shard_index key (mkEngine (<[i := s']> (shards eng)) a' b) = get_shard_index key eng.
Proof. unfold get_shard_index. cbn. by rewrite length_insert. Qed.

(** Lookups after the shard of [key] was replaced by [s']. *)
Lemma elookup_insert key eng s s' a' b k :
  shards eng !! Z.to_nat (get_shard_index key eng) = Some s ->
  elookup k (mkEngine (<[Z.to_nat (get_shard_index key eng) := s']> (shards eng)) a' b) =
    if bool_decide (Z.to_nat (get_shard_index k eng) = Z.to_nat (get_shard_index key eng))
    then um_find k s' else elookup k eng.
Proof.
  intros Hs. unfold elookup. rewrite insert_shard_index. cbn [shards].
  case_bool_decide as E.
  - rewrite E, list_lookup_insert_eq by (by eapply lookup_lt_Some). done.
  - rewrite list_lookup_insert_ne by done. done.
Qed.

Lemma elookup_shard key eng s k :
  shards eng !! Z.to_nat (get_shard_index key eng) = Some s ->
  Z.to_nat (get_shard_index k eng) = Z.to_nat (get_shard_index key eng) ->
  elookup k eng = um_find k s.
Proof. intros Hs E. unfold elookup. by rewrite E, Hs. Qed.

(** The effect of a critical section that changes the entry of [key] and may
    drop others. *)
Lemma with_shard_lookup {R} key (f : Dict -> Atomics -> res (R * Dict * Atomics)) eng r eng' :
  with_shard key f eng = Ok (r, eng') ->
  exists s s', shards eng !! Z.to_nat (get_shard_index key eng) = Some s /\
    elookup key eng = um_find key s /\ elookup key eng' = um_find key s' /\
    f s (atomics eng) = Ok (r, s', atomics eng') /\
    (same_but (eq key) s s' -> forall k, k <> key -> elookup k eng' = elookup k eng) /\
    (shrinks_but (eq key) s s' ->
       forall k, k <> key -> elookup k eng' = elookup k eng \/ elookup k eng' = None).
Proof.
  intros (s & s' & a' & Hs & Ef & ->)%with_shard_inv. exists s, s'.
  split_and!; [done|by apply (elookup_shard key)| |done| |].
  - rewrite (elookup_insert _ _ s) by done. by rewrite bool_decide_eq_true_2.
  - intros Hsame k Hk. rewrite (elookup_insert _ _ s) by done. case_bool_decide as E; [|done].
    rewrite (elookup_shard key _ s) by done. by apply Hsame.
  - intros Hsh k Hk. rewrite (elookup_insert _ _ s) by done. case_bool_decide as E; [|by left].
    rewrite (elookup_shard key _ s) by done. by apply Hsh.
Qed.

(** The invariant is preserved by a critical section that keeps the shard's
    entries and the counters in range and adds no key but [key]. *)
Lemma with_shard_wf {R} key (f : Dict -> Atomics -> res (R * Dict * Atomics)) eng r eng' :
  engine_wf eng ->
  (forall s r s' a', shard_wf s -> f s (atomics eng) = Ok (r, s', a') ->
     shrinks_but (eq key) s s' /\ shard_wf s' /\ atomics_wf a') ->
  with_shard key f eng = Ok (r, eng') -> engine_wf eng'.
Proof.
  intros [W1 W2 W3 W4] Hf (s & s' & a' & Hs & Ef & ->)%with_shard_inv.
  destruct (Hf s r s' a') as (Hsh & Hw & Ha); [by eapply W3|done|].
  split; cbn; [by destruct (shards eng); destruct (Z.to_nat _) | | |done].
  - intros i s0 k Hi Hk. rewrite insert_shard_index.
    destruct (decide (Z.to_nat (get_shard_index key eng) = i)) as [<-|Hne].
    + rewrite list_lookup_insert_eq in Hi by (by eapply lookup_lt_Some). simplify_eq.
      destruct (decide (key = k)) as [<-|Hk']; [done|].
      apply (W2 _ s); [done|]. destruct (Hsh k Hk') as [E|E]; rewrite E in Hk; [done|].
      by destruct Hk.
    + rewrite list_lookup_insert_ne in Hi by done. by apply (W2 _ s0).
  - intros i s0 Hi. destruct (decide (Z.to_nat (get_shard_index key eng) = i)) as [<-|Hne].
    + rewrite list_lookup_insert_eq in Hi by (by eapply lookup_lt_Some). by simplify_eq.
    + rewrite list_lookup_insert_ne in Hi by done. by eapply W3.
Qed.

(** ** The critical sections, one by one *)

Lemma shard_wf_erase k s : shard_wf s -> shard_wf (um_erase k s).
Proof. intros Hs k' e. rewrite um_find_erase. case_bool_decide; [done|]. apply Hs. Qed.

Lemma shard_wf_update k e s : shard_wf s -> entry_wf e -> shard_wf (um_update k e s).
Proof.
  intros Hs He k' e'. rewrite um_find_update. case_bool_decide; [|apply Hs].
  destruct (um_find k s); naive_solver.
Qed.

Lemma shard_wf_insert k e s :
  um_find k s = None -> shard_wf s -> entry_wf e -> shard_wf (um_insert k e s).
Proof.
  intros Hn Hs He k' e'. rewrite um_find_insert by done. case_bool_decide; [naive_solver|apply Hs].
Qed.

Lemma shard_wf_put k e s : shard_wf s -> entry_wf e -> shard_wf (um_put k e s).
Proof.
  intros Hs He. unfold um_put. destruct (um_find k s) eqn:E;
    [by apply shard_wf_update|by apply shard_wf_insert].
Qed.

Lemma shard_wf_shrink s s' : shard_wf s ->
  (forall k, um_find k s' = um_find k s \/ um_find k s' = None) -> shard_wf s'.
Proof. intros Hs Hsh k e F. destruct (Hsh k) as [E|E]; rewrite E in F; [by eapply Hs|done]. Qed.

Lemma atomics_wf_add n a : atomics_wf a -> atomics_wf (fetch_add_total n a).
Proof. intros (?&?&?&?&?&?). repeat split; cbn; try apply u64_range; tauto. Qed.
Lemma atomics_wf_sub n a : atomics_wf a -> atomics_wf (fetch_sub_total n a).
Proof. intros (?&?&?&?&?&?). repeat split; cbn; try apply u64_range; tauto. Qed.
Lemma atomics_wf_hit a : atomics_wf a -> atomics_wf (count_hit a).
Proof. intros (?&?&?&?&?&?). repeat split; cbn; try apply u64_range; tauto. Qed.
Lemma atomics_wf_miss a : atomics_wf a -> atomics_wf (count_miss a).
Proof. intros (?&?&?&?&?&?). repeat split; cbn; try apply u64_range; tauto. Qed.
Lemma atomics_wf_expired a : atomics_wf a -> atomics_wf (count_expired a).
Proof. intros (?&?&?&?&?&?). repeat split; cbn; try apply u64_range; tauto. Qed.

Hint Resolve shard_wf_erase shard_wf_update shard_wf_insert shard_wf_put atomics_wf_add
  atomics_wf_sub atomics_wf_hit atomics_wf_miss atomics_wf_expired : kv.

Lemma get_locked_frame key now s a r s' a' :
  get_locked key now s a = Ok (r, s', a') ->
  same_but (eq key) s s' /\
  (shard_wf s -> atomics_wf a -> 0 <= now < two64 -> shard_wf s' /\ atomics_wf a').
Proof.
  unfold get_locked. intros E. locked_cases E; (split; [find_other|]); auto with kv.
  intros Hs Ha Hn. split; [|auto with kv]. apply shard_wf_update; [done|].
  destruct (Hs _ _ F) as (?&?&?). done.
Qed.

Lemma exists_locked_frame key now s a r s' a' :
  exists_locked key now s a = Ok (r, s', a') ->
  same_but (eq key) s s' /\
  (shard_wf s -> atomics_wf a -> 0 <= now < two64 -> shard_wf s' /\ atomics_wf a').
Proof.
  unfold exists_locked. intros E. locked_cases E; (split; [find_other|]); auto with kv.
  intros Hs Ha Hn. split; [|auto with kv]. apply shard_wf_update; [done|].
  destruct (Hs _ _ F) as (?&?&?). done.
Qed.

Lemma del_locked_frame key s a r s' a' :
  del_locked key s a = Ok (r, s', a') ->
  same_but (eq key) s s' /\
  (shard_wf s -> atomics_wf a -> shard_wf s' /\ atomics_wf a').
Proof. unfold del_locked. intros E. locked_cases E; (split; [find_other|]); auto with kv. Qed.

Lemma expire_at_locked_frame key d now s a r s' a' :
  expire_at_locked key d now s a = Ok (r, s', a') ->
  same_but (eq key) s s' /\
  (shard_wf s -> atomics_wf a -> 0 <= now < two64 -> 0 <= d < two64 ->
   shard_wf s' /\ atomics_wf a').
Proof.
  unfold expire_at_locked. intros E. locked_cases E; (split; [find_other|]); auto with kv.
  intros Hs Ha Hn Hd. split; [|done]. apply shard_wf_update; [done|].
  destruct (Hs _ _ F) as (?&?&?). done.
Qed.

Lemma pttl_locked_frame key now s a r s' a' :
  pttl_locked key now s a = Ok (r, s', a') ->
  same_but (eq key) s s' /\ (shard_wf s -> atomics_wf a -> shard_wf s' /\ atomics_wf a').
Proof. unfold pttl_locked. intros E. locked_cases E; (split; [find_other|]); auto with kv. Qed.

Lemma persist_locked_frame key now s a r s' a' :
  persist_locked key now s a = Ok (r, s', a') ->
  same_but (eq key) s s' /\
  (shard_wf s -> atomics_wf a -> 0 <= now < two64 -> shard_wf s' /\ atomics_wf a').
Proof.
  unfold persist_locked. intros E. locked_cases E; (split; [find_other|]); auto with kv.
  intros Hs Ha Hn. split; [|done]. apply shard_wf_update; [done|].
  destruct (Hs _ _ F) as (?&?&?). done.
Qed.

(** [set]: on success the key holds the new value without deadline; on
    failure the shard was emptied. *)
Lemma set_locked_spec key val now seed s a r s' a' :
  set_locked key val now seed s a = Ok (r, s', a') ->
  shrinks_but (eq key) s s' /\
  (max_memory_bytes a = 0 -> r = true /\ same_but (eq key) s s') /\
  (if r then exists c, size_of val <= c /\ um_find key s' = Some (mkEntry val c 0 now)
   else um_elements s' = []) /\
  (shard_wf s -> atomics_wf a -> 0 <= now < two64 -> shard_wf s' /\ atomics_wf a').
Proof.
  unfold set_locked. intros ([[ok s1] a1] & Em & E)%bind_Ok.
  destruct (make_room_spec _ _ _ _ _ _ _ _ Em) as (M1 & M2 & M3 & M4 & M5).
  pose proof (size_of_nonneg val) as Hv. destruct ok; simpl in E.
  2: { res_inv. split_and!; [by intros k _|naive_solver|auto|].
       intros Hs Ha _. split; [by eapply shard_wf_shrink|auto]. }
  assert (shard_wf s -> shard_wf s1) as Hw by (intros; by eapply shard_wf_shrink).
  destruct (um_find key s1) as [e|] eqn:F; res_inv.
  - pose proof (cap_assign_ge (value_cap e) _ Hv).
    split_and!.
    + intros k Hk. rewrite um_find_update, bool_decide_eq_false_2 by congruence. auto.
    + intros Hm. destruct (M4 Hm) as (_ & -> & _). split; [done|find_other].
    + eexists. rewrite um_find_update, F, bool_decide_eq_true_2 by done. done.
    + intros Hs Ha Hn. split; [|auto with kv]. apply shard_wf_update; [auto|]. done.
  - pose proof (cap_copy_ge _ Hv). split_and!.
    + intros k Hk. rewrite um_find_insert, bool_decide_eq_false_2 by (done || congruence). auto.
    + intros Hm. destruct (M4 Hm) as (_ & -> & _). split; [done|].
      intros k Hk. rewrite um_find_insert, bool_decide_eq_false_2 by (done || congruence). done.
    + eexists. rewrite um_find_insert, bool_decide_eq_true_2 by done. done.
    + intros Hs Ha Hn. split; [|auto with kv]. apply shard_wf_insert; [done|auto|]. done.
Qed.

Lemma store_counter_spec delta key it val exp now seed s a r s' a' :
  store_counter delta key it val exp now seed s a = Ok (r, s', a') ->
  is_i64 (val + delta) = true /\ shrinks_but (eq key) s s' /\
  (max_memory_bytes a = 0 -> r = Some (val + delta) /\ same_but (eq key) s s') /\
  (if r is Some v then v = val + delta /\ exists c, size_of (to_string v) <= c /\
      um_find key s' = Some (mkEntry (to_string v) c exp now)
   else um_elements s' = []) /\
  (shard_wf s -> atomics_wf a -> 0 <= now < two64 -> 0 <= exp < two64 ->
   shard_wf s' /\ atomics_wf a').
Proof.
  unfold store_counter. destruct (is_i64 (val + delta)) eqn:Hi; [|done]. cbn [negb].
  intros ([[ok s1] a1] & Em & E)%bind_Ok.
  destruct (make_room_spec _ _ _ _ _ _ _ _ Em) as (M1 & M2 & M3 & M4 & M5).
  pose proof (size_of_nonneg (to_string (val + delta))) as Hv. destruct ok; simpl in E.
  2: { res_inv. split_and!; [done|by intros k _|naive_solver|auto|].
       intros Hs Ha _ _. split; [by eapply shard_wf_shrink|auto]. }
  res_inv. match goal with |- context [cap_move ?c ?n] =>
    pose proof (cap_move_ge c n Hv); set (cap := cap_move c n) in * end.
  split_and!; [done| | |done| |].
  - intros k Hk. rewrite um_find_put, bool_decide_eq_false_2 by congruence. auto.
  - intros Hm. destruct (M4 Hm) as (_ & -> & _). split; [done|].
    intros k Hk. rewrite um_find_put, bool_decide_eq_false_2 by congruence. done.
  - eexists. rewrite um_find_put, bool_decide_eq_true_2 by done. done.
  - intros Hs Ha Hn He. split; [|auto with kv].
    apply shard_wf_put; [by eapply shard_wf_shrink|]. done.
Qed.

(** [incr] and [decr]: an absent or expired key counts from zero; the
    deadline of a live key is kept; a value that is not a number leaves the
    shard alone. *)
Lemma counter_locked_spec delta key now seed s a r s' a' :
  counter_locked delta key now seed s a = Ok (r, s', a') ->
  shrinks_but (eq key) s s' /\
  (max_memory_bytes a = 0 -> same_but (eq key) s s') /\
  (shard_wf s -> atomics_wf a -> 0 <= now < two64 -> shard_wf s' /\ atomics_wf a').
Proof.
  unfold counter_locked. intros E. locked_cases E.
  - apply store_counter_spec in E as (_ & E1 & E2 & _ & E4). split_and!.
    + intros k Hk. destruct (E1 k Hk) as [->| ->]; [|by right].
      rewrite um_find_erase, bool_decide_eq_false_2 by congruence. by left.
    + intros Hm k Hk. destruct (E2 Hm) as [_ E2']. rewrite E2' by done.
      by rewrite um_find_erase, bool_decide_eq_false_2 by congruence.
    + intros Hs Ha Hn. apply E4; auto with kv. done.
  - split_and!; [by left|done|done].
  - apply store_counter_spec in E as (_ & E1 & E2 & _ & E4). split_and!; [done|apply E2|].
    intros Hs Ha Hn. apply E4; try done. by destruct (Hs _ _ F).
  - apply store_counter_spec in E as (_ & E1 & E2 & _ & E4). split_and!; [done|apply E2|].
    intros Hs Ha Hn. by apply E4.
Qed.

(** ** The sweeper *)

Lemma sweep_loop_ind (Q : Dict -> Atomics -> Dict -> Atomics -> Prop) now :
  (forall s a, Q s a s a) ->
  (forall s a k e s' a', um_find k s = Some e -> is_expired e now = true ->
     Q (um_erase k s) (count_expired (fetch_sub_total (entry_cost k (value_cap e)) a)) s' a' ->
     Q s a s' a') ->
  forall its checked s a s' a', NoDup its.*1 ->
    (forall k e, (k, e) ∈ its -> um_find k s = Some e) ->
    sweep_loop its checked now s a = (s', a') -> Q s a s' a'.
Proof.
  intros Q0 Q1. induction its as [|[k e] its IH]; simpl; intros checked s a s' a' Hnd Hin E;
    [by simplify_eq|].
  apply NoDup_cons in Hnd as [Hni Hnd]. destruct (checked <? 20); [|by simplify_eq].
  destruct (is_expired e now) eqn:Ex.
  - eapply Q1; [apply Hin; left|done|]. eapply IH; [done| |done].
    intros k' e' Hin'. rewrite um_find_erase, bool_decide_eq_false_2; [apply Hin; by right|].
    intros ->. apply Hni, list_elem_of_fmap. by exists (k, e').
  - eapply IH; [done| |done]. intros k' e' Hin'. apply Hin. by right.
Qed.

(** What sweeping leaves of a shard: only expired entries are gone. *)
Definition swept (now : Z) (s s' : Dict) : Prop :=
  forall k, um_find k s' = um_find k s \/
    (um_find k s' = None /\ exists e, um_find k s = Some e /\ is_expired e now = true).

Lemma sweep_shard_spec now s a s' a' :
  sweep_shard now s a = (s', a') ->
  swept now s s' /\ (atomics_wf a -> atomics_wf a') /\
  max_memory_bytes a' = max_memory_bytes a.
Proof.
  unfold sweep_shard.
  apply (sweep_loop_ind (fun s a s' a' => swept now s s' /\ (atomics_wf a -> atomics_wf a') /\
    max_memory_bytes a' = max_memory_bytes a)); clear -PL.
  - intros s a. split_and!; try done. by left.
  - intros s a k e s' a' F Ex (IH & Ha & Hm). split_and!; [|auto with kv|done].
    intros k'. specialize (IH k'). rewrite um_find_erase in IH. case_bool_decide; [|done].
    subst. right. destruct IH as [->|[_ (e' & [=] & _)]]. eauto.
  - apply um_nodup.
  - intros k e. apply um_find_elements.
Qed.

Lemma sweep_shards_spec i owns now ss a ss' a' :
  sweep_shards i owns now ss a = (ss', a') ->
  Forall2 (swept now) ss ss' /\ (atomics_wf a -> atomics_wf a') /\
  max_memory_bytes a' = max_memory_bytes a.
Proof.
  revert i a ss' a'. induction ss as [|s ss IH]; simpl; intros i a ss' a' E; [by simplify_eq|].
  destruct (if owns i then _ else _) as [s1 a1] eqn:E1.
  destruct (sweep_shards _ _ _ _ _) as [ss2 a2] eqn:E2. simplify_eq.
  destruct (IH _ _ _ _ E2) as (H1 & H2 & H3).
  assert (swept now s s1 /\ (atomics_wf a -> atomics_wf a1) /\
    max_memory_bytes a1 = max_memory_bytes a) as (S1 & S2 & S3).
  { destruct (owns i); [by apply sweep_shard_spec|]. simplify_eq. split_and!; try done. by left. }
  split_and!; [by constructor|auto|congruence].
Qed.

Lemma swept_shard_wf now s s' : swept now s s' -> shard_wf s -> shard_wf s'.
Proof. intros Hw Hs. eapply shard_wf_shrink; [done|]. intros k. destruct (Hw k) as [|[? _]]; auto. Qed.

(** A pass removes expired entries only, and keeps the invariant. *)
Lemma sweep_pass_lookup owns now eng k :
  elookup k (sweep_pass owns now eng) = elookup k eng \/
  (elookup k (sweep_pass owns now eng) = None /\
   exists e, elookup k eng = Some e /\ is_expired e now = true).
Proof.
  unfold sweep_pass. destruct (sweep_shards _ _ _ _ _) as [ss a] eqn:E.
  destruct (sweep_shards_spec _ _ _ _ _ _ _ E) as (HF & _). unfold elookup.
  unfold get_shard_index. cbn [shards]. rewrite <- (Forall2_length _ _ _ HF).
  destruct (shards eng !! _) as [s|] eqn:Es; simpl.
  - destruct (Forall2_lookup_l _ _ _ _ _ HF Es) as (s' & -> & Hw). apply Hw.
  - left. apply lookup_ge_None in Es. rewrite lookup_ge_None_2; [done|].
    by rewrite <- (Forall2_length _ _ _ HF).
Qed.

Lemma sweep_pass_wf owns now eng : engine_wf eng -> engine_wf (sweep_pass owns now eng).
Proof.
  intros [W1 W2 W3 W4]. unfold sweep_pass.
  destruct (sweep_shards _ _ _ _ _) as [ss a] eqn:E.
  destruct (sweep_shards_spec _ _ _ _ _ _ _ E) as (HF & Ha & _).
  pose proof (Forall2_length _ _ _ HF) as HL. split; cbn.
  - intros ->. by apply Forall2_nil_inv_r in HF.
  - intros i s' k Hi Hk. destruct (Forall2_lookup_r _ _ _ _ _ HF Hi) as (s & Hs & Hw).
    unfold get_shard_index. cbn. rewrite <- HL. apply (W2 i s k Hs).
    destruct (Hw k) as [<-|[_ (e & -> & _)]]; eauto.
  - intros i s' Hi. destruct (Forall2_lookup_r _ _ _ _ _ HF Hi) as (s & Hs & Hw).
    eapply swept_shard_wf; eauto.
  - auto.
Qed.

End proofs.

#[export] Hint Resolve shard_wf_erase shard_wf_update shard_wf_insert shard_wf_put atomics_wf_add
  atomics_wf_sub atomics_wf_hit atomics_wf_miss atomics_wf_expired : kv.
