(* ===== verification/StorageSpec.v ===== *)
(** * What the storage engine promises, and that it keeps the promise

    The contract of [StorageEngine] as a step relation on a finite map from
    keys to a value and a deadline, holding the live keys only: [set] and
    [get] as in a map, counters, deadlines, and, when a memory limit is
    configured, keys that may be dropped. The refinement theorems show that
    every operation of the sharded engine, and every pass of the sweeper, is
    a step of this specification. *)

From S2P Require Import Prelude CppStd UnorderedMap Storage RESP RESPProofs StdPlatform StorageProofs.

(** The calls of the public interface. *)
Inductive kv_op :=
  | KSet (k v : bytes)
  | KGet (k : bytes)
  | KDel (ks : list bytes)
  | KExists (ks : list bytes)
  | KIncr (k : bytes)
  | KDecr (k : bytes)
  | KExpire (k : bytes) (ms_offset : Z)
  | KExpireAt (k : bytes) (absolute_ms : Z)
  | KPttl (k : bytes)
  | KPersist (k : bytes).

Inductive kv_res :=
  | RBool (b : bool)
  | RValue (o : option bytes)
  | RInt (n : Z)
  | RNum (o : option Z).

Section run.
Context `{Platform}.

Definition run_op (op : kv_op) (now seed : Z) (eng : StorageEngine) : res (kv_res * StorageEngine) :=
  match op with
  | KSet k v => '(b, eng) ← set k v now seed eng; Ok (RBool b, eng)
  | KGet k => '(o, eng) ← get k now eng; Ok (RValue o, eng)
  | KDel ks => '(n, eng) ← del ks eng; Ok (RInt n, eng)
  | KExists ks => '(n, eng) ← exists_ ks now eng; Ok (RInt n, eng)
  | KIncr k => '(o, eng) ← incr k now seed eng; Ok (RNum o, eng)
  | KDecr k => '(o, eng) ← decr k now seed eng; Ok (RNum o, eng)
  | KExpire k d => '(b, eng) ← expire k d now eng; Ok (RBool b, eng)
  | KExpireAt k d => '(b, eng) ← expire_at k d now eng; Ok (RBool b, eng)
  | KPttl k => '(n, eng) ← pttl k now eng; Ok (RInt n, eng)
  | KPersist k => '(b, eng) ← persist k now eng; Ok (RBool b, eng)
  end.

(** A history of the engine: calls and sweeper passes, with clock readings. *)
Inductive event :=
  | EvOp (now seed : Z) (op : kv_op)
  | EvSweep (now : Z) (owns_lock : nat -> bool).

Fixpoint run_events (evs : list event) (eng : StorageEngine) : res (list kv_res * StorageEngine) :=
  match evs with
  | [] => Ok ([], eng)
  | EvOp now seed op :: evs' =>
      '(r, eng) ← run_op op now seed eng;
      '(rs, eng) ← run_events evs' eng;
      Ok (r :: rs, eng)
  | EvSweep now owns :: evs' => run_events evs' (sweep_pass owns now eng)
  end.

End run.

(** ** The specification *)

Abbreviation kv_state := (gmap bytes (bytes * Z)).

(** A deadline of 0 never passes. *)
Definition alive (now deadline : Z) : bool := negb ((0 <? deadline) && (deadline <=? now)).

Definition purge (now : Z) (m : kv_state) : kv_state :=
  filter (fun p => alive now p.2.2 = true) m.

(** Store under a deadline: one that has passed deletes the key. *)
Definition put_deadline (now : Z) (k v : bytes) (d : Z) (m : kv_state) : kv_state :=
  if alive now d then <[k := (v, d)]> m else delete k m.

(** [m'] is [m], or a part of it when a memory limit is set. *)
Definition kept (bounded : bool) (m m' : kv_state) : Prop :=
  m' ⊆ m /\ (bounded = false -> m' = m).

Definition delete_all (ks : list bytes) (m : kv_state) : kv_state :=
  foldl (fun m k => delete k m) m ks.

Definition mem_count (ks : list bytes) (m : kv_state) : Z :=
  Z.of_nat (length (filter (fun k => is_Some (m !! k)) ks)).

(** The number a counter starts from, with the deadline it keeps; [None] when
    the value is not a decimal number of 64 bits. *)
Definition counter_start (o : option (bytes * Z)) : option (Z * Z) :=
  match o with
  | None => Some (0, 0)
  | Some (v, d) =>
      let r := from_chars_i64 v in
      if bool_decide (fc_ec r = errc_ok) && (fc_ptr r =? size_of v) then Some (fc_val r, d) else None
  end.

Inductive counter_step (bounded : bool) (delta : Z) (k : bytes) :
    option Z -> kv_state -> kv_state -> Prop :=
  | counter_bad m :
      counter_start (m !! k) = None -> counter_step bounded delta k None m m
  | counter_ok m m' n d :
      counter_start (m !! k) = Some (n, d) -> is_i64 (n + delta) = true ->
      kept bounded (<[k := (to_string (n + delta), d)]> m) m' ->
      m' !! k = Some (to_string (n + delta), d) ->
      counter_step bounded delta k (Some (n + delta)) m m'
  | counter_oom m m' :
      bounded = true -> m' ⊆ m -> counter_step bounded delta k None m m'.

Inductive spec_step (bounded : bool) (now : Z) : kv_op -> kv_res -> kv_state -> kv_state -> Prop :=
  | spec_set k v m m' :
      kept bounded (<[k := (v, 0)]> m) m' -> m' !! k = Some (v, 0) ->
      spec_step bounded now (KSet k v) (RBool true) m m'
  | spec_set_oom k v m m' :
      bounded = true -> m' ⊆ m -> spec_step bounded now (KSet k v) (RBool false) m m'
  | spec_get k m : spec_step bounded now (KGet k) (RValue (fst <$> m !! k)) m m
  | spec_del ks n m m' :
      m' = delete_all ks m ->
      Z.of_nat (size m) - Z.of_nat (size m') <= n <= Z.of_nat (length ks) ->
      spec_step bounded now (KDel ks) (RInt n) m m'
  | spec_exists ks m : spec_step bounded now (KExists ks) (RInt (mem_count ks m)) m m
  | spec_incr k o m m' : counter_step bounded 1 k o m m' ->
      spec_step bounded now (KIncr k) (RNum o) m m'
  | spec_decr k o m m' : counter_step bounded (-1) k o m m' ->
      spec_step bounded now (KDecr k) (RNum o) m m'
  | spec_expire k off m v d : m !! k = Some (v, d) ->
      spec_step bounded now (KExpire k off) (RBool true) m (put_deadline now k v (u64 (now + off)) m)
  | spec_expire_absent k off m : m !! k = None ->
      spec_step bounded now (KExpire k off) (RBool false) m m
  | spec_expire_at k t m v d : m !! k = Some (v, d) ->
      spec_step bounded now (KExpireAt k t) (RBool true) m (put_deadline now k v t m)
  | spec_expire_at_absent k t m : m !! k = None ->
      spec_step bounded now (KExpireAt k t) (RBool false) m m
  | spec_pttl k m :
      spec_step bounded now (KPttl k)
        (RInt match m !! k with
              | None => -2
              | Some (_, d) => if d =? 0 then -1 else i64 (d - now)
              end) m m
  | spec_persist k m v d : m !! k = Some (v, d) -> d <> 0 ->
      spec_step bounded now (KPersist k) (RBool true) m (<[k := (v, 0)]> m)
  | spec_persist_none k m : (m !! k = None \/ exists v, m !! k = Some (v, 0)) ->
      spec_step bounded now (KPersist k) (RBool false) m m.

(** Histories: time never goes back; keys die when their deadline passes. *)
Inductive spec_run (bounded : bool) : Z -> list event -> list kv_res -> kv_state -> kv_state -> Prop :=
  | run_nil t m : spec_run bounded t [] [] m m
  | run_op_step t now seed op r evs rs m m1 m' :
      t <= now -> spec_step bounded now op r (purge now m) m1 ->
      spec_run bounded now evs rs m1 m' ->
      spec_run bounded t (EvOp now seed op :: evs) (r :: rs) m m'
  | run_sweep_step t now owns evs rs m m' :
      t <= now -> spec_run bounded now evs rs (purge now m) m' ->
      spec_run bounded t (EvSweep now owns :: evs) rs m m'.

(** ** Clocks that go back

    Threads read the clock before they take the lock, so in the order of the
    locks the readings can go back, and an entry that had expired for one call
    can be live for the next. The state of this specification is all that is
    stored, expired entries included. A call with the reading [now] acts on what
    is live at [now] exactly as above; of what is not live at [now], it may drop
    entries, but it adds none, except that a deadline it sets may have passed. *)

(** The deadline the call gives to [k]. *)
Definition new_deadline (op : kv_op) (now : Z) (k : bytes) : option Z :=
  match op with
  | KExpire k' off => if bool_decide (k = k') then Some (u64 (now + off)) else None
  | KExpireAt k' t => if bool_decide (k = k') then Some t else None
  | _ => None
  end.

Definition racy_step (bounded : bool) (now : Z) (op : kv_op) (r : kv_res) (M M' : kv_state) : Prop :=
  spec_step bounded now op r (purge now M) (purge now M') /\
  forall k v d, M' !! k = Some (v, d) -> alive now d = false ->
    M !! k = Some (v, d) \/
    (new_deadline op now k = Some d /\ exists d0, purge now M !! k = Some (v, d0)).

Inductive racy_run (bounded : bool) : list event -> list kv_res -> kv_state -> kv_state -> Prop :=
  | racy_nil M : racy_run bounded [] [] M M
  | racy_op now seed op r evs rs M M1 M' :
      racy_step bounded now op r M M1 -> racy_run bounded evs rs M1 M' ->
      racy_run bounded (EvOp now seed op :: evs) (r :: rs) M M'
  | racy_sweep now owns evs rs M M1 M' :
      M1 ⊆ M -> purge now M1 = purge now M -> racy_run bounded evs rs M1 M' ->
      racy_run bounded (EvSweep now owns :: evs) rs M M'.
