(* ===== verification/StorageRefine.v ===== *)
(** * The engine refines its specification

    [R now eng m] relates an engine to the map of its live keys at time
    [now]. Each critical section is described by its effect on that view, and
    the description is lifted through [with_shard], the key loops and
    histories. *)

From S2P Require Import Prelude CppStd UnorderedMap Storage RESP RESPProofs StdPlatform StorageProofs StorageSpec.

(** A [run_op] equation reduced to the operation's own. *)
Ltac op_split E :=
  let r := fresh "r" in let eng1 := fresh "eng" in
  apply bind_Ok in E as ([r eng1] & E & ?); res_inv;
  unfold set, get, incr, decr, expire, expire_at, pttl, persist, del, exists_ in E.

Section refine.
Context `{PL : PlatformLaws}.
Implicit Types (k key : bytes) (s : Dict) (a : Atomics) (e : DictEntry) (m : kv_state).

(** The live part of an entry. *)
Definition live (now : Z) (o : option DictEntry) : option (bytes * Z) :=
  match o with
  | Some e => if is_expired e now then None else Some (value e, expire_at_ms e)
  | None => None
  end.

Definition R (now : Z) (eng : StorageEngine) (m : kv_state) : Prop :=
  forall k, live now (elookup k eng) = m !! k.

Lemma is_expired_alive e now : is_expired e now = negb (alive now (expire_at_ms e)).
Proof. unfold is_expired, alive. by rewrite negb_involutive. Qed.

Lemma live_Some now o v d : live now o = Some (v, d) ->
  exists e, o = Some e /\ is_expired e now = false /\ v = value e /\ d = expire_at_ms e.
Proof. destruct o as [e|]; simpl; [|done]. destruct (is_expired e now) eqn:E; naive_solver. Qed.

(** ** Moving the relation *)

Lemma R_same now key eng eng' m :
  R now eng m -> (forall k, k <> key -> elookup k eng' = elookup k eng) ->
  live now (elookup key eng') = live now (elookup key eng) -> R now eng' m.
Proof.
  intros HR Hf Hk k. destruct (decide (k = key)) as [->|Hne]; [by rewrite Hk|].
  rewrite Hf by done. apply HR.
Qed.

Lemma R_put now key x eng eng' m :
  R now eng m -> (forall k, k <> key -> elookup k eng' = elookup k eng) ->
  live now (elookup key eng') = Some x -> R now eng' (<[key := x]> m).
Proof.
  intros HR Hf Hk k. destruct (decide (k = key)) as [->|Hne].
  - by rewrite Hk, lookup_insert_eq.
  - rewrite Hf, lookup_insert_ne by done. apply HR.
Qed.

Lemma R_del now key eng eng' m :
  R now eng m -> (forall k, k <> key -> elookup k eng' = elookup k eng) ->
  live now (elookup key eng') = None -> R now eng' (delete key m).
Proof.
  intros HR Hf Hk k. destruct (decide (k = key)) as [->|Hne].
  - by rewrite Hk, lookup_delete_eq.
  - rewrite Hf, lookup_delete_ne by done. apply HR.
Qed.

(** When keys may have been dropped, the view is a part of the old one. *)
Lemma R_shrink now eng' m :
  (forall k, live now (elookup k eng') = m !! k \/ live now (elookup k eng') = None) ->
  exists m', m' ⊆ m /\ R now eng' m'.
Proof.
  intros Hsh. exists (filter (fun p => live now (elookup p.1 eng') <> None) m). split.
  { apply map_filter_subseteq. }
  intros k. destruct (live now (elookup k eng')) as [x|] eqn:E.
  - symmetry. apply map_lookup_filter_Some. simpl. rewrite E.
    destruct (Hsh k) as [Hk|Hk]; rewrite E in Hk; done.
  - symmetry. apply map_lookup_filter_None. right. intros x _. simpl. rewrite E. auto.
Qed.

(** ** Time and the sweeper *)

Lemma alive_mono now now' d : now <= now' -> alive now' d = true -> alive now d = true.
Proof.
  unfold alive. rewrite !negb_true_iff, !andb_false_iff, !Z.ltb_ge, !Z.leb_gt. lia.
Qed.

Lemma live_mono now now' o : now <= now' ->
  live now' o = match live now o with
                | Some x => if alive now' x.2 then Some x else None
                | None => None
                end.
Proof.
  intros Hn. destruct o as [e|]; simpl; [|done]. rewrite !is_expired_alive.
  destruct (alive now (expire_at_ms e)) eqn:E; simpl; [by destruct (alive now' _)|].
  destruct (alive now' (expire_at_ms e)) eqn:E'; [|done].
  by rewrite (alive_mono now now') in E.
Qed.

Lemma lookup_purge now m k : purge now m !! k =
  match m !! k with Some x => if alive now x.2 then Some x else None | None => None end.
Proof.
  unfold purge. destruct (m !! k) as [x|] eqn:E.
  - destruct (alive now x.2) eqn:A.
    + by apply map_lookup_filter_Some.
    + apply map_lookup_filter_None. right. intros y Hy. simplify_eq. simpl. by rewrite A.
  - apply map_lookup_filter_None. by left.
Qed.

Lemma R_time now now' eng m : now <= now' -> R now eng m -> R now' eng (purge now' m).
Proof.
  intros Hn HR k. rewrite lookup_purge, <- (HR k). by apply live_mono.
Qed.

Lemma R_sweep owns now eng m : R now eng m -> R now (sweep_pass owns now eng) m.
Proof.
  intros HR k. rewrite <- (HR k).
  destruct (sweep_pass_lookup owns now eng k) as [->|[-> (e & -> & Ex)]]; [done|].
  simpl. by rewrite Ex.
Qed.

(** ** Views of the critical sections *)

Ltac view_find := rewrite ?um_find_erase, ?um_find_update;
  rewrite ?bool_decide_eq_true_2 by done.

Lemma get_locked_view key now s a r s' a' :
  get_locked key now s a = Ok (r, s', a') ->
  r = fst <$> live now (um_find key s) /\
  live now (um_find key s') = live now (um_find key s).
Proof.
  unfold get_locked. intros E. locked_cases E; view_find; rewrite ?F; simpl; rewrite ?C; try done.
  unfold is_expired in *. simpl. by rewrite C.
Qed.

Lemma exists_locked_view key now s a r s' a' :
  exists_locked key now s a = Ok (r, s', a') ->
  r = (if live now (um_find key s) is Some _ then true else false) /\
  live now (um_find key s') = live now (um_find key s).
Proof.
  unfold exists_locked. intros E. locked_cases E; view_find; rewrite ?F; simpl; rewrite ?C; try done.
  unfold is_expired in *. simpl. by rewrite C.
Qed.

Lemma del_locked_view key now s a r s' a' :
  del_locked key s a = Ok (r, s', a') ->
  live now (um_find key s') = None /\ (is_Some (live now (um_find key s)) -> r = true).
Proof.
  unfold del_locked. intros E. by locked_cases E; view_find; rewrite ?F; simpl;
    (split; [|intros [? ?]]).
Qed.

Lemma expire_at_locked_view key d now s a r s' a' :
  expire_at_locked key d now s a = Ok (r, s', a') ->
  match live now (um_find key s) with
  | None => r = false /\ live now (um_find key s') = None
  | Some (v, _) => r = true /\
      live now (um_find key s') = if alive now d then Some (v, d) else None
  end.
Proof.
  unfold expire_at_locked. intros E. locked_cases E; view_find; rewrite ?F; simpl; rewrite ?C; try done.
  split; [done|]. rewrite is_expired_alive. simpl. by destruct (alive now d).
Qed.

Lemma pttl_locked_view key now s a r s' a' :
  shard_wf s -> pttl_locked key now s a = Ok (r, s', a') ->
  r = match live now (um_find key s) with
      | None => -2
      | Some (_, d) => if d =? 0 then -1 else i64 (d - now)
      end /\
  live now (um_find key s') = live now (um_find key s).
Proof.
  unfold pttl_locked. intros Hw E. locked_cases E; view_find; rewrite ?F; simpl;
    unfold is_expired; rewrite ?C, ?C0; simpl; try done; split; try done.
  - zb. by destruct (Z.eqb_spec (expire_at_ms d) 0); [lia|].
  - zb. destruct (Hw _ _ F) as ((? & ?) & _). by destruct (Z.eqb_spec (expire_at_ms d) 0); [|lia].
Qed.

Lemma persist_locked_view key now s a r s' a' :
  persist_locked key now s a = Ok (r, s', a') ->
  match live now (um_find key s) with
  | None => r = false /\ live now (um_find key s') = None
  | Some (v, d) => r = negb (d =? 0) /\ live now (um_find key s') = Some (v, 0)
  end.
Proof.
  unfold persist_locked. intros E. locked_cases E; view_find; rewrite ?F; simpl; rewrite ?C; try done.
  - rewrite ?C0. zb. by rewrite C0.
  - by rewrite C0.
Qed.

(** ** The operations *)

Lemma get_refines key now eng r eng' m :
  R now eng m -> get key now eng = Ok (r, eng') -> r = fst <$> m !! key /\ R now eng' m.
Proof.
  intros HR E. destruct (with_shard_lookup _ _ _ _ _ E) as (s & s' & Hi & E1 & E2 & Ef & Hf & _).
  destruct (get_locked_frame _ _ _ _ _ _ _ Ef) as [Hs _].
  destruct (get_locked_view _ _ _ _ _ _ _ Ef) as [-> Hv].
  rewrite <- (HR key), E1. split; [done|].
  apply (R_same _ key eng); [done|by apply Hf|]. by rewrite E1, E2.
Qed.

Lemma pttl_refines key now eng r eng' m :
  engine_wf eng -> R now eng m -> pttl key now eng = Ok (r, eng') ->
  r = match m !! key with
      | None => -2
      | Some (_, d) => if d =? 0 then -1 else i64 (d - now)
      end /\ R now eng' m.
Proof.
  intros Hw HR E. destruct (with_shard_lookup _ _ _ _ _ E) as (s & s' & Hi & E1 & E2 & Ef & Hf & _).
  destruct (pttl_locked_frame _ _ _ _ _ _ _ Ef) as [Hs _].
  destruct (pttl_locked_view _ _ _ _ _ _ _ (wf_entries _ Hw _ _ Hi) Ef) as [-> Hv].
  rewrite <- (HR key), E1. split; [done|].
  apply (R_same _ key eng); [done|by apply Hf|]. by rewrite E1, E2.
Qed.

Lemma expire_at_refines key d now eng r eng' m :
  R now eng m -> expire_at key d now eng = Ok (r, eng') ->
  match m !! key with
  | None => r = false /\ R now eng' m
  | Some (v, _) => r = true /\ R now eng' (put_deadline now key v d m)
  end.
Proof.
  intros HR E. destruct (with_shard_lookup _ _ _ _ _ E) as (s & s' & Hi & E1 & E2 & Ef & Hf & _).
  destruct (expire_at_locked_frame _ _ _ _ _ _ _ _ Ef) as [Hs _].
  pose proof (expire_at_locked_view _ _ _ _ _ _ _ _ Ef) as Hv.
  rewrite <- E1, (HR key), <- E2 in Hv. destruct (m !! key) as [[v d0]|] eqn:Em.
  - destruct Hv as [-> Hv]. split; [done|]. unfold put_deadline.
    destruct (alive now d); [eapply R_put|eapply R_del]; eauto.
  - destruct Hv as [-> Hv]. split; [done|]. apply (R_same _ key eng); [done|by apply Hf|].
    by rewrite (HR key), Em.
Qed.

Lemma persist_refines key now eng r eng' m :
  R now eng m -> persist key now eng = Ok (r, eng') ->
  match m !! key with
  | None => r = false /\ R now eng' m
  | Some (v, d) => r = negb (d =? 0) /\ R now eng' (<[key := (v, 0)]> m)
  end.
Proof.
  intros HR E. destruct (with_shard_lookup _ _ _ _ _ E) as (s & s' & Hi & E1 & E2 & Ef & Hf & _).
  destruct (persist_locked_frame _ _ _ _ _ _ _ Ef) as [Hs _].
  pose proof (persist_locked_view _ _ _ _ _ _ _ Ef) as Hv.
  rewrite <- E1, (HR key), <- E2 in Hv. destruct (m !! key) as [[v d0]|] eqn:Em.
  - destruct Hv as [-> Hv]. split; [done|]. eapply R_put; eauto.
  - destruct Hv as [-> Hv]. split; [done|]. apply (R_same _ key eng); [done|by apply Hf|].
    by rewrite (HR key), Em.
Qed.

(** Writes that may evict: the rest of the map is kept, or partly dropped. *)
Lemma write_refines now key x eng eng' m (b : bool) :
  R now eng m -> live now (elookup key eng') = Some x ->
  (forall k, k <> key -> elookup k eng' = elookup k eng \/ elookup k eng' = None) ->
  (b = false -> forall k, k <> key -> elookup k eng' = elookup k eng) ->
  exists m', kept b (<[key := x]> m) m' /\ m' !! key = Some x /\ R now eng' m'.
Proof.
  intros HR Hx Hsh Hb. destruct b.
  - destruct (R_shrink now eng' (<[key := x]> m)) as (m' & Hsub & HR').
    { intros k. destruct (decide (k = key)) as [->|Hne].
      - left. by rewrite lookup_insert_eq.
      - rewrite lookup_insert_ne by done. rewrite <- (HR k).
        destruct (Hsh k Hne) as [->| ->]; auto. }
    exists m'. split; [by split|]. split; [by rewrite <- (HR' key)|done].
  - exists (<[key := x]> m). split; [by split|]. split; [apply lookup_insert_eq|].
    eapply R_put; eauto.
Qed.

Lemma oom_refines now key eng eng' m :
  R now eng m -> elookup key eng' = None ->
  (forall k, k <> key -> elookup k eng' = elookup k eng \/ elookup k eng' = None) ->
  exists m', m' ⊆ m /\ R now eng' m'.
Proof.
  intros HR Hk Hsh. apply R_shrink. intros k. rewrite <- (HR k).
  destruct (decide (k = key)) as [->|Hne]; [rewrite Hk; by right|].
  destruct (Hsh k Hne) as [->| ->]; auto.
Qed.

Lemma um_find_empty k s : um_elements s = [] -> um_find k s = None.
Proof. intros E. apply um_find_None. rewrite E. apply not_elem_of_nil. Qed.

Definition bounded (eng : StorageEngine) : bool := negb (max_memory_bytes (atomics eng) =? 0).

Lemma set_refines key v now seed eng r eng' m :
  R now eng m -> set key v now seed eng = Ok (r, eng') ->
  exists m', spec_step (bounded eng) now (KSet key v) (RBool r) m m' /\ R now eng' m'.
Proof.
  intros HR E. destruct (with_shard_lookup _ _ _ _ _ E) as (s & s' & Hi & E1 & E2 & Ef & Hf & Hg).
  destruct (set_locked_spec _ _ _ _ _ _ _ _ _ Ef) as (S1 & S2 & S3 & _).
  unfold bounded. destruct r.
  - destruct S3 as (c & Hc & F). rewrite F in E2.
    destruct (write_refines now key (v, 0) eng eng' m (bounded eng)) as (m' & Hk & Hm & HR');
      [done|by rewrite E2|by apply Hg| |].
    { unfold bounded. intros Hb%negb_false_iff%Z.eqb_eq. apply Hf. by apply S2. }
    exists m'. split; [by constructor|done].
  - destruct (oom_refines now key eng eng' m) as (m' & Hm & HR');
      [done|by rewrite E2; apply um_find_empty|by apply Hg|].
    exists m'. split; [|done]. constructor; [|done].
    destruct (Z.eqb_spec (max_memory_bytes (atomics eng)) 0) as [Hz|]; [|done].
    by destruct (S2 Hz).
Qed.

Lemma counter_start_live now s key e :
  um_find key s = Some e -> is_expired e now = false ->
  counter_start (live now (um_find key s)) =
    let r := from_chars_i64 (value e) in
    if bool_decide (fc_ec r <> errc_ok) || negb (fc_ptr r =? size_of (value e)) then None
    else Some (fc_val r, expire_at_ms e).
Proof.
  intros F Ex. rewrite F. simpl. rewrite Ex. simpl.
  repeat case_bool_decide; try done; by destruct (_ =? _).
Qed.

(** A counter update in terms of the view of its key. *)
Lemma counter_locked_view delta key now seed s a r s' a' :
  counter_locked delta key now seed s a = Ok (r, s', a') ->
  match counter_start (live now (um_find key s)) with
  | None => r = None /\ s' = s
  | Some (n, d) => is_i64 (n + delta) = true /\
      match r with
      | Some v => v = n + delta /\ exists e, um_find key s' = Some e /\
          value e = to_string v /\ expire_at_ms e = d
      | None => um_elements s' = [] /\ max_memory_bytes a <> 0
      end
  end.
Proof.
  assert (forall it n d s a r s' a',
    store_counter delta key it n d now seed s a = Ok (r, s', a') ->
    is_i64 (n + delta) = true /\
      match r with
      | Some v => v = n + delta /\ exists e, um_find key s' = Some e /\
          value e = to_string v /\ expire_at_ms e = d
      | None => um_elements s' = [] /\ max_memory_bytes a <> 0
      end) as HS.
  { clear -PL. intros it n d s a r s' a' (H1 & _ & H2 & H3 & _)%store_counter_spec.
    split; [done|]. destruct r as [v|].
    - destruct H3 as (-> & c & _ & F). split; [done|]. rewrite F. eexists. eauto.
    - split; [done|]. intros Hz. by destruct (H2 Hz). }
  unfold counter_locked. intros E.
  destruct (um_find key s) as [e|] eqn:F; [|by apply HS in E].
  destruct (is_expired e now) eqn:Ex.
  { simpl. rewrite Ex. simpl. apply HS in E. cbn in E. done. }
  rewrite <- F, (counter_start_live now s key e F Ex). cbv zeta.
  destruct (bool_decide _ || _) eqn:Hp; [by res_inv|]. by apply HS in E.
Qed.

(** A counter keeps a deadline that has not passed. *)
Lemma counter_start_alive now eng m key n d :
  R now eng m -> counter_start (m !! key) = Some (n, d) -> alive now d = true.
Proof.
  intros HR. destruct (m !! key) as [[v d']|] eqn:Em; simpl; [|naive_solver].
  rewrite <- (HR key) in Em. apply live_Some in Em as (e & _ & Ex & _ & ->).
  rewrite is_expired_alive in Ex. apply negb_false_iff in Ex.
  destruct (_ && _); naive_solver.
Qed.

Lemma counter_refines delta key now seed eng r eng' m :
  R now eng m -> with_shard key (counter_locked delta key now seed) eng = Ok (r, eng') ->
  exists m', counter_step (bounded eng) delta key r m m' /\ R now eng' m'.
Proof.
  intros HR E. destruct (with_shard_lookup _ _ _ _ _ E) as (s & s' & Hi & E1 & E2 & Ef & Hf & Hg).
  destruct (counter_locked_spec _ _ _ _ _ _ _ _ _ Ef) as (S1 & S2 & _).
  pose proof (counter_locked_view _ _ _ _ _ _ _ _ _ Ef) as Hv. rewrite <- E1, (HR key) in Hv.
  destruct (counter_start (m !! key)) as [[n d]|] eqn:Hc.
  - destruct Hv as [Hn Hv]. destruct r as [v|].
    + destruct Hv as (-> & e & F & Hve & Hd). rewrite F in E2.
      destruct (write_refines now key (to_string (n + delta), d) eng eng' m (bounded eng))
        as (m' & Hk & Hm & HR'); [done| |by apply Hg| |by exists m'; split; [by eapply counter_ok|]].
      * rewrite E2. simpl. destruct (is_expired e now) eqn:Ex; [|by rewrite Hve, Hd].
        rewrite is_expired_alive, Hd, (counter_start_alive now eng m key n d HR Hc) in Ex. done.
      * unfold bounded. intros Hb%negb_false_iff%Z.eqb_eq. apply Hf. by apply S2.
    + destruct Hv as [Hv Hb]. destruct (oom_refines now key eng eng' m) as (m' & Hm & HR');
        [done|by rewrite E2; apply um_find_empty|by apply Hg|].
      exists m'. split; [|done]. apply counter_oom; [|done]. unfold bounded.
      by destruct (Z.eqb_spec (max_memory_bytes (atomics eng)) 0).
  - destruct Hv as [-> ->]. exists m. split; [by constructor|].
    apply (R_same _ key eng); [done| |by rewrite E1, E2]. by apply Hf.
Qed.

(** ** Key loops *)

(** One round of a loop that returns: the counter did not overflow. *)
Lemma count_step f keys c (b : bool) eng x :
  (if b then if INT_MAX <? c + 1 then UB else count_keys f keys (c + 1) eng
   else count_keys f keys c eng) = Ok x ->
  (b = true -> c + 1 <= INT_MAX) /\ count_keys f keys (if b then c + 1 else c) eng = Ok x.
Proof. destruct b; [|done]. destruct (Z.ltb_spec INT_MAX (c + 1)); [done|]. split; [lia|done]. Qed.

Lemma exists_refines keys now eng c r eng' m :
  R now eng m -> count_keys (fun key => exists_locked key now) keys c eng = Ok (r, eng') ->
  r = c + mem_count keys m /\ R now eng' m.
Proof.
  revert c eng. induction keys as [|key keys IH]; simpl; intros c eng HR E.
  { res_inv. unfold mem_count. simpl. split; [lia|done]. }
  apply bind_Ok in E as ([b eng1] & E0 & E).
  destruct (with_shard_lookup _ _ _ _ _ E0) as (s & s' & Hi & E1 & E2 & Ef & Hf & _).
  destruct (exists_locked_frame _ _ _ _ _ _ _ Ef) as [Hs _].
  destruct (exists_locked_view _ _ _ _ _ _ _ Ef) as [-> Hv].
  rewrite <- E1, (HR key) in E. apply count_step in E as [_ E].
  destruct (IH _ _ ltac:(apply (R_same _ key eng); [done|by apply Hf|by rewrite E1, E2]) E) as [-> HR'].
  split; [|done]. unfold mem_count. rewrite filter_cons.
  destruct (m !! key); [rewrite decide_True by eauto|rewrite decide_False by (by intros [? ?])];
    simpl; lia.
Qed.

Lemma del_refines keys now eng c r eng' m :
  R now eng m -> count_keys del_locked keys c eng = Ok (r, eng') ->
  Z.of_nat (size m) - Z.of_nat (size (delete_all keys m)) <= r - c <= Z.of_nat (length keys) /\
  R now eng' (delete_all keys m).
Proof.
  revert c eng m. induction keys as [|key keys IH]; cbn [count_keys delete_all foldl]; intros c eng m HR E.
  { res_inv. simpl. split; [lia|done]. }
  apply bind_Ok in E as ([b eng1] & E0 & E).
  destruct (with_shard_lookup _ _ _ _ _ E0) as (s & s' & Hi & E1 & E2 & Ef & Hf & _).
  destruct (del_locked_frame _ _ _ _ _ _ Ef) as [Hs _].
  destruct (del_locked_view _ now _ _ _ _ _ Ef) as [Hv Hb]. apply count_step in E as [_ E].
  destruct (IH _ _ (delete key m) ltac:(eapply R_del; [done|by apply Hf|by rewrite E2]) E) as [Hc HR'].
  split; [|done]. rewrite <- E1, (HR key) in Hb. fold (delete_all keys (delete key m)) in *.
  destruct (m !! key) as [x|] eqn:Em.
  - rewrite Hb in Hc by eauto. pose proof (map_size_delete_Some key m (mk_is_Some _ _ Em)). simpl in *.
    destruct (size m) eqn:Hz; [|lia]. apply map_size_empty_iff in Hz. subst. by rewrite lookup_empty in Em.
  - rewrite delete_id in * by done. destruct b; simpl; lia.
Qed.

(** ** Every operation *)

Lemma run_op_refines op now seed eng r eng' m :
  engine_wf eng -> R now eng m -> run_op op now seed eng = Ok (r, eng') ->
  exists m', spec_step (bounded eng) now op r m m' /\ R now eng' m'.
Proof.
  intros Hw HR E. destruct op; simpl in E; op_split E.
  - by eapply set_refines.
  - destruct (get_refines _ _ _ _ _ _ HR E) as [-> ?]. eexists. split; [constructor|done].
  - destruct (del_refines _ _ _ _ _ _ _ HR E) as [? ?]. eexists. split; [|done].
    constructor; [done|lia].
  - destruct (exists_refines _ _ _ _ _ _ _ HR E) as [-> ?]. eexists.
    rewrite Z.add_0_l. split; [constructor|done].
  - destruct (counter_refines _ _ _ _ _ _ _ _ HR E) as (m' & ? & ?). eexists. split; [by constructor|done].
  - destruct (counter_refines _ _ _ _ _ _ _ _ HR E) as (m' & ? & ?). eexists. split; [by constructor|done].
  - pose proof (expire_at_refines _ _ _ _ _ _ _ HR E) as He.
    destruct (m !! k) as [[v d]|] eqn:Em; destruct He as [-> ?]; eexists;
      (split; [|done]); by econstructor.
  - pose proof (expire_at_refines _ _ _ _ _ _ _ HR E) as He.
    destruct (m !! k) as [[v d]|] eqn:Em; destruct He as [-> ?]; eexists;
      (split; [|done]); by econstructor.
  - destruct (pttl_refines _ _ _ _ _ _ Hw HR E) as [-> ?]. eexists. split; [constructor|done].
  - pose proof (persist_refines _ _ _ _ _ _ HR E) as He.
    destruct (m !! k) as [[v d]|] eqn:Em; destruct He as [-> HR'].
    + destruct (Z.eqb_spec d 0) as [Hd|]; simpl.
      * rewrite Hd in Em. exists m. split; [apply spec_persist_none; eauto|]. by rewrite insert_id in HR'.
      * eexists. split; [by econstructor|done].
    + exists m. split; [apply spec_persist_none; auto|done].
Qed.

(** The arguments of a call are values of their types. *)
Definition op_wf (op : kv_op) : bool :=
  match op with KExpireAt _ d => is_u64 d | _ => true end.

Lemma same_shrinks (X : bytes -> Prop) s s' : same_but X s s' -> shrinks_but X s s'.
Proof. intros Hs k Hk. left. auto. Qed.

Lemma count_keys_wf f keys c eng r eng' :
  engine_wf eng ->
  (forall key s a r s' a', f key s a = Ok (r, s', a') -> same_but (eq key) s s' /\
     (shard_wf s -> atomics_wf a -> shard_wf s' /\ atomics_wf a')) ->
  count_keys f keys c eng = Ok (r, eng') -> engine_wf eng'.
Proof.
  intros Hw Hf. revert c eng Hw. induction keys as [|key keys IH]; simpl; intros c eng Hw E; [by res_inv|].
  apply bind_Ok in E as ([b eng1] & E0 & [_ E]%count_step). eapply IH; [|done].
  eapply with_shard_wf; [done| |done]. intros s r0 s' a' Hs Ef.
  destruct (Hf _ _ _ _ _ _ Ef) as [Hsame HwF]. split; [by apply same_shrinks|].
  apply HwF; [done|]. apply Hw.
Qed.

(** The invariant is preserved by every operation. *)
Lemma run_op_wf op now seed eng r eng' :
  engine_wf eng -> op_wf op = true -> 0 <= now < two64 ->
  run_op op now seed eng = Ok (r, eng') -> engine_wf eng'.
Proof.
  intros Hw Ho Hn E. pose proof (wf_atomics _ Hw) as Ha.
  destruct op; simpl in E; op_split E;
    try (eapply with_shard_wf; [done| |exact E]; intros s rr s' a' Hs Ef).
  - apply set_locked_spec in Ef as (H1 & _ & _ & H2). split; [done|auto].
  - apply get_locked_frame in Ef as (H1%same_shrinks & H2). split; [done|auto].
  - eapply count_keys_wf; [done| |done]. intros *. apply del_locked_frame.
  - eapply count_keys_wf; [done| |done]. intros * Ef. apply exists_locked_frame in Ef as [? ?]; auto.
  - apply counter_locked_spec in Ef as (H1 & _ & H2). split; [done|auto].
  - apply counter_locked_spec in Ef as (H1 & _ & H2). split; [done|auto].
  - apply expire_at_locked_frame in Ef as (H1%same_shrinks & H2). split; [done|].
    apply H2; auto. apply u64_range.
  - apply expire_at_locked_frame in Ef as (H1%same_shrinks & H2). split; [done|].
    apply H2; auto. by apply is_u64_spec.
  - apply pttl_locked_frame in Ef as (H1%same_shrinks & H2). split; [done|auto].
  - apply persist_locked_frame in Ef as (H1%same_shrinks & H2). split; [done|auto].
Qed.

(** A memory limit stays what it is. *)
Lemma with_shard_bounded {T} key (f : Dict -> Atomics -> res (T * Dict * Atomics)) eng r eng' :
  (forall s a r s' a', f s a = Ok (r, s', a') -> max_memory_bytes a' = max_memory_bytes a) ->
  with_shard key f eng = Ok (r, eng') -> bounded eng' = bounded eng.
Proof.
  intros Hf (s & s' & a' & _ & Ef & ->)%with_shard_inv. unfold bounded. cbn.
  by rewrite (Hf _ _ _ _ _ Ef).
Qed.

Lemma count_keys_bounded f keys c eng r eng' :
  (forall key s a r s' a', f key s a = Ok (r, s', a') -> max_memory_bytes a' = max_memory_bytes a) ->
  count_keys f keys c eng = Ok (r, eng') -> bounded eng' = bounded eng.
Proof.
  intros Hf. revert c eng. induction keys as [|key keys IH]; simpl; intros c eng E; [by res_inv|].
  apply bind_Ok in E as ([b eng1] & E0 & [_ E]%count_step). rewrite (IH _ _ E).
  eapply with_shard_bounded; [|done]. intros *. apply Hf.
Qed.

Lemma store_counter_max delta key it n d now seed s a r s' a' :
  store_counter delta key it n d now seed s a = Ok (r, s', a') ->
  max_memory_bytes a' = max_memory_bytes a.
Proof.
  unfold store_counter. destruct (is_i64 _); [|done]. cbn [negb].
  intros ([[ok s1] a1] & Em & E)%bind_Ok. apply make_room_spec in Em as (_ & _ & Hm & _).
  by destruct ok; simpl in E; res_inv.
Qed.

Lemma run_op_bounded op now seed eng r eng' :
  run_op op now seed eng = Ok (r, eng') -> bounded eng' = bounded eng.
Proof.
  intros E. destruct op; simpl in E; op_split E;
    try (eapply with_shard_bounded; [|exact E]; intros s a rr s' a' Ef);
    try (eapply count_keys_bounded; [|exact E]; intros key s a rr s' a' Ef).
  - unfold set_locked in Ef. apply bind_Ok in Ef as ([[ok s1] a1] & Em & Ef).
    apply make_room_spec in Em as (_ & _ & Hm & _). destruct ok; simpl in Ef; locked_cases Ef; done.
  - unfold get_locked in Ef. by locked_cases Ef.
  - unfold del_locked in Ef. by locked_cases Ef.
  - unfold exists_locked in Ef. by locked_cases Ef.
  - unfold counter_locked in Ef. locked_cases Ef; try done; by apply store_counter_max in Ef.
  - unfold counter_locked in Ef. locked_cases Ef; try done; by apply store_counter_max in Ef.
  - unfold expire_locked, expire_at_locked in Ef. by locked_cases Ef.
  - unfold expire_at_locked in Ef. by locked_cases Ef.
  - unfold pttl_locked in Ef. by locked_cases Ef.
  - unfold persist_locked in Ef. by locked_cases Ef.
Qed.

Lemma sweep_pass_bounded owns now eng : bounded (sweep_pass owns now eng) = bounded eng.
Proof.
  unfold bounded, sweep_pass. destruct (sweep_shards _ _ _ _ _) as [ss a] eqn:E.
  apply sweep_shards_spec in E as (_ & _ & Hm). cbn. by rewrite Hm.
Qed.

(** ** Histories *)

(** Clock readings do not go back, and arguments are in range. *)
Fixpoint events_wf (t : Z) (evs : list event) : bool :=
  match evs with
  | [] => true
  | EvOp now _ op :: evs' => (t <=? now) && is_u64 now && op_wf op && events_wf now evs'
  | EvSweep now _ :: evs' => (t <=? now) && is_u64 now && events_wf now evs'
  end.

Lemma run_events_refines evs t eng m rs eng' :
  engine_wf eng -> R t eng m -> events_wf t evs = true ->
  run_events evs eng = Ok (rs, eng') ->
  exists t' m', spec_run (bounded eng) t evs rs m m' /\ R t' eng' m' /\ engine_wf eng'.
Proof.
  revert t eng m rs. induction evs as [|[now seed op|now owns] evs IH]; intros t eng m rs Hw HR He E.
  - simpl in E. res_inv. exists t, m. split_and!; [constructor|done|done].
  - simpl in He. wf_split He. apply bind_Ok in E as ([r eng1] & E1 & E).
    apply bind_Ok in E as ([rs1 eng2] & E2 & E). res_inv.
    destruct (run_op_refines _ _ _ _ _ _ _ Hw (R_time _ _ _ _ He HR) E1) as (m1 & Hs & HR1).
    assert (engine_wf eng1) as Hw1 by (eapply run_op_wf; eauto; by apply is_u64_spec).
    destruct (IH _ _ _ _ Hw1 HR1 ltac:(done) E2) as (t' & m' & Hr & HR' & Hw').
    rewrite (run_op_bounded _ _ _ _ _ _ E1) in Hr.
    exists t', m'. split_and!; [by econstructor|done|done].
  - simpl in He, E. wf_split He.
    destruct (IH now (sweep_pass owns now eng) (purge now m) rs) as (t' & m' & Hr & HR' & Hw');
      [by apply sweep_pass_wf|by apply R_sweep, (R_time t)|done|done|].
    rewrite sweep_pass_bounded in Hr. exists t', m'. split_and!; [by constructor|done|done].
Qed.

Lemma elookup_new k n : elookup k (new_engine n) = None.
Proof.
  unfold elookup. cbn. destruct (replicate n um_new !! _) as [s|] eqn:E; [|done].
  apply lookup_replicate in E as [-> _]. apply um_find_new.
Qed.

Lemma new_engine_wf n : (0 < n)%nat -> engine_wf (new_engine n).
Proof.
  intros Hn. split; cbn.
  - by destruct n; [lia|].
  - intros i s k [-> _]%lookup_replicate. rewrite um_find_new. by intros [? ?].
  - intros i s [-> _]%lookup_replicate k e. by rewrite um_find_new.
  - done.
Qed.

Lemma R_new t n : R t (new_engine n) ∅.
Proof. intros k. by rewrite elookup_new, lookup_empty. Qed.

(** ** Calls always return, but for the overflow of a counter *)

Lemma with_shard_total {T} key (f : Dict -> Atomics -> res (T * Dict * Atomics)) eng :
  shards eng <> [] -> (forall s a, exists x, f s a = Ok x) ->
  exists r eng', with_shard key f eng = Ok (r, eng').
Proof.
  intros Hne Hf. destruct (with_shard_Ok key f eng Hne) as (s & _ & _ & Hok).
  destruct (Hf s (atomics eng)) as [[[r s'] a'] E]. eauto.
Qed.

Lemma with_shard_shards {T} key (f : Dict -> Atomics -> res (T * Dict * Atomics)) eng r eng' :
  with_shard key f eng = Ok (r, eng') -> length (shards eng') = length (shards eng).
Proof. intros (s & s' & a' & _ & _ & ->)%with_shard_inv. apply length_insert. Qed.

Lemma with_shard_nonempty {T} key (f : Dict -> Atomics -> res (T * Dict * Atomics)) eng r eng' :
  shards eng <> [] -> with_shard key f eng = Ok (r, eng') -> shards eng' <> [].
Proof. intros Hne E%with_shard_shards E0. rewrite E0 in E. by destruct (shards eng). Qed.

(** [c] decides between a return and undefined behaviour. *)
Definition ok_iff {T} (c : bool) (x : res T) : Prop :=
  if c then exists y, x = Ok y else x = UB.

(** A key loop that has [n] keys left to count returns when the [int] can hold
    the sum. [I] relates the engine and the keys left to [n]. *)
Lemma count_keys_total f (I : StorageEngine -> list bytes -> Z -> Prop) keys c n eng :
  (forall eng n, I eng [] n -> n = 0) -> (forall eng keys n, I eng keys n -> 0 <= n) ->
  (forall eng key keys n, I eng (key :: keys) n -> exists b eng1,
     with_shard key (f key) eng = Ok (b, eng1) /\ I eng1 keys (n - if b : bool then 1 else 0)) ->
  I eng keys n -> c <= INT_MAX -> ok_iff (c + n <=? INT_MAX) (count_keys f keys c eng).
Proof.
  intros H0 Hpos Hstep. revert c n eng. induction keys as [|key keys IH]; simpl; intros c n eng HI Hc.
  { rewrite (H0 _ _ HI), Z.add_0_r, (proj2 (Z.leb_le _ _) Hc). by eexists. }
  destruct (Hstep _ _ _ _ HI) as (b & eng1 & -> & HI1). cbn. pose proof (Hpos _ _ _ HI1).
  destruct b; [|rewrite Z.sub_0_r in HI1; by apply IH].
  destruct (Z.ltb_spec INT_MAX (c + 1)).
  - rewrite (proj2 (Z.leb_gt _ _)) by lia. done.
  - replace (c + n) with (c + 1 + (n - 1)) by lia. by apply IH; [|lia].
Qed.

(** How many keys a [DEL] finds: each stored one once, expired or not. *)
Definition stored_count (ks : list bytes) (eng : StorageEngine) : Z :=
  Z.of_nat (size (filter (fun k => is_Some (elookup k eng)) (list_to_set ks : gset bytes))).

Lemma stored_count_cons key keys eng eng1 b :
  elookup key eng1 = None -> (forall k, k <> key -> elookup k eng1 = elookup k eng) ->
  b = bool_decide (is_Some (elookup key eng)) ->
  stored_count (key :: keys) eng = (if b : bool then 1 else 0) + stored_count keys eng1.
Proof.
  intros Hk Ho ->. unfold stored_count. simpl.
  set (X := filter (fun k => is_Some (elookup k eng1)) (list_to_set keys : gset bytes)).
  assert (key ∉ X) as Hni by (unfold X; rewrite elem_of_filter, Hk; by intros [[? ?] _]).
  assert (forall k, k <> key -> k ∈ filter (fun k => is_Some (elookup k eng)) (list_to_set keys : gset bytes)
    <-> k ∈ X) as HX by (intros k Hn; unfold X; rewrite !elem_of_filter, Ho by done; done).
  case_bool_decide as E.
  - assert (filter (fun k => is_Some (elookup k eng)) ({[key]} ∪ list_to_set keys) = {[key]} ∪ X) as ->.
    { apply set_eq. intros k. destruct (decide (k = key)) as [->|Hn].
      { rewrite elem_of_filter, !elem_of_union, elem_of_singleton. tauto. }
      specialize (HX k Hn). rewrite elem_of_filter in HX.
      rewrite elem_of_filter, !elem_of_union, !elem_of_singleton. tauto. }
    rewrite size_union, size_singleton by set_solver. lia.
  - assert (filter (fun k => is_Some (elookup k eng)) ({[key]} ∪ list_to_set keys) = X) as ->; [|lia].
    apply set_eq. intros k. destruct (decide (k = key)) as [->|Hn].
    + rewrite elem_of_filter. tauto.
    + specialize (HX k Hn). rewrite elem_of_filter in HX.
      rewrite elem_of_filter, elem_of_union, elem_of_singleton. tauto.
Qed.

Lemma del_total keys eng : shards eng <> [] ->
  ok_iff (stored_count keys eng <=? INT_MAX) (del keys eng).
Proof.
  intros Hne. apply (count_keys_total del_locked
    (fun eng keys n => shards eng <> [] /\ n = stored_count keys eng) keys 0); [| | |done|done]; clear -PL.
  - by intros eng n [_ ->].
  - intros eng keys n [_ ->]. unfold stored_count. lia.
  - intros eng key keys n [Hne ->].
    destruct (with_shard_total key (del_locked key) eng Hne) as (b & eng1 & E);
      [intros s a; unfold del_locked; case_match; eauto|].
    exists b, eng1. split; [done|]. split; [by eapply with_shard_nonempty|].
    destruct (with_shard_lookup _ _ _ _ _ E) as (s & s' & _ & E1 & E2 & Ef & Hf & _).
    destruct (del_locked_frame _ _ _ _ _ _ Ef) as [Hs _].
    rewrite (stored_count_cons key keys eng eng1 b); [lia| |by apply Hf|].
    + rewrite E2. unfold del_locked in Ef. locked_cases Ef; [|done].
      by rewrite um_find_erase, bool_decide_eq_true_2.
    + rewrite E1. unfold del_locked in Ef. locked_cases Ef;
        symmetry; [apply bool_decide_eq_true_2; eauto|apply bool_decide_eq_false_2; by intros [? ?]].
Qed.

Lemma exists_total keys now eng m : shards eng <> [] -> R now eng m ->
  ok_iff (mem_count keys m <=? INT_MAX) (exists_ keys now eng).
Proof.
  intros Hne HR. apply (count_keys_total (fun key => exists_locked key now)
    (fun eng keys n => (shards eng <> [] /\ R now eng m) /\ n = mem_count keys m) keys 0);
    [| | |done|done]; clear -PL.
  - by intros eng n [_ ->].
  - intros eng keys n [_ ->]. unfold mem_count. lia.
  - intros eng key keys n [[Hne HR] ->].
    destruct (with_shard_total key (exists_locked key now) eng Hne) as (b & eng1 & E);
      [intros s a; unfold exists_locked; repeat case_match; eauto|].
    exists b, eng1. split; [done|].
    destruct (with_shard_lookup _ _ _ _ _ E) as (s & s' & _ & E1 & E2 & Ef & Hf & _).
    destruct (exists_locked_frame _ _ _ _ _ _ _ Ef) as [Hs _].
    destruct (exists_locked_view _ _ _ _ _ _ _ Ef) as [-> Hv].
    split; [split; [by eapply with_shard_nonempty|]|].
    + apply (R_same _ key eng); [done|by apply Hf|by rewrite E1, E2].
    + unfold mem_count. rewrite filter_cons, <- E1, (HR key).
      destruct (m !! key); [rewrite decide_True by eauto|rewrite decide_False by (by intros [? ?])];
        simpl; lia.
Qed.

Ltac locked_total := intros; repeat case_match; eauto.

Lemma store_counter_total delta key it n d now seed s a :
  ok_iff (is_i64 (n + delta)) (store_counter delta key it n d now seed s a).
Proof.
  unfold store_counter, ok_iff. destruct (is_i64 (n + delta)); [|done]. cbn [negb].
  match goal with |- context [make_room ?n ?o _ _ _] =>
    destruct (make_room_total n o seed s a) as (ok & s' & a' & ->) end. destruct ok; cbn; eauto.
Qed.

Lemma counter_locked_total delta key now seed s a :
  ok_iff (if counter_start (live now (um_find key s)) is Some (n, _) then is_i64 (n + delta) else true)
    (counter_locked delta key now seed s a).
Proof.
  unfold counter_locked. destruct (um_find key s) as [e|] eqn:F;
    [|simpl; apply store_counter_total].
  destruct (is_expired e now) eqn:Ex.
  { simpl. rewrite Ex. simpl. apply store_counter_total. }
  rewrite <- F, (counter_start_live now s key e F Ex). cbv zeta.
  destruct (bool_decide _ || _); [by eexists|apply store_counter_total].
Qed.

Lemma counter_total delta key now seed eng m :
  engine_wf eng -> R now eng m ->
  ok_iff (if counter_start (m !! key) is Some (n, _) then is_i64 (n + delta) else true)
    (with_shard key (counter_locked delta key now seed) eng).
Proof.
  intros Hw HR. destruct (with_shard_Ok key (counter_locked delta key now seed) eng (wf_shards _ Hw))
    as (s & Hs & El & Hok).
  pose proof (counter_locked_total delta key now seed s (atomics eng)) as HT.
  rewrite <- El, (HR key) in HT. unfold ok_iff in *.
  destruct (if counter_start _ is Some _ then _ else _); [|unfold with_shard; by rewrite Hs, HT].
  destruct HT as [[[r s'] a'] E]. eauto.
Qed.

(** Does the operation stay within its integers? The [int64_t] of a counter, and
    the [int] in which [del] and [exists] count keys. *)
Definition op_in_range (op : kv_op) (eng : StorageEngine) (m : kv_state) : bool :=
  match op with
  | KIncr k => if counter_start (m !! k) is Some (n, _) then is_i64 (n + 1) else true
  | KDecr k => if counter_start (m !! k) is Some (n, _) then is_i64 (n + -1) else true
  | KDel ks => stored_count ks eng <=? INT_MAX
  | KExists ks => mem_count ks m <=? INT_MAX
  | _ => true
  end.

(** A call on at most [INT_MAX] keys cannot overflow the [int]. *)
Lemma stored_count_le ks eng : stored_count ks eng <= Z.of_nat (length ks).
Proof.
  unfold stored_count. apply Nat2Z.inj_le. transitivity (size (list_to_set ks : gset bytes)).
  { apply subseteq_size. intros k. rewrite elem_of_filter. tauto. }
  induction ks as [|k ks IH]; [done|]. cbn [list_to_set length].
  rewrite size_union_alt, size_singleton. cbn. apply le_n_S. etrans; [|exact IH].
  apply subseteq_size. set_solver.
Qed.

Lemma mem_count_le ks m : mem_count ks m <= Z.of_nat (length ks).
Proof. unfold mem_count. apply Nat2Z.inj_le, length_filter. Qed.

Lemma run_op_total op now seed eng m :
  engine_wf eng -> R now eng m -> ok_iff (op_in_range op eng m) (run_op op now seed eng).
Proof.
  intros Hw HR. pose proof (wf_shards _ Hw) as Hne.
  assert (forall T (c : T -> kv_res) key f, (forall s a, exists x, f s a = Ok x) ->
    ok_iff true ('(r, eng) ← with_shard key f eng; Ok (c r, eng))) as HB.
  { intros T c key f Hf. destruct (with_shard_total key f eng Hne Hf) as (r & eng' & ->). by eexists. }
  assert (forall T c b (x : res (T * StorageEngine)), ok_iff b x ->
    ok_iff b ('(r, eng) ← x; Ok (c r : kv_res, eng))) as HM.
  { intros T c b x. unfold ok_iff. destruct b; [intros [[r e] ->]; by eexists|by intros ->]. }
  destruct op; cbn [op_in_range run_op]; try apply HB; try apply HM.
  - intros s a. unfold set_locked.
    match goal with |- context [make_room ?n ?o _ _ _] =>
      destruct (make_room_total n o seed s a) as (ok & s' & a' & ->) end.
    destruct ok; cbn; repeat case_match; eauto.
  - unfold get_locked; locked_total.
  - by apply del_total.
  - by apply exists_total.
  - by apply counter_total.
  - by apply counter_total.
  - unfold expire_locked, expire_at_locked; locked_total.
  - unfold expire_at_locked; locked_total.
  - unfold pttl_locked; locked_total.
  - unfold persist_locked; locked_total.
Qed.

End refine.

(** ** Properties *)

(** A history with a deadline that passes, a sweep and a counter. *)
Definition demo_events : list event := [
  EvOp 1000 7 (KSet (lit "a") (lit "41"));
  EvOp 1001 7 (KIncr (lit "a"));
  EvOp 1002 7 (KExpire (lit "a") 10);
  EvOp 1003 7 (KSet (lit "b") (lit "x"));
  EvSweep 1020 (fun _ => true);
  EvOp 1021 7 (KGet (lit "a"));
  EvOp 1022 7 (KExists [lit "a"; lit "b"; lit "b"]);
  EvOp 1023 7 (KDel [lit "b"; lit "c"])
].

(** C1. Refinement: any history of calls and sweeper passes with a clock that
    does not go back gives the answers of the map specification, started from
    the live keys of the engine; with a memory limit the map may lose keys,
    without one it may not; the final engine is well formed and represents the
    final map. *)
Theorem engine_refines_spec `{PlatformLaws} t eng m evs rs eng' :
  engine_wf eng -> R t eng m -> events_wf t evs = true ->
  run_events evs eng = Ok (rs, eng') ->
  exists t' m', spec_run (bounded eng) t evs rs m m' /\ R t' eng' m' /\ engine_wf eng'.
Proof. apply run_events_refines. Qed.

Lemma engine_refines_spec_witness :
  exists rs eng' t' m', run_events demo_events engine0 = Ok (rs, eng') /\
    rs = [RBool true; RNum (Some 42); RBool true; RBool true; RValue None; RInt 2; RInt 1] /\
    spec_run false 0 demo_events rs ∅ m' /\ R t' eng' m'.
Proof.
  assert (rs_ok : match run_events demo_events engine0 with
          | Ok (rs, _) => rs = [RBool true; RNum (Some 42); RBool true; RBool true; RValue None;
                                RInt 2; RInt 1]
          | _ => False end) by (vm_compute; reflexivity).
  destruct (run_events demo_events engine0) as [[rs eng']| | |] eqn:E; [|destruct rs_ok..].
  destruct (engine_refines_spec 0 engine0 ∅ demo_events rs eng' (new_engine_wf 16 ltac:(lia))
    (R_new 0 16) eq_refl E) as (t' & m' & Hs & HR & _).
  exists rs, eng', t', m'. exact (conj eq_refl (conj rs_ok (conj Hs HR))).
Defined.

(** C16. The representation invariant (every key in the shard of its hash,
    stored fields and counters in the range of their types, capacities at
    least sizes) is preserved by every operation and by the sweeper. *)
Theorem engine_invariant `{PlatformLaws} op now seed owns eng :
  engine_wf eng -> op_wf op = true -> 0 <= now < two64 ->
  engine_wf (sweep_pass owns now eng) /\
  forall r eng', run_op op now seed eng = Ok (r, eng') -> engine_wf eng'.
Proof.
  intros Hw Ho Hn. split; [by apply sweep_pass_wf|]. intros r eng'. by apply run_op_wf.
Qed.

Lemma engine_invariant_witness :
  engine_wf (sweep_pass (fun _ => true) 5 engine0) /\
  exists eng', run_op (KSet (lit "k") (lit "v")) 5 5 engine0 = Ok (RBool true, eng') /\ engine_wf eng'.
Proof.
  destruct (engine_invariant (KSet (lit "k") (lit "v")) 5 5 (fun _ => true) engine0) as [H1 H2];
    [apply new_engine_wf; lia|reflexivity|split; [lia|reflexivity]|].
  split; [exact H1|].
  assert (E := got_pair (run_op (KSet (lit "k") (lit "v")) 5 5 engine0) (RBool true) engine0
    ltac:(vm_compute; reflexivity)).
  eexists. split; [exact E|exact (H2 _ _ E)].
Defined.

(** C17. Every call on a well-formed engine returns, eviction loop included,
    unless it overflows an integer, which is undefined behaviour: [incr] on
    [INT64_MAX], [decr] on [INT64_MIN], [del] of more than [INT_MAX] stored keys
    (each counted once, expired ones too) and [exists] with more than [INT_MAX]
    hits. *)
Theorem engine_calls_return `{PlatformLaws} op now seed eng m :
  engine_wf eng -> R now eng m ->
  if op_in_range op eng m then exists r eng', run_op op now seed eng = Ok (r, eng')
  else run_op op now seed eng = UB.
Proof.
  intros Hw HR. pose proof (run_op_total op now seed eng m Hw HR) as HT. unfold ok_iff in HT.
  destruct (op_in_range op eng m); [|done]. destruct HT as [[r eng'] E]. eauto.
Qed.

Lemma engine_calls_return_witness :
  (exists r eng', run_op (KIncr (lit "n")) 5 5 engine0 = Ok (r, eng')) /\
  (exists r eng', run_op (KDel [lit "n"; lit "n"]) 5 5 engine0 = Ok (r, eng')).
Proof.
  split.
  - exact (engine_calls_return (KIncr (lit "n")) 5 5 engine0 ∅ (new_engine_wf 16 ltac:(lia)) (R_new 5 16)).
  - exact (engine_calls_return (KDel [lit "n"; lit "n"]) 5 5 engine0 ∅ (new_engine_wf 16 ltac:(lia)) (R_new 5 16)).
Defined.
