(* ===== verification/StorageClock.v ===== *)
(** * The engine when clock readings go back

    The relation of [StorageRefine] follows the live keys and needs readings that
    do not go back. Here the map holds everything that is stored, and every call
    is a [racy_step] of [StorageSpec] whatever its reading: what is live at the
    reading obeys the specification, and what is not can only be dropped. *)

From S2P Require Import Prelude CppStd UnorderedMap Storage RESP RESPProofs StdPlatform StorageProofs StorageSpec StorageRefine.

Section clock.
Context `{PL : PlatformLaws}.
Implicit Types (k key : bytes) (s : Dict) (a : Atomics) (e : DictEntry) (m : kv_state).

(** What the specification sees of an entry. *)
Definition content (e : DictEntry) : bytes * Z := (value e, expire_at_ms e).

(** [M] is what the engine stores. *)
Definition stores (eng : StorageEngine) (M : kv_state) : Prop :=
  forall k, content <$> elookup k eng = M !! k.

(** Everything stored, as a map. *)
Definition stored_keys (eng : StorageEngine) : gset bytes :=
  list_to_set (mjoin ((fun s => (um_elements s).*1) <$> shards eng)).

Definition stored_map (eng : StorageEngine) : kv_state :=
  map_imap (fun k _ => content <$> elookup k eng) (gset_to_gmap tt (stored_keys eng)).

Lemma stored_map_stores eng : stores eng (stored_map eng).
Proof.
  intros k. unfold stored_map. rewrite map_lookup_imap, lookup_gset_to_gmap.
  destruct (elookup k eng) as [e|] eqn:E; [|by destruct (guard _)].
  assert (k ∈ stored_keys eng) as Hk; [|by rewrite option_guard_True].
  unfold elookup in E. destruct (shards eng !! _) as [s|] eqn:Hs; [|done]. cbn in E.
  apply elem_of_list_to_set, list_elem_of_join.
  exists (um_elements s).*1. split; [apply um_find_is_Some; eauto|].
  apply list_elem_of_fmap. exists s. split; [done|]. by eapply list_elem_of_lookup_2.
Qed.

Lemma live_content now o : live now o =
  match content <$> o with Some x => if alive now x.2 then Some x else None | None => None end.
Proof.
  destruct o as [e|]; [|done]. cbn. rewrite is_expired_alive. by destruct (alive now (expire_at_ms e)).
Qed.

(** At any reading, the live keys are the live part of what is stored. *)
Lemma stores_R now eng M : stores eng M -> R now eng (purge now M).
Proof. intros HS k. by rewrite live_content, lookup_purge, (HS k). Qed.

Lemma R_unique now eng m m' : R now eng m -> R now eng m' -> m = m'.
Proof. intros H1 H2. apply map_eq. intros k. by rewrite <- (H1 k). Qed.

(** ** What a call leaves of the expired entries *)

(** The entry after the call is one the engine had, or holds the deadline the
    call just set. *)
Definition leftover (now : Z) (k : bytes) (nd : option Z) (o : option DictEntry) (e' : DictEntry) : Prop :=
  (content <$> o = Some (content e')) \/
  (nd = Some (expire_at_ms e') /\ exists d0, live now o = Some (value e', d0)).

Lemma leftover_lift {T} now key (f : Dict -> Atomics -> res (T * Dict * Atomics)) nd eng r eng' k e' :
  (forall s a r s' a', f s a = Ok (r, s', a') -> shrinks_but (eq key) s s') ->
  (forall s a r s' a' e', f s a = Ok (r, s', a') -> um_find key s' = Some e' -> is_expired e' now = true ->
     leftover now key (nd key) (um_find key s) e') ->
  with_shard key f eng = Ok (r, eng') ->
  elookup k eng' = Some e' -> is_expired e' now = true -> leftover now k (nd k) (elookup k eng) e'.
Proof.
  intros Hsh Hkey E F Ex. destruct (with_shard_lookup _ _ _ _ _ E) as (s & s' & _ & E1 & E2 & Ef & _ & Hg).
  destruct (decide (k = key)) as [->|Hn].
  - rewrite E1. rewrite E2 in F. by eapply Hkey.
  - left. destruct (Hg (Hsh _ _ _ _ _ Ef) k Hn) as [Eq|Eq]; rewrite Eq in F; [|done]. by rewrite F.
Qed.

Ltac leftover_find F := rewrite ?um_find_erase, ?um_find_update in F;
  rewrite ?bool_decide_eq_true_2 in F by done; cbn in F.

Lemma get_leftover key now s a r s' a' e' :
  get_locked key now s a = Ok (r, s', a') -> um_find key s' = Some e' -> is_expired e' now = true ->
  leftover now key None (um_find key s) e'.
Proof.
  unfold get_locked. intros E F Ex. locked_cases E; try leftover_find F; try congruence.
  rewrite F0 in F. cbn in F. simplify_eq. by left.
Qed.

Lemma exists_leftover key now s a r s' a' e' :
  exists_locked key now s a = Ok (r, s', a') -> um_find key s' = Some e' -> is_expired e' now = true ->
  leftover now key None (um_find key s) e'.
Proof.
  unfold exists_locked. intros E F Ex. locked_cases E; try leftover_find F; try congruence.
  rewrite F0 in F. cbn in F. simplify_eq. by left.
Qed.

Lemma del_leftover key now s a r s' a' e' :
  del_locked key s a = Ok (r, s', a') -> um_find key s' = Some e' ->
  leftover now key None (um_find key s) e'.
Proof. unfold del_locked. intros E F. locked_cases E; leftover_find F; congruence. Qed.

Lemma expire_at_leftover key d now s a r s' a' e' :
  expire_at_locked key d now s a = Ok (r, s', a') -> um_find key s' = Some e' ->
  leftover now key (Some d) (um_find key s) e'.
Proof.
  unfold expire_at_locked. intros E F. locked_cases E; try leftover_find F; try congruence.
  rewrite F0 in F. cbn in F. simplify_eq. right. split; [done|]. eexists. cbn. by rewrite C.
Qed.

Lemma pttl_leftover key now s a r s' a' e' :
  pttl_locked key now s a = Ok (r, s', a') -> um_find key s' = Some e' ->
  leftover now key None (um_find key s) e'.
Proof.
  unfold pttl_locked. intros E F. locked_cases E; try leftover_find F; try congruence;
    left; by simplify_eq.
Qed.

Lemma persist_leftover key now s a r s' a' e' :
  persist_locked key now s a = Ok (r, s', a') -> um_find key s' = Some e' -> is_expired e' now = true ->
  leftover now key None (um_find key s) e'.
Proof.
  unfold persist_locked. intros E F Ex. locked_cases E; try leftover_find F; try congruence.
  rewrite F0 in F. cbn in F. by simplify_eq.
Qed.

Lemma set_leftover key val now seed s a r s' a' e' :
  set_locked key val now seed s a = Ok (r, s', a') -> um_find key s' = Some e' -> is_expired e' now = true ->
  leftover now key None (um_find key s) e'.
Proof.
  intros (_ & _ & Hr & _)%set_locked_spec F Ex. destruct r.
  - destruct Hr as (c & _ & F'). rewrite F' in F. by simplify_eq.
  - by rewrite um_find_empty in F.
Qed.

Lemma counter_leftover delta key now seed s a r s' a' e' :
  counter_locked delta key now seed s a = Ok (r, s', a') -> um_find key s' = Some e' ->
  is_expired e' now = true -> leftover now key None (um_find key s) e'.
Proof.
  intros E F Ex. apply counter_locked_view in E.
  destruct (counter_start (live now (um_find key s))) as [[n d]|] eqn:Hc.
  - destruct E as [_ E]. destruct r as [v|]; [|destruct E as [E _]; by rewrite um_find_empty in F].
    destruct E as (-> & e & F' & Hv & Hd). rewrite F' in F. simplify_eq.
    exfalso. rewrite is_expired_alive in Ex. apply negb_true_iff in Ex.
    destruct (live now (um_find key s)) as [[v0 d0]|] eqn:Hl; cbn in Hc;
      [|injection Hc as _ Hc; by rewrite <- Hc in Ex].
    apply live_Some in Hl as (e0 & _ & Ex0 & _ & ->). rewrite is_expired_alive in Ex0.
    destruct (_ && _); [|done]. injection Hc as _ Hc. by rewrite Hc, Ex in Ex0.
  - destruct E as [_ ->]. left. by rewrite F.
Qed.

Lemma count_keys_leftover now f keys c eng r eng' k e' :
  (forall key s a r s' a', f key s a = Ok (r, s', a') -> shrinks_but (eq key) s s') ->
  (forall key s a r s' a' e', f key s a = Ok (r, s', a') -> um_find key s' = Some e' ->
     is_expired e' now = true -> leftover now key None (um_find key s) e') ->
  count_keys f keys c eng = Ok (r, eng') ->
  elookup k eng' = Some e' -> is_expired e' now = true -> leftover now k None (elookup k eng) e'.
Proof.
  intros Hsh Hkey E F Ex. revert c eng E. induction keys as [|key keys IH]; simpl; intros c eng E.
  { res_inv. left. by rewrite F. }
  apply bind_Ok in E as ([b eng1] & E0 & [_ E]%count_step).
  destruct (IH _ _ E) as [Hc|[? _]]; [|done].
  destruct (elookup k eng1) as [e1|] eqn:F1; [|done]. cbn in Hc. injection Hc as Hv Hd.
  assert (is_expired e1 now = true) as Ex1 by (rewrite is_expired_alive in *; by rewrite Hd).
  destruct (leftover_lift now key (f key) (fun _ => None) eng b eng1 k e1) as [Hl|[? _]];
    [intros *; apply Hsh|intros *; apply Hkey|done|done|done| |done].
  left. rewrite Hl. unfold content. by rewrite Hv, Hd.
Qed.

Lemma run_op_leftover op now seed eng r eng' k e' :
  run_op op now seed eng = Ok (r, eng') -> elookup k eng' = Some e' -> is_expired e' now = true ->
  leftover now k (new_deadline op now k) (elookup k eng) e'.
Proof.
  intros E F Ex. destruct op; simpl in E; op_split E;
    try (eapply (count_keys_leftover now); [| |exact E|exact F|exact Ex]);
    try (eapply (leftover_lift now _ _ (fun k' => new_deadline _ now k')); [| |exact E|exact F|exact Ex]);
    cbn [new_deadline]; rewrite ?(bool_decide_eq_true_2 (_ = _)) by done; intros * Ef.
  - by apply set_locked_spec in Ef as (? & _).
  - intros. by eapply set_leftover.
  - by apply get_locked_frame in Ef as [?%same_shrinks _].
  - intros. by eapply get_leftover.
  - by apply del_locked_frame in Ef as [?%same_shrinks _].
  - intros. by eapply del_leftover.
  - by apply exists_locked_frame in Ef as [?%same_shrinks _].
  - intros. by eapply exists_leftover.
  - by apply counter_locked_spec in Ef as (? & _).
  - intros. by eapply counter_leftover.
  - by apply counter_locked_spec in Ef as (? & _).
  - intros. by eapply counter_leftover.
  - by apply expire_at_locked_frame in Ef as [?%same_shrinks _].
  - intros. by eapply expire_at_leftover.
  - by apply expire_at_locked_frame in Ef as [?%same_shrinks _].
  - intros. by eapply expire_at_leftover.
  - by apply pttl_locked_frame in Ef as [?%same_shrinks _].
  - intros. by eapply pttl_leftover.
  - by apply persist_locked_frame in Ef as [?%same_shrinks _].
  - intros. by eapply persist_leftover.
Qed.

(** ** Calls and passes at any reading *)

Lemma run_op_racy op now seed eng r eng' M :
  engine_wf eng -> stores eng M -> run_op op now seed eng = Ok (r, eng') ->
  exists M', racy_step (bounded eng) now op r M M' /\ stores eng' M'.
Proof.
  intros Hw HS E. exists (stored_map eng'). pose proof (stored_map_stores eng') as HS'.
  split; [|done]. split.
  - destruct (run_op_refines _ _ _ _ _ _ _ Hw (stores_R now _ _ HS) E) as (m' & Hs & HR).
    by rewrite (R_unique _ _ _ _ (stores_R now _ _ HS') HR).
  - intros k v d Hk Hd. rewrite <- (HS' k) in Hk. apply fmap_Some in Hk as (e' & F & Hc).
    destruct (run_op_leftover _ _ _ _ _ _ _ _ E F) as [Hl|[Hn Hl]].
    { rewrite is_expired_alive. unfold content in Hc. simplify_eq. by rewrite Hd. }
    + left. by rewrite <- (HS k), Hl, Hc.
    + right. unfold content in Hc. simplify_eq. split; [done|].
      by rewrite (stores_R now _ _ HS k) in Hl.
Qed.

Lemma sweep_racy owns now eng M : stores eng M ->
  exists M1, M1 ⊆ M /\ purge now M1 = purge now M /\ stores (sweep_pass owns now eng) M1.
Proof.
  intros HS. exists (stored_map (sweep_pass owns now eng)).
  pose proof (stored_map_stores (sweep_pass owns now eng)) as HS'. split_and!; [| |done].
  - apply map_subseteq_spec. intros k x Hx. rewrite <- (HS' k) in Hx. rewrite <- (HS k).
    destruct (sweep_pass_lookup owns now eng k) as [Eq|[Eq _]]; rewrite Eq in Hx; done.
  - apply (R_unique now (sweep_pass owns now eng)); [by apply stores_R|].
    apply R_sweep. by apply stores_R.
Qed.

(** The ranges of the readings and of the arguments. *)
Definition event_ok (ev : event) : bool :=
  match ev with EvOp now _ op => is_u64 now && op_wf op | EvSweep now _ => is_u64 now end.

Lemma run_event_racy ev eng M rs eng' :
  engine_wf eng -> stores eng M -> event_ok ev = true -> run_events [ev] eng = Ok (rs, eng') ->
  exists M', racy_run (bounded eng) [ev] rs M M' /\ stores eng' M' /\ engine_wf eng'.
Proof.
  intros Hw HS He E. destruct ev as [now seed op|now owns]; cbn [event_ok] in He; cbn in E.
  - apply andb_true_iff in He as [Hn%is_u64_spec Ho]. apply bind_Ok in E as ([r eng1] & E1 & E). cbn in E. res_inv.
    destruct (run_op_racy _ _ _ _ _ _ _ Hw HS E1) as (M' & Hs & HS').
    exists M'. split_and!; [|done|by eapply run_op_wf].
    econstructor; [done|constructor].
  - res_inv. destruct (sweep_racy owns now eng M HS) as (M1 & H1 & H2 & H3).
    exists M1. split_and!; [|done|by apply sweep_pass_wf]. econstructor; [done|done|constructor].
Qed.

Lemma racy_run_app b evs rs M M1 evs' rs' M' :
  racy_run b evs rs M M1 -> racy_run b evs' rs' M1 M' -> racy_run b (evs ++ evs') (rs ++ rs') M M'.
Proof. induction 1; cbn; eauto using racy_run. Qed.

Lemma stores_new n : stores (new_engine n) ∅.
Proof. intros k. by rewrite elookup_new, lookup_empty. Qed.

End clock.

(** A specification that may drop keys allows more. *)
Lemma spec_step_weaken b b' now op r m m' : (b = true -> b' = true) ->
  spec_step b now op r m m' -> spec_step b' now op r m m'.
Proof.
  intros Hb. assert (forall m m', kept b m m' -> kept b' m m') as Hk.
  { intros m0 m1 [H1 H2]. split; [done|]. intros ->. apply H2. destruct b; [by specialize (Hb eq_refl)|done]. }
  assert (forall delta k o m m', counter_step b delta k o m m' -> counter_step b' delta k o m m') as Hc.
  { intros delta k o m0 m1 []; econstructor; eauto. }
  intros []; econstructor; eauto.
Qed.

Lemma racy_run_weaken b b' evs rs M M' : (b = true -> b' = true) ->
  racy_run b evs rs M M' -> racy_run b' evs rs M M'.
Proof.
  intros Hb. induction 1 as [|now seed op r evs rs M M1 M' [Hs Hl] _ IH|]; econstructor; eauto.
  split; [by eapply spec_step_weaken|done].
Qed.
