(* ===== verification/StorageMemory.v ===== *)
(** * Memory accounting and eviction

    [total_memory_usage_] against the sum of the costs of the stored entries.
    The difference, [drift], is exactly zero in a fresh engine and changed by
    no operation except an overwriting [set], [incr] or [decr]; how much those
    change it is computed, and the two ways it makes the counter wrap around
    are shown on the libstdc++ platform. The eviction loop ends, frees enough
    or empties the shard, picks the least recently used of its samples, and
    keeps the counter below the limit. *)

From S2P Require Import Prelude CppStd UnorderedMap Storage RESP RESPProofs StdPlatform StorageProofs StorageSpec StorageRefine.

Lemma zsum_insert (ss : list Z) i x y :
  ss !! i = Some x -> zsum (<[i := y]> ss) = zsum ss - x + y.
Proof.
  revert i. induction ss as [|z ss IH]; intros [|i] E; try done.
  - cbn in E. simplify_eq. change (zsum (y :: ss) = zsum (x :: ss) - x + y).
    rewrite !zsum_cons. lia.
  - change (zsum (z :: <[i := y]> ss) = zsum (z :: ss) - x + y).
    rewrite !zsum_cons, (IH i E). lia.
Qed.

Section memory.
Context `{PL : PlatformLaws}.
Implicit Types (k key : bytes) (s : Dict) (a : Atomics) (e : DictEntry).

Definition cost (k : bytes) (e : DictEntry) : Z := entry_cost k (value_cap e).

(** What the stored entries really cost. *)
Definition actual (eng : StorageEngine) : Z := zsum (um_sum cost <$> shards eng).

Definition drift (eng : StorageEngine) : Z := u64 (memory_usage eng - actual eng).

(** The shard's part of the difference. *)
Definition bal (s : Dict) (a : Atomics) : Z := total_memory_usage a - um_sum cost s.

Lemma cost_nonneg k e : 0 <= cost k e.
Proof. apply u64_range. Qed.

Lemma with_shard_drift {T} key (f : Dict -> Atomics -> res (T * Dict * Atomics)) eng r eng' :
  with_shard key f eng = Ok (r, eng') ->
  exists s s', shards eng !! Z.to_nat (get_shard_index key eng) = Some s /\
    elookup key eng = um_find key s /\ f s (atomics eng) = Ok (r, s', atomics eng') /\
    drift eng' = u64 (drift eng + (bal s' (atomics eng') - bal s (atomics eng))).
Proof.
  intros (s & s' & a' & Hs & Ef & ->)%with_shard_inv. exists s, s'. split_and!; [done| |done|].
  { by apply (elookup_shard key). }
  unfold drift, actual, bal, memory_usage. cbn [shards atomics].
  rewrite list_fmap_insert, (zsum_insert _ _ (um_sum cost s)) by (by rewrite list_lookup_fmap, Hs).
  autorewrite with kv. f_equal. lia.
Qed.

Lemma bal_erase k e s a : um_find k s = Some e ->
  u64 (bal (um_erase k s) (fetch_sub_total (cost k e) a)) = u64 (bal s a).
Proof.
  intros F. unfold bal. rewrite (um_sum_erase _ _ _ _ F). cbn.
  autorewrite with kv. f_equal. lia.
Qed.

(** A write that keeps the value string keeps its cost. *)
Lemma bal_touch k e v x t s a : um_find k s = Some e ->
  bal (um_update k (mkEntry v (value_cap e) x t) s) a = bal s a.
Proof. intros F. unfold bal. rewrite (um_sum_update _ _ _ _ _ F). unfold cost. cbn. lia. Qed.

Lemma evict_bal fuel needed freed g s a freed' s' a' :
  evict_loop fuel needed freed g s a = Ok (freed', s', a') -> u64 (bal s' a') = u64 (bal s a).
Proof.
  apply (evict_loop_ind (fun s a s' a' => u64 (bal s' a') = u64 (bal s a))); clear -PL; [done|].
  intros s a k e s' a' F ->. by apply bal_erase.
Qed.

(** ** Victims *)

(** The entries the sampling loop looks at: the first of each drawn bucket. *)
Fixpoint draws (n : nat) (s : Dict) (nb : Z) (g : Rng) : list (bytes * DictEntry) :=
  match n with
  | O => []
  | S n' =>
      let '(i, g') := rng_uniform nb g in
      match um_bucket s i with
      | k :: _ => match um_find k s with Some e => [(k, e)] | None => [] end
      | [] => []
      end ++ draws n' s nb g'
  end.

(** The generator after [n] draws. *)
Definition drawn (n : nat) (nb : Z) (g : Rng) : Rng := Nat.iter n (fun g => snd (rng_uniform nb g)) g.

Lemma sample_iter_lru s nb n best old g best' old' g' :
  Nat.iter n (sample_bucket s nb) (best, old, g) = (best', old', g') ->
  g' = drawn n nb g /\
  old' <= old /\ (forall k e, (k, e) ∈ draws n s nb g -> old' <= last_access_ms e) /\
  ((best' = best /\ old' = old) \/
   exists k e, best' = Some (k, e) /\ old' = last_access_ms e /\ old' < old /\ (k, e) ∈ draws n s nb g).
Proof.
  revert best old g. induction n as [|n IH]; intros best old g E.
  { simpl in E. simplify_eq. split_and!; [done|lia| |auto]. by intros k e ?%not_elem_of_nil. }
  unfold drawn. rewrite Nat.iter_succ_r in E. rewrite Nat.iter_succ_r. cbn [draws]. unfold sample_bucket at 2 in E.
  destruct (rng_uniform nb g) as [i g1]. cbn [snd]. fold (drawn n nb g1).
  destruct (um_bucket s i) as [|k1 ks]; [by apply IH|].
  destruct (um_find k1 s) as [e1|]; [|by apply IH].
  destruct (Z.ltb_spec (last_access_ms e1) old) as [Hlt|Hge];
    apply IH in E as (H0 & H1 & H2 & H3); (split_and!; [done|lia|..]).
  - intros k e [[= -> ->]|Hin]%elem_of_cons; [done|eauto].
  - right. destruct H3 as [[-> ->]|(k & e & -> & -> & Hl & Hin)].
    + exists k1, e1. split_and!; [done..|by left].
    + exists k, e. split_and!; [done..|lia|by right].
  - intros k e [[= -> ->]|Hin]%elem_of_cons; [lia|eauto].
  - destruct H3 as [?|(k & e & -> & -> & Hl & Hin)]; [by left|]. right. exists k, e.
    split_and!; [done..|by right].
Qed.

(** What a round of the eviction must erase: among the entries of five sampled
    buckets one that was not used after any other, or, when no sampled entry
    counts, the first entry of the iteration. *)
Definition is_victim (s : Dict) (g : Rng) (v : bytes * DictEntry) : Prop :=
  let sampled := draws 5 s (um_bucket_count s) g in
  if decide (Exists (fun p => last_access_ms p.2 < UINT64_MAX) sampled)
  then v ∈ sampled /\ Forall (fun p => last_access_ms v.2 <= last_access_ms p.2) sampled
  else head (um_elements s) = Some v.

Lemma victim_is s g k0 e0 l best old g' :
  um_elements s = (k0, e0) :: l -> sample_five s g = (best, old, g') ->
  g' = drawn 5 (um_bucket_count s) g /\ is_victim s g (default (k0, e0) best).
Proof.
  intros El Es. apply sample_iter_lru in Es as (-> & _ & Hmin & Hb). split; [done|].
  unfold is_victim. case_decide as Hd.
  - apply Exists_exists in Hd as ([k e] & Hin & Hlt). cbn in Hlt.
    destruct Hb as [[-> ->]|(k1 & e1 & -> & -> & _ & Hin1)]; [specialize (Hmin _ _ Hin); lia|].
    split; [done|]. apply Forall_forall. intros [k2 e2] Hin2. by eapply Hmin.
  - destruct Hb as [[-> _]|(k1 & e1 & -> & -> & Hlt & Hin1)]; [by rewrite El|].
    destruct Hd. apply Exists_exists. by exists (k1, e1).
Qed.

(** A run of the eviction: while less than [needed] is freed and the shard is
    not empty, a victim is erased. *)
Inductive evictions (needed : Z) : Z -> Rng -> Dict -> list (bytes * DictEntry) -> Dict -> Prop :=
  | evictions_end freed g s :
      needed <= freed \/ um_elements s = [] -> evictions needed freed g s [] s
  | evictions_round freed g s v vs s' :
      freed < needed -> is_victim s g v -> um_find v.1 s = Some v.2 ->
      evictions needed (u64 (freed + cost v.1 v.2)) (drawn 5 (um_bucket_count s) g) (um_erase v.1 s) vs s' ->
      evictions needed freed g s (v :: vs) s'.

Definition costs (vs : list (bytes * DictEntry)) : Z := zsum ((fun v => cost v.1 v.2) <$> vs).

Definition evict_atomics (vs : list (bytes * DictEntry)) (a : Atomics) : Atomics :=
  foldl (fun a v => count_evicted (fetch_sub_total (cost v.1 v.2) a)) a vs.

Lemma evict_loop_victims fuel needed freed g s a freed' s' a' :
  evict_loop fuel needed freed g s a = Ok (freed', s', a') -> 0 <= freed < two64 ->
  exists vs, evictions needed freed g s vs s' /\ a' = evict_atomics vs a /\
    freed' = u64 (freed + costs vs) /\ um_elements s ≡ₚ vs ++ um_elements s'.
Proof.
  revert freed g s a. induction fuel as [|f IH]; simpl; intros freed g s a E Hf; [done|].
  assert (forall x, Ok (freed, s, a) = Ok (freed', s', a') -> x \/ um_elements s = [] ->
    (x -> needed <= freed) -> exists vs, evictions needed freed g s vs s' /\ a' = evict_atomics vs a /\
      freed' = u64 (freed + costs vs) /\ um_elements s ≡ₚ vs ++ um_elements s') as Hend.
  { intros x [= -> -> ->] Hx Hn. exists []. split_and!; [constructor; tauto|done| |done].
    by rewrite Z.add_0_r, u64_small. }
  destruct (um_elements s) as [|[k0 e0] l] eqn:El; [apply (Hend False); auto; done|].
  destruct (Z.ltb_spec freed needed) as [Hlt|Hge]; [|apply (Hend True); auto].
  destruct (Z.eqb_spec (um_bucket_count s) 0) as [Hz|_].
  { pose proof (um_bucket_count_pos s). rewrite El in *. naive_solver lia. }
  destruct (sample_five s g) as [[best old] g'] eqn:Es.
  destruct (victim_is _ _ _ _ _ _ _ _ El Es) as [-> Hv].
  destruct (default (k0, e0) best) as [k e] eqn:Ed.
  pose proof (victim_found _ _ _ _ _ _ _ _ _ _ El Es Ed) as F.
  apply IH in E as (vs & Hr & -> & -> & HP); [|apply u64_range].
  exists ((k, e) :: vs). split_and!; [by econstructor|done| |].
  - unfold costs. rewrite fmap_cons, zsum_cons. autorewrite with kv. f_equal. unfold cost. cbn. lia.
  - rewrite <- El, (um_elements_erase_perm _ _ _ F), HP. done.
Qed.

Lemma evict_atomics_counts vs a : atomics_wf a ->
  evicted_keys (evict_atomics vs a) = u64 (evicted_keys a + Z.of_nat (length vs)) /\
  total_memory_usage (evict_atomics vs a) = u64 (total_memory_usage a - costs vs).
Proof.
  intros (Ht & _ & _ & _ & He & _). revert a Ht He. unfold costs.
  induction vs as [|v vs IH]; intros a Ht He.
  - cbn. by rewrite Z.add_0_r, Z.sub_0_r, !u64_small.
  - change (evict_atomics (v :: vs) a) with
      (evict_atomics vs (count_evicted (fetch_sub_total (cost v.1 v.2) a))).
    destruct (IH (count_evicted (fetch_sub_total (cost v.1 v.2) a))) as [-> ->]; [apply u64_range..|].
    rewrite fmap_cons, zsum_cons. cbn [length total_memory_usage evicted_keys count_evicted fetch_sub_total].
    autorewrite with kv. split; f_equal; lia.
Qed.

Lemma perm_costs s s' vs : um_elements s ≡ₚ vs ++ um_elements s' ->
  um_sum cost s = costs vs + um_sum cost s'.
Proof. intros HP. unfold um_sum, costs. by rewrite HP, fmap_app, zsum_app. Qed.

(** [freed] is the cost of what was erased. *)
Lemma evict_freed fuel needed freed g s a freed' s' a' :
  0 <= freed < two64 -> evict_loop fuel needed freed g s a = Ok (freed', s', a') ->
  freed' = u64 (freed + (um_sum cost s - um_sum cost s')).
Proof.
  intros Hf E. destruct (evict_loop_victims _ _ _ _ _ _ _ _ _ E Hf) as (vs & _ & _ & -> & HP%perm_costs).
  f_equal. lia.
Qed.

Lemma make_room_bal nc oc seed s a ok s' a' :
  make_room nc oc seed s a = Ok (ok, s', a') -> u64 (bal s' a') = u64 (bal s a).
Proof.
  unfold make_room. destruct (_ && _); [|by intros; simplify_eq].
  intros ([[freed s1] a1] & Ev & ?)%bind_Ok; simplify_eq. by apply evict_bal in Ev.
Qed.

(** ** Operations that leave the accounting exact *)

Lemma u64_bal s a s' a' D : u64 (bal s' a') = u64 (bal s a) ->
  u64 (D + (bal s' a' - bal s a)) = u64 D.
Proof.
  intros E. rewrite <- u64_add_r, <- u64_sub_l, E, u64_sub_l, Z.sub_diag. autorewrite with kv.
  by rewrite Z.add_0_r.
Qed.

Ltac bal_locked E := locked_cases E; try reflexivity;
  match goal with F : _ = Some _ |- _ =>
    first [ exact (bal_erase _ _ _ _ F) | exact (f_equal u64 (bal_touch _ _ _ _ _ _ _ F)) ]
  end.

Lemma get_locked_bal key now s a r s' a' :
  get_locked key now s a = Ok (r, s', a') -> u64 (bal s' a') = u64 (bal s a).
Proof. unfold get_locked. intros E. bal_locked E. Qed.

Lemma exists_locked_bal key now s a r s' a' :
  exists_locked key now s a = Ok (r, s', a') -> u64 (bal s' a') = u64 (bal s a).
Proof. unfold exists_locked. intros E. bal_locked E. Qed.

Lemma del_locked_bal key s a r s' a' :
  del_locked key s a = Ok (r, s', a') -> u64 (bal s' a') = u64 (bal s a).
Proof. unfold del_locked. intros E. bal_locked E. Qed.

Lemma expire_at_locked_bal key d now s a r s' a' :
  expire_at_locked key d now s a = Ok (r, s', a') -> u64 (bal s' a') = u64 (bal s a).
Proof. unfold expire_at_locked. intros E. bal_locked E. Qed.

Lemma pttl_locked_bal key now s a r s' a' :
  pttl_locked key now s a = Ok (r, s', a') -> u64 (bal s' a') = u64 (bal s a).
Proof. unfold pttl_locked. intros E. bal_locked E. Qed.

Lemma persist_locked_bal key now s a r s' a' :
  persist_locked key now s a = Ok (r, s', a') -> u64 (bal s' a') = u64 (bal s a).
Proof. unfold persist_locked. intros E. bal_locked E. Qed.

(** ** Overwrites *)

(** The error of one write: the cost charged for the new value against the
    capacity the stored string ends up with, and the old cost a second time
    when the key itself was evicted to make room for it. *)
Definition write_error (key : bytes) (n : Z) (before after_evict after : option DictEntry) : Z :=
  cap_copy n - from_option value_cap 0 after
  - match before, after_evict with
    | Some e, None => cost key e
    | _, _ => 0
    end.

Lemma entry_cost_diff key c c' : u64 (entry_cost key c - entry_cost key c') = u64 (c - c').
Proof. unfold entry_cost. autorewrite with kv. f_equal. lia. Qed.

(** The arithmetic shared by [set] and the counters. *)
Lemma put_bal key n e' before s1 a1 :
  (forall e1, um_find key s1 = Some e1 -> before = Some e1) ->
  u64 (bal (um_put key e' s1)
     (fetch_add_total (u64 (entry_cost key (cap_copy n) - from_option (cost key) 0 before)) a1)) =
  u64 (bal s1 a1 + write_error key n before (um_find key s1) (Some e')).
Proof.
  intros Hb. unfold bal, write_error. rewrite um_sum_put. cbn [total_memory_usage fetch_add_total].
  cbn [from_option]. autorewrite with kv.
  pose proof (entry_cost_diff key (cap_copy n) (value_cap e')) as HD.
  assert (forall x, u64 (x + (entry_cost key (cap_copy n) - entry_cost key (value_cap e'))) =
    u64 (x + (cap_copy n - value_cap e'))) as HX.
  { intros x. rewrite <- u64_add_r, HD, u64_add_r. done. }
  destruct (um_find key s1) as [e1|].
  - rewrite (Hb e1 eq_refl). cbn [from_option].
    transitivity (u64 (total_memory_usage a1 - um_sum cost s1 +
      (entry_cost key (cap_copy n) - entry_cost key (value_cap e')))).
    { f_equal. unfold cost. lia. }
    rewrite HX. f_equal. lia.
  - cbn [from_option].
    transitivity (u64 (total_memory_usage a1 - um_sum cost s1 - from_option (cost key) 0 before +
      (entry_cost key (cap_copy n) - entry_cost key (value_cap e')))).
    { f_equal. unfold cost. lia. }
    rewrite HX. f_equal. destruct before; cbn [from_option]; lia.
Qed.

Lemma set_locked_bal key val now seed s a r s' a' :
  set_locked key val now seed s a = Ok (r, s', a') ->
  if r then exists o, (o = um_find key s \/ o = None) /\
      (max_memory_bytes a = 0 -> o = um_find key s) /\
      from_option value_cap 0 (um_find key s') =
        match o with Some e => cap_assign (value_cap e) (size_of val) | None => cap_copy (size_of val) end /\
      u64 (bal s' a') = u64 (bal s a + write_error key (size_of val) (um_find key s) o (um_find key s'))
  else u64 (bal s' a') = u64 (bal s a).
Proof.
  unfold set_locked. intros ([[ok s1] a1] & Em & E)%bind_Ok.
  pose proof (make_room_bal _ _ _ _ _ _ _ _ Em) as HB.
  destruct (make_room_spec _ _ _ _ _ _ _ _ Em) as (M1 & _ & _ & M4 & _).
  destruct ok; simpl in E; [|by res_inv].
  assert (forall e', u64 (bal (um_put key e' s1) (fetch_add_total (u64 (entry_cost key (cap_copy (size_of val)) -
    match um_find key s with Some e => entry_cost key (value_cap e) | None => 0 end)) a1)) =
    u64 (bal s a + write_error key (size_of val) (um_find key s) (um_find key s1) (Some e'))) as HP.
  { intros e'. rewrite <- u64_add_l, <- HB, u64_add_l, <- put_bal.
    - by destruct (um_find key s).
    - intros e1 F1. destruct (M1 key) as [E1|E1]; congruence. }
  assert (forall e', um_find key (um_put key e' s1) = Some e') as HF.
  { intros e'. rewrite um_find_put. by rewrite bool_decide_eq_true_2. }
  assert (max_memory_bytes a = 0 -> um_find key s1 = um_find key s) as HM.
  { intros Hm. by destruct (M4 Hm) as (_ & -> & _). }
  unfold um_put in *. destruct (um_find key s1) as [e1|] eqn:F1; res_inv;
    (eexists; split_and!; [|apply HM| |rewrite HF; apply HP]);
    [destruct (M1 key) as [E1|E1]; rewrite F1 in E1; auto|by rewrite HF|by right|by rewrite HF].
Qed.

(** A counter stored under a new key: the number is moved into an empty string. *)
Lemma store_counter_new_bal delta key n d now seed s a r s' a' :
  (forall n, 0 <= n -> cap_move (cap_copy 0) n = cap_copy n) -> um_find key s = None ->
  store_counter delta key None n d now seed s a = Ok (r, s', a') -> u64 (bal s' a') = u64 (bal s a).
Proof.
  intros Hmv Hn. unfold store_counter. destruct (is_i64 _); [|done]. cbn [negb].
  intros ([[ok s1] a1] & Em & E)%bind_Ok.
  pose proof (make_room_bal _ _ _ _ _ _ _ _ Em) as HB.
  destruct (make_room_spec _ _ _ _ _ _ _ _ Em) as (M1 & _).
  destruct ok; simpl in E; [|by res_inv].
  assert (um_find key s1 = None) as F1 by (destruct (M1 key); congruence). rewrite F1 in E. res_inv.
  pose proof (fun e' => put_bal key (size_of (to_string (n + delta))) e' None s1 a1) as HP.
  cbn [from_option] in HP. rewrite HP by (intros e1 F; congruence). unfold write_error.
  cbn [from_option value_cap]. rewrite Hmv by apply size_of_nonneg.
  rewrite Z.sub_diag, Z.sub_0_r, Z.add_0_r. exact HB.
Qed.

(** [incr] and [decr] of a key that is absent, expired or no number. *)
Lemma counter_locked_bal delta key now seed s a r s' a' :
  (forall n, 0 <= n -> cap_move (cap_copy 0) n = cap_copy n) ->
  (live now (um_find key s) = None \/ counter_start (live now (um_find key s)) = None) ->
  counter_locked delta key now seed s a = Ok (r, s', a') -> u64 (bal s' a') = u64 (bal s a).
Proof.
  intros Hmv Hl. unfold counter_locked. destruct (um_find key s) as [e|] eqn:F;
    [|by apply store_counter_new_bal].
  destruct (is_expired e now) eqn:Ex.
  - intros E. rewrite <- (bal_erase key e s a F). eapply store_counter_new_bal; [done| |exact E].
    by rewrite um_find_erase, bool_decide_eq_true_2.
  - rewrite <- F, (counter_start_live now s key e F Ex) in Hl. rewrite F in Hl. cbn in Hl. rewrite Ex in Hl.
    cbv zeta in Hl. destruct (bool_decide _ || _); [by intros; res_inv|]. by destruct Hl.
Qed.

(** ** Operations on the engine *)

Lemma actual_new n : actual (new_engine n) = 0.
Proof.
  unfold actual. cbn [shards new_engine]. assert (um_sum cost um_new = 0) as E.
  { unfold um_sum. by rewrite um_new_elements. }
  induction n as [|n IH]; [done|]. rewrite replicate_S, fmap_cons, zsum_cons, E. done.
Qed.

(** Does the call overwrite the value of a stored entry? [incr] and [decr] do
    when the key is live and holds a number. *)
Definition overwrites (op : kv_op) (now : Z) (eng : StorageEngine) : bool :=
  match op with
  | KSet k _ => if elookup k eng is Some _ then true else false
  | KIncr k | KDecr k =>
      match live now (elookup k eng) with
      | Some x => if counter_start (Some x) is Some _ then true else false
      | None => false
      end
  | _ => false
  end.

Lemma with_shard_drift_same {T} key (f : Dict -> Atomics -> res (T * Dict * Atomics)) eng r eng' :
  (forall s r s' a', um_find key s = elookup key eng -> f s (atomics eng) = Ok (r, s', a') ->
     u64 (bal s' a') = u64 (bal s (atomics eng))) ->
  with_shard key f eng = Ok (r, eng') -> drift eng' = drift eng.
Proof.
  intros Hf E. destruct (with_shard_drift _ _ _ _ _ E) as (s & s' & _ & El & Ef & ->).
  rewrite u64_bal by (by eapply Hf). apply u64_idemp.
Qed.

Lemma count_keys_drift f keys c eng r eng' :
  (forall key s a r s' a', f key s a = Ok (r, s', a') -> u64 (bal s' a') = u64 (bal s a)) ->
  count_keys f keys c eng = Ok (r, eng') -> drift eng' = drift eng.
Proof.
  intros Hf. revert c eng. induction keys as [|key keys IH]; simpl; intros c eng E; [by res_inv|].
  apply bind_Ok in E as ([b eng1] & E0 & [_ E]%count_step). rewrite (IH _ _ E).
  eapply with_shard_drift_same; [|exact E0]. intros s rr s' a' _. apply Hf.
Qed.

Lemma run_op_drift op now seed eng r eng' :
  (forall n, 0 <= n -> cap_move (cap_copy 0) n = cap_copy n) ->
  overwrites op now eng = false -> run_op op now seed eng = Ok (r, eng') -> drift eng' = drift eng.
Proof.
  intros Hmv Ho E.
  assert (forall delta k s r s' a', um_find k s = elookup k eng ->
    match live now (elookup k eng) with
    | Some x => if counter_start (Some x) is Some _ then true else false
    | None => false
    end = false -> counter_locked delta k now seed s (atomics eng) = Ok (r, s', a') ->
    u64 (bal s' a') = u64 (bal s (atomics eng))) as HC.
  { intros delta k s r0 s' a' El Hl. apply counter_locked_bal; [done|]. rewrite El.
    destruct (live now (elookup k eng)); [|by left]. right. by destruct (counter_start _). }
  destruct op; simpl in Ho, E; try done; op_split E;
    try (eapply count_keys_drift; [|exact E]; intros key s a rr s' a' Ef);
    try (eapply with_shard_drift_same; [|exact E]; intros s rr s' a' El Ef).
  - apply set_locked_bal in Ef. rewrite El in Ef. destruct (elookup k eng); [done|].
    destruct rr; [|done]. destruct Ef as (o & [-> | ->] & _ & Hc & ->);
      unfold write_error; rewrite Hc; f_equal; lia.
  - by apply get_locked_bal in Ef.
  - by apply del_locked_bal in Ef.
  - by apply exists_locked_bal in Ef.
  - by apply HC in Ef.
  - by apply HC in Ef.
  - by apply expire_at_locked_bal in Ef.
  - by apply expire_at_locked_bal in Ef.
  - by apply pttl_locked_bal in Ef.
  - by apply persist_locked_bal in Ef.
Qed.

Lemma sweep_shards_bal i owns now ss a ss' a' :
  sweep_shards i owns now ss a = (ss', a') ->
  u64 (total_memory_usage a' - zsum (um_sum cost <$> ss')) =
  u64 (total_memory_usage a - zsum (um_sum cost <$> ss)).
Proof.
  revert i a ss' a'. induction ss as [|s ss IH]; cbn [sweep_shards]; intros i a ss' a' E;
    [by simplify_eq|].
  destruct (if owns i then _ else _) as [s1 a1] eqn:E1.
  destruct (sweep_shards _ _ _ _ _) as [ss2 a2] eqn:E2. simplify_eq.
  apply IH in E2. rewrite !fmap_cons, !zsum_cons.
  assert (u64 (bal s1 a1) = u64 (bal s a)) as HB.
  { destruct (owns i); [|by simplify_eq]. revert E1. unfold sweep_shard.
    apply (sweep_loop_ind (fun s a s' a' => u64 (bal s' a') = u64 (bal s a))); [done| |apply um_nodup|].
    - intros s0 a0 k e s0' a0' F _ ->. exact (bal_erase _ _ _ _ F).
    - intros k e. apply um_find_elements. }
  unfold bal in HB.
  replace (total_memory_usage a' - (um_sum cost s1 + zsum (um_sum cost <$> ss2)))
    with (total_memory_usage a' - zsum (um_sum cost <$> ss2) - um_sum cost s1) by lia.
  rewrite <- u64_sub_l, E2, u64_sub_l.
  replace (total_memory_usage a1 - zsum (um_sum cost <$> ss) - um_sum cost s1)
    with (total_memory_usage a1 - um_sum cost s1 - zsum (um_sum cost <$> ss)) by lia.
  rewrite <- u64_sub_l, HB, u64_sub_l. f_equal. lia.
Qed.

Lemma sweep_pass_drift owns now eng : drift (sweep_pass owns now eng) = drift eng.
Proof.
  unfold drift, actual, memory_usage, sweep_pass.
  destruct (sweep_shards _ _ _ _ _) as [ss a] eqn:E. cbn. by apply sweep_shards_bal in E.
Qed.

(** ** The limit *)

Lemma evict_sum_le fuel needed freed g s a freed' s' a' :
  evict_loop fuel needed freed g s a = Ok (freed', s', a') -> um_sum cost s' <= um_sum cost s.
Proof.
  apply (evict_loop_ind (fun s _ s' _ => um_sum cost s' <= um_sum cost s)); clear -PL; [done|].
  intros s _ k e s' _ F Hle. rewrite (um_sum_erase _ _ _ _ F) in Hle.
  pose proof (cost_nonneg k e). lia.
Qed.

(** Admission of a new key: the exact counter after eviction, within the limit. *)
Lemma make_room_limit nc seed s a s1 a1 :
  atomics_wf a -> 0 < max_memory_bytes a -> um_sum cost s <= total_memory_usage a ->
  0 <= nc -> total_memory_usage a + nc < two64 ->
  make_room nc 0 seed s a = Ok (true, s1, a1) ->
  total_memory_usage a1 = total_memory_usage a - um_sum cost s + um_sum cost s1 /\
  total_memory_usage a1 + nc <= max_memory_bytes a.
Proof.
  intros Ha Hm HS Hnc HT. pose proof Ha as ((? & ?) & (? & ?) & _). unfold make_room.
  rewrite Z.add_0_r, !(u64_small (max_memory_bytes a)), !(u64_small (_ + nc)) by lia.
  destruct (Z.ltb_spec 0 (max_memory_bytes a)); [|lia]. cbn [andb].
  destruct (Z.ltb_spec (max_memory_bytes a) (total_memory_usage a + nc)) as [Hlt|Hge];
    [|intros; simplify_eq; split; lia].
  rewrite u64_small by lia.
  intros ([[freed s2] a2] & Ev & [= Hok -> ->])%bind_Ok.
  pose proof (evict_atomics_wf _ _ _ _ _ _ _ Ha Ev) as ((? & ?) & _).
  unfold evict_from_shard in Ev.
  pose proof (evict_sum_le _ _ _ _ _ _ _ _ _ Ev). pose proof (evict_bal _ _ _ _ _ _ _ _ _ Ev) as HB.
  pose proof (um_sum_nonneg cost s1 cost_nonneg).
  apply evict_freed in Ev as ->; [|done]. zb. rewrite u64_small in Hok by lia.
  assert (total_memory_usage a1 = total_memory_usage a - um_sum cost s + um_sum cost s1) as Heq.
  { unfold bal in HB. rewrite <- (u64_small (total_memory_usage a1)) by lia.
    rewrite <- (u64_small (total_memory_usage a - um_sum cost s + um_sum cost s1)) by lia.
    replace (total_memory_usage a1) with (total_memory_usage a1 - um_sum cost s1 + um_sum cost s1) by lia.
    rewrite <- u64_add_l, HB, u64_add_l. done. }
  split; [done|]. lia.
Qed.

Lemma zsum_lookup_le (l : list Z) i x : Forall (Z.le 0) l -> l !! i = Some x -> 0 <= x <= zsum l.
Proof.
  intros Hl. revert i. induction Hl as [|y l Hy Hl IH]; intros [|i] E; try done.
  - cbn in E. simplify_eq. rewrite zsum_cons.
    assert (0 <= zsum l); [|lia]. clear -Hl. induction Hl as [|z l Hz Hl IH]; [done|].
    rewrite zsum_cons. lia.
  - rewrite zsum_cons. specialize (IH i E). lia.
Qed.

Lemma set_new_limit key val now seed eng eng' :
  engine_wf eng -> memory_usage eng = actual eng -> elookup key eng = None ->
  0 < max_memory_bytes (atomics eng) ->
  memory_usage eng + entry_cost key (cap_copy (size_of val)) < two64 ->
  set key val now seed eng = Ok (true, eng') ->
  memory_usage eng' = actual eng' /\ memory_usage eng' <= max_memory_bytes (atomics eng).
Proof.
  intros Hw Hex Habs Hm Hov (s & s' & a' & Hs & Ef & ->)%with_shard_inv.
  pose proof (wf_atomics _ Hw) as Ha. pose proof Ha as (_ & (? & ?) & _).
  rewrite (elookup_shard key _ s) in Habs by done.
  assert (um_sum cost s <= actual eng) as HS.
  { apply (zsum_lookup_le _ (Z.to_nat (get_shard_index key eng))).
    - apply Forall_fmap, Forall_true. intros s0. apply um_sum_nonneg, cost_nonneg.
    - by rewrite list_lookup_fmap, Hs. }
  unfold set_locked in Ef. rewrite Habs in Ef.
  apply bind_Ok in Ef as ([[ok s1] a1] & Em & Ef). destruct ok; [|by simpl in Ef; res_inv].
  pose proof (make_room_spec _ _ _ _ _ _ _ _ Em) as (M1 & _).
  unfold memory_usage in *. rewrite <- Hex in HS.
  pose proof (u64_range (cap_copy (size_of key) + cap_copy (size_of val) + sizeof_DictEntry + 32)) as Hc.
  fold (entry_cost key (cap_copy (size_of val))) in Hc.
  apply make_room_limit in Em as [Ht Hle]; [|done..|lia|done].
  pose proof (um_sum_nonneg cost s1 cost_nonneg).
  assert (um_find key s1 = None) as F1 by (destruct (M1 key); congruence).
  rewrite F1 in Ef. simpl in Ef. res_inv. cbn [atomics total_memory_usage fetch_add_total].
  rewrite Z.sub_0_r, u64_add_r, u64_small by lia. split; [|done].
  unfold actual. cbn [shards].
  rewrite list_fmap_insert, (zsum_insert _ _ (um_sum cost s)) by (by rewrite list_lookup_fmap, Hs).
  fold (actual eng). rewrite um_sum_insert by done.
  change (cost key (mkEntry val (cap_copy (size_of val)) 0 now))
    with (entry_cost key (cap_copy (size_of val))). lia.
Qed.

End memory.

(** ** Properties *)

(** C23. Exact accounting: every call that does not overwrite the value of a
    stored entry, and every sweeper pass, keeps [total_memory_usage_] at the
    same distance from the cost of the stored entries, which is zero in a fresh
    engine; eviction included. [incr] and [decr] of a key that is absent,
    expired or no number do not overwrite; they are exact because moving a
    string into an empty one gives the capacity of a copy, which is the
    hypothesis. *)
Theorem accounting_preserved `{PlatformLaws} op now seed owns eng n :
  (forall n, 0 <= n -> cap_move (cap_copy 0) n = cap_copy n) ->
  drift (new_engine n) = 0 /\ drift (sweep_pass owns now eng) = drift eng /\
  (overwrites op now eng = false ->
   forall r eng', run_op op now seed eng = Ok (r, eng') -> drift eng' = drift eng).
Proof.
  intros Hmv. split_and!.
  - unfold drift. by rewrite actual_new.
  - apply sweep_pass_drift.
  - intros Ho r eng'. by apply run_op_drift.
Qed.

Lemma accounting_preserved_witness :
  drift engine0 = 0 /\
  (exists eng', run_op (KSet (lit "k") (lit "v")) 5 5 engine0 = Ok (RBool true, eng') /\
    drift eng' = drift engine0) /\
  exists eng', run_op (KIncr (lit "n")) 5 5 engine0 = Ok (RNum (Some 1), eng') /\
    drift eng' = drift engine0.
Proof.
  assert (Hmv : forall n, 0 <= n -> cap_move (cap_copy 0) n = cap_copy n).
  { intros n Hn. cbn. unfold sso_capacity. destruct (Z.leb_spec n 15); lia. }
  destruct (accounting_preserved (KSet (lit "k") (lit "v")) 5 5 (fun _ => true) engine0 16 Hmv)
    as (H0 & _ & H1).
  destruct (accounting_preserved (KIncr (lit "n")) 5 5 (fun _ => true) engine0 16 Hmv) as (_ & _ & H2).
  assert (E := got_pair (run_op (KSet (lit "k") (lit "v")) 5 5 engine0) (RBool true) engine0
    ltac:(vm_compute; reflexivity)).
  assert (E' := got_pair (run_op (KIncr (lit "n")) 5 5 engine0) (RNum (Some 1)) engine0
    ltac:(vm_compute; reflexivity)).
  split; [exact H0|]. split; eexists; (split; [eassumption|]).
  - exact (H1 eq_refl _ _ E).
  - exact (H2 eq_refl _ _ E').
Defined.

(** C32. An overwriting [set] without a memory limit charges the capacity of
    a fresh copy of the value, while the stored string keeps whatever capacity
    the assignment left it: the counter moves away from the true cost by the
    difference. *)
Theorem set_overwrite_drift `{PlatformLaws} key val now seed eng e eng' :
  max_memory_bytes (atomics eng) = 0 -> elookup key eng = Some e ->
  set key val now seed eng = Ok (true, eng') ->
  drift eng' = u64 (drift eng + (cap_copy (size_of val) - cap_assign (value_cap e) (size_of val))).
Proof.
  intros Hm He E. destruct (with_shard_drift _ _ _ _ _ E) as (s & s' & _ & El & Ef & ->).
  apply set_locked_bal in Ef as (o & _ & Ho & Hc & HB). rewrite <- El, He in *.
  rewrite (Ho Hm) in *. unfold write_error in HB. rewrite Hc in HB.
  rewrite <- u64_add_r, <- u64_sub_l, HB. autorewrite with kv. f_equal. lia.
Qed.

(** A value of 40 bytes. *)
Definition forty : bytes := replicate 40 "x"%char.

Definition engine_forty : StorageEngine :=
  match set (lit "k") forty 10 10 engine0 with Ok (_, eng) => eng | _ => engine0 end.

Lemma set_overwrite_drift_witness :
  exists eng', set (lit "k") (lit "y") 11 11 engine_forty = Ok (true, eng') /\
    drift eng' = two64 - 25.
Proof.
  assert (E := got_pair (set (lit "k") (lit "y") 11 11 engine_forty) true engine0
    ltac:(vm_compute; reflexivity)).
  eexists. split; [exact E|].
  rewrite (set_overwrite_drift (lit "k") (lit "y") 11 11 engine_forty (mkEntry forty 40 0 10) _
    ltac:(vm_compute; reflexivity) ltac:(vm_compute; reflexivity) E).
  vm_compute. reflexivity.
Defined.

(** The counter wraps around: on libstdc++, storing 40 bytes, overwriting
    them with one byte and deleting the key leaves an empty engine that
    reports 18446744073709551591 bytes in use. *)
Example set_overwrite_underflow :
  run_events [EvOp 10 10 (KSet (lit "k") forty); EvOp 11 11 (KSet (lit "k") (lit "y"));
              EvOp 12 12 (KDel [lit "k"])] engine0
    ≫= (fun '(rs, eng) => Ok (rs, memory_usage eng, actual eng)) =
  Ok ([RBool true; RBool true; RInt 1], 18446744073709551591, 0).
Proof. vm_compute. reflexivity. Qed.

(** Evicting the key that is being overwritten subtracts its cost twice
    and defeats the limit: with the limit lowered to 200 bytes, overwriting
    the only key by a value that does not fit is accepted, and the counter
    wraps around although one entry is stored. *)
Example set_self_eviction_underflow :
  ('(ok1, eng) ← set (lit "k") (replicate 400 "x"%char) 10 10 engine0;
   '(ok2, eng) ← set (lit "k") (replicate 200 "x"%char) 11 11 (set_max_memory 200 eng);
   Ok (ok1, ok2, memory_usage eng, actual eng, max_memory_bytes (atomics eng))) =
  Ok (true, true, two64 - 200, 295, 200).
Proof. vm_compute. reflexivity. Qed.

(** C22. The limit is enforced for a new key: when the counter is exact, a
    [set] that succeeds under a memory limit leaves it exact and at most the
    limit. *)
Theorem set_respects_limit `{PlatformLaws} key val now seed eng eng' :
  engine_wf eng -> memory_usage eng = actual eng -> elookup key eng = None ->
  0 < max_memory_bytes (atomics eng) ->
  memory_usage eng + entry_cost key (cap_copy (size_of val)) < two64 ->
  set key val now seed eng = Ok (true, eng') ->
  memory_usage eng' = actual eng' /\ memory_usage eng' <= max_memory_bytes (atomics eng).
Proof. apply set_new_limit. Qed.

Lemma set_max_memory_wf `{PlatformLaws} n eng : engine_wf eng -> engine_wf (set_max_memory n eng).
Proof.
  intros [W1 W2 W3 (?&?&?&?&?&?)]. split; [done|apply W2|apply W3|].
  repeat split; cbn; try apply u64_range; tauto.
Qed.

Definition engine_limit : StorageEngine := set_max_memory 200 engine0.

Lemma set_respects_limit_witness :
  exists eng', set (lit "k") (lit "v") 10 10 engine_limit = Ok (true, eng') /\
    memory_usage eng' = actual eng' /\ memory_usage eng' <= 200.
Proof.
  assert (E := got_pair (set (lit "k") (lit "v") 10 10 engine_limit) true engine0
    ltac:(vm_compute; reflexivity)).
  eexists. split; [exact E|].
  apply (set_respects_limit (lit "k") (lit "v") 10 10 engine_limit _);
    [apply set_max_memory_wf, new_engine_wf; lia|vm_compute; reflexivity|vm_compute; reflexivity
    |vm_compute; reflexivity|vm_compute; reflexivity|exact E].
Defined.

(** C33. A [set] rejected for lack of memory has evicted its whole shard:
    every key of the shard is gone, the old value of the key included. *)
Theorem set_oom_empties_shard `{PlatformLaws} key val now seed eng eng' k :
  set key val now seed eng = Ok (false, eng') ->
  get_shard_index k eng = get_shard_index key eng ->
  max_memory_bytes (atomics eng) <> 0 /\ elookup k eng' = None.
Proof.
  intros (s & s' & a' & Hs & Ef & ->)%with_shard_inv Hk.
  destruct (set_locked_spec _ _ _ _ _ _ _ _ _ Ef) as (_ & Hm & He & _). split.
  - intros Hz. by destruct (Hm Hz).
  - rewrite (elookup_insert key _ s), Hk, bool_decide_eq_true_2 by done. by apply um_find_empty.
Qed.

(** The limited engine after [k] has been set. *)
Definition engine_full : StorageEngine :=
  match set (lit "k") (lit "v") 10 10 engine_limit with Ok (_, eng) => eng | _ => engine0 end.

Lemma set_oom_empties_shard_witness :
  is_Some (elookup (lit "k") engine_full) /\
  exists eng', set (lit "k") (replicate 400 "x"%char) 11 11 engine_full = Ok (false, eng') /\
    elookup (lit "k") eng' = None.
Proof.
  split; [vm_compute; by eexists|].
  assert (E := got_pair (set (lit "k") (replicate 400 "x"%char) 11 11 engine_full) false engine0
    ltac:(vm_compute; reflexivity)).
  eexists. split; [exact E|].
  exact (proj2 (set_oom_empties_shard (lit "k") (replicate 400 "x"%char) 11 11 _ _ (lit "k") E eq_refl)).
Defined.

(** C21. Eviction terminates, and is a run of victims: while less than what was
    asked for is freed and the shard is not empty, it erases an entry that is the
    least recently used of the first entries of five randomly drawn buckets (or
    the first entry of the shard when the buckets held none); nothing else
    leaves the shard; [freed], the memory counter and the counter of evictions
    account for exactly these victims. *)
Theorem eviction_correct `{PlatformLaws} seed needed s a :
  atomics_wf a ->
  exists freed s' vs, let a' := evict_atomics vs a in
    evict_from_shard seed needed s a = Ok (freed, s', a') /\
    evictions needed 0 (rng_seed seed) s vs s' /\
    um_elements s ≡ₚ vs ++ um_elements s' /\
    freed = u64 (costs vs) /\ (needed <= freed \/ um_elements s' = []) /\
    total_memory_usage a' = u64 (total_memory_usage a - costs vs) /\
    evicted_keys a' = u64 (evicted_keys a + Z.of_nat (length vs)).
Proof.
  intros Ha. destruct (evict_from_shard_total seed needed s a) as (freed & s' & a' & E).
  destruct (evict_loop_victims _ _ _ _ _ _ _ _ _ E (conj (Z.le_refl 0) eq_refl)) as (vs & Hr & -> & Hf & HP).
  destruct (evict_atomics_counts vs a Ha) as [He Ht].
  exists freed, s', vs. cbn zeta. split_and!; try done. by eapply evict_loop_exit.
Qed.

(** Three entries; the oldest one, [c], is neither first nor last in the table. *)
Definition shard_three : Dict :=
  um_put (lit "a") (mkEntry (lit "1") 15 0 30) (um_put (lit "c") (mkEntry (lit "3") 15 0 10)
    (um_put (lit "b") (mkEntry (lit "2") 15 0 20) um_new)).

Lemma eviction_correct_witness :
  let a := mkAtomics 330 300 0 0 0 0 in
  exists freed s' vs, evict_from_shard 2 100 shard_three a = Ok (freed, s', evict_atomics vs a) /\
    (um_elements shard_three).*1 = [lit "a"; lit "c"; lit "b"] /\ vs.*1 = [lit "c"] /\
    evictions 100 0 (rng_seed 2) shard_three vs s'.
Proof.
  intros a. destruct (eviction_correct 2 100 shard_three a) as (freed & s' & vs & E & Hr & HP & _);
    [repeat split; vm_compute; congruence|].
  exists freed, s', vs. split; [exact E|]. split; [vm_compute; reflexivity|]. split; [|exact Hr].
  assert (match evict_from_shard 2 100 shard_three a with
          | Ok (_, t, _) => (um_elements t).*1 = [lit "a"; lit "b"] | _ => False end) as HC
    by (vm_compute; reflexivity).
  rewrite E in HC. assert (Hk := fmap_Permutation fst _ _ HP). rewrite fmap_app, HC in Hk.
  assert (E3 : (um_elements shard_three).*1 ≡ₚ [lit "c"] ++ [lit "a"; lit "b"]) by apply Permutation_swap.
  rewrite E3 in Hk. apply Permutation_app_inv_r, Permutation_length_1_inv in Hk. exact Hk.
Defined.
