(* ===== verification/AOF.v ===== *)
(** * The append-only file and the process metrics:
      [src/storage/AOFLogger.cpp], [include/storage/AOFLogger.h],
      [src/server/Metrics.cpp], [include/server/Metrics.h]

    The logger is an append-mode file stream. What reaches the file when the
    stream is flushed is the operating system's decision, so it is a
    parameter: [disk_accept file data] is the number of bytes of [data] that
    are appended to [file]; a short write sets the stream's error flag, after
    which writes do nothing and [tellp] is -1. *)

From S2P Require Import Prelude.

Class Disk := { disk_accept : bytes -> bytes -> nat }.

(** A disk that never fails. *)
Definition reliable (D : Disk) : Prop := forall file data, (length data <= @disk_accept D file data)%nat.

Record AOFLogger := mkAOF {
  filepath : bytes;
  is_open : bool;
  good : bool;
  file : bytes
}.

Section aof.
Context `{Disk}.

(** The constructor opens in append mode, creating the file when it does not
    exist; [content] is what the file holds, [None] when it cannot be opened. *)
Definition open_aof (path : bytes) (content : option bytes) : res AOFLogger :=
  match content with
  | Some c => Ok (mkAOF path true true c)
  | None => Throw runtime_error
  end.

(** [stream_.write] then [stream_.flush]. *)
Definition write_flush (data : bytes) (l : AOFLogger) : AOFLogger :=
  if good l then
    let n := disk_accept (file l) data in
    mkAOF (filepath l) (is_open l) (bool_decide (length data <= n)%nat) (file l ++ take n data)
  else l.

Definition log (serialized_command : bytes) (l : AOFLogger) : AOFLogger :=
  if negb (is_open l) then l else write_flush serialized_command l.

Definition log_raw (data : bytes) (l : AOFLogger) : AOFLogger :=
  if negb (is_open l) then l else write_flush data l.

(** Every write is flushed at once, so nothing is pending. *)
Definition flush (l : AOFLogger) : AOFLogger := if negb (is_open l) then l else write_flush [] l.

(** The destructor. *)
Definition close_aof (l : AOFLogger) : AOFLogger :=
  if is_open l then
    let l := flush l in mkAOF (filepath l) false (good l) (file l)
  else l.

(** [tellp()] of an append stream is the end of the file; a failed stream
    gives -1, converted to [size_t]. *)
Definition get_file_size (l : AOFLogger) : Z :=
  if negb (is_open l) then 0
  else if good l then size_of (file l) else UINT64_MAX.

(** The logger is usable: writes reach the file. *)
Definition ready (l : AOFLogger) : Prop := is_open l = true /\ good l = true.

Lemma log_app data l : reliable _ -> ready l ->
  log data l = mkAOF (filepath l) true true (file l ++ data) /\ log_raw data l = log data l.
Proof.
  intros HR [Ho Hg]. split; [|done]. unfold log, write_flush. rewrite Ho, Hg. cbn [negb].
  rewrite bool_decide_eq_true_2, take_ge by apply HR. by destruct l; simpl in *; subst.
Qed.

(** The file only grows. *)
Lemma log_prefix data l : file l `prefix_of` file (log data l).
Proof.
  unfold log, write_flush. destruct (is_open l), (good l); simpl; try done. by eexists.
Qed.

End aof.

(** ** [Metrics] *)

Record Metrics := mkMetrics { commands_processed : Z; connected_clients : Z }.

Definition initial_metrics : Metrics := mkMetrics 0 0.

Definition count_command (m : Metrics) : Metrics :=
  mkMetrics (u64 (commands_processed m + 1)) (connected_clients m).

(** [connected_clients] is a [uint32_t]. *)
Definition client_connected (m : Metrics) : Metrics :=
  mkMetrics (commands_processed m) ((connected_clients m + 1) mod 2 ^ 32).
Definition client_gone (m : Metrics) : Metrics :=
  mkMetrics (commands_processed m) ((connected_clients m - 1) mod 2 ^ 32).
