(* ===== verification/Dispatcher.v ===== *)
(** * The command dispatcher: [src/server/CommandDispatcher.cpp],
      [include/server/CommandDispatcher.h]

    [dispatch] with one definition per command. The state a command works on
    is the context [Ctx]: the storage engine, the AOF logger when the pointer
    is not null, and the global metrics. *)

From S2P Require Import Prelude CppStd RESP UnorderedMap Storage AOF.

(** The clock readings of one command: in the engine, for the seed of the
    eviction, and in the dispatcher itself. *)
Record Clock := mkClock { engine_now : Z; evict_seed : Z; dispatch_now : Z }.

Record DispatchResult := mkResult {
  response : RESPValue;
  close_connection : bool;
  is_psync : bool;
  psync_offset : Z
}.

(** [{response, false, false, 0}]. *)
Definition reply (r : RESPValue) : DispatchResult := mkResult r false false 0.
Definition reply_error (msg : bytes) : DispatchResult := reply (create_error msg).

Definition is_mutating_command (cmd : bytes) : bool :=
  bool_decide (cmd = lit "SET") || bool_decide (cmd = lit "DEL") ||
  bool_decide (cmd = lit "INCR") || bool_decide (cmd = lit "DECR") ||
  bool_decide (cmd = lit "EXPIRE") || bool_decide (cmd = lit "PEXPIRE") ||
  bool_decide (cmd = lit "PEXPIREAT") || bool_decide (cmd = lit "PERSIST").

Section dispatcher.
Context `{Platform} `{Disk}.

Record Ctx := mkCtx {
  storage : StorageEngine;
  aof : option AOFLogger;
  metrics : Metrics
}.

Definition with_storage (eng : StorageEngine) (c : Ctx) : Ctx := mkCtx eng (aof c) (metrics c).

(** [if (aof && !bypass_readonly && cond) aof->log(cmd)]. *)
Definition log_if (cond bypass : bool) (cmd : RESPValue) (c : Ctx) : Ctx :=
  match aof c with
  | Some l => if negb bypass && cond then mkCtx (storage c) (Some (log (serialize cmd) l)) (metrics c)
              else c
  | None => c
  end.

(** [request.array_value[i].string_value], with [i] inside the array. *)
Definition arg (req : RESPValue) (i : nat) : bytes :=
  from_option string_value [] (array_value req !! i).

Definition argc (req : RESPValue) : nat := length (array_value req).

Definition not_integer : bytes := lit "ERR value is not an integer or out of range".

Definition wrong_args (name : bytes) : bytes :=
  lit "ERR wrong number of arguments for '" ++ name ++ lit "' command".

Definition cmd_ping (req : RESPValue) (c : Ctx) : res (DispatchResult * Ctx) :=
  if (2 <? argc req)%nat then Ok (reply_error (wrong_args (lit "ping")), c)
  else if (argc req =? 2)%nat then Ok (reply (create_bulk_string (arg req 1)), c)
  else Ok (reply (create_simple_string (lit "PONG")), c).

Definition cmd_echo (req : RESPValue) (c : Ctx) : res (DispatchResult * Ctx) :=
  if negb (argc req =? 2)%nat then Ok (reply_error (wrong_args (lit "echo")), c)
  else Ok (reply (create_bulk_string (arg req 1)), c).

Definition cmd_quit (req : RESPValue) (c : Ctx) : res (DispatchResult * Ctx) :=
  if negb (argc req =? 1)%nat then Ok (reply_error (wrong_args (lit "quit")), c)
  else Ok (mkResult (create_simple_string (lit "OK")) true false 0, c).

Definition cmd_set (clk : Clock) (bypass : bool) (req : RESPValue) (c : Ctx)
    : res (DispatchResult * Ctx) :=
  if (argc req <? 3)%nat then Ok (reply_error (wrong_args (lit "set")), c)
  else
    '(ok, eng) ← set (arg req 1) (arg req 2) (engine_now clk) (evict_seed clk) (storage c);
    let c := with_storage eng c in
    if negb ok then
      Ok (reply_error (lit "OOM command not allowed when used memory > 'maxmemory'"), c)
    else Ok (reply (create_simple_string (lit "OK")), log_if true bypass req c).

Definition cmd_get (clk : Clock) (req : RESPValue) (c : Ctx) : res (DispatchResult * Ctx) :=
  if negb (argc req =? 2)%nat then Ok (reply_error (wrong_args (lit "get")), c)
  else
    '(val_opt, eng) ← get (arg req 1) (engine_now clk) (storage c);
    let c := with_storage eng c in
    match val_opt with
    | Some v => Ok (reply (create_bulk_string v), c)
    | None => Ok (reply create_null, c)
    end.

(** The [keys] vector of [DEL] and [EXISTS]. *)
Definition arg_keys (req : RESPValue) : list bytes := string_value <$> drop 1 (array_value req).

(** The end of [DEL]: the reply and the log. *)
Definition del_finish (bypass : bool) (req : RESPValue) (deleted : Z) (c : Ctx) : DispatchResult * Ctx :=
  (reply (create_integer deleted), log_if (0 <? deleted) bypass req c).

Definition cmd_del (bypass : bool) (req : RESPValue) (c : Ctx) : res (DispatchResult * Ctx) :=
  if (argc req <? 2)%nat then Ok (reply_error (wrong_args (lit "del")), c)
  else
    '(deleted, eng) ← del (arg_keys req) (storage c);
    Ok (del_finish bypass req deleted (with_storage eng c)).

Definition cmd_exists (clk : Clock) (req : RESPValue) (c : Ctx) : res (DispatchResult * Ctx) :=
  if (argc req <? 2)%nat then Ok (reply_error (wrong_args (lit "exists")), c)
  else
    '(n, eng) ← exists_ (arg_keys req) (engine_now clk) (storage c);
    Ok (reply (create_integer n), with_storage eng c).

Definition cmd_incr (clk : Clock) (bypass : bool) (req : RESPValue) (c : Ctx)
    : res (DispatchResult * Ctx) :=
  if negb (argc req =? 2)%nat then Ok (reply_error (wrong_args (lit "incr")), c)
  else
    '(r, eng) ← incr (arg req 1) (engine_now clk) (evict_seed clk) (storage c);
    let c := with_storage eng c in
    match r with
    | Some v => Ok (reply (create_integer v), log_if true bypass req c)
    | None => Ok (reply_error not_integer, c)
    end.

Definition cmd_decr (clk : Clock) (bypass : bool) (req : RESPValue) (c : Ctx)
    : res (DispatchResult * Ctx) :=
  if negb (argc req =? 2)%nat then Ok (reply_error (wrong_args (lit "decr")), c)
  else
    '(r, eng) ← decr (arg req 1) (engine_now clk) (evict_seed clk) (storage c);
    let c := with_storage eng c in
    match r with
    | Some v => Ok (reply (create_integer v), log_if true bypass req c)
    | None => Ok (reply_error not_integer, c)
    end.

Definition bool_int (b : bool) : RESPValue := create_integer (if b then 1 else 0).

(** The command the AOF gets for [EXPIRE] and [PEXPIRE]. *)
Definition pexpireat_cmd (key : bytes) (absolute_ms : Z) : RESPValue :=
  create_array [create_bulk_string (lit "PEXPIREAT"); create_bulk_string key;
                create_bulk_string (to_string absolute_ms)].

(** [EXPIRE] and [PEXPIRE]. [time_val * 1000] is a signed multiplication. *)
Definition cmd_expire (clk : Clock) (bypass : bool) (cmd : bytes) (req : RESPValue) (c : Ctx)
    : res (DispatchResult * Ctx) :=
  if negb (argc req =? 3)%nat then Ok (reply_error (wrong_args cmd), c)
  else
    let key := arg req 1 in
    let r := from_chars_i64 (arg req 2) in
    if bool_decide (fc_ec r <> errc_ok) then Ok (reply_error not_integer, c)
    else
      let ms_offset := if bool_decide (cmd = lit "EXPIRE") then fc_val r * 1000 else fc_val r in
      if negb (is_i64 ms_offset) then UB
      else
        '(ok, eng) ← expire key ms_offset (engine_now clk) (storage c);
        let absolute_ms := u64 (dispatch_now clk + ms_offset) in
        Ok (reply (bool_int ok),
            log_if ok bypass (pexpireat_cmd key absolute_ms) (with_storage eng c)).

Definition cmd_pexpireat (clk : Clock) (bypass : bool) (req : RESPValue) (c : Ctx)
    : res (DispatchResult * Ctx) :=
  if negb (argc req =? 3)%nat then Ok (reply_error (wrong_args (lit "pexpireat")), c)
  else
    let r := from_chars_u64 (arg req 2) in
    if bool_decide (fc_ec r <> errc_ok) then Ok (reply_error not_integer, c)
    else
      '(ok, eng) ← expire_at (arg req 1) (fc_val r) (engine_now clk) (storage c);
      Ok (reply (bool_int ok), log_if ok bypass req (with_storage eng c)).

(** [TTL] and [PTTL]. *)
Definition cmd_ttl (clk : Clock) (cmd : bytes) (req : RESPValue) (c : Ctx)
    : res (DispatchResult * Ctx) :=
  if negb (argc req =? 2)%nat then Ok (reply_error (wrong_args cmd), c)
  else
    '(ms_left, eng) ← pttl (arg req 1) (engine_now clk) (storage c);
    let c := with_storage eng c in
    if ms_left <? 0 then Ok (reply (create_integer ms_left), c)
    else Ok (reply (create_integer (if bool_decide (cmd = lit "TTL") then ms_left / 1000 else ms_left)), c).

Definition cmd_persist (clk : Clock) (bypass : bool) (req : RESPValue) (c : Ctx)
    : res (DispatchResult * Ctx) :=
  if negb (argc req =? 2)%nat then Ok (reply_error (wrong_args (lit "persist")), c)
  else
    '(ok, eng) ← persist (arg req 1) (engine_now clk) (storage c);
    Ok (reply (bool_int ok), log_if ok bypass req (with_storage eng c)).

(** A line [name:number] of the [INFO] report. *)
Definition info_line (name : bytes) (n : Z) : bytes := name ++ to_string n ++ crlf.

Definition info_string (section : bytes) (is_read_only : bool) (c : Ctx) : bytes :=
  let wants s := bool_decide (section = lit "ALL") || bool_decide (section = lit s) in
  (if wants "SERVER" then lit "# Server" ++ crlf ++ lit "redis_mode:standalone" ++ crlf else []) ++
  (if wants "CLIENTS" then
     lit "# Clients" ++ crlf ++
     info_line (lit "connected_clients:") (connected_clients (metrics c)) else []) ++
  (if wants "MEMORY" then
     lit "# Memory" ++ crlf ++
     info_line (lit "used_memory:") (memory_usage (storage c)) ++
     info_line (lit "maxmemory:") (get_max_memory (storage c)) else []) ++
  (if wants "PERSISTENCE" then
     lit "# Persistence" ++ crlf ++ lit "aof_enabled:1" ++ crlf ++
     match aof c with
     | Some l => info_line (lit "aof_current_size:") (get_file_size l)
     | None => []
     end else []) ++
  (if wants "STATS" then
     lit "# Stats" ++ crlf ++
     info_line (lit "total_commands_processed:") (commands_processed (metrics c)) ++
     info_line (lit "keyspace_hits:") (get_keyspace_hits (storage c)) ++
     info_line (lit "keyspace_misses:") (get_keyspace_misses (storage c)) ++
     info_line (lit "evicted_keys:") (get_evicted_keys (storage c)) ++
     info_line (lit "expired_keys:") (get_expired_keys (storage c)) else []) ++
  (if wants "REPLICATION" then
     lit "# Replication" ++ crlf ++
     lit "role:" ++ (if is_read_only then lit "slave" else lit "master") ++ crlf ++
     match aof c with
     | Some l => info_line (lit "master_repl_offset:") (get_file_size l)
     | None => []
     end else []).

Definition cmd_info (is_read_only : bool) (req : RESPValue) (c : Ctx) : res (DispatchResult * Ctx) :=
  if (2 <? argc req)%nat then Ok (reply_error (wrong_args (lit "info")), c)
  else
    let section := if (argc req =? 2)%nat then to_upper (arg req 1) else lit "all" in
    Ok (reply (create_bulk_string (info_string section is_read_only c)), c).

Definition cmd_config (req : RESPValue) (c : Ctx) : res (DispatchResult * Ctx) :=
  if negb (argc req =? 4)%nat || negb (bool_decide (to_upper (arg req 1) = lit "SET")) then
    Ok (reply_error (lit "ERR unsupported config command"), c)
  else if bool_decide (to_upper (arg req 2) = lit "MAXMEMORY") then
    let r := from_chars_i64 (arg req 3) in
    if bool_decide (fc_ec r = errc_ok) then
      Ok (reply (create_simple_string (lit "OK")),
          with_storage (set_max_memory (fc_val r) (storage c)) c)
    else Ok (reply_error (lit "ERR invalid maxmemory value"), c)
  else Ok (reply_error (lit "ERR unsupported config parameter"), c).

Definition cmd_psync (req : RESPValue) (c : Ctx) : res (DispatchResult * Ctx) :=
  if negb (argc req =? 2)%nat then Ok (reply_error (wrong_args (lit "psync")), c)
  else
    let r := from_chars_u64 (arg req 1) in
    if bool_decide (fc_ec r <> errc_ok) then Ok (reply_error (lit "ERR invalid offset"), c)
    else Ok (mkResult (create_simple_string (lit "CONTINUE")) false true (fc_val r), c).

(** The chain of comparisons on the upper-cased command name. *)
Definition run_command (clk : Clock) (is_read_only bypass : bool) (cmd : bytes) (req : RESPValue)
    (c : Ctx) : res (DispatchResult * Ctx) :=
  if bool_decide (cmd = lit "PING") then cmd_ping req c
  else if bool_decide (cmd = lit "ECHO") then cmd_echo req c
  else if bool_decide (cmd = lit "QUIT") then cmd_quit req c
  else if bool_decide (cmd = lit "SET") then cmd_set clk bypass req c
  else if bool_decide (cmd = lit "GET") then cmd_get clk req c
  else if bool_decide (cmd = lit "DEL") then cmd_del bypass req c
  else if bool_decide (cmd = lit "EXISTS") then cmd_exists clk req c
  else if bool_decide (cmd = lit "INCR") then cmd_incr clk bypass req c
  else if bool_decide (cmd = lit "DECR") then cmd_decr clk bypass req c
  else if bool_decide (cmd = lit "EXPIRE") || bool_decide (cmd = lit "PEXPIRE") then
    cmd_expire clk bypass cmd req c
  else if bool_decide (cmd = lit "PEXPIREAT") then cmd_pexpireat clk bypass req c
  else if bool_decide (cmd = lit "TTL") || bool_decide (cmd = lit "PTTL") then
    cmd_ttl clk cmd req c
  else if bool_decide (cmd = lit "PERSIST") then cmd_persist clk bypass req c
  else if bool_decide (cmd = lit "INFO") then cmd_info is_read_only req c
  else if bool_decide (cmd = lit "CONFIG") then cmd_config req c
  else if bool_decide (cmd = lit "PSYNC") then cmd_psync req c
  else Ok (reply_error (lit "ERR unknown command '" ++ cmd ++ lit "'"), c).

Definition dispatch (clk : Clock) (is_read_only bypass_readonly : bool) (req : RESPValue) (c : Ctx)
    : res (DispatchResult * Ctx) :=
  let c := mkCtx (storage c) (aof c) (count_command (metrics c)) in
  match type req, array_value req with
  | Array, cmd_val :: _ =>
      match type cmd_val with
      | BulkString | SimpleString =>
          let cmd := to_upper (string_value cmd_val) in
          if is_read_only && negb bypass_readonly && is_mutating_command cmd then
            Ok (reply_error (lit "READONLY You can't write against a read only replica"), c)
          else run_command clk is_read_only bypass_readonly cmd req c
      | _ => Ok (reply_error (lit "ERR invalid command format"), c)
      end
  | _, _ => Ok (reply_error (lit "ERR invalid request type, expected array of bulk strings"), c)
  end.

End dispatcher.
