(* ===== verification/DispatcherProofs.v ===== *)
(** * What a request does

    The data commands are the requests that reach the engine: [request_op]
    reads the engine call off a request, [render] the reply off its result and
    [journal] what the append-only file gets. [dispatch_data_eq] shows that
    the dispatcher is that composition; the other theorems follow from it and
    from the engine's contract. *)

From S2P Require Import Prelude CppStd RESP RESPProofs UnorderedMap Storage StdPlatform StorageProofs StorageSpec StorageRefine AOF Dispatcher.

(** ** Requests as engine calls *)

(** The upper-cased name of a command, [None] for a malformed request. *)
Definition cmd_name (req : RESPValue) : option bytes :=
  match type req, array_value req with
  | Array, c :: _ =>
      match type c with
      | BulkString | SimpleString => Some (to_upper (string_value c))
      | _ => None
      end
  | _, _ => None
  end.

(** The offset of [EXPIRE] and [PEXPIRE] in milliseconds; [None] when the
    argument is not a number or its product leaves the type. *)
Definition expire_offset (cmd s : bytes) : option Z :=
  let r := from_chars_i64 s in
  let off := if bool_decide (cmd = lit "EXPIRE") then fc_val r * 1000 else fc_val r in
  if bool_decide (fc_ec r = errc_ok) && is_i64 off then Some off else None.

Definition one_key (req : RESPValue) (op : bytes -> kv_op) : option kv_op :=
  if (argc req =? 2)%nat then Some (op (arg req 1)) else None.

Definition named_op (cmd : bytes) (req : RESPValue) : option kv_op :=
  if bool_decide (cmd = lit "SET") then
    if (3 <=? argc req)%nat then Some (KSet (arg req 1) (arg req 2)) else None
  else if bool_decide (cmd = lit "GET") then one_key req KGet
  else if bool_decide (cmd = lit "DEL") then
    if (2 <=? argc req)%nat then Some (KDel (arg_keys req)) else None
  else if bool_decide (cmd = lit "EXISTS") then
    if (2 <=? argc req)%nat then Some (KExists (arg_keys req)) else None
  else if bool_decide (cmd = lit "INCR") then one_key req KIncr
  else if bool_decide (cmd = lit "DECR") then one_key req KDecr
  else if bool_decide (cmd = lit "EXPIRE") || bool_decide (cmd = lit "PEXPIRE") then
    if (argc req =? 3)%nat then KExpire (arg req 1) <$> expire_offset cmd (arg req 2) else None
  else if bool_decide (cmd = lit "PEXPIREAT") then
    let r := from_chars_u64 (arg req 2) in
    if (argc req =? 3)%nat && bool_decide (fc_ec r = errc_ok)
    then Some (KExpireAt (arg req 1) (fc_val r)) else None
  else if bool_decide (cmd = lit "TTL") || bool_decide (cmd = lit "PTTL") then one_key req KPttl
  else if bool_decide (cmd = lit "PERSIST") then one_key req KPersist
  else None.

Definition request_op (req : RESPValue) : option kv_op := cmd_name req ≫= fun cmd => named_op cmd req.

(** The reply to a call's result. *)
Definition render (cmd : bytes) (op : kv_op) (r : kv_res) : RESPValue :=
  match op, r with
  | KSet _ _, RBool true => create_simple_string (lit "OK")
  | KSet _ _, RBool false =>
      create_error (lit "OOM command not allowed when used memory > 'maxmemory'")
  | KPttl _, RInt n => create_integer (if (0 <=? n) && bool_decide (cmd = lit "TTL") then n / 1000 else n)
  | _, RBool b => bool_int b
  | _, RValue (Some v) => create_bulk_string v
  | _, RValue None => create_null
  | _, RInt n => create_integer n
  | _, RNum (Some n) => create_integer n
  | _, RNum None => create_error not_integer
  end.

(** What the append-only file gets: nothing for a command that changed
    nothing, an absolute deadline for a relative one. *)
Definition journal (clk : Clock) (req : RESPValue) (op : kv_op) (r : kv_res) : list RESPValue :=
  match op, r with
  | KSet _ _, RBool true => [req]
  | KDel _, RInt n => if 0 <? n then [req] else []
  | (KIncr _ | KDecr _), RNum (Some _) => [req]
  | KExpire k off, RBool true => [pexpireat_cmd k (u64 (dispatch_now clk + off))]
  | (KExpireAt _ _ | KPersist _), RBool true => [req]
  | _, _ => []
  end.

(** Case analysis on the command name, and on the tests of its branch. *)
Ltac name_is c l :=
  let E := fresh "E" in destruct (bool_decide_reflect (c = l)) as [E|?]; [subst c|].

Ltac name_cases H :=
  repeat match type of H with
  | (if bool_decide (?c = ?l) then _ else _) = _ => name_is c l
  | (if bool_decide (?c = ?l) || bool_decide (?c = ?l') then _ else _) = _ =>
      name_is c l; [|name_is c l']; cbn [orb] in H
  end.

Ltac op_cases H :=
  unfold named_op, one_key, expire_offset in H; name_cases H; try done;
  repeat match type of H with
  | (if ?b then _ else _) = _ => let A := fresh "A" in destruct b eqn:A; [|done]
  | _ <$> (if ?b then _ else _) = _ => let A := fresh "A" in destruct b eqn:A; [|done]
  end.

(** The calls that can change the live keys. *)
Definition mutates (op : kv_op) : bool :=
  match op with KGet _ | KExists _ | KPttl _ => false | _ => true end.

Section dispatch.
Context `{PL : PlatformLaws} `{D : Disk} `{VA : VectorAlloc}.
Implicit Types (c : Ctx) (clk : Clock) (req : RESPValue).

(** The context after the command counter has been incremented. *)
Definition counted (c : Ctx) : Ctx := mkCtx (storage c) (aof c) (count_command (metrics c)).

Definition log_all (bypass : bool) (es : list RESPValue) (c : Ctx) : Ctx :=
  foldl (fun c e => log_if true bypass e c) c es.

Lemma log_if_journal (b bypass : bool) e c :
  log_if b bypass e c = log_all bypass (if b then [e] else []) c.
Proof. destruct b; [done|]. unfold log_if. rewrite andb_false_r. by destruct (aof c). Qed.

Lemma expire_tail clk bypass cmd req c op :
  KExpire (arg req 1) <$> expire_offset cmd (arg req 2) = Some op ->
  (let r := from_chars_i64 (arg req 2) in
   if bool_decide (fc_ec r <> errc_ok) then Ok (reply_error not_integer, c)
   else
     let ms_offset := if bool_decide (cmd = lit "EXPIRE") then fc_val r * 1000 else fc_val r in
     if negb (is_i64 ms_offset) then UB
     else
       '(ok, eng) ← expire (arg req 1) ms_offset (engine_now clk) (storage c);
       let absolute_ms := u64 (dispatch_now clk + ms_offset) in
       Ok (reply (bool_int ok),
           log_if ok bypass (pexpireat_cmd (arg req 1) absolute_ms) (with_storage eng c))) =
  '(r, eng) ← run_op op (engine_now clk) (evict_seed clk) (storage c);
  Ok (reply (render cmd op r), log_all bypass (journal clk req op r) (with_storage eng c)).
Proof.
  unfold expire_offset. intros Hop. case_bool_decide as Hec; [|done].
  rewrite bool_decide_eq_false_2 by (intros ?; congruence). cbv zeta.
  set (off := if bool_decide (cmd = _) then _ else _) in *. cbn [andb] in Hop.
  destruct (is_i64 off); [|done]. injection Hop as <-. cbn [negb run_op].
  destruct (expire _ _ _ _) as [[b eng]| | |]; [|done..]. cbn.
  rewrite log_if_journal. by destruct b.
Qed.

(** A request that calls no operation of the engine leaves the data and the
    file alone. *)
Definition inert (c c' : Ctx) : Prop :=
  shards (storage c') = shards (storage c) /\ running (storage c') = running (storage c) /\
  aof c' = aof c /\ metrics c' = metrics c.

(** A call that returns, leaves the data alone and replies with a value that
    its reader can parse, provided the command name is one line. *)
Definition harmless (cmd : bytes) (c : Ctx) (x : res (DispatchResult * Ctx)) : Prop :=
  exists res c', x = Ok (res, c') /\ inert c c' /\
    (cmd <> lit "CONFIG" -> storage c' = storage c) /\
    (no_crlf cmd = true -> wf (response res) = true).

Lemma harmless_same cmd c res : (no_crlf cmd = true -> wf (response res) = true) ->
  harmless cmd c (Ok (res, c)).
Proof. intros Hr. by exists res, c. Qed.

Ltac harmless := apply harmless_same; intros _; vm_compute; reflexivity.

(** The branch [b] of a name, with its arity test decided by the hypotheses. *)
Ltac branch b :=
  match goal with |- context [run_command ?k ?ro ?b0 ?n ?r ?c] =>
    change (run_command k ro b0 n r c) with b
  end;
  unfold cmd_set, cmd_get, cmd_del, cmd_exists, cmd_incr, cmd_decr, cmd_expire, cmd_pexpireat,
    cmd_ttl, cmd_persist;
  rewrite ?Nat.ltb_antisym.

Ltac arity b :=
  branch b;
  repeat match goal with
  | H : (if ?t then _ else _) = _ |- context [negb ?t] =>
      let A := fresh "A" in destruct t eqn:A; [cbn [negb]; simplify_eq|done]
  | A : ?t = true |- context [negb ?t] => rewrite A; cbn [negb]
  end;
  cbn [run_op].

(** The same for a request with the wrong number of arguments. *)
Ltac bad_arity b :=
  branch b;
  match goal with
  | H : (if ?t then _ else _) = _ |- context [negb ?t] =>
      destruct t; [done|cbn [negb]; harmless]
  end.

Lemma run_command_data clk ro bypass cmd req c op :
  named_op cmd req = Some op ->
  run_command clk ro bypass cmd req c =
    '(r, eng) ← run_op op (engine_now clk) (evict_seed clk) (storage c);
    Ok (reply (render cmd op r), log_all bypass (journal clk req op r) (with_storage eng c)).
Proof.
  unfold named_op, one_key. intros Hop. name_cases Hop; try done.
  - arity (cmd_set clk bypass req c). by destruct (set _ _ _ _ _) as [[[] ?]| | |].
  - arity (cmd_get clk req c). by destruct (get _ _ _) as [[[] ?]| | |].
  - arity (cmd_del bypass req c). destruct (del _ _) as [[x ?]| | |]; try done.
    cbn. unfold del_finish. by rewrite log_if_journal.
  - arity (cmd_exists clk req c). by destruct (exists_ _ _ _) as [[x ?]| | |].
  - arity (cmd_incr clk bypass req c). by destruct (incr _ _ _ _) as [[[] ?]| | |].
  - arity (cmd_decr clk bypass req c). by destruct (decr _ _ _ _) as [[[] ?]| | |].
  - arity (cmd_expire clk bypass (lit "EXPIRE") req c). by apply expire_tail.
  - arity (cmd_expire clk bypass (lit "PEXPIRE") req c). by apply expire_tail.
  - destruct (argc req =? 3)%nat eqn:A; [|done]. cbn [andb] in Hop.
    case_bool_decide as Hec; simplify_eq.
    arity (cmd_pexpireat clk bypass req c). rewrite Hec. cbn.
    destruct (expire_at _ _ _ _) as [[[] ?]| | |]; try done; cbn; by rewrite log_if_journal.
  - arity (cmd_ttl clk (lit "TTL") req c). destruct (pttl _ _ _) as [[x ?]| | |]; try done. cbn.
    rewrite Z.leb_antisym. by destruct (x <? 0).
  - arity (cmd_ttl clk (lit "PTTL") req c). destruct (pttl _ _ _) as [[x ?]| | |]; try done. cbn.
    rewrite andb_false_r. by destruct (x <? 0).
  - arity (cmd_persist clk bypass req c).
    destruct (persist _ _ _) as [[[] ?]| | |]; try done; cbn; by rewrite log_if_journal.
Qed.

(** The guard of a read-only replica. *)
Definition blocked (ro bypass : bool) (cmd : bytes) : bool :=
  ro && negb bypass && is_mutating_command cmd.

Definition readonly_error : RESPValue :=
  create_error (lit "READONLY You can't write against a read only replica").

Lemma dispatch_named clk ro bypass req c cmd : cmd_name req = Some cmd ->
  dispatch clk ro bypass req c =
    if blocked ro bypass cmd then Ok (reply readonly_error, counted c)
    else run_command clk ro bypass cmd req (counted c).
Proof.
  unfold cmd_name, dispatch. destruct (type req), (array_value req) as [|v vs]; try done.
  by destruct (type v); intros [= <-].
Qed.

Lemma dispatch_unnamed clk ro bypass req c : cmd_name req = None ->
  exists msg, dispatch clk ro bypass req c = Ok (reply_error msg, counted c).
Proof.
  unfold cmd_name, dispatch. destruct (type req), (array_value req) as [|v vs]; eauto.
  destruct (type v); eauto; done.
Qed.

Lemma dispatch_data clk ro bypass req c cmd op :
  cmd_name req = Some cmd -> blocked ro bypass cmd = false -> request_op req = Some op ->
  dispatch clk ro bypass req c =
    '(r, eng) ← run_op op (engine_now clk) (evict_seed clk) (storage c);
    Ok (reply (render cmd op r), log_all bypass (journal clk req op r) (with_storage eng (counted c))).
Proof.
  unfold request_op. intros Hn Hb. rewrite Hn. cbn. intros Hop.
  rewrite (dispatch_named _ _ _ _ _ _ Hn), Hb. by apply (run_command_data _ _ _ _ _ (counted c)).
Qed.

(** The signed product of [EXPIRE] leaves its type. *)
Definition expire_overflows (req : RESPValue) : bool :=
  let r := from_chars_i64 (arg req 2) in
  bool_decide (cmd_name req = Some (lit "EXPIRE")) && (argc req =? 3)%nat &&
  bool_decide (fc_ec r = errc_ok) && negb (is_i64 (fc_val r * 1000)).

Lemma is_i64_from_chars s : fc_ec (from_chars_i64 s) = errc_ok ->
  is_i64 (fc_val (from_chars_i64 s)) = true.
Proof. intros E. by apply is_i64_spec, (from_chars_range_ok true). Qed.

Lemma expire_other clk bypass cmd req c :
  KExpire (arg req 1) <$> expire_offset cmd (arg req 2) = None ->
  let r := from_chars_i64 (arg req 2) in
  let off := if bool_decide (cmd = lit "EXPIRE") then fc_val r * 1000 else fc_val r in
  let x := if bool_decide (fc_ec r <> errc_ok) then Ok (reply_error not_integer, c)
           else if negb (is_i64 off) then UB
           else
             '(ok, eng) ← expire (arg req 1) off (engine_now clk) (storage c);
             Ok (reply (bool_int ok),
                 log_if ok bypass (pexpireat_cmd (arg req 1) (u64 (dispatch_now clk + off)))
                   (with_storage eng c)) in
  if bool_decide (fc_ec r = errc_ok) && negb (is_i64 off) then x = UB
  else harmless cmd c x.
Proof.
  unfold expire_offset. intros Hop. cbv zeta. case_bool_decide as Hec.
  - rewrite (bool_decide_eq_false_2 (_ <> errc_ok)) by (intros ?; congruence). cbn [andb] in *.
    by destruct (is_i64 _).
  - rewrite (bool_decide_eq_true_2 (_ <> errc_ok)) by done. cbn. harmless.
Qed.

(** [PING], [ECHO], [QUIT], [INFO], [CONFIG], [PSYNC] and unknown names. *)
Lemma control_command clk ro bypass cmd req c :
  Forall (fun n => cmd <> lit n)
    ["SET"; "GET"; "DEL"; "EXISTS"; "INCR"; "DECR"; "EXPIRE"; "PEXPIRE"; "PEXPIREAT"; "TTL"; "PTTL";
     "PERSIST"]%string ->
  harmless cmd c (run_command clk ro bypass cmd req c).
Proof.
  intros Hn. repeat (apply Forall_cons in Hn as [? Hn]). unfold run_command.
  do 3 (case_bool_decide;
    [unfold cmd_ping, cmd_echo, cmd_quit; repeat case_if; apply harmless_same; intros _; by vm_compute|]).
  do 10 (rewrite ?bool_decide_eq_false_2 by done; cbn [orb]).
  case_bool_decide; [unfold cmd_info; repeat case_if; apply harmless_same; intros _; by vm_compute|].
  case_bool_decide.
  { unfold cmd_config. repeat case_if; try harmless.
    eexists _, _. split_and!; [done|done|done|]. intros _. by vm_compute. }
  case_bool_decide; [unfold cmd_psync; repeat case_if; apply harmless_same; intros _; by vm_compute|].
  apply harmless_same. intros Hc. cbn [response wf reply_error reply create_error]. by rewrite no_crlf_quoted.
Qed.

Lemma run_command_other clk ro bypass cmd req c :
  cmd_name req = Some cmd -> named_op cmd req = None ->
  if expire_overflows req then run_command clk ro bypass cmd req c = UB
  else harmless cmd c (run_command clk ro bypass cmd req c).
Proof.
  unfold expire_overflows. intros Hn Hop. rewrite Hn.
  unfold named_op, one_key in Hop. name_cases Hop; cbn [orb].
  all: match goal with
       | |- context [bool_decide (Some ?a = Some ?b)] =>
           first [rewrite (bool_decide_eq_false_2 (Some a = Some b)) by (intros [= ?]; done)
                 |rewrite (bool_decide_eq_true_2 (Some a = Some b)) by done]
       end; cbn [andb].
  - bad_arity (cmd_set clk bypass req c).
  - bad_arity (cmd_get clk req c).
  - bad_arity (cmd_del bypass req c).
  - bad_arity (cmd_exists clk req c).
  - bad_arity (cmd_incr clk bypass req c).
  - bad_arity (cmd_decr clk bypass req c).
  - branch (cmd_expire clk bypass (lit "EXPIRE") req c).
    destruct (argc req =? 3)%nat; [cbn [negb andb]|cbn; harmless].
    by apply (expire_other clk bypass (lit "EXPIRE") req c).
  - branch (cmd_expire clk bypass (lit "PEXPIRE") req c).
    destruct (argc req =? 3)%nat; [cbn [negb andb]|cbn; harmless].
    pose proof (expire_other clk bypass (lit "PEXPIRE") req c Hop) as HE.
    change (bool_decide (lit "PEXPIRE" = lit "EXPIRE")) with false in HE |- *. cbv zeta in HE.
    destruct (bool_decide_reflect (fc_ec (from_chars_i64 (arg req 2)) = errc_ok)) as [Hec|];
      [rewrite (is_i64_from_chars _ Hec) in *|]; exact HE.
  - branch (cmd_pexpireat clk bypass req c).
    destruct (argc req =? 3)%nat; [cbn [negb andb] in *|cbn; harmless].
    repeat case_bool_decide; try done. harmless.
  - bad_arity (cmd_ttl clk (lit "TTL") req c).
  - bad_arity (cmd_ttl clk (lit "PTTL") req c).
  - bad_arity (cmd_persist clk bypass req c).
  - apply control_command. by repeat constructor.
Qed.

Lemma dispatch_other clk ro bypass req c : request_op req = None ->
  if expire_overflows req && negb (ro && negb bypass) then dispatch clk ro bypass req c = UB
  else exists res c', dispatch clk ro bypass req c = Ok (res, c') /\ inert (counted c) c' /\
    (cmd_name req <> Some (lit "CONFIG") -> storage c' = storage c).
Proof.
  unfold request_op. intros Hop. destruct (cmd_name req) as [cmd|] eqn:Hn; cbn in Hop.
  - rewrite (dispatch_named _ _ _ _ _ _ Hn). unfold blocked.
    pose proof (run_command_other clk ro bypass cmd req (counted c) Hn Hop) as HH.
    destruct (expire_overflows req) eqn:Ho.
    + unfold expire_overflows in Ho. rewrite Hn in Ho. wf_split Ho. simplify_eq.
      change (is_mutating_command (lit "EXPIRE")) with true. rewrite andb_true_r.
      destruct (ro && negb bypass); [by eexists _, _|done].
    + cbn. case_if; [by eexists _, _|]. destruct HH as (res & c' & ? & ? & Hc & _).
      exists res, c'. split_and!; [done..|]. intros Hne. apply Hc. intros ->. by apply Hne.
  - destruct (dispatch_unnamed clk ro bypass req c Hn) as [msg ->].
    unfold expire_overflows. rewrite Hn. by eexists _, _.
Qed.

(** ** Which requests change the data *)

Lemma named_op_mutates cmd req op :
  named_op cmd req = Some op -> mutates op = is_mutating_command cmd.
Proof.
  intros Hop. op_cases Hop; by injection Hop as <-.
Qed.

Lemma request_op_inv req op : request_op req = Some op ->
  exists cmd, cmd_name req = Some cmd /\ named_op cmd req = Some op /\
    mutates op = is_mutating_command cmd.
Proof.
  unfold request_op. intros (cmd & Hn & Hop)%bind_Some. eauto using named_op_mutates.
Qed.

Lemma delete_all_unchanged ks m : Z.of_nat (size m) - Z.of_nat (size (delete_all ks m)) <= 0 ->
  delete_all ks m = m.
Proof.
  intros Hs. assert (delete_all ks m ⊆ m) as Hsub.
  { clear Hs. revert m. induction ks as [|k ks IH]; intros m; [done|].
    etrans; [apply IH|apply delete_subseteq]. }
  apply map_subseteq_size_eq; [done|lia].
Qed.

(** A step that leaves nothing in the journal changed nothing, as long as no
    memory limit is set. *)
Lemma journal_nil_unchanged clk req op r m m' now :
  spec_step false now op r m m' -> journal clk req op r = [] -> m' = m.
Proof.
  intros Hs Hj. inversion Hs; subst; simpl in Hj; try done.
  - destruct (Z.ltb_spec 0 n); [done|]. apply delete_all_unchanged. lia.
  - match goal with H : counter_step _ _ _ _ _ _ |- _ => by inversion H; subst end.
  - match goal with H : counter_step _ _ _ _ _ _ |- _ => by inversion H; subst end.
Qed.

Lemma reads_unchanged b now op r m m' :
  spec_step b now op r m m' -> mutates op = false -> m' = m.
Proof. by inversion 1. Qed.

Lemma reads_no_journal clk req op r : mutates op = false -> journal clk req op r = [].
Proof. by destruct op, r. Qed.

Lemma log_all_cons bypass e es c :
  log_all bypass (e :: es) c = log_all bypass es (log_if true bypass e c).
Proof. done. Qed.

Lemma storage_log_all bypass es c : storage (log_all bypass es c) = storage c /\
  metrics (log_all bypass es c) = metrics c.
Proof.
  revert c. induction es as [|e es IH]; intros c; [done|]. rewrite log_all_cons.
  destruct (IH (log_if true bypass e c)) as [-> ->]. unfold log_if.
  by destruct (aof c), (negb bypass && true).
Qed.

Lemma log_all_null bypass es c : aof c = None -> log_all bypass es c = c.
Proof.
  revert c. induction es as [|e es IH]; intros c Hc; [done|]. rewrite log_all_cons.
  rewrite IH; unfold log_if; by rewrite Hc.
Qed.

Lemma log_all_bypass es c : log_all true es c = c.
Proof.
  revert c. induction es as [|e es IH]; intros c; [done|]. rewrite log_all_cons.
  rewrite IH. unfold log_if. by destruct (aof c).
Qed.

(** A working logger appends the serialized entries. *)
Definition appended (l : AOFLogger) (es : list RESPValue) : AOFLogger :=
  mkAOF (filepath l) true true (file l ++ flat_map serialize es).

Lemma appended_nil l : ready l -> appended l [] = l.
Proof. intros [? ?]. unfold appended. cbn. rewrite app_nil_r. by destruct l; simpl in *; subst. Qed.

Lemma log_all_appends es c l : reliable D -> aof c = Some l -> ready l ->
  aof (log_all false es c) = Some (appended l es).
Proof.
  intros HR. revert c l. induction es as [|e es IH]; intros c l Hc Hl.
  { cbn. by rewrite appended_nil. }
  rewrite log_all_cons. unfold log_if. rewrite Hc. cbn [negb andb]. destruct (log_app (serialize e) l HR Hl) as [-> _].
  erewrite IH; [|done|done]. unfold appended. cbn. by rewrite <- app_assoc.
Qed.

(** What [dispatch] returns, in one statement. *)
Lemma dispatch_inv clk ro bypass req c res c' :
  dispatch clk ro bypass req c = Ok (res, c') ->
  (exists cmd op r eng, cmd_name req = Some cmd /\ blocked ro bypass cmd = false /\
     named_op cmd req = Some op /\
     run_op op (engine_now clk) (evict_seed clk) (storage c) = Ok (r, eng) /\
     res = reply (render cmd op r) /\
     c' = log_all bypass (journal clk req op r) (with_storage eng (counted c))) \/
  (inert (counted c) c' /\ (cmd_name req <> Some (lit "CONFIG") -> storage c' = storage c) /\
   (cmd_name req = None \/ exists cmd, cmd_name req = Some cmd /\
      (blocked ro bypass cmd = true /\ res = reply readonly_error /\ storage c' = storage c \/
       blocked ro bypass cmd = false /\ named_op cmd req = None)) /\
   (forall cmd, cmd_name req = Some cmd -> no_crlf cmd = true -> wf (response res) = true)).
Proof.
  destruct (cmd_name req) as [cmd|] eqn:Hn.
  - rewrite (dispatch_named _ _ _ _ _ _ Hn). destruct (blocked ro bypass cmd) eqn:Hb.
    { intros E. res_inv. right. split_and!; [done|done|eauto 10|]. intros ? _ _. by vm_compute. }
    destruct (named_op cmd req) as [op|] eqn:Hop; intros E.
    + left. rewrite (run_command_data _ _ _ _ _ _ _ Hop) in E.
      apply bind_Ok in E as ([r eng] & E & E'). res_inv. by exists cmd, op, r, eng.
    + right. pose proof (run_command_other clk ro bypass cmd req (counted c) Hn Hop) as HH.
      destruct (expire_overflows req); [congruence|].
      destruct HH as (res1 & c1 & E1 & Hi & Hc & Hw). rewrite E in E1. res_inv.
      split_and!; [done|intros Hne; apply Hc; congruence|eauto 10|]. by intros ? [= <-].
  - intros E. right. destruct (dispatch_unnamed clk ro bypass req c Hn) as [msg E1].
    rewrite E in E1. res_inv. by split_and!; [| |left|].
Qed.

(** ** Replies are well-formed *)

Lemma mem_count_range ks m : 0 <= mem_count ks m <= Z.of_nat (length ks).
Proof. unfold mem_count. pose proof (length_filter (fun k => is_Some (m !! k)) ks). lia. Qed.

Lemma delete_all_size ks m : Z.of_nat (size (delete_all ks m)) <= Z.of_nat (size m).
Proof.
  revert m. induction ks as [|k ks IH]; intros m; cbn; [lia|].
  etrans; [apply IH|]. apply Nat2Z.inj_le, map_subseteq_size, delete_subseteq.
Qed.

(** The keys of the loops of [DEL] and [EXISTS]. *)
Definition loop_keys (op : kv_op) : list bytes :=
  match op with KDel ks | KExists ks => ks | _ => [] end.

Lemma wf_integer n : INT64_MIN <= n <= INT64_MAX -> wf (create_integer n) = true.
Proof. intros Hn%is_i64_spec. cbn. by rewrite Hn. Qed.

Lemma render_counter_wf b delta k o m m' :
  counter_step b delta k o m m' ->
  wf match o with Some n => create_integer n | None => create_error not_integer end = true.
Proof. inversion 1; subst; [by vm_compute| |by vm_compute]. by apply wf_integer, is_i64_spec. Qed.

Lemma render_wf b now op r m m' cmd :
  spec_step b now op r m m' -> Z.of_nat (length (loop_keys op)) <= INT64_MAX ->
  wf (render cmd op r) = true.
Proof.
  intros Hs Hk. assert (INT64_MIN < 0 /\ 1 < INT64_MAX) as [Hmin Hmax] by done.
  inversion Hs; subst; cbn [loop_keys] in Hk; cbn [render].
  - by vm_compute.
  - by vm_compute.
  - by destruct (_ !! k).
  - pose proof (delete_all_size ks m). apply wf_integer. lia.
  - match goal with |- context [mem_count ks ?x] => pose proof (mem_count_range ks x) end.
    apply wf_integer. lia.
  - by eapply render_counter_wf.
  - by eapply render_counter_wf.
  - by vm_compute.
  - by vm_compute.
  - by vm_compute.
  - by vm_compute.
  - apply wf_integer.
    set (n := match _ !! k with Some _ => _ | None => _ end).
    assert (INT64_MIN <= n <= INT64_MAX) as Hn.
    { subst n. destruct (_ !! k) as [[v d]|]; [|done].
      destruct (d =? 0); [done|apply i64_range]. }
    case_if; [|done]. zb. split; [|apply Z.div_le_upper_bound; lia].
    pose proof (Z.div_pos n 1000). lia.
  - by vm_compute.
  - by vm_compute.
Qed.

Lemma wf_argc req cmd : cmd_name req = Some cmd -> wf req = true ->
  Z.of_nat (argc req) <= reserve_limit.
Proof.
  destruct req as [ty s i arr]. unfold cmd_name, argc. cbn. destruct ty, arr; try done.
  intros _ Hw. wf_split Hw. done.
Qed.

Lemma named_op_keys cmd req op : named_op cmd req = Some op ->
  (length (loop_keys op) <= argc req)%nat.
Proof.
  intros Hop. op_cases Hop; injection Hop as <-; cbn; unfold argc, arg_keys;
    rewrite ?length_fmap, ?length_drop; lia.
Qed.

End dispatch.

(** ** Concrete contexts *)

(** A disk that takes every byte, and a server with an empty file. *)
#[export] Instance perfect_disk : Disk := {| disk_accept _ data := length data |}.

Lemma perfect_disk_reliable : reliable perfect_disk.
Proof. intros file data. cbn. lia. Qed.

Definition ctx0 : Ctx :=
  mkCtx engine0 (Some (mkAOF (lit "appendonly.aof") true true [])) initial_metrics.

(** A request as clients send it: an array of bulk strings. *)
Definition request (args : list string) : RESPValue :=
  create_array (create_bulk_string ∘ lit <$> args).

Definition clk_at (t : Z) : Clock := mkClock t t t.

(** The context a call leaves. *)
Definition ctx_after `{Platform} (x : res (DispatchResult * Ctx)) (d : Ctx) : Ctx :=
  match x with Ok (_, c) => c | _ => d end.

Lemma engine0_wf : engine_wf engine0.
Proof. apply new_engine_wf. lia. Qed.

(** ** Properties *)

(** C5. A data command is one engine call: on a server that accepts it, the
    dispatcher counts the request, runs the engine operation the request
    denotes, replies with its rendered result, and appends to the file what
    the journal holds for it. This is an equation between the two programs:
    they also agree on undefined behaviour. *)
Theorem dispatch_data_command `{PlatformLaws} `{Disk} clk ro bypass req c cmd op :
  cmd_name req = Some cmd -> blocked ro bypass cmd = false -> request_op req = Some op ->
  dispatch clk ro bypass req c =
    '(r, eng) ← run_op op (engine_now clk) (evict_seed clk) (storage c);
    Ok (reply (render cmd op r), log_all bypass (journal clk req op r) (with_storage eng (counted c))).
Proof. apply dispatch_data. Qed.

Lemma dispatch_data_command_witness :
  dispatch (clk_at 100) false false (request ["set"; "k"; "v"]) ctx0 =
    '(r, eng) ← run_op (KSet (lit "k") (lit "v")) 100 100 engine0;
    Ok (reply (render (lit "SET") (KSet (lit "k") (lit "v")) r),
        log_all false (journal (clk_at 100) (request ["set"; "k"; "v"]) (KSet (lit "k") (lit "v")) r)
          (with_storage eng (counted ctx0))).
Proof. apply (dispatch_data_command (clk_at 100)); reflexivity. Defined.

(** C27. Every other request is harmless: a malformed request, a wrong number
    of arguments, a bad number, an unknown command and the commands [PING],
    [ECHO], [QUIT], [INFO], [CONFIG] and [PSYNC] return (with an error or their
    answer) and leave the tables, the file and the counters of the process as
    they are. The only exception is [EXPIRE] with an offset whose conversion
    to milliseconds overflows, which is undefined behaviour. *)
Theorem dispatch_other_request `{PlatformLaws} `{Disk} clk ro bypass req c :
  request_op req = None ->
  if expire_overflows req && negb (ro && negb bypass) then dispatch clk ro bypass req c = UB
  else exists res c', dispatch clk ro bypass req c = Ok (res, c') /\ inert (counted c) c'.
Proof.
  pose (VA := {| reserve_limit := 0; vector_max_size := 0 |} : VectorAlloc).
  intros Hop. pose proof (dispatch_other clk ro bypass req c Hop) as HO.
  destruct (_ && _); [done|]. destruct HO as (res & c' & E & Hi & _). eauto.
Qed.

Lemma dispatch_other_request_witness :
  expire_overflows (request ["EXPIRE"; "k"; "9223372036854775807"]) = true /\
  dispatch (clk_at 5) false false (request ["EXPIRE"; "k"; "9223372036854775807"]) ctx0 = UB /\
  exists res c', dispatch (clk_at 5) true false (request ["CONFIG"; "SET"; "maxmemory"; "100"]) ctx0 =
    Ok (res, c') /\ inert (counted ctx0) c'.
Proof.
  split_and!; [reflexivity| |].
  - apply (dispatch_other_request (clk_at 5) false false
             (request ["EXPIRE"; "k"; "9223372036854775807"]) ctx0). reflexivity.
  - apply (dispatch_other_request (clk_at 5) true false
             (request ["CONFIG"; "SET"; "maxmemory"; "100"]) ctx0). reflexivity.
Defined.

(** C13. A read-only replica is read-only for its clients: whatever they send,
    the live keys with their values and deadlines stay the same and nothing is
    written to the file; a mutating command is answered with the [READONLY]
    error and does not touch the engine at all. *)
Theorem replica_rejects_writes `{PlatformLaws} `{Disk} clk req c res c' m :
  engine_wf (storage c) -> R (engine_now clk) (storage c) m ->
  dispatch clk true false req c = Ok (res, c') ->
  R (engine_now clk) (storage c') m /\ aof c' = aof c /\
  forall cmd, cmd_name req = Some cmd -> is_mutating_command cmd = true ->
    response res = readonly_error /\ storage c' = storage c.
Proof.
  pose (VA := {| reserve_limit := 0; vector_max_size := 0 |} : VectorAlloc). intros Hw HR E.
  apply dispatch_inv in E as
    [(cmd & op & r & eng & Hn & Hb & Hop & Er & -> & ->)|((Hs & _ & Ha & _) & _ & Hcase & _)].
  - cbn in Hb. pose proof (named_op_mutates _ _ _ Hop) as Hm. rewrite Hb in Hm.
    rewrite (reads_no_journal _ _ _ _ Hm). cbn.
    destruct (run_op_refines _ _ _ _ _ _ _ Hw HR Er) as (m' & Hstep & HR').
    rewrite (reads_unchanged _ _ _ _ _ _ Hstep Hm) in HR'.
    split_and!; [done|done|]. intros cmd' Hn'. congruence.
  - split_and!; [|done|].
    + intros k. unfold elookup, get_shard_index. rewrite Hs. apply HR.
    + intros cmd Hn Hm. rewrite Hn in Hcase.
      destruct Hcase as [?|(? & [= <-] & [(_ & -> & ->)|[Hb _]])]; [done|done|].
      cbn in Hb. congruence.
Qed.

Lemma replica_rejects_writes_witness :
  let x := dispatch (clk_at 5) true false (request ["SET"; "k"; "v"]) ctx0 in
  exists res c', x = Ok (res, c') /\ response res = readonly_error /\ storage c' = engine0.
Proof.
  eexists _, _. split; [reflexivity|].
  destruct (replica_rejects_writes (clk_at 5) (request ["SET"; "k"; "v"]) ctx0 _ _ ∅
              engine0_wf (R_new _ _) eq_refl) as (_ & _ & Hw).
  apply (Hw (lit "SET")); reflexivity.
Defined.

Lemma R_shards `{PlatformLaws} now eng eng' m :
  shards eng' = shards eng -> R now eng m -> R now eng' m.
Proof. intros Hs HR k. unfold elookup, get_shard_index. rewrite Hs. apply HR. Qed.

(** ** Journal entries *)

(** The call that the journal entry of [op] makes when it is replayed; [now] is
    the clock reading of the dispatcher. *)
Definition replay_of (now : Z) (op : kv_op) : kv_op :=
  match op with KExpire k off => KExpireAt k (u64 (now + off)) | _ => op end.

Lemma pexpireat_op k t : 0 <= t < two64 -> request_op (pexpireat_cmd k t) = Some (KExpireAt k t).
Proof.
  intros Ht. unfold request_op. cbn.
  change (named_op (lit "PEXPIREAT") (pexpireat_cmd k t) = Some (KExpireAt k t)).
  unfold named_op. rewrite !bool_decide_eq_false_2 by done. cbn [orb].
  rewrite bool_decide_eq_true_2 by done. cbn [arg array_value]. cbn.
  by rewrite from_chars_u64_to_string.
Qed.

Lemma named_op_expire cmd req k off :
  named_op cmd req = Some (KExpire k off) -> argc req = 3%nat.
Proof.
  intros Hop. op_cases Hop; try done; by apply Nat.eqb_eq.
Qed.

(** What a journal entry means when it is replayed. *)
Lemma journal_entry clk req op r : request_op req = Some op ->
  journal clk req op r = [] \/
  exists e, journal clk req op r = [e] /\ request_op e = Some (replay_of (dispatch_now clk) op).
Proof.
  intros Hop. destruct op, r as [[]| |n|[]]; cbn; eauto.
  - destruct (0 <? n); eauto.
  - right. eexists. split; [done|]. apply pexpireat_op, u64_range.
Qed.

Lemma journal_wf `{VectorAlloc} clk req op r e :
  wf req = true -> request_op req = Some op -> e ∈ journal clk req op r -> wf e = true.
Proof.
  intros Hw Hop He. destruct (request_op_inv _ _ Hop) as (cmd & Hn & Hnm & _).
  assert (e = req \/ exists k off, op = KExpire k off /\ e = pexpireat_cmd k (u64 (dispatch_now clk + off))) as HC.
  { destruct op, r as [[]| |n|[]]; cbn in He; try (by apply not_elem_of_nil in He);
      try (left; by apply list_elem_of_singleton in He).
    - left. destruct (0 <? n); [by apply list_elem_of_singleton in He|by apply not_elem_of_nil in He].
    - right. apply list_elem_of_singleton in He. eauto. }
  destruct HC as [->|(k & off & -> & ->)]; [done|].
  apply named_op_expire in Hnm. pose proof (wf_argc _ _ Hn Hw) as Hl. rewrite Hnm in Hl.
  cbn. apply Z.leb_le. lia.
Qed.

(** Without a limit the specification is deterministic in the state. *)
Lemma counter_step_det delta k o m m1 o' m2 :
  counter_step false delta k o m m1 -> counter_step false delta k o' m m2 -> m1 = m2.
Proof.
  intros H1 H2. inversion H1 as [? S1|? ? n1 d1 S1 _ [_ K1] _|]; subst; [| |done];
    inversion H2 as [? S2|? ? n2 d2 S2 _ [_ K2] _|]; subst; try done; try congruence.
  rewrite K1, K2 by done. congruence.
Qed.

Lemma spec_step_det now op r m m1 r' m2 :
  spec_step false now op r m m1 -> spec_step false now (replay_of now op) r' m m2 -> m1 = m2.
Proof.
  intros H1 H2. destruct op; cbn [replay_of] in H2; inversion H1; subst; inversion H2; subst;
    repeat match goal with
    | H : kept _ _ _ |- _ => destruct H as [_ H]; specialize (H eq_refl)
    | H1 : _ !! ?k = _, H2 : _ !! ?k = _ |- _ => rewrite H1 in H2; simplify_eq
    | H : _ \/ _ |- _ => destruct H as [?|[? ?]]
    end; try congruence; try done;
    by eapply counter_step_det.
Qed.

(** A call on at most [INT_MAX] keys is in range wherever the counters are. *)
Lemma replay_in_range `{PlatformLaws} now op r m m1 eng :
  spec_step false now op r m m1 -> (forall clk req, journal clk req op r <> []) ->
  Z.of_nat (length (loop_keys op)) <= INT_MAX -> op_in_range (replay_of now op) eng m = true.
Proof.
  intros Hs Hj Hk. specialize (Hj (mkClock 0 0 0) create_null).
  assert (forall delta k o, counter_step false delta k o m m1 -> is_Some o ->
    (if counter_start (m !! k) is Some (n, _) then is_i64 (n + delta) else true) = true) as Hc.
  { intros delta k o Hc [v ->]. inversion Hc as [|? ? n d Hst Hin _ _|]; subst. by rewrite Hst. }
  destruct op; try done; cbn [replay_of op_in_range loop_keys] in *.
  - apply Z.leb_le. pose proof (stored_count_le ks eng). lia.
  - inversion Hs; subst. eapply Hc; [done|]. destruct o; [by eexists|done].
  - inversion Hs; subst. eapply Hc; [done|]. destruct o; [by eexists|done].
Qed.

(** A request and the entry journaled for it leave the same live keys when the
    entry is dispatched, at the same instant, to an engine with the same live
    keys. *)
Lemma entry_same_effect `{PlatformLaws} `{Disk} clk req op r e m m1 clk2 ro c2 :
  request_op req = Some op -> spec_step false (engine_now clk) op r m m1 -> journal clk req op r = [e] ->
  (dispatch_now clk = engine_now clk \/ forall k off, op <> KExpire k off) ->
  Z.of_nat (argc req) <= INT_MAX ->
  engine_now clk2 = engine_now clk -> engine_wf (storage c2) -> bounded (storage c2) = false ->
  R (engine_now clk) (storage c2) m ->
  exists res2 c2', dispatch clk2 ro true e c2 = Ok (res2, c2') /\ R (engine_now clk) (storage c2') m1.
Proof.
  intros Hop Hs Hj Hc Hk Hn Hw Hb HR.
  destruct (journal_entry clk req op r Hop) as [Hj'|(e' & Hj' & He)]; rewrite Hj in Hj'; [done|].
  injection Hj' as <-. replace (replay_of (dispatch_now clk) op) with (replay_of (engine_now clk) op) in He
    by (destruct Hc as [->|Hc]; [done|destruct op; try done; by destruct (Hc k ms_offset)]).
  destruct (request_op_inv _ _ Hop) as (cmd & Hcn & Hnm & _). pose proof (named_op_keys _ _ _ Hnm) as Hl.
  destruct (request_op_inv _ _ He) as (cmd2 & Hcn2 & _ & _).
  assert (blocked ro true cmd2 = false) as Hbl by (by destruct ro).
  rewrite (dispatch_data _ _ _ _ _ _ _ Hcn2 Hbl He), Hn.
  pose proof (run_op_total (replay_of (engine_now clk) op) (engine_now clk) (evict_seed clk2) (storage c2) m Hw HR) as HT.
  rewrite (replay_in_range _ _ _ _ _ _ Hs) in HT; [|by intros; destruct op, r as [[]| |?|[]]; cbn in *; try done; destruct (0 <? _)|lia].
  destruct HT as [[r2 eng2] E]. rewrite E. cbn. eexists _, _. split; [done|].
  destruct (storage_log_all true (journal clk2 e (replay_of (engine_now clk) op) r2) (with_storage eng2 (counted c2)))
    as [-> _]. cbn.
  destruct (run_op_refines _ _ _ _ _ _ _ Hw HR E) as (m2 & Hs2 & HR2). rewrite Hb in Hs2.
  by rewrite (spec_step_det _ _ _ _ _ _ _ Hs Hs2).
Qed.

(** C12. The append-only file gets every change and nothing else. On a disk that
    works, a request appends nothing or one entry: nothing during replay
    ([bypass]), and otherwise an entry [e] that is a well-formed command with no
    relative deadline (an [EXPIRE] or [PEXPIRE] is logged as a [PEXPIREAT] of the
    dispatcher's clock reading plus the offset, every other command as it came).
    Without a memory limit, a client's request that appends nothing leaves the
    live keys as they are; and one that appends [e] leaves the same live keys,
    values and deadlines as dispatching [e], at the same instant, to any other
    unlimited server with the same live keys. For [EXPIRE] and [PEXPIRE] the
    last statement supposes that the two clock readings of the request are
    equal. *)
Theorem dispatch_logs_changes `{PlatformLaws} `{D : Disk} `{VectorAlloc} clk ro bypass req c l m res c' :
  reliable D -> aof c = Some l -> ready l -> wf req = true ->
  engine_wf (storage c) -> R (engine_now clk) (storage c) m ->
  dispatch clk ro bypass req c = Ok (res, c') ->
  exists es, aof c' = Some (appended l es) /\ (length es <= 1)%nat /\ (bypass = true -> es = []) /\
    (bypass = false -> es = [] -> bounded (storage c) = false -> R (engine_now clk) (storage c') m) /\
    forall e, es = [e] ->
      wf e = true /\
      exists op, request_op req = Some op /\ request_op e = Some (replay_of (dispatch_now clk) op) /\
        ((forall k off, op <> KExpire k off) -> e = req) /\
        (bounded (storage c) = false -> Z.of_nat (argc req) <= INT_MAX ->
         (dispatch_now clk = engine_now clk \/ forall k off, op <> KExpire k off) ->
         exists m1, R (engine_now clk) (storage c') m1 /\
           forall clk2 ro2 c2, engine_now clk2 = engine_now clk -> engine_wf (storage c2) ->
             bounded (storage c2) = false -> R (engine_now clk) (storage c2) m ->
             exists res2 c2', dispatch clk2 ro2 true e c2 = Ok (res2, c2') /\
               R (engine_now clk) (storage c2') m1).
Proof.
  intros HD Ha Hl Hw Hwf HR E.
  apply dispatch_inv in E as
    [(cmd & op & r & eng & Hn & Hb & Hop & Er & -> & ->)|((Hs & _ & Ha' & _) & _)].
  2: { exists []. rewrite appended_nil, Ha' by done. split_and!; [done|cbn; lia|done| |done].
       intros _ _ _. by apply (R_shards _ (storage c)). }
  destruct (run_op_refines _ _ _ _ _ _ _ Hwf HR Er) as (m' & Hstep & HR').
  destruct bypass.
  { exists []. rewrite log_all_bypass, appended_nil by done. split_and!; try done. cbn. lia. }
  assert (request_op req = Some op) as Hreq by (unfold request_op; by rewrite Hn).
  destruct (storage_log_all false (journal clk req op r) (with_storage eng (counted c))) as [-> _].
  exists (journal clk req op r). split_and!.
  - by apply log_all_appends.
  - destruct (journal_entry clk req op r Hreq) as [->|(e & -> & _)]; cbn; lia.
  - done.
  - intros _ Hj Hbd. rewrite Hbd in Hstep. by rewrite (journal_nil_unchanged _ _ _ _ _ _ _ Hstep Hj) in HR'.
  - intros e Hj. split; [apply (journal_wf clk req op r); try done; rewrite Hj; left|]. exists op.
    destruct (journal_entry clk req op r Hreq) as [Hj'|(e' & Hj' & He)]; rewrite Hj in Hj'; [done|].
    injection Hj' as <-. split_and!; [done|done| |].
    + intros Hx. destruct op, r as [[]| |n|[]]; cbn in Hj; try done; try congruence.
      destruct (0 <? n); congruence.
    + intros Hbd Hk Hc. rewrite Hbd in Hstep. exists m'. split; [exact HR'|].
      intros clk2 ro2 c2 Hn2 Hw2 Hb2 HR2. by apply (entry_same_effect clk req op r e m m').
Qed.

Lemma dispatch_logs_changes_witness :
  let incr := request ["INCR"; "n"] in
  exists res c' m1, dispatch (clk_at 5) false false incr ctx0 = Ok (res, c') /\
    file <$> aof c' = Some (serialize incr) /\ R 5 (storage c') m1 /\
    exists res2 c2', dispatch (clk_at 5) true true incr ctx0 = Ok (res2, c2') /\ R 5 (storage c2') m1.
Proof.
  intros req. pose (x := dispatch (clk_at 5) false false req ctx0).
  assert (E : x = Ok (reply (create_integer 1), ctx_after x ctx0)) by reflexivity.
  destruct (@dispatch_logs_changes _ _ perfect_disk libstdcxx_alloc (clk_at 5) false false
    req ctx0 _ ∅ _ _ perfect_disk_reliable eq_refl
    (conj eq_refl eq_refl) eq_refl engine0_wf (R_new _ _) E) as (es & Ha & Hlen & _ & _ & Hes).
  assert (Hf : file <$> aof (ctx_after x ctx0) = Some (serialize req)) by (vm_compute; reflexivity).
  assert (He : es = [req]).
  { rewrite Ha in Hf. injection Hf as Hf. destruct es as [|e es]; [discriminate|].
    destruct es as [|e' es]; [|cbn in Hlen; lia].
    destruct (Hes e eq_refl) as (_ & op & Hop & _ & Hsame & _). injection Hop as <-. by rewrite Hsame. }
  destruct (Hes req He) as (_ & op & Hop & _ & _ & Hrep). injection Hop as <-.
  destruct (Hrep eq_refl ltac:(vm_compute; congruence) (or_introl eq_refl)) as (m1 & HR1 & H2).
  exists (reply (create_integer 1)), (ctx_after x ctx0), m1.
  split; [exact E|]. split; [exact Hf|]. split; [exact HR1|].
  exact (H2 (clk_at 5) true ctx0 eq_refl engine0_wf eq_refl (R_new _ _)).
Defined.

(** C26. Replies can be parsed: the reply to a parsed request is a well-formed
    value, so the client reads back exactly the value that was sent, whatever
    follows it on the wire. The command name must hold no line end, since it
    is quoted in the error for an unknown command. *)
Theorem replies_parse `{PlatformLaws} `{Disk} `{VectorAlloc} clk ro bypass req c m cmd res c' rest :
  wf req = true -> reserve_limit <= INT64_MAX -> engine_wf (storage c) ->
  R (engine_now clk) (storage c) m -> cmd_name req = Some cmd -> no_crlf cmd = true ->
  dispatch clk ro bypass req c = Ok (res, c') ->
  size_of (serialize (response res) ++ rest) <= INT64_MAX ->
  parse (serialize (response res) ++ rest) = Ok (Some (response res, size_of (serialize (response res)))).
Proof.
  intros Hw Hlim Hwf HR Hn Hc E Hsz. apply parse_serialize; [|done].
  apply dispatch_inv in E as
    [(cmd' & op & r & eng & Hn' & Hb & Hop & Er & -> & ->)|(_ & _ & _ & Hr)]; [|by eapply Hr].
  destruct (run_op_refines _ _ _ _ _ _ _ Hwf HR Er) as (m' & Hstep & _).
  eapply render_wf; [exact Hstep|].
  pose proof (wf_argc _ _ Hn Hw). pose proof (named_op_keys _ _ _ Hop). lia.
Qed.

Lemma replies_parse_witness :
  exists res c', dispatch (clk_at 5) false false (request ["GET"; "k"]) ctx0 = Ok (res, c') /\
    @parse libstdcxx_alloc (serialize (response res) ++ lit "+OK") = Ok (Some (create_null, 5)).
Proof.
  pose (x := dispatch (clk_at 5) false false (request ["GET"; "k"]) ctx0).
  exists (reply create_null), (ctx_after x ctx0).
  assert (E : x = Ok (reply create_null, ctx_after x ctx0)) by reflexivity.
  split; [exact E|].
  apply (@replies_parse _ _ perfect_disk libstdcxx_alloc (clk_at 5) false false
    (request ["GET"; "k"]) ctx0 ∅ (lit "GET") _ _ (lit "+OK") eq_refl ltac:(vm_compute; congruence)
    engine0_wf (R_new _ _) eq_refl eq_refl E). vm_compute. congruence.
Defined.

(** The restriction on the name is needed: a name with a line end in it makes
    the reader of the error see a second reply. *)
Example unknown_command_injection :
  let name := lit "X" ++ crlf ++ lit "+OK" in
  (dispatch (clk_at 5) false false (create_array [create_bulk_string name]) ctx0
     ≫= fun '(res, _) => @parse libstdcxx_alloc (serialize (response res))) =
  Ok (Some (create_error (lit "ERR unknown command 'X"), 25)).
Proof. vm_compute. reflexivity. Qed.

(** [INFO] without a section compares ["all"] with ["ALL"] and reports
    nothing; with the section spelled out it reports everything. *)
Example info_default_empty :
  (dispatch (clk_at 5) false false (request ["INFO"]) ctx0 ≫= fun '(res, _) => Ok (response res)) =
    Ok (create_bulk_string []) /\
  (dispatch (clk_at 5) false false (request ["INFO"; "all"]) ctx0
     ≫= fun '(res, _) => Ok (response res)) <> Ok (create_bulk_string []).
Proof. split; [vm_compute; reflexivity|vm_compute; congruence]. Qed.

(** A number followed by other text is accepted. *)
Example expire_partial_number :
  request_op (request ["EXPIRE"; "k"; "10abc"]) = Some (KExpire (lit "k") 10000).
Proof. vm_compute. reflexivity. Qed.
