(* ===== verification/Connection.v ===== *)
(** * Connections: [include/net/Connection.h], [src/net/Connection.cpp]

    A connection owns a file descriptor. The descriptor table of the process
    is part of the state, so that ownership can be stated: [close] on a
    descriptor that is not open is recorded as an error. What [::write] does
    with a buffer is the network's decision: [net_accept out data] is the value
    the system call returns when [out] has been sent before and [data] is
    offered. *)

From S2P Require Import Prelude.

Class Net := { net_accept : bytes -> bytes -> Z }.

(** [::write] never reports more bytes than it was given. *)
Definition net_sound (N : Net) : Prop := forall out data, @net_accept N out data <= size_of data.

Record Connection := mkConn { fd_ : Z }.

(** ** Writing *)

Section write.
Context `{Net}.

(** The [while] loop of [write_bytes]; a round sends at least one byte. *)
Fixpoint write_loop (fuel : nat) (data : bytes) (total_written : Z) (out : bytes)
    : res (bool * bytes) :=
  match fuel with
  | O => NoFuel
  | S f =>
      if total_written <? size_of data then
        let rest := drop (Z.to_nat total_written) data in
        let bytes_written := net_accept out rest in
        if bytes_written <=? 0 then Ok (false, out)
        else write_loop f data (total_written + bytes_written)
               (out ++ take (Z.to_nat bytes_written) rest)
      else Ok (true, out)
  end.

(** The result with everything sent on the connection so far. *)
Definition write_bytes (conn : Connection) (data out : bytes) : res (bool * bytes) :=
  if fd_ conn <? 0 then Ok (false, out)
  else write_loop (S (length data)) data 0 out.

End write.

(** [os_read] is what [::read] gives: the bytes it stored, [None] for a
    result of 0 or below. *)
Definition read_bytes (conn : Connection) (os_read : option bytes) : option bytes :=
  if fd_ conn <? 0 then None else os_read.

(** ** Ownership of descriptors *)

(** The objects of the program by name, the open descriptors, and how often a
    descriptor was closed that was not open. *)
Record World := mkWorld {
  conns : gmap nat Connection;
  open_fds : gset Z;
  bad_closes : nat
}.

(** [::close(fd)]. *)
Definition os_close (fd : Z) (w : World) : World :=
  if bool_decide (fd ∈ open_fds w) then mkWorld (conns w) (open_fds w ∖ {[fd]}) (bad_closes w)
  else mkWorld (conns w) (open_fds w) (S (bad_closes w)).

Definition put_conn (x : nat) (c : Connection) (w : World) : World :=
  mkWorld (<[x := c]> (conns w)) (open_fds w) (bad_closes w).

Definition fd_of (x : nat) (w : World) : Z := from_option fd_ (-1) (conns w !! x).

(** [Connection::close]. *)
Definition close (x : nat) (w : World) : World :=
  if 0 <=? fd_of x w then put_conn x (mkConn (-1)) (os_close (fd_of x w) w) else w.

(** [Connection(int fd)]. *)
Definition construct (x : nat) (fd : Z) (w : World) : World := put_conn x (mkConn fd) w.

(** The move constructor makes [x] from [other]. *)
Definition move_construct (x other : nat) (w : World) : World :=
  put_conn other (mkConn (-1)) (put_conn x (mkConn (fd_of other w)) w).

Definition move_assign (x other : nat) (w : World) : World :=
  if bool_decide (x = other) then w
  else
    let w := close x w in
    put_conn other (mkConn (-1)) (put_conn x (mkConn (fd_of other w)) w).

(** [~Connection]: the object is gone afterwards. *)
Definition destroy (x : nat) (w : World) : World :=
  let w := close x w in
  mkWorld (delete x (conns w)) (open_fds w) (bad_closes w).

(** What a program can do with connections: construct one from a descriptor
    the system just opened, move, assign, close and destroy; a name is used
    for one object at a time. *)
Inductive conn_step : World -> World -> Prop :=
  | step_accept x fd w : conns w !! x = None -> 0 <= fd -> fd ∉ open_fds w ->
      conn_step w (construct x fd (mkWorld (conns w) ({[fd]} ∪ open_fds w) (bad_closes w)))
  | step_move x y w : conns w !! x = None -> is_Some (conns w !! y) ->
      conn_step w (move_construct x y w)
  | step_assign x y w : is_Some (conns w !! x) -> is_Some (conns w !! y) ->
      conn_step w (move_assign x y w)
  | step_close x w : is_Some (conns w !! x) -> conn_step w (close x w)
  | step_destroy x w : is_Some (conns w !! x) -> conn_step w (destroy x w).

(** ** Lemmas *)

(** Every owned descriptor is open and has one owner; every open descriptor
    is owned; no bad close has happened. *)
Definition owned (w : World) : Prop :=
  (forall x y, 0 <= fd_of x w -> fd_of x w = fd_of y w -> x = y) /\
  (forall x, 0 <= fd_of x w -> fd_of x w ∈ open_fds w) /\
  (forall fd, fd ∈ open_fds w -> exists x, fd_of x w = fd /\ 0 <= fd) /\
  bad_closes w = 0%nat.

Lemma fd_of_put x c w y : fd_of y (put_conn x c w) = if decide (y = x) then fd_ c else fd_of y w.
Proof.
  unfold fd_of. cbn. case_decide as E; [subst; by rewrite lookup_insert_eq|].
  by rewrite lookup_insert_ne.
Qed.

Lemma fd_of_os_close fd w y : fd_of y (os_close fd w) = fd_of y w.
Proof. unfold os_close. by case_bool_decide. Qed.

(** Giving up a descriptor: closing it and dropping its owner. *)
Lemma owned_close x w : owned w -> owned (close x w) /\ fd_of x (close x w) < 0 /\
  (forall y, y <> x -> fd_of y (close x w) = fd_of y w).
Proof.
  intros (Hinj & Hop & Hown & Hbad). unfold close. destruct (Z.leb_spec 0 (fd_of x w)) as [Hx|Hx];
    [|by split_and!].
  unfold os_close. rewrite bool_decide_eq_true_2 by auto.
  set (w1 := mkWorld _ _ _). assert (forall y, fd_of y w1 = fd_of y w) as E1 by done.
  split_and!; [|rewrite fd_of_put, decide_True by done; cbn; lia
               |intros y Hy; by rewrite fd_of_put, decide_False].
  assert (forall y, fd_of y (put_conn x (mkConn (-1)) w1) = if decide (y = x) then -1 else fd_of y w) as E.
  { intros y. by rewrite fd_of_put. }
  split_and!; [| | |done].
  - intros y z. rewrite !E. repeat case_decide; try lia. apply Hinj.
  - intros y. rewrite E. case_decide as Hyx; [lia|]. intros Hy. cbn.
    apply elem_of_difference. split; [auto|]. rewrite elem_of_singleton. intros Heq. auto.
  - intros fd Hfd. cbn in Hfd. apply elem_of_difference in Hfd as [Hfd Hne].
    destruct (Hown fd Hfd) as (y & Hy & Hpos). exists y. rewrite E, decide_False; [done|].
    intros ->. set_solver.
Qed.

(** Handing a descriptor from [y] to an object [x] that owns none. *)
Lemma owned_move x y w : owned w -> x <> y -> fd_of x w < 0 ->
  owned (put_conn y (mkConn (-1)) (put_conn x (mkConn (fd_of y w)) w)).
Proof.
  intros (Hinj & Hop & Hown & Hbad) Hxy Hx. set (w' := put_conn _ _ _).
  assert (forall z, fd_of z w' =
    if decide (z = y) then -1 else if decide (z = x) then fd_of y w else fd_of z w) as E.
  { intros z. unfold w'. by rewrite !fd_of_put. }
  split_and!; [| | |done].
  - intros a b. rewrite !E. repeat case_decide; subst; try lia; intros Ha He; try done.
    + by destruct (Hinj y b).
    + by destruct (Hinj a y).
    + auto.
  - intros a. rewrite E. repeat case_decide; [lia|apply Hop|apply Hop].
  - intros fd Hfd. destruct (Hown fd Hfd) as (z & Hz & Hpos).
    destruct (decide (z = y)) as [->|Hzy]; [exists x|exists z]; rewrite E; repeat case_decide;
      subst; (split; [lia|done]).
Qed.

Lemma owned_step w w' : owned w -> conn_step w w' -> owned w'.
Proof.
  intros Hw Hs. destruct Hs as [x fd w Hx Hfd Hnew|x y w Hx Hy|x y w Hx Hy|x w Hx|x w Hx].
  - destruct Hw as (Hinj & Hop & Hown & Hbad). set (w' := construct _ _ _).
    assert (forall z, fd_of z w' = if decide (z = x) then fd else fd_of z w) as E.
    { intros z. unfold w', construct. by rewrite fd_of_put. }
    assert (fd_of x w = -1) as Hfx by (unfold fd_of; by rewrite Hx).
    split_and!; [| | |done].
    + intros a b. rewrite !E. repeat case_decide; subst; auto; intros Ha He; exfalso.
      * apply Hnew. rewrite He. apply Hop. lia.
      * apply Hnew. rewrite <- He. by apply Hop.
    + intros a. rewrite E. case_decide; cbn; [set_solver|]. intros Ha. apply Hop in Ha. set_solver.
    + intros g [->%elem_of_singleton|Hg]%elem_of_union.
      * exists x. by rewrite E, decide_True.
      * destruct (Hown g Hg) as (z & Hz & Hpos). exists z. rewrite E. case_decide; [subst; lia|done].
  - unfold move_construct. assert (x <> y) by (intros ->; rewrite Hx in Hy; by destruct Hy).
    apply owned_move; [done|done|]. unfold fd_of. rewrite Hx. cbn. lia.
  - unfold move_assign. case_bool_decide as Hxy; [done|].
    destruct (owned_close x w Hw) as (Hw1 & Hc & _). by apply owned_move.
  - by apply owned_close.
  - unfold destroy. destruct (owned_close x w Hw) as ((Hinj & Hop & Hown & Hbad) & Hc & _).
    set (w1 := close x w) in *.
    assert (forall y, fd_of y (mkWorld (delete x (conns w1)) (open_fds w1) (bad_closes w1)) =
      if decide (y = x) then -1 else fd_of y w1) as E.
    { intros y. unfold fd_of. cbn. case_decide; [subst; by rewrite lookup_delete_eq|].
      by rewrite lookup_delete_ne. }
    split_and!; [| | |done].
    + intros a b. rewrite !E. repeat case_decide; subst; try lia; auto.
    + intros a. rewrite E. case_decide; [lia|apply Hop].
    + intros fd Hfd. destruct (Hown fd Hfd) as (z & Hz & Hpos). exists z. rewrite E.
      case_decide; [subst; lia|done].
Qed.

(** The loop returns, has sent a prefix of the data, and reports success
    exactly when that is all of it. *)
Lemma write_loop_spec `{N : Net} fuel data total out :
  net_sound N -> 0 <= total <= size_of data -> size_of data - total < Z.of_nat fuel ->
  exists ok n, write_loop fuel data total out =
      Ok (ok, out ++ take n (drop (Z.to_nat total) data)) /\
    (ok = true <-> (length data - Z.to_nat total <= n)%nat).
Proof.
  intros HN. revert total out. induction fuel as [|f IH]; intros total out Ht Hf; [lia|].
  cbn [write_loop]. unfold size_of in *. destruct (Z.ltb_spec total (Z.of_nat (length data))) as [Hlt|Hge].
  2: { exists true, 0%nat. rewrite app_nil_r. split; [done|]. split; [lia|done]. }
  set (rest := drop (Z.to_nat total) data). set (n := net_accept out rest).
  assert (n <= Z.of_nat (length data) - total) as Hn.
  { pose proof (HN out rest) as Hs. unfold size_of in Hs. subst rest. rewrite length_drop in Hs.
    subst n. lia. }
  destruct (Z.leb_spec n 0) as [H0|H0].
  { exists false, 0%nat. rewrite app_nil_r. split; [done|]. split; [done|lia]. }
  destruct (IH (total + n) (out ++ take (Z.to_nat n) rest)) as (ok & k & -> & Hk); [lia|lia|].
  exists ok, (Z.to_nat n + k)%nat. split.
  - rewrite <- app_assoc. rewrite Z2Nat.inj_add by lia. rewrite <- drop_drop.
    fold rest. by rewrite <- take_take_drop.
  - rewrite Hk. lia.
Qed.

Lemma write_bytes_spec `{N : Net} conn data out :
  net_sound N -> exists ok sent, write_bytes conn data out = Ok (ok, out ++ sent) /\
    sent `prefix_of` data /\ (ok = true -> sent = data) /\
    (0 <= fd_ conn -> sent = data -> ok = true).
Proof.
  intros HN. unfold write_bytes. destruct (Z.ltb_spec (fd_ conn) 0).
  { exists false, []. rewrite app_nil_r. split_and!; [done|apply prefix_nil|done|lia]. }
  destruct (write_loop_spec (S (length data)) data 0 out HN) as (ok & n & -> & Hok);
    [unfold size_of; lia|unfold size_of; lia|].
  exists ok, (take n data). cbn [drop Z.to_nat] in *. split_and!; [done| | |].
  - apply prefix_take.
  - intros Ho. apply take_ge. apply Hok in Ho. lia.
  - intros _ Ht. apply Hok. apply (f_equal length) in Ht. rewrite length_take in Ht. lia.
Qed.

(** A network that takes everything, and one that takes three bytes at a time
    and fails after ten. *)
Definition open_net : Net := {| net_accept _ data := size_of data |}.
Definition slow_net : Net :=
  {| net_accept out data := if 10 <=? size_of out then -1 else Z.min 3 (size_of data) |}.

Lemma open_net_sound : net_sound open_net.
Proof. intros out data. cbn. lia. Qed.
Lemma slow_net_sound : net_sound slow_net.
Proof. intros out data. cbn. destruct (10 <=? _); [pose proof (size_of_nonneg data)|]; lia. Qed.

(** ** Properties *)

(** C28. [write_bytes] handles short writes: it returns, what it has sent is
    a prefix of the data and nothing else, and on an open connection it reports
    success exactly when all of the data went out. *)
Theorem write_bytes_correct `{N : Net} conn data out :
  net_sound N -> exists ok sent, write_bytes conn data out = Ok (ok, out ++ sent) /\
    sent `prefix_of` data /\ (ok = true -> sent = data) /\
    (0 <= fd_ conn -> sent = data -> ok = true).
Proof. apply write_bytes_spec. Qed.

Lemma write_bytes_correct_witness :
  @write_bytes slow_net (mkConn 5) (lit "0123456789abcdef") [] = Ok (false, lit "0123456789ab") /\
  exists ok sent, @write_bytes slow_net (mkConn 5) (lit "0123456789abcdef") [] = Ok (ok, [] ++ sent) /\
    sent `prefix_of` lit "0123456789abcdef" /\ (ok = true -> sent = lit "0123456789abcdef") /\
    (0 <= 5 -> sent = lit "0123456789abcdef" -> ok = true).
Proof.
  split; [vm_compute; reflexivity|].
  apply (@write_bytes_correct slow_net (mkConn 5)), slow_net_sound.
Defined.

(** C29. Descriptors are neither leaked nor closed twice: whatever sequence of
    constructions from fresh descriptors, moves, assignments, closes and
    destructions a program performs, every open descriptor has exactly one
    owner, every owned descriptor is open, and [close] was never called on a
    descriptor that was not open. When all objects are gone, everything is
    closed. *)
Theorem descriptors_owned w w' :
  owned w -> rtc conn_step w w' ->
  owned w' /\ (conns w' = ∅ -> open_fds w' = ∅).
Proof.
  intros Hw Hs. assert (owned w') as Hw'.
  { induction Hs as [|w w1 w' Hstep _ IH]; [done|]. eauto using owned_step. }
  split; [done|]. intros Hc. destruct Hw' as (_ & _ & Hown & _). apply set_eq. intros fd.
  split; [|set_solver]. intros (x & Hx & Hpos)%Hown. unfold fd_of in Hx. rewrite Hc in Hx.
  rewrite lookup_empty in Hx. cbn in Hx. lia.
Qed.

(** Accept a client, move the connection into its thread, destroy both. *)
Definition world0 : World := mkWorld ∅ ∅ 0.
Definition world1 : World :=
  destroy 1 (destroy 0 (move_construct 1 0 (construct 0 7 (mkWorld ∅ ({[7]} ∪ ∅) 0)))).

Lemma descriptors_owned_witness : owned world1 /\ open_fds world1 = ∅.
Proof.
  destruct (descriptors_owned world0 world1) as [H1 H2].
  - assert (forall x, fd_of x world0 = -1) as E by (intros x; unfold fd_of, world0; cbn; by rewrite lookup_empty).
    split_and!; [intros x y; rewrite E; lia|intros x; rewrite E; lia|set_solver|done].
  - eapply rtc_l; [apply (step_accept 0 7); [reflexivity|lia|set_solver]|].
    eapply rtc_l; [apply (step_move 1 0); [reflexivity|by eexists]|].
    eapply rtc_l; [apply (step_destroy 0); by eexists|].
    eapply rtc_l; [apply (step_destroy 1); by eexists|]. apply rtc_refl.
  - split; [exact H1|]. apply H2. vm_compute. reflexivity.
Defined.
