(* ===== verification/Server.v ===== *)
(** * The server: [include/server/Server.h], [src/server/Server.cpp]

    The replay of the append-only file at start-up, the loop that serves one
    client, the streaming of the file to a replica, and the worker of a
    replica. What arrives on a socket is given as the list of the chunks that
    successive [::read] calls return, up to the first that returns 0 or an
    error or the first at which [running_] is found false; the chunk
    boundaries are arbitrary. The clock readings of the [i]-th command are
    [clocks i]. *)

From S2P Require Import Prelude CppStd RESP UnorderedMap Storage AOF Dispatcher Connection.

Section server.
Context `{Platform} `{Disk} `{VectorAlloc} `{Net}.

Record Server := mkServer {
  port_ : Z;
  server_fd_ : Z;
  running_ : bool;
  replica_host_ : bytes;
  replica_port_ : Z;
  is_replica_ : bool;
  ctx : Ctx                 (* [storage_engine_], [aof_logger_] and the metrics *)
}.

Definition new_server (port : Z) (replica_host : bytes) (replica_port : Z) (c : Ctx) : Server :=
  mkServer port (-1) false replica_host replica_port
    (negb (bool_decide (replica_host = [])) && (0 <? replica_port)) c.

Definition set_running (b : bool) (s : Server) : Server :=
  mkServer (port_ s) (server_fd_ s) b (replica_host_ s) (replica_port_ s) (is_replica_ s) (ctx s).
Definition set_fd (fd : Z) (s : Server) : Server :=
  mkServer (port_ s) fd (running_ s) (replica_host_ s) (replica_port_ s) (is_replica_ s) (ctx s).
Definition set_ctx (c : Ctx) (s : Server) : Server :=
  mkServer (port_ s) (server_fd_ s) (running_ s) (replica_host_ s) (replica_port_ s) (is_replica_ s) c.

(** [stop], with the descriptor it closes. *)
Definition stop (s : Server) : Server * option Z :=
  let s := set_running false s in
  if negb (server_fd_ s =? -1) then (set_fd (-1) s, Some (server_fd_ s)) else (s, None).

(** [dispatch(req, storage_engine_, nullptr, is_replica_, true)]: the logger
    is not passed. *)
Definition dispatch_null (clk : Clock) (is_replica : bool) (req : RESPValue) (c : Ctx)
    : res (DispatchResult * Ctx) :=
  '(r, c') ← dispatch clk is_replica true req (mkCtx (storage c) None (metrics c));
  Ok (r, mkCtx (storage c') (aof c) (metrics c')).

(** ** Replay *)

(** The [while] loop of [start]: the number of commands loaded, what is left
    of the content, and the state. *)
Fixpoint replay_loop (fuel : nat) (clocks : nat -> Clock) (is_replica : bool)
    (aof_content : bytes) (loaded_commands : nat) (c : Ctx) : res (nat * bytes * Ctx) :=
  match fuel with
  | O => NoFuel
  | S f =>
      match aof_content with
      | [] => Ok (loaded_commands, [], c)
      | _ =>
          req_opt ← parse aof_content;
          match req_opt with
          | None => Ok (loaded_commands, aof_content, c)
          | Some (req, consumed) =>
              '(_, c) ← dispatch_null (clocks loaded_commands) is_replica req c;
              replay_loop f clocks is_replica (erase_front aof_content consumed)
                (S loaded_commands) c
          end
      end
  end.

(** One frame takes at least one byte when no bulk length is below -1, so a
    unit of fuel per byte is enough (see [client_loop_returns]). *)
Definition loop_fuel (buffer : bytes) : nat := S (length buffer).

(** The part of [start] before the socket is opened; [content] is what the
    file holds, [None] when it cannot be opened for reading. *)
Definition load_aof (clocks : nat -> Clock) (is_replica : bool) (content : option bytes) (c : Ctx)
    : res (nat * Ctx) :=
  match content with
  | Some aof_content =>
      '(loaded, _, c) ← replay_loop (loop_fuel aof_content) clocks is_replica aof_content 0 c;
      Ok (loaded, c)
  | None => Ok (0%nat, c)
  end.

(** ** Start-up and the accept loop *)

(** The results of [::socket], [::setsockopt], [::bind] and [::listen]. *)
Record Sockets := mkSockets {
  sys_socket : Z; sys_setsockopt : Z; sys_bind : Z; sys_listen : Z
}.

Inductive start_result :=
  | start_failed                           (* an error was logged, [start] returned *)
  | serving (replica_worker : bool).       (* in the accept loop *)

(** [start] up to the opening of the socket. *)
Definition load_phase (clocks : nat -> Clock) (content : option bytes) (s : Server) : res Server :=
  let s := set_running true s in
  '(_, c) ← load_aof clocks (is_replica_ s) content (ctx s);
  Ok (set_ctx c s).

(** The rest of [start], up to the accept loop. *)
Definition open_phase (sys : Sockets) (s : Server) : Server * start_result :=
  let s := set_fd (sys_socket sys) s in
  if server_fd_ s =? -1 then (s, start_failed)
  else if sys_setsockopt sys <? 0 then (s, start_failed)
  else if sys_bind sys <? 0 then (s, start_failed)
  else if sys_listen sys <? 0 then (s, start_failed)
  else (set_running true s, serving (is_replica_ s)).

Definition start (clocks : nat -> Clock) (content : option bytes) (sys : Sockets) (s : Server)
    : res (Server * start_result) :=
  s ← load_phase clocks content s;
  Ok (open_phase sys s).

(** [~Server]: [stop], then the members are destroyed: the logger closes its
    file, the engine stops its sweeper. *)
Definition destroy_server (s : Server) : Server * option Z :=
  let '(s, fd) := stop s in
  let c := ctx s in
  (set_ctx (mkCtx (stop_sweeper (storage c)) (close_aof <$> aof c) (metrics c)) s, fd).

Definition to_list (o : option Z) : list Z := match o with Some x => [x] | None => [] end.

(** The accept loop, on the rounds to come: for each, whether [stop] is called
    (by the signal handler) in the course of the round, and what [::accept]
    returns. The result is the server, the connections handed to client threads,
    the descriptors that [stop] closed, and whether the loop has ended, because
    it found [running_] false, or waits in [::accept]. *)
Fixpoint accept_loop (rounds : list (bool * Z)) (s : Server) : Server * list Connection * list Z * bool :=
  if negb (running_ s) then (s, [], [], true)
  else
    match rounds with
    | [] => (s, [], [], false)
    | (signalled, client_fd) :: rounds' =>
        let '(s, fd) := if signalled : bool then stop s else (s, None) in
        if client_fd <? 0 then
          let '(s, cs, fds, ended) := accept_loop rounds' s in
          (s, cs, to_list fd ++ fds, ended)
        else
          let c := ctx s in
          let s := set_ctx (mkCtx (storage c) (aof c) (client_connected (metrics c))) s in
          let '(s, cs, fds, ended) := accept_loop rounds' s in
          (s, mkConn client_fd :: cs, to_list fd ++ fds, ended)
    end.

(** ** Serving a client *)

(** What one client thread has done: the number of commands dispatched, the
    bytes sent, the shared state. *)
Record Session := mkSession { done_ : nat; sent : bytes; sctx : Ctx }.

Inductive client_exit :=
  | write_failed
  | stream_aof (offset : Z)      (* [PSYNC]: the thread goes on streaming *)
  | closed.

(** The inner loop of [handle_client]: [inl] with the incomplete rest of the
    buffer when it needs more data, [inr] when [handle_client] returns. *)
Fixpoint client_loop (fuel : nat) (clocks : nat -> Clock) (is_replica : bool) (conn : Connection)
    (client_buffer : bytes) (st : Session) : res ((bytes * Session) + (client_exit * Session)) :=
  match fuel with
  | O => NoFuel
  | S f =>
      req_opt ← parse client_buffer;
      match req_opt with
      | None => Ok (inl (client_buffer, st))
      | Some (req, consumed) =>
          let client_buffer := erase_front client_buffer consumed in
          '(result, c) ← dispatch (clocks (done_ st)) is_replica false req (sctx st);
          '(ok, out) ← write_bytes conn (serialize (response result)) (sent st);
          let st := mkSession (S (done_ st)) out c in
          if negb ok then Ok (inr (write_failed, st))
          else if is_psync result then Ok (inr (stream_aof (psync_offset result), st))
          else if close_connection result then Ok (inr (closed, st))
          else client_loop f clocks is_replica conn client_buffer st
      end
  end.

(** The outer loop, on the chunks read. [inl] when the client disconnected or
    the server stopped. *)
Fixpoint handle_client (clocks : nat -> Clock) (is_replica : bool) (conn : Connection)
    (reads : list bytes) (client_buffer : bytes) (st : Session)
    : res ((bytes * Session) + (client_exit * Session)) :=
  match reads with
  | [] => Ok (inl (client_buffer, st))
  | chunk :: reads' =>
      let client_buffer := client_buffer ++ chunk in
      r ← client_loop (loop_fuel client_buffer) clocks is_replica conn client_buffer st;
      match r with
      | inl (client_buffer, st) => handle_client clocks is_replica conn reads' client_buffer st
      | inr x => Ok (inr x)
      end
  end.

(** ** Streaming the file to a replica *)

(** The [ifstream] of [PSYNC]: its error flag and its position. *)
Record Stream := mkStream { failed : bool; spos : Z }.

(** [seekg] with an offset that is negative as a [streamoff] fails and leaves
    the position at the start. *)
Definition open_stream (psync_offset : Z) : Stream :=
  if psync_offset <=? INT64_MAX then mkStream false psync_offset else mkStream true 0.

(** One [read] of up to 4096 bytes from the file as it is now. A short read
    sets the error flag, so that the next one gives nothing and clears it. *)
Definition stream_read (file : bytes) (s : Stream) : bytes * Stream :=
  if failed s then ([], mkStream false (spos s))
  else
    let data := take 4096 (drop (Z.to_nat (spos s)) file) in
    (data, mkStream (negb (bool_decide (data = [])) && (size_of data <? 4096))
             (spos s + size_of data)).

(** The streaming loop on the contents [files] the file has at successive
    rounds; [false] when the replica is gone. *)
Fixpoint psync_stream (conn : Connection) (files : list bytes) (s : Stream) (out : bytes)
    : res (bool * Stream * bytes) :=
  match files with
  | [] => Ok (true, s, out)
  | file :: files' =>
      let '(data, s) := stream_read file s in
      match data with
      | [] => psync_stream conn files' s out
      | _ =>
          '(ok, out) ← write_bytes conn data out;
          if negb ok then Ok (false, s, out) else psync_stream conn files' s out
      end
  end.

(** A client thread from the accepted descriptor to its end: the requests in
    [reads], then, after a [PSYNC], the streaming of the file with the contents
    [files]; at the end the client is no longer counted. *)
Definition client_thread (clocks : nat -> Clock) (is_replica : bool) (fd : Z) (reads files : list bytes)
    (c : Ctx) : res Session :=
  let conn := mkConn fd in
  r ← handle_client clocks is_replica conn reads [] (mkSession 0 [] c);
  st ← match r with
       | inl (_, st) => Ok st
       | inr (stream_aof offset, st) =>
           '(_, _, out) ← psync_stream conn files (open_stream offset) (sent st);
           Ok (mkSession (done_ st) out (sctx st))
       | inr (_, st) => Ok st
       end;
  let c := sctx st in
  Ok (mkSession (done_ st) (sent st) (mkCtx (storage c) (aof c) (client_gone (metrics c)))).

(** ** The worker of a replica *)

(** The handshake it sends. *)
Definition psync_cmd (current_offset : Z) : bytes :=
  lit "*2" ++ crlf ++ lit "$5" ++ crlf ++ lit "PSYNC" ++ crlf ++ lit "$" ++
  to_string (size_of (to_string current_offset)) ++ crlf ++ to_string current_offset ++ crlf.

(** The parsing loops: every complete frame is dispatched; the incomplete
    rest stays in the buffer. *)
Fixpoint apply_loop (fuel : nat) (clocks : nat -> Clock) (is_replica : bool) (buffer : bytes)
    (n : nat) (c : Ctx) : res (bytes * nat * Ctx) :=
  match fuel with
  | O => NoFuel
  | S f =>
      req_opt ← parse buffer;
      match req_opt with
      | None => Ok (buffer, n, c)
      | Some (req, consumed) =>
          '(_, c) ← dispatch_null (clocks n) is_replica req c;
          apply_loop f clocks is_replica (erase_front buffer consumed) (S n) c
      end
  end.

Record Worker := mkWorker { client_buffer : bytes; in_stream : bool; applied : nat; wctx : Ctx }.

(** [aof_logger_.log_raw(data)]. *)
Definition log_raw_ctx (data : bytes) (c : Ctx) : Ctx :=
  mkCtx (storage c) (log_raw data <$> aof c) (metrics c).

(** Log received bytes, then dispatch the frames they complete. *)
Definition apply_data (clocks : nat -> Clock) (is_replica : bool) (data buffer : bytes) (w : Worker)
    : res Worker :=
  let c := log_raw_ctx data (wctx w) in
  '(rest, n, c) ← apply_loop (loop_fuel buffer) clocks is_replica buffer (applied w) c;
  Ok (mkWorker rest true n c).

(** One chunk from the primary; [None] when the handshake was refused. *)
Definition worker_chunk (clocks : nat -> Clock) (is_replica : bool) (data : bytes) (w : Worker)
    : res (option Worker) :=
  if negb (in_stream w) then
    let buffer := client_buffer w ++ data in
    match std_find crlf buffer 0 with
    | None => Ok (Some (mkWorker buffer false (applied w) (wctx w)))
    | Some pos =>
        answer ← substr buffer 0 pos;
        if bool_decide (answer = lit "+CONTINUE") then
          remainder ← substr buffer (pos + 2) npos;
          if bool_decide (remainder = []) then Ok (Some (mkWorker [] true (applied w) (wctx w)))
          else w ← apply_data clocks is_replica remainder remainder w; Ok (Some w)
        else Ok None
    end
  else w ← apply_data clocks is_replica data (client_buffer w ++ data) w; Ok (Some w).

(** The chunks of one connection. *)
Fixpoint worker_session (clocks : nat -> Clock) (is_replica : bool) (reads : list bytes) (w : Worker)
    : res Worker :=
  match reads with
  | [] => Ok w
  | data :: reads' =>
      r ← worker_chunk clocks is_replica data w;
      match r with
      | None => Ok w
      | Some w => worker_session clocks is_replica reads' w
      end
  end.

(** One round of the outer loop: the connection could not be made, or the
    handshake could not be sent, or these chunks were received. *)
Inductive attempt :=
  | no_connection
  | handshake_lost
  | received (reads : list bytes).

(** The worker: the handshakes sent, the number of commands applied and the
    state. Every connection starts with an empty buffer, at the offset the
    local file has. *)
Fixpoint run_replica_worker (clocks : nat -> Clock) (is_replica : bool) (attempts : list attempt)
    (n : nat) (c : Ctx) : res (list bytes * nat * Ctx) :=
  match attempts with
  | [] => Ok ([], n, c)
  | no_connection :: attempts' => run_replica_worker clocks is_replica attempts' n c
  | handshake_lost :: attempts' => run_replica_worker clocks is_replica attempts' n c
  | received reads :: attempts' =>
      let current_offset := from_option get_file_size 0 (aof c) in
      w ← worker_session clocks is_replica reads (mkWorker [] false n c);
      '(hs, n, c) ← run_replica_worker clocks is_replica attempts' (applied w) (wctx w);
      Ok (psync_cmd current_offset :: hs, n, c)
  end.

End server.
