(* ===== verification/ServerProofs.v ===== *)
(** * Framing on a byte stream

    Sockets and files deliver bytes, not requests. The theorems of this file
    show that the three parsing loops of the server (replay, client, replica)
    dispatch exactly the requests of a stream of serialized requests, in
    order, however the stream is cut into chunks, and keep or ignore an
    unfinished request at the end. *)

From S2P Require Import Prelude CppStd RESP RESPProofs UnorderedMap Storage StdPlatform StorageProofs StorageSpec StorageRefine AOF Dispatcher DispatcherProofs Connection Server.

(** ** Streams of serialized values *)

Section stream.
Context `{VA : VectorAlloc}.

(** An unfinished frame, possibly empty. *)
Definition torn (tail : bytes) : Prop :=
  exists v, wf v = true /\ size_of (serialize v) <= INT64_MAX /\
    tail `prefix_of` serialize v /\ tail <> serialize v.

Definition all_wf (vs : list RESPValue) : Prop := Forall (fun v => wf v = true) vs.

Lemma torn_nil : torn [].
Proof.
  exists create_null. split_and!; [done|by vm_compute|apply prefix_nil|done].
Qed.

Lemma torn_prefix p q : torn (p ++ q) -> torn p.
Proof.
  intros (v & Hw & Hs & [k Hk] & Hne). exists v. split_and!; [done|done| |].
  - exists (q ++ k). by rewrite app_assoc.
  - intros ->. rewrite <- app_assoc in Hk. apply (f_equal length) in Hk as Hl.
    rewrite !length_app in Hl. destruct q as [|? ?]; [|cbn in Hl; lia]. by rewrite app_nil_r in Hne.
Qed.

Lemma parse_torn tail : torn tail -> parse tail = Ok None.
Proof. intros (v & ? & ? & ? & ?). by eapply parse_prefix. Qed.

Lemma erase_front_app (a b : bytes) : erase_front (a ++ b) (size_of a) = b.
Proof.
  unfold erase_front. rewrite Z.min_l; [apply drop_size_of|].
  rewrite size_of_app. pose proof (size_of_nonneg b). lia.
Qed.

Lemma size_of_le_app (a b : bytes) n : size_of (a ++ b) <= n -> size_of a <= n /\ size_of b <= n.
Proof. rewrite size_of_app. pose proof (size_of_nonneg a). pose proof (size_of_nonneg b). lia. Qed.

(** A stream read so far is a list of whole frames and an unfinished one. *)
Lemma stream_split vs tail p q :
  all_wf vs -> torn tail -> size_of (flat_map serialize vs ++ tail) <= INT64_MAX ->
  p ++ q = flat_map serialize vs ++ tail ->
  exists vs1 vs2 t, vs = vs1 ++ vs2 /\ p = flat_map serialize vs1 ++ t /\ torn t /\
    t ++ q = flat_map serialize vs2 ++ tail.
Proof.
  intros Hvs Ht. revert p. induction Hvs as [|v vs Hv Hvs IH]; intros p Hsz E.
  { cbn in E. exists [], [], p. split_and!; [done|done| |done]. subst tail. by eapply torn_prefix. }
  cbn in Hsz, E. rewrite <- app_assoc in Hsz, E. apply size_of_le_app in Hsz as [Hsv Hsz].
  apply app_eq_inv in E as [(k & Ep & Eq)|(k & Ev & Eq)].
  - destruct (IH k Hsz) as (vs1 & vs2 & t & -> & -> & Htt & E2); [done|].
    exists (v :: vs1), vs2, t. split_and!; [done| |done|done]. cbn. by rewrite Ep, app_assoc.
  - destruct k as [|x k].
    + rewrite app_nil_r in Ev. cbn in Eq. subst p. exists [v], vs, []. cbn.
      rewrite !app_nil_r. split_and!; [done|done|apply torn_nil|by rewrite Eq].
    + exists [], (v :: vs), p. split_and!; [done|done| |].
      * exists v. split_and!; [done|done|by exists (x :: k)|]. intros ->.
        apply (f_equal length) in Ev. rewrite length_app in Ev. cbn in Ev. lia.
      * cbn. by rewrite <- app_assoc, Eq, app_assoc, <- Ev.
Qed.

End stream.

(** ** The loops on a stream *)

Section loops.
Context `{PL : PlatformLaws} `{D : Disk} `{VA : VectorAlloc} `{N : Net}.
Implicit Types (c : Ctx) (clocks : nat -> Clock) (vs : list RESPValue) (st : Session).

(** Requests dispatched in order without logger, as replay and replicas do. *)
Fixpoint run_null clocks (ro : bool) vs (n : nat) c : res Ctx :=
  match vs with
  | [] => Ok c
  | v :: vs' => '(_, c) ← dispatch_null (clocks n) ro v c; run_null clocks ro vs' (S n) c
  end.

(** Requests of a client in order, each answered before the next, until the
    connection ends. *)
Fixpoint serve clocks (ro : bool) (conn : Connection) vs st
    : res (Session + (client_exit * Session)) :=
  match vs with
  | [] => Ok (inl st)
  | v :: vs' =>
      '(r, c) ← dispatch (clocks (done_ st)) ro false v (sctx st);
      '(ok, out) ← write_bytes conn (serialize (response r)) (sent st);
      let st := mkSession (S (done_ st)) out c in
      if negb ok then Ok (inr (write_failed, st))
      else if is_psync r then Ok (inr (stream_aof (psync_offset r), st))
      else if close_connection r then Ok (inr (closed, st))
      else serve clocks ro conn vs' st
  end.

Lemma bind_ext {A B} (x : res A) (f g : A -> res B) : (forall a, f a = g a) -> x ≫= f = x ≫= g.
Proof. intros Hfg. destruct x; cbn; auto. Qed.

Lemma bind_assoc {A B C} (x : res A) (f : A -> res B) (g : B -> res C) :
  (x ≫= f) ≫= g = x ≫= fun a => f a ≫= g.
Proof. by destruct x. Qed.

Lemma run_null_app clocks ro vs1 vs2 n c :
  run_null clocks ro (vs1 ++ vs2) n c =
    c ← run_null clocks ro vs1 n c; run_null clocks ro vs2 (n + length vs1) c.
Proof.
  revert n c. induction vs1 as [|v vs1 IH]; intros n c; cbn.
  { by rewrite Nat.add_0_r. }
  rewrite bind_assoc. apply bind_ext. intros [r c1]. rewrite IH. apply bind_ext. intros c2.
  f_equal. lia.
Qed.

Lemma serve_app clocks ro conn vs1 vs2 st :
  serve clocks ro conn (vs1 ++ vs2) st =
    r ← serve clocks ro conn vs1 st;
    match r with inl st => serve clocks ro conn vs2 st | inr x => Ok (inr x) end.
Proof.
  revert st. induction vs1 as [|v vs1 IH]; intros st; cbn; [done|].
  rewrite bind_assoc. apply bind_ext. intros [r c1]. rewrite bind_assoc. apply bind_ext.
  intros [ok out]. repeat case_if; [done..|]. apply IH.
Qed.

(** The head of a stream is parsed whole and erased. *)
Lemma parse_stream v vs tail : wf v = true ->
  size_of (flat_map serialize (v :: vs) ++ tail) <= INT64_MAX ->
  parse (flat_map serialize (v :: vs) ++ tail) = Ok (Some (v, size_of (serialize v))) /\
  erase_front (flat_map serialize (v :: vs) ++ tail) (size_of (serialize v)) =
    flat_map serialize vs ++ tail /\
  (length (flat_map serialize vs ++ tail) < length (flat_map serialize (v :: vs) ++ tail))%nat /\
  size_of (flat_map serialize vs ++ tail) <= INT64_MAX.
Proof.
  cbn. rewrite <- app_assoc. intros Hv Hsz. split_and!.
  - by apply parse_serialize.
  - apply erase_front_app.
  - rewrite (length_app (serialize v)). pose proof (serialize_min v). lia.
  - by apply size_of_le_app in Hsz as [_ ?].
Qed.

Lemma apply_loop_stream fuel clocks ro vs tail n c :
  all_wf vs -> torn tail -> size_of (flat_map serialize vs ++ tail) <= INT64_MAX ->
  (length (flat_map serialize vs ++ tail) < fuel)%nat ->
  apply_loop fuel clocks ro (flat_map serialize vs ++ tail) n c =
    c ← run_null clocks ro vs n c; Ok (tail, (n + length vs)%nat, c).
Proof.
  intros Hvs Ht. revert fuel n c. induction Hvs as [|v vs Hv Hvs IH]; intros fuel n c Hsz Hf.
  - destruct fuel as [|fuel]; [lia|]. cbn [apply_loop flat_map app]. rewrite parse_torn by done.
    cbn [mbind res_bind run_null length]. by rewrite Nat.add_0_r.
  - destruct fuel as [|fuel]; [lia|].
    destruct (parse_stream v vs tail Hv Hsz) as (Ep & Ee & Hl & Hs). cbn [apply_loop]. rewrite Ep. cbn [mbind res_bind].
    cbn [run_null]. rewrite bind_assoc. apply bind_ext. intros [r c1]. rewrite Ee.
    rewrite IH by (done || lia). apply bind_ext. intros c2. cbn [length].
    by rewrite Nat.add_succ_comm.
Qed.

(** The emptiness test of the replay loop makes no difference. *)
Lemma replay_apply fuel clocks ro content n c :
  replay_loop fuel clocks ro content n c =
    '(rest, n, c) ← apply_loop fuel clocks ro content n c; Ok (n, rest, c).
Proof.
  revert content n c. induction fuel as [|fuel IH]; intros content n c; [done|].
  destruct content as [|x content]; cbn [replay_loop apply_loop].
  - by rewrite parse_nil.
  - rewrite bind_assoc. apply bind_ext. intros [[req k]|]; [|done].
    rewrite bind_assoc. apply bind_ext. intros [r c1]. apply IH.
Qed.

Lemma client_loop_stream fuel clocks ro conn vs tail st :
  all_wf vs -> torn tail -> size_of (flat_map serialize vs ++ tail) <= INT64_MAX ->
  (length (flat_map serialize vs ++ tail) < fuel)%nat ->
  client_loop fuel clocks ro conn (flat_map serialize vs ++ tail) st =
    r ← serve clocks ro conn vs st;
    match r with inl st => Ok (inl (tail, st)) | inr x => Ok (inr x) end.
Proof.
  intros Hvs Ht. revert fuel st. induction Hvs as [|v vs Hv Hvs IH]; intros fuel st Hsz Hf.
  - destruct fuel as [|fuel]; [lia|]. cbn [client_loop flat_map app]. by rewrite parse_torn by done.
  - destruct fuel as [|fuel]; [lia|].
    destruct (parse_stream v vs tail Hv Hsz) as (Ep & Ee & Hl & Hs). cbn [client_loop]. rewrite Ep.
    cbn [mbind res_bind serve]. rewrite bind_assoc. apply bind_ext. intros [r c1]. rewrite bind_assoc.
    apply bind_ext. intros [ok out]. repeat case_if; [done..|]. rewrite Ee. apply IH; [done|lia].
Qed.

(** An unfinished frame holds no whole one. *)
Lemma torn_stream vs tail : all_wf vs ->
  size_of (flat_map serialize vs ++ tail) <= INT64_MAX ->
  torn (flat_map serialize vs ++ tail) -> vs = [].
Proof.
  intros Hvs Hsz Ht. destruct Hvs as [|v vs Hv _]; [done|].
  destruct (parse_stream v vs tail Hv Hsz) as (Ep & _). by rewrite parse_torn in Ep.
Qed.

Lemma handle_client_stream clocks ro conn reads buffer vs tail st :
  all_wf vs -> torn tail -> torn buffer ->
  size_of (flat_map serialize vs ++ tail) <= INT64_MAX ->
  buffer ++ concat reads = flat_map serialize vs ++ tail ->
  handle_client clocks ro conn reads buffer st =
    r ← serve clocks ro conn vs st;
    match r with inl st => Ok (inl (tail, st)) | inr x => Ok (inr x) end.
Proof.
  intros Hvs Ht. revert buffer vs Hvs st. induction reads as [|chunk reads IH]; intros buffer vs Hvs st Hb Hsz E.
  - cbn in *. rewrite app_nil_r in E. subst buffer. by rewrite (torn_stream vs tail).
  - cbn [handle_client concat] in *. rewrite app_assoc in E.
    destruct (stream_split vs tail _ _ Hvs Ht Hsz E) as (vs1 & vs2 & t & -> & Ep & Htt & Eq).
    apply Forall_app in Hvs as [Hv1 Hv2]. rewrite Ep, serve_app, bind_assoc.
    assert (size_of (flat_map serialize vs1 ++ t) <= INT64_MAX) as Hs1.
    { rewrite <- E, Ep in Hsz. by apply size_of_le_app in Hsz as [? _]. }
    rewrite client_loop_stream by (done || unfold loop_fuel; lia). rewrite bind_assoc.
    apply bind_ext. intros [st1|x]; [|done]. cbn. apply IH; [done|done| |done].
    rewrite flat_map_app, <- app_assoc in Hsz. by apply size_of_le_app in Hsz as [_ ?].
Qed.

(** ** A replica's session *)

Lemma dispatch_null_log clk ro v d c :
  dispatch_null clk ro v (log_raw_ctx d c) =
    '(r, c) ← dispatch_null clk ro v c; Ok (r, log_raw_ctx d c).
Proof.
  unfold dispatch_null. cbn [storage metrics log_raw_ctx]. rewrite bind_assoc.
  apply bind_ext. by intros [r c'].
Qed.

Lemma run_null_log clocks ro vs n d c :
  run_null clocks ro vs n (log_raw_ctx d c) =
    c ← run_null clocks ro vs n c; Ok (log_raw_ctx d c).
Proof.
  revert n c. induction vs as [|v vs IH]; intros n c; cbn [run_null]; [done|].
  rewrite dispatch_null_log, !bind_assoc. apply bind_ext. intros [r c']. apply IH.
Qed.

Lemma dispatch_null_aof clk ro v c r c' :
  dispatch_null clk ro v c = Ok (r, c') -> aof c' = aof c.
Proof. unfold dispatch_null. intros ([r' c1] & _ & E)%bind_Ok. by res_inv. Qed.

Lemma run_null_aof clocks ro vs n c c' : run_null clocks ro vs n c = Ok c' -> aof c' = aof c.
Proof.
  revert n c. induction vs as [|v vs IH]; intros n c; cbn [run_null]; intros E; [by res_inv|].
  apply bind_Ok in E as ([r c1] & E1 & E2). apply dispatch_null_aof in E1 as <-. eauto.
Qed.

(** The chunks written to the local file, one [log_raw] each. *)
Definition log_chunks (ks : list bytes) (c : Ctx) : Ctx := foldl (fun c d => log_raw_ctx d c) c ks.

Lemma log_raw_ctx_app a b c l : reliable D -> aof c = Some l -> ready l ->
  log_raw_ctx b (log_raw_ctx a c) = log_raw_ctx (a ++ b) c.
Proof.
  intros HR Hc Hl. unfold log_raw_ctx. cbn [storage aof metrics]. rewrite Hc. cbn [fmap option_fmap option_map].
  destruct (log_app a l HR Hl) as [E1 ->], (log_app (a ++ b) l HR Hl) as [E2 ->]. rewrite E1, E2.
  destruct (log_app b (mkAOF (filepath l) true true (file l ++ a)) HR) as [E3 ->]; [done|].
  rewrite E3. cbn. by rewrite app_assoc.
Qed.

Lemma log_raw_ctx_nil c l : reliable D -> aof c = Some l -> ready l -> log_raw_ctx [] c = c.
Proof.
  intros HR Hc Hl. unfold log_raw_ctx. rewrite Hc. cbn [fmap option_fmap option_map].
  destruct (log_app [] l HR Hl) as [E ->]. rewrite E, app_nil_r. destruct Hl, c as [? ? ?], l.
  cbn in *. by subst.
Qed.

Lemma log_chunks_concat ks c l : reliable D -> aof c = Some l -> ready l ->
  log_chunks ks c = log_raw_ctx (concat ks) c.
Proof.
  intros HR. revert c l. induction ks as [|k ks IH]; intros c l Hc Hl.
  { symmetry. by eapply log_raw_ctx_nil. }
  cbn [log_chunks foldl concat]. change (log_chunks ks (log_raw_ctx k c) = log_raw_ctx (k ++ concat ks) c).
  destruct (log_app k l HR Hl) as [E1 E2].
  erewrite IH; [by eapply log_raw_ctx_app| |].
  - unfold log_raw_ctx. cbn. rewrite Hc. cbn. by rewrite E2, E1.
  - done.
Qed.

Lemma worker_stream clocks ro reads w vs tail :
  all_wf vs -> torn tail -> torn (client_buffer w) -> in_stream w = true ->
  size_of (flat_map serialize vs ++ tail) <= INT64_MAX ->
  client_buffer w ++ concat reads = flat_map serialize vs ++ tail ->
  worker_session clocks ro reads w =
    c ← run_null clocks ro vs (applied w) (wctx w);
    Ok (mkWorker tail true (applied w + length vs) (log_chunks reads c)).
Proof.
  intros Hvs Ht. revert w vs Hvs. induction reads as [|k reads IH]; intros w vs Hvs Hb Hi Hsz E.
  - cbn [concat] in E. rewrite app_nil_r in E. rewrite E in Hb.
    apply (torn_stream _ _ Hvs Hsz) in Hb as ->. cbn in *. rewrite Nat.add_0_r.
    by destruct w; cbn in *; subst.
  - cbn [worker_session concat] in *. rewrite app_assoc in E. unfold worker_chunk. rewrite Hi. cbn [negb].
    destruct (stream_split vs tail _ _ Hvs Ht Hsz E) as (vs1 & vs2 & t & -> & Ep & Htt & Eq).
    apply Forall_app in Hvs as [Hv1 Hv2]. rewrite Ep, run_null_app, !bind_assoc.
    assert (size_of (flat_map serialize vs1 ++ t) <= INT64_MAX) as Hs1.
    { rewrite <- E, Ep in Hsz. by apply size_of_le_app in Hsz as [? _]. }
    unfold apply_data. rewrite apply_loop_stream by (done || unfold loop_fuel; lia).
    rewrite run_null_log, !bind_assoc. apply bind_ext. intros c1. cbn [mbind res_bind].
    rewrite IH with (vs := vs2); cbn [client_buffer in_stream applied wctx]; [|done..| |done].
    + rewrite run_null_log, bind_assoc. apply bind_ext. intros c2. cbn [mbind res_bind].
      by rewrite length_app, Nat.add_assoc.
    + rewrite flat_map_app, <- app_assoc in Hsz. by apply size_of_le_app in Hsz as [_ ?].
Qed.

Definition continue_line : bytes := lit "+CONTINUE".

Lemma substr_rest (pre t : bytes) : size_of (pre ++ t) <= npos ->
  substr (pre ++ t) (size_of pre) npos = Ok t.
Proof.
  intros Hsz. unfold substr. rewrite size_of_app in *. pose proof (size_of_nonneg t).
  destruct (Z.ltb_spec (size_of pre + size_of t) (size_of pre)); [lia|].
  rewrite drop_size_of, take_ge; [done|]. pose proof (size_of_nonneg pre).
  rewrite Z.min_r by lia. unfold size_of. lia.
Qed.

(** The answer line, with [r] already received behind it. *)
Lemma worker_chunk_continue clocks ro buffer k r n c :
  buffer ++ k = (continue_line ++ crlf) ++ r -> size_of ((continue_line ++ crlf) ++ r) <= npos ->
  worker_chunk clocks ro k (mkWorker buffer false n c) =
    if bool_decide (r = []) then Ok (Some (mkWorker [] true n c))
    else w ← apply_data clocks ro r r (mkWorker [] true n c); Ok (Some w).
Proof.
  intros E Hsz. unfold worker_chunk. cbn [in_stream negb client_buffer]. rewrite E.
  assert (std_find crlf ((continue_line ++ crlf) ++ r) 0 = Some 9) as ->.
  { unfold std_find. destruct (Z.ltb_spec (size_of ((continue_line ++ crlf) ++ r)) 0) as [H0|_].
    { pose proof (size_of_nonneg ((continue_line ++ crlf) ++ r)). lia. }
    change (drop (Z.to_nat 0) ((continue_line ++ crlf) ++ r)) with ((continue_line ++ crlf) ++ r).
    rewrite <- app_assoc, find_crlf_line by done. done. }
  assert (substr ((continue_line ++ crlf) ++ r) 0 9 = Ok continue_line) as ->.
  { rewrite <- app_assoc. apply (substr_at [] continue_line (crlf ++ r)). }
  cbn [mbind res_bind]. rewrite bool_decide_eq_true_2 by done.
  change (9 + 2) with (size_of (continue_line ++ crlf)). by rewrite substr_rest.
Qed.

Lemma worker_chunk_partial clocks ro buffer k n c :
  buffer ++ k `prefix_of` continue_line ++ crlf -> buffer ++ k <> continue_line ++ crlf ->
  worker_chunk clocks ro k (mkWorker buffer false n c) = Ok (Some (mkWorker (buffer ++ k) false n c)).
Proof.
  intros Hp Hne. unfold worker_chunk. cbn [in_stream negb client_buffer].
  assert (std_find crlf (buffer ++ k) 0 = None) as ->; [|done].
  unfold std_find. case_if; [done|]. change (drop (Z.to_nat 0) (buffer ++ k)) with (buffer ++ k).
  by rewrite (find_crlf_line_prefix continue_line (buffer ++ k)).
Qed.

(** The answer of the primary arrives in any number of pieces. *)
Lemma worker_handshake clocks ro reads buffer n c data :
  buffer `prefix_of` continue_line ++ crlf -> buffer <> continue_line ++ crlf ->
  size_of ((continue_line ++ crlf) ++ data) <= npos ->
  buffer ++ concat reads = (continue_line ++ crlf) ++ data ->
  exists ks, concat ks = data /\
    worker_session clocks ro reads (mkWorker buffer false n c) =
    worker_session clocks ro ks (mkWorker [] true n c).
Proof.
  intros Hp Hne Hsz. revert buffer Hp Hne. induction reads as [|k reads IH]; intros buffer Hp Hne E.
  { exfalso. cbn [concat] in E. rewrite app_nil_r in E. subst buffer. destruct Hp as [z Hz].
    apply (f_equal length) in Hz. rewrite !length_app in Hz. apply Hne.
    destruct data; [by rewrite app_nil_r|cbn in Hz; lia]. }
  cbn [concat] in E. rewrite app_assoc in E. cbn [worker_session].
  assert (forall r, buffer ++ k = (continue_line ++ crlf) ++ r -> data = r ++ concat reads ->
    exists ks, concat ks = data /\
      (w ← worker_chunk clocks ro k (mkWorker buffer false n c);
       match w with Some w => worker_session clocks ro reads w | None => Ok (mkWorker buffer false n c) end) =
      worker_session clocks ro ks (mkWorker [] true n c)) as Hdone.
  { intros r E1 ->. rewrite app_assoc in Hsz. apply size_of_le_app in Hsz as [Hsz _].
    rewrite (worker_chunk_continue _ _ _ _ r) by done. case_bool_decide; [subst r; by exists reads|].
    exists (r :: reads). split; [done|]. cbn [worker_session]. unfold worker_chunk.
    cbn [in_stream negb client_buffer app]. rewrite !bind_assoc. by apply bind_ext. }
  apply app_eq_inv in E as [(r & E1 & E2)|(r & E1 & E2)]; [by apply (Hdone r)|].
  destruct r as [|x r]; [rewrite app_nil_r in E1; apply (Hdone []); [by rewrite app_nil_r|done]|].
  rewrite worker_chunk_partial; [|by exists (x :: r)|].
  - cbn [mbind res_bind]. apply IH; [by exists (x :: r)| |by rewrite E1, E2, !app_assoc].
    intros Eq. rewrite Eq in E1. apply (f_equal length) in E1. rewrite length_app in E1. cbn in E1. lia.
  - intros Eq. rewrite Eq in E1. apply (f_equal length) in E1. rewrite length_app in E1. cbn in E1. lia.
Qed.

(** A whole session: the local file gets the streamed bytes, the engine the
    requests in them. *)
Lemma worker_session_stream clocks ro reads n c l vs tail :
  reliable D -> aof c = Some l -> ready l -> all_wf vs -> torn tail ->
  size_of ((continue_line ++ crlf) ++ flat_map serialize vs ++ tail) <= INT64_MAX ->
  concat reads = (continue_line ++ crlf) ++ flat_map serialize vs ++ tail ->
  worker_session clocks ro reads (mkWorker [] false n c) =
    c ← run_null clocks ro vs n c;
    Ok (mkWorker tail true (n + length vs) (log_raw_ctx (flat_map serialize vs ++ tail) c)).
Proof.
  intros HD Hc Hl Hvs Ht Hsz E.
  destruct (worker_handshake clocks ro reads [] n c (flat_map serialize vs ++ tail))
    as (ks & Hks & ->); [apply prefix_nil|done| |done|].
  { etrans; [exact Hsz|]. by vm_compute. }
  apply size_of_le_app in Hsz as [_ Hsz].
  rewrite (worker_stream clocks ro ks _ vs tail) by (done || apply torn_nil).
  cbn [applied wctx]. destruct (run_null clocks ro vs n c) as [c1| | |] eqn:Er; [|done..]. cbn [mbind res_bind].
  apply run_null_aof in Er. rewrite <- Hks.
  by rewrite (log_chunks_concat ks c1 l) by (done || by rewrite Er).
Qed.

(** ** Streaming *)

(** A connection that never fails. *)
Definition net_open (N : Net) : Prop :=
  net_sound N /\ forall out data, data <> [] -> 0 < @net_accept N out data.

Lemma write_loop_open fuel data total out :
  net_open N -> 0 <= total <= size_of data -> size_of data - total < Z.of_nat fuel ->
  write_loop fuel data total out = Ok (true, out ++ drop (Z.to_nat total) data).
Proof.
  intros [HS HO]. revert total out. induction fuel as [|f IH]; intros total out Ht Hf; [lia|].
  cbn [write_loop]. destruct (Z.ltb_spec total (size_of data)) as [Hlt|Hge].
  2: { rewrite drop_ge by (unfold size_of in *; lia). by rewrite app_nil_r. }
  set (rest := drop (Z.to_nat total) data).
  assert (size_of rest = size_of data - total) as Hr.
  { unfold rest, size_of in *. rewrite length_drop. lia. }
  assert (rest <> []) as Hne by (intros E; rewrite E in Hr; unfold size_of at 1 in Hr; cbn in Hr; lia).
  specialize (HO out rest Hne). pose proof (HS out rest) as Hn. set (n := net_accept out rest) in *.
  destruct (Z.leb_spec n 0); [lia|]. rewrite IH by lia.
  rewrite <- app_assoc, Z2Nat.inj_add, <- drop_drop by lia. fold rest. by rewrite take_drop.
Qed.

Lemma write_bytes_open conn data out : net_open N -> 0 <= fd_ conn ->
  write_bytes conn data out = Ok (true, out ++ data).
Proof.
  intros HN Hfd. unfold write_bytes. destruct (Z.ltb_spec (fd_ conn) 0); [lia|].
  rewrite write_loop_open; [done|done| |]; unfold size_of; lia.
Qed.

(** What a round reads is a piece of the file from the position on. *)
Lemma stream_read_spec file F s data s' :
  file `prefix_of` F -> 0 <= spos s -> stream_read file s = (data, s') ->
  spos s' = spos s + size_of data /\
  exists z, drop (Z.to_nat (spos s)) F = data ++ z /\ drop (Z.to_nat (spos s')) F = z.
Proof.
  intros [z ->] Hp. unfold stream_read. destruct (failed s).
  { intros [= <- <-]. cbn [spos]. rewrite size_of_nil. split; [lia|eauto]. }
  set (d := take 4096 _). intros [= <- <-]. cbn. split; [done|].
  assert (exists y, drop (Z.to_nat (spos s)) (file ++ z) = d ++ y) as [y Hy].
  { eexists (drop 4096 (drop (Z.to_nat (spos s)) file) ++ _). subst d.
    by rewrite drop_app, app_assoc, take_drop. }
  exists y. split; [done|]. rewrite Z2Nat.inj_add by (done || apply size_of_nonneg).
  rewrite <- drop_drop, Hy. unfold size_of. rewrite Nat2Z.id. by rewrite drop_app_length.
Qed.

(** Safety: only bytes of the file, in order, from the requested offset. *)
Lemma psync_stream_prefix conn files F s out ok s' out' :
  net_sound N -> Forall (fun f => f `prefix_of` F) files -> 0 <= spos s ->
  psync_stream conn files s out = Ok (ok, s', out') ->
  exists d, out' = out ++ d /\ d `prefix_of` drop (Z.to_nat (spos s)) F.
Proof.
  intros HN Hfs. revert s out. induction Hfs as [|file files Hf Hfs IH]; intros s out Hp E; cbn in E.
  { res_inv. exists []. rewrite app_nil_r. split; [done|apply prefix_nil]. }
  destruct (stream_read file s) as [data s1] eqn:Er.
  destruct (stream_read_spec _ _ _ _ _ Hf Hp Er) as (Hs1 & z & Hz & Hz1).
  pose proof (size_of_nonneg data).
  destruct data as [|x data]; [rewrite Hz; cbn; rewrite <- Hz1; eapply IH; [rewrite Hs1, size_of_nil; lia|done]|].
  apply bind_Ok in E as ([ok1 out1] & Ew & E).
  destruct (write_bytes_spec conn (x :: data) out HN) as (ok2 & d1 & Ew2 & Hd1 & Hok & _).
  rewrite Ew in Ew2. injection Ew2 as -> ->. destruct ok2; cbn in E.
  - destruct (IH s1 _ ltac:(lia) E) as (d & -> & Hd). exists (d1 ++ d). rewrite app_assoc.
    split; [done|]. rewrite Hok, Hz by done. apply prefix_app. by rewrite <- Hz1.
  - res_inv. exists d1. split; [done|]. rewrite Hz. by apply prefix_app_r.
Qed.

(** Liveness: rounds needed to send [n] bytes. Each read of at least one byte
    may be followed by one round that only clears the error flag. *)
Lemma psync_stream_all conn rounds F s out :
  net_open N -> 0 <= fd_ conn -> 0 <= spos s ->
  (2 * (length F - Z.to_nat (spos s)) + (if failed s then 1 else 0) <= rounds)%nat ->
  exists s', psync_stream conn (replicate rounds F) s out =
    Ok (true, s', out ++ drop (Z.to_nat (spos s)) F).
Proof.
  intros HN Hfd. revert s out. induction rounds as [|k IH]; intros s out Hp Hr.
  { cbn. exists s. rewrite drop_ge by (destruct (failed s); lia). by rewrite app_nil_r. }
  cbn [replicate psync_stream]. destruct (stream_read F s) as [data s1] eqn:Er.
  destruct (stream_read_spec F F s data s1) as (Hs1 & z & Hz & Hz1); [done|done|done|].
  assert (length data = 0%nat \/ (length data <= length F - Z.to_nat (spos s))%nat) as Hlen.
  { right. apply (f_equal length) in Hz. rewrite length_drop, length_app in Hz. lia. }
  unfold stream_read in Er. destruct data as [|x data].
  - rewrite size_of_nil in Hs1.
    destruct (IH s1 out) as (s' & ->); [lia| |exists s'; by rewrite Hz, Hz1].
    destruct (failed s); [injection Er as <-|injection Er as Enil <-]; cbn [failed spos] in *; [lia|].
    rewrite bool_decide_eq_true_2 by done. cbn [negb andb].
    apply (f_equal length) in Enil. rewrite length_take, length_drop in Enil. cbn [length] in Enil. lia.
  - rewrite write_bytes_open by done. cbn [mbind res_bind negb]. pose proof (size_of_nonneg (x :: data)).
    destruct (IH s1 (out ++ x :: data)) as (s' & ->); [lia| |exists s'; by rewrite <- app_assoc, Hz, Hz1].
    unfold size_of in *. cbn [length] in *. destruct (failed s); [congruence|].
    destruct (failed s1); lia.
Qed.

Lemma ready_file_size l : ready l -> get_file_size l = size_of (file l).
Proof. intros [Ho Hg]. unfold get_file_size. by rewrite Ho, Hg. Qed.

(** The primary's stream into the worker of a replica. *)
Lemma replica_stream clocks conn rounds l vs tail F n c :
  reliable D -> aof c = Some l -> ready l -> net_open N -> 0 <= fd_ conn ->
  all_wf vs -> torn tail -> F = file l ++ flat_map serialize vs ++ tail ->
  size_of F + 11 <= INT64_MAX -> (2 * length F <= rounds)%nat ->
  exists s' out,
    psync_stream conn (replicate rounds F) (open_stream (get_file_size l))
      (serialize (create_simple_string (lit "CONTINUE"))) = Ok (true, s', out) /\
    forall reads, concat reads = out ->
      worker_session clocks true reads (mkWorker [] false n c) =
        c' ← run_null clocks true vs n c;
        Ok (mkWorker tail true (n + length vs)%nat
              (mkCtx (storage c') (Some (mkAOF (filepath l) true true F)) (metrics c'))).
Proof.
  intros HD Hc Hl HN Hfd Hvs Ht HF Hsz Hr.
  pose proof (ready_file_size l Hl) as Hoff.
  assert (0 <= size_of (file l) <= INT64_MAX) as Hol.
  { rewrite HF, size_of_app in Hsz. pose proof (size_of_nonneg (file l)).
    pose proof (size_of_nonneg (flat_map serialize vs ++ tail)). lia. }
  rewrite Hoff. unfold open_stream. rewrite (proj2 (Z.leb_le _ _)) by lia.
  destruct (psync_stream_all conn rounds F (mkStream false (size_of (file l)))
    (serialize (create_simple_string (lit "CONTINUE"))) HN Hfd) as (s' & E); [cbn; lia|cbn; lia|].
  eexists s', _. split; [exact E|]. cbn [spos]. intros reads Hreads.
  rewrite HF, drop_size_of in Hreads.
  erewrite worker_session_stream; [|done|done|done|done|done| |].
  - destruct (run_null clocks true vs n c) as [c'| | |] eqn:Er; [|done..]. cbn [mbind res_bind].
    apply run_null_aof in Er. unfold log_raw_ctx. rewrite Er, Hc. cbn [fmap option_fmap option_map].
    destruct (log_app (flat_map serialize vs ++ tail) l HD Hl) as [E1 ->]. by rewrite E1, HF.
  - etrans; [|exact Hsz]. rewrite HF, !(size_of_app (continue_line ++ crlf)), (size_of_app (file l)).
    change (size_of (continue_line ++ crlf)) with 11. lia.
  - by rewrite Hreads.
Qed.

(** ** Reconnections *)

(** What the rounds of a worker bring when every connection breaks between
    commands: the commands of each connection. *)
Inductive whole : list attempt -> list (list RESPValue) -> Prop :=
  | whole_nil : whole [] []
  | whole_none atts vss : whole atts vss -> whole (no_connection :: atts) vss
  | whole_lost atts vss : whole atts vss -> whole (handshake_lost :: atts) vss
  | whole_received reads vs atts vss :
      all_wf vs -> concat reads = (continue_line ++ crlf) ++ flat_map serialize vs ->
      whole atts vss -> whole (received reads :: atts) (vs :: vss).

(** The handshakes of connections that bring [vss] to a file of size [pos]. *)
Fixpoint handshakes (pos : Z) (vss : list (list RESPValue)) : list bytes :=
  match vss with
  | [] => []
  | vs :: vss' => psync_cmd pos :: handshakes (pos + size_of (flat_map serialize vs)) vss'
  end.

Lemma worker_resumes clocks ro atts vss n c l :
  reliable D -> aof c = Some l -> ready l -> whole atts vss ->
  size_of (flat_map serialize (concat vss)) + 11 <= INT64_MAX ->
  run_replica_worker clocks ro atts n c =
    c' ← run_null clocks ro (concat vss) n c;
    Ok (handshakes (size_of (file l)) vss, (n + length (concat vss))%nat,
        mkCtx (storage c')
          (Some (mkAOF (filepath l) true true (file l ++ flat_map serialize (concat vss)))) (metrics c')).
Proof.
  intros HD Hc Hl Hw. revert n c l Hc Hl.
  induction Hw as [|atts vss Hw IH|atts vss Hw IH|reads vs atts vss Hvs Er Hw IH]; intros n c l Hc Hl Hsz;
    [|exact (IH _ _ _ Hc Hl Hsz)|exact (IH _ _ _ Hc Hl Hsz)|].
  { cbn. rewrite app_nil_r, Nat.add_0_r. destruct Hl, c as [? a ?], l. cbn in *. by simplify_eq. }
  cbn [run_replica_worker concat handshakes] in *. rewrite flat_map_app, size_of_app in Hsz.
  pose proof (size_of_nonneg (flat_map serialize vs)). pose proof (size_of_nonneg (flat_map serialize (concat vss))).
  rewrite (worker_session_stream clocks ro reads n c l vs []); [|done|done|done|done|apply torn_nil| |by rewrite app_nil_r].
  2: { rewrite app_nil_r, size_of_app. change (size_of (continue_line ++ crlf)) with 11. lia. }
  rewrite run_null_app, Hc. cbn [from_option]. rewrite ready_file_size, !bind_assoc by done.
  destruct (run_null clocks ro vs n c) as [c1| | |] eqn:E1; [|done..]. cbn [mbind res_bind applied wctx].
  apply run_null_aof in E1 as Ha1. rewrite app_nil_r.
  destruct (log_app (flat_map serialize vs) l HD Hl) as [El1 El2].
  rewrite (IH _ _ (mkAOF (filepath l) true true (file l ++ flat_map serialize vs)));
    [|unfold log_raw_ctx; cbn; by rewrite Ha1, Hc; cbn; rewrite El2, El1|done|lia].
  rewrite run_null_log, !bind_assoc. apply bind_ext. intros c2. cbn.
  by rewrite size_of_app, length_app, flat_map_app, app_assoc, Nat.add_assoc.
Qed.

(** ** A connection that breaks inside a command *)

(** A frame that is no command only counts. *)
Lemma run_null_unnamed clocks ro els n c : Forall (fun v => cmd_name v = None) els ->
  run_null clocks ro els n c = Ok (Nat.iter (length els) counted c).
Proof.
  intros He. revert n c. induction He as [|v els Hv _ IH]; intros n c; [done|]. cbn [run_null length].
  unfold dispatch_null. destruct (dispatch_unnamed (clocks n) ro true v (mkCtx (storage c) None (metrics c)) Hv)
    as [msg ->]. cbn [mbind res_bind]. rewrite IH. by rewrite (Nat.iter_succ_r (length els) counted c).
Qed.

(** The characters that start a frame. *)
Definition type_char (x : ascii) : bool :=
  bool_decide (x = "+"%char) || bool_decide (x = "-"%char) || bool_decide (x = ":"%char) ||
  bool_decide (x = "$"%char) || bool_decide (x = "*"%char).

Lemma parse_bad_start x s : type_char x = false -> size_of (x :: s) < INT64_MAX -> parse (x :: s) = Ok None.
Proof.
  unfold type_char. intros Hx Hs. zb. unfold parse, parse_fuel. rewrite Nat.add_comm.
  destruct (parse_internal_cases (S (length (x :: s))) (x :: s) 0) as [E|(pre & y & ct & rest & Eq & Hp & _ & E)];
    [split; [done|apply size_of_nonneg]|done|..]; cbn [Nat.add] in *; rewrite E; [done|].
  destruct pre; [|unfold size_of in Hp; cbn in Hp; lia]. cbn in Eq. injection Eq as <- _. cbn [mbind res_bind].
  unfold parse_switch. by repeat (case_bool_decide; [done|]).
Qed.

(** Once the buffer starts with something else, nothing is ever applied. *)
Lemma worker_stuck clocks ro ks b x s n c :
  type_char x = false -> b ++ concat ks = x :: s -> size_of (x :: s) < INT64_MAX ->
  exists b', worker_session clocks ro ks (mkWorker b true n c) = Ok (mkWorker b' true n (log_chunks ks c)).
Proof.
  intros Hx. revert b s c. induction ks as [|k ks IH]; intros b s c E Hs; cbn [worker_session]; [eauto|].
  unfold worker_chunk. cbn [in_stream negb client_buffer app]. unfold apply_data.
  assert (parse (b ++ k) = Ok None) as Hp.
  { cbn [concat] in E. rewrite app_assoc in E. destruct (b ++ k) as [|y r]; [apply parse_nil|].
    injection E as -> <-. apply parse_bad_start; [done|]. rewrite app_comm_cons, size_of_app in Hs.
    pose proof (size_of_nonneg (concat ks)). lia. }
  unfold loop_fuel. cbn [apply_loop]. rewrite Hp. cbn [mbind res_bind applied wctx].
  apply (IH (b ++ k) s); [|done]. cbn [concat] in E. by rewrite <- app_assoc.
Qed.

(** Rounds of the worker that bring nothing. *)
Definition nothing (a : attempt) : Prop := match a with received _ => False | _ => True end.

Lemma run_worker_nothing clocks ro mids atts n c : Forall nothing mids ->
  run_replica_worker clocks ro (mids ++ atts) n c = run_replica_worker clocks ro atts n c.
Proof. intros Hm. by induction Hm as [|[] mids ? _ IH]. Qed.

(** The first of two connections, broken inside a command. *)
Lemma run_worker_torn clocks ro reads mids atts n c l vs p :
  reliable D -> aof c = Some l -> ready l -> all_wf vs -> torn p -> Forall nothing mids ->
  concat reads = (continue_line ++ crlf) ++ flat_map serialize vs ++ p ->
  size_of (flat_map serialize vs ++ p) + 11 <= INT64_MAX ->
  run_replica_worker clocks ro (received reads :: mids ++ atts) n c =
    c1 ← run_null clocks ro vs n c;
    '(hs, n', c2) ← run_replica_worker clocks ro atts (n + length vs) (log_raw_ctx (flat_map serialize vs ++ p) c1);
    Ok (psync_cmd (size_of (file l)) :: hs, n', c2).
Proof.
  intros HD Ha Hl Hvs Hp Hm E Hsz. cbn [run_replica_worker]. rewrite Ha. cbn [from_option].
  rewrite ready_file_size by done.
  rewrite (worker_session_stream clocks ro reads n c l vs p) by
    (done || (rewrite size_of_app; change (size_of (continue_line ++ crlf)) with 11; lia)).
  rewrite bind_assoc. apply bind_ext. intros c1. cbn [mbind res_bind applied wctx]. by rewrite run_worker_nothing.
Qed.

Lemma log_raw_ctx_eq d c l : reliable D -> aof c = Some l -> ready l ->
  log_raw_ctx d c = mkCtx (storage c) (Some (mkAOF (filepath l) true true (file l ++ d))) (metrics c).
Proof.
  intros HD Ha Hl. unfold log_raw_ctx. rewrite Ha. cbn [fmap option_fmap option_map].
  by destruct (log_app d l HD Hl) as [<- ->].
Qed.

Lemma broken_sizes vs v p r (more : bytes) :
  wf v = true -> serialize v = p ++ r -> r <> [] ->
  size_of (flat_map serialize vs ++ serialize v ++ more) + 11 <= INT64_MAX ->
  torn p /\ size_of (flat_map serialize vs ++ p) + 11 <= INT64_MAX /\
  size_of ((continue_line ++ crlf) ++ r ++ more) <= INT64_MAX.
Proof.
  intros Hv Ev Hr Hsz. rewrite !size_of_app in *. rewrite Ev, size_of_app in Hsz.
  change (size_of (continue_line)) with 9. change (size_of crlf) with 2.
  pose proof (size_of_nonneg (flat_map serialize vs)). pose proof (size_of_nonneg more).
  pose proof (size_of_nonneg p). pose proof (size_of_nonneg r). split_and!; [|lia..].
  exists v. rewrite Ev, size_of_app. split_and!; [done|lia|by exists r|]. intros Hp.
  apply (f_equal length) in Hp. rewrite length_app in Hp. destruct r; [done|cbn in Hp; lia].
Qed.

(** A connection after bytes [d] that were logged and forgotten: it brings
    frames that are no commands and then commands, ... *)
Lemma second_between clocks ro reads n c l d els ws :
  reliable D -> aof c = Some l -> ready l -> all_wf els -> Forall (fun e => cmd_name e = None) els -> all_wf ws ->
  concat reads = (continue_line ++ crlf) ++ flat_map serialize els ++ flat_map serialize ws ->
  size_of ((continue_line ++ crlf) ++ flat_map serialize els ++ flat_map serialize ws) <= INT64_MAX ->
  run_replica_worker clocks ro [received reads] n (log_raw_ctx d c) =
    c2 ← run_null clocks ro ws (n + length els) (Nat.iter (length els) counted c);
    Ok ([psync_cmd (size_of (file l ++ d))], (n + length els + length ws)%nat,
        mkCtx (storage c2) (Some (mkAOF (filepath l) true true (file l ++ d ++ flat_map serialize (els ++ ws)))) (metrics c2)).
Proof.
  intros HD Ha Hl Hels Hnone Hws E Hsz. cbn [run_replica_worker]. rewrite (log_raw_ctx_eq _ c l HD Ha Hl).
  cbn [aof from_option]. rewrite ready_file_size by done. cbn [file].
  erewrite (worker_session_stream clocks ro reads _ _ _ (els ++ ws) []); [|done|done|done|by apply Forall_app|apply torn_nil| |];
    [|by rewrite app_nil_r, flat_map_app..].
  rewrite <- (log_raw_ctx_eq _ c l HD Ha Hl), run_null_log, run_null_app, run_null_unnamed by done.
  cbn [mbind res_bind]. rewrite !bind_assoc.
  destruct (run_null clocks ro ws _ _) as [c2| | |] eqn:En2; [|done..]. cbn [mbind res_bind applied wctx].
  assert (aof c2 = Some l) as Ha2.
  { apply run_null_aof in En2. rewrite En2, <- Ha. clear. induction (length els); [done|]. cbn. done. }
  rewrite (log_raw_ctx_app _ _ c2 l), (log_raw_ctx_eq _ c2 l) by done. by rewrite length_app, Nat.add_assoc, app_nil_r.
Qed.

(** ... or it starts with what starts no frame. *)
Lemma second_stuck clocks ro reads n c l d x s :
  reliable D -> aof c = Some l -> ready l -> type_char x = false ->
  concat reads = (continue_line ++ crlf) ++ x :: s -> size_of (x :: s) + 11 < INT64_MAX ->
  run_replica_worker clocks ro [received reads] n (log_raw_ctx d c) =
    Ok ([psync_cmd (size_of (file l ++ d))], n,
        mkCtx (storage c) (Some (mkAOF (filepath l) true true (file l ++ d ++ x :: s))) (metrics c)).
Proof.
  intros HD Ha Hl Hx E Hsz. cbn [run_replica_worker]. rewrite (log_raw_ctx_eq _ c l HD Ha Hl).
  cbn [aof from_option]. rewrite ready_file_size by done. cbn [file].
  rewrite <- (log_raw_ctx_eq _ c l HD Ha Hl).
  destruct (worker_handshake clocks ro reads [] n (log_raw_ctx d c) (x :: s)) as (ks & Hks & ->);
    [apply prefix_nil|done| |done|].
  { rewrite size_of_app. change (size_of (continue_line ++ crlf)) with 11. unfold npos, UINT64_MAX, INT64_MAX in *. lia. }
  destruct (worker_stuck clocks ro ks [] x s n (log_raw_ctx d c) Hx) as (b' & ->); [done|lia|].
  cbn [mbind res_bind applied wctx].
  erewrite (log_chunks_concat ks); [|done|by rewrite (log_raw_ctx_eq _ c l HD Ha Hl)|done].
  by rewrite (log_raw_ctx_app _ _ c l), (log_raw_ctx_eq _ c l), Hks by done.
Qed.

End loops.
