(* ===== verification/ServerTheorems.v ===== *)
(** * Theorems about the server

    Replay, pipelining, termination of the client loop, and replication, from
    the lemmas on streams of [ServerProofs]. *)

From S2P Require Import Prelude CppStd RESP RESPProofs UnorderedMap Storage StdPlatform StorageProofs StorageSpec StorageRefine AOF Dispatcher DispatcherProofs Connection Server ServerProofs.

(** ** Termination *)

(** The computation has an outcome. *)
Definition returns {A} (x : res A) : Prop := x <> NoFuel.

Lemma returns_bind {A B} (x : res A) (f : A -> res B) :
  returns x -> (forall a, x = Ok a -> returns (f a)) -> returns (x ≫= f).
Proof. unfold returns. destruct x; cbn; auto; congruence. Qed.

Section termination.
Context `{PL : PlatformLaws} `{D : Disk} `{VA : VectorAlloc} `{N : Net}.

Lemma with_shard_returns {T} key (f : Dict -> Atomics -> res (T * Dict * Atomics)) eng :
  (forall s a, returns (f s a)) -> returns (with_shard key f eng).
Proof.
  intros Hf. unfold with_shard. destruct (_ !! _); [|done].
  apply returns_bind; [apply Hf|]. by intros [[? ?] ?].
Qed.

Lemma count_keys_returns f keys c eng :
  (forall key s a, returns (f key s a)) -> returns (count_keys f keys c eng).
Proof.
  intros Hf. revert c eng. induction keys as [|k keys IH]; intros c eng; cbn; [done|].
  apply returns_bind; [by apply with_shard_returns|]. intros [b e] _.
  destruct b; [|apply IH]. destruct (_ <? _); [done|apply IH].
Qed.

Lemma make_room_returns nc oc seed s a : returns (make_room nc oc seed s a).
Proof. by destruct (make_room_total nc oc seed s a) as (ok & s' & a' & ->). Qed.

Lemma store_counter_returns delta key it n d now seed s a :
  returns (store_counter delta key it n d now seed s a).
Proof.
  unfold store_counter. destruct (is_i64 _); [|done]. cbn [negb].
  apply returns_bind; [apply make_room_returns|]. intros [[[] s1] a1] _; done.
Qed.

Ltac locked_returns :=
  intros; unfold set_locked, get_locked, del_locked, exists_locked, counter_locked,
    expire_locked, expire_at_locked, pttl_locked, persist_locked;
  repeat case_match; try apply store_counter_returns; unfold returns; congruence.

Lemma run_op_returns op now seed eng : returns (run_op op now seed eng).
Proof.
  destruct op; cbn [run_op]; (apply returns_bind; [|by intros [? ?]]);
    first [apply with_shard_returns|apply count_keys_returns]; try solve [locked_returns].
  intros s a. unfold set_locked. apply returns_bind; [apply make_room_returns|].
  intros [[[] s1] a1] _; cbn; [|done]. by destruct (um_find k s1).
Qed.

Lemma dispatch_returns clk ro bypass req c : returns (dispatch clk ro bypass req c).
Proof.
  destruct (cmd_name req) as [cmd|] eqn:Hn.
  - rewrite (dispatch_named _ _ _ _ _ _ Hn). case_if; [done|].
    destruct (named_op cmd req) as [op|] eqn:Hop.
    + rewrite (run_command_data _ _ _ _ _ _ _ Hop). apply returns_bind; [apply run_op_returns|].
      by intros [? ?].
    + pose proof (run_command_other clk ro bypass cmd req (counted c) Hn Hop) as HH.
      destruct (expire_overflows req); [by rewrite HH|]. destruct HH as (? & ? & -> & _). done.
  - by destruct (dispatch_unnamed clk ro bypass req c Hn) as [msg ->].
Qed.

Lemma bulk_len_at_drop buffer (k i : nat) : (k <= length buffer)%nat ->
  bulk_len_at (drop k buffer) i = bulk_len_at buffer (k + i).
Proof.
  intros Hk. unfold bulk_len_at. rewrite lookup_drop.
  destruct (buffer !! (k + i)%nat) eqn:Hl; [|done]. apply lookup_lt_Some in Hl.
  unfold read_line, std_find. unfold size_of. rewrite length_drop, drop_drop, !Nat2Z.id.
  destruct (Z.ltb_spec (Z.of_nat (length buffer - k)) (Z.of_nat i)); [lia|].
  destruct (Z.ltb_spec (Z.of_nat (length buffer)) (Z.of_nat (k + i))); [lia|].
  destruct (find_from crlf (drop (k + i) buffer)) as [j|]; [|done]. cbn [fmap option_fmap option_map].
  unfold substr, size_of. rewrite length_drop, drop_drop, !Nat2Z.id.
  destruct (Z.ltb_spec (Z.of_nat (length buffer - k)) (Z.of_nat i)); [lia|].
  destruct (Z.ltb_spec (Z.of_nat (length buffer)) (Z.of_nat (k + i))); [lia|].
  cbn [mbind res_bind].
  replace (Z.of_nat i + Z.of_nat j - Z.of_nat i) with (Z.of_nat j) by lia.
  replace (Z.of_nat (k + i) + Z.of_nat j - Z.of_nat (k + i)) with (Z.of_nat j) by lia.
  replace (Z.of_nat (length buffer - k) - Z.of_nat i) with (Z.of_nat (length buffer) - Z.of_nat (k + i)) by lia.
  done.
Qed.

Lemma lens_ok_drop buffer k : lens_ok buffer = true -> lens_ok (drop k buffer) = true.
Proof.
  intros Hl. destruct (decide (k <= length buffer)%nat) as [Hk|Hk]; [|by rewrite drop_ge by lia].
  unfold lens_ok in *. rewrite forallb_forall in *. intros i Hi%in_seq.
  rewrite length_drop in Hi. rewrite bulk_len_at_drop by done. apply Hl, in_seq. lia.
Qed.

(** One frame: the parser returns and makes progress. *)
Lemma parse_progress buffer : size_of buffer < INT64_MAX -> lens_ok buffer = true ->
  returns (parse buffer) /\
  forall v n, parse buffer = Ok (Some (v, n)) ->
    (length (erase_front buffer n) < length buffer)%nat /\ lens_ok (erase_front buffer n) = true.
Proof.
  intros Hsz Hl. unfold parse.
  assert (0 <= 0 <= size_of buffer) as H0 by (split; [lia|apply size_of_nonneg]).
  pose proof (proj1 (parse_internal_total (parse_fuel buffer)) buffer 0 H0 Hsz Hl) as HT.
  pose proof (proj1 (parse_internal_post (parse_fuel buffer)) buffer 0 H0 Hsz) as HP.
  split.
  - apply returns_bind; [|by intros [[?|] ?]]. apply HT. unfold parse_fuel, size_of. lia.
  - intros v n ([[v'|] p] & E1 & E2)%bind_Ok; res_inv. rewrite E1 in HP.
    destruct HP as (_ & Hp & Hpos). specialize (Hpos Hl). unfold erase_front, size_of in *.
    split; [rewrite length_drop; lia|by apply lens_ok_drop].
Qed.

Lemma client_loop_returns fuel clocks ro conn buffer st :
  net_sound N -> size_of buffer < INT64_MAX -> lens_ok buffer = true -> (length buffer < fuel)%nat ->
  returns (client_loop fuel clocks ro conn buffer st).
Proof.
  intros HN. revert buffer st. induction fuel as [|f IH]; intros buffer st Hsz Hl Hf; [lia|].
  cbn [client_loop]. destruct (parse_progress buffer Hsz Hl) as [HP Hprog].
  apply returns_bind; [done|]. intros [[req n]|] E; [|done].
  destruct (Hprog _ _ E) as [Hlt Hl']. apply returns_bind; [apply dispatch_returns|].
  intros [r c] _. destruct (write_bytes_spec conn (serialize (response r)) (sent st) HN)
    as (ok & d & -> & _). cbn [mbind res_bind]. repeat case_if; [done..|].
  apply IH; [|done|lia]. unfold size_of in *. lia.
Qed.

End termination.

(** ** Concrete inputs *)

Definition clocks0 : nat -> Clock := fun i => clk_at (1000 + Z.of_nat i).

Definition three_requests : list RESPValue :=
  [request ["SET"; "a"; "41"]; request ["INCR"; "a"]; request ["GET"; "a"]].

Lemma three_requests_wf : @all_wf libstdcxx_alloc three_requests.
Proof. repeat constructor. Qed.

(** The first bytes of a request. *)
Definition half_request : bytes := take 15 (serialize (request ["SET"; "b"; "x"])).

Lemma half_request_torn : @torn libstdcxx_alloc half_request.
Proof.
  exists (request ["SET"; "b"; "x"]). split_and!; [reflexivity|vm_compute; congruence|apply prefix_take|].
  vm_compute. congruence.
Qed.

(** ** Properties *)

(** C15. Replay applies exactly what the file holds: for a file made of
    serialized commands and possibly a torn last one, the loop at start-up
    dispatches every whole command in order, without logging, stops at the
    torn one, and reports the number of commands. *)
Theorem replay_exact `{PlatformLaws} `{Disk} `{VectorAlloc} clocks ro vs tail c :
  all_wf vs -> torn tail -> size_of (flat_map serialize vs ++ tail) <= INT64_MAX ->
  load_aof clocks ro (Some (flat_map serialize vs ++ tail)) c =
    c' ← run_null clocks ro vs 0 c; Ok (length vs, c').
Proof.
  intros Hvs Ht Hsz. unfold load_aof. rewrite replay_apply.
  rewrite apply_loop_stream by (done || unfold loop_fuel; lia).
  by destruct (run_null _ _ _ _ _).
Qed.

Lemma replay_exact_witness :
  @load_aof _ perfect_disk libstdcxx_alloc clocks0 false
    (Some (flat_map serialize three_requests ++ half_request)) ctx0 =
  c' ← run_null clocks0 false three_requests 0 ctx0; Ok (3%nat, c').
Proof.
  apply (@replay_exact _ _ perfect_disk libstdcxx_alloc clocks0 false three_requests half_request ctx0
    three_requests_wf half_request_torn). vm_compute. congruence.
Defined.

(** C4. Pipelining does not depend on chunk boundaries: however a client's
    stream of requests is cut into reads, the requests are dispatched in
    order, each is answered before the next is looked at, and an unfinished
    request stays in the buffer until the rest arrives; the connection ends
    early exactly at the request that ends it. *)
Theorem client_pipelining `{PlatformLaws} `{Disk} `{VectorAlloc} `{Net} clocks ro conn reads vs tail st :
  all_wf vs -> torn tail -> size_of (flat_map serialize vs ++ tail) <= INT64_MAX ->
  concat reads = flat_map serialize vs ++ tail ->
  handle_client clocks ro conn reads [] st =
    r ← serve clocks ro conn vs st;
    match r with inl st => Ok (inl (tail, st)) | inr x => Ok (inr x) end.
Proof.
  intros Hvs Ht Hsz E. eapply handle_client_stream; [done|done|apply torn_nil|done|done].
Qed.

Lemma client_pipelining_witness :
  let stream := flat_map serialize three_requests ++ half_request in
  let st := mkSession 0 [] ctx0 in
  @handle_client _ perfect_disk libstdcxx_alloc open_net clocks0 false (mkConn 5)
    [take 7 stream; take 40 (drop 7 stream); drop 47 stream] [] st =
  r ← @serve _ perfect_disk open_net clocks0 false (mkConn 5) three_requests st;
  match r with inl st => Ok (inl (half_request, st)) | inr x => Ok (inr x) end.
Proof.
  intros stream st.
  apply (@client_pipelining _ _ perfect_disk libstdcxx_alloc open_net clocks0 false (mkConn 5) _
    three_requests half_request st three_requests_wf half_request_torn).
  - vm_compute. congruence.
  - vm_compute. reflexivity.
Defined.

(** C20. The client loop returns on every input without a bulk length below
    -1: each round takes at least one byte of the buffer, a unit of fuel per
    byte is enough, and the dispatcher and the writer return. *)
Theorem client_loop_terminates `{PlatformLaws} `{Disk} `{VectorAlloc} `{N : Net} clocks ro conn buffer st :
  net_sound N -> size_of buffer < INT64_MAX -> lens_ok buffer = true ->
  client_loop (loop_fuel buffer) clocks ro conn buffer st <> NoFuel.
Proof. intros HN Hsz Hl. apply client_loop_returns; [done..|]. unfold loop_fuel. lia. Qed.

Lemma client_loop_terminates_witness :
  let buffer := lit "*1" ++ crlf ++ lit "+PING" ++ crlf ++ lit "garbage" ++ crlf in
  @client_loop _ perfect_disk libstdcxx_alloc open_net (loop_fuel buffer) clocks0 false (mkConn 5) buffer
    (mkSession 0 [] ctx0) <> NoFuel.
Proof.
  intros buffer. apply (@client_loop_terminates _ _ perfect_disk libstdcxx_alloc open_net clocks0).
  - apply open_net_sound.
  - vm_compute. reflexivity.
  - vm_compute. reflexivity.
Defined.

Definition stuck_frame : bytes := lit "$-7" ++ crlf.

Lemma stuck_client_loops `{PlatformLaws} `{Disk} `{VectorAlloc} `{N : Net} fuel clocks ro conn st :
  net_open N -> 0 <= fd_ conn -> client_loop fuel clocks ro conn stuck_frame st = NoFuel.
Proof.
  intros HN Hfd. revert st. induction fuel as [|f IH]; intros st; [done|]. cbn [client_loop].
  assert (parse stuck_frame = Ok (Some (create_bulk_string [], 0))) as -> by (vm_compute; reflexivity).
  cbn [mbind res_bind]. change (erase_front stuck_frame 0) with stuck_frame.
  unfold dispatch. cbn [type create_bulk_string mbind res_bind].
  rewrite write_bytes_open by done. cbn [mbind res_bind negb reply_error reply is_psync close_connection].
  apply IH.
Qed.

(** C34. The restriction on bulk lengths in the termination theorems is needed:
    on a ten-byte frame with the length -12 the parser recurses for ever; and a
    five-byte frame with the length -7 consumes nothing, so the thread that
    serves the client answers it with an error again and again and never gets
    to the next read. *)
Theorem negative_length_diverges `{PlatformLaws} `{Disk} `{VectorAlloc} `{N : Net}
    fuel clocks ro conn st :
  2 <= reserve_limit -> net_open N -> 0 <= fd_ conn ->
  parse_internal fuel recursion_bomb 0 = NoFuel /\
  client_loop fuel clocks ro conn stuck_frame st = NoFuel.
Proof. intros Hr HN Hfd. split; [by apply parse_bomb_diverges|by apply stuck_client_loops]. Qed.

Lemma open_net_open : net_open open_net.
Proof. split; [apply open_net_sound|]. intros out [|x d] Hd; [done|]. cbn. unfold size_of. cbn. lia. Qed.

Lemma negative_length_diverges_witness :
  @parse_internal libstdcxx_alloc 1000 recursion_bomb 0 = NoFuel /\
  @client_loop _ perfect_disk libstdcxx_alloc open_net 1000 clocks0 false (mkConn 5) stuck_frame
    (mkSession 0 [] ctx0) = NoFuel.
Proof.
  apply (@negative_length_diverges _ _ perfect_disk libstdcxx_alloc open_net 1000);
    [vm_compute; discriminate|apply open_net_open|cbn; lia].
Defined.

(** ** Replication *)

Definition psync_request (offset : Z) : RESPValue :=
  create_array [create_bulk_string (lit "PSYNC"); create_bulk_string (to_string offset)].

Lemma psync_cmd_serialize offset : psync_cmd offset = serialize (psync_request offset).
Proof.
  unfold psync_cmd, psync_request, create_array, create_bulk_string. cbn [serialize flat_map].
  rewrite app_nil_r. reflexivity.
Qed.

(** C25. The handshake is understood: the bytes a replica sends parse on the
    primary as one request with nothing left over, and dispatching it accepts
    the replica at exactly the offset it asked for. *)
Theorem psync_handshake `{PlatformLaws} `{Disk} `{VectorAlloc} offset clk ro c :
  0 <= offset < two64 -> 2 <= reserve_limit -> size_of (psync_cmd offset) <= INT64_MAX ->
  exists req, parse (psync_cmd offset) = Ok (Some (req, size_of (psync_cmd offset))) /\
    dispatch clk ro false req c =
      Ok (mkResult (create_simple_string (lit "CONTINUE")) false true offset, counted c).
Proof.
  intros Ho Hl Hsz. exists (psync_request offset). rewrite psync_cmd_serialize in *. split.
  - rewrite <- (app_nil_r (serialize _)) at 1. apply parse_serialize; [|by rewrite app_nil_r].
    cbn. by apply Z.leb_le.
  - rewrite (dispatch_named _ _ _ _ _ (lit "PSYNC")) by reflexivity.
    replace (blocked ro false (lit "PSYNC")) with false by (by destruct ro).
    change (run_command clk ro false (lit "PSYNC") (psync_request offset) (counted c))
      with (cmd_psync (psync_request offset) (counted c)).
    unfold cmd_psync. change (arg (psync_request offset) 1) with (to_string offset).
    by rewrite from_chars_u64_to_string.
Qed.

Lemma psync_handshake_witness :
  exists req, @parse libstdcxx_alloc (psync_cmd 4096) = Ok (Some (req, 25)) /\
    @dispatch _ perfect_disk (clk_at 5) false false req ctx0 =
      Ok (mkResult (create_simple_string (lit "CONTINUE")) false true 4096, counted ctx0).
Proof.
  destruct (@psync_handshake _ _ perfect_disk libstdcxx_alloc 4096 (clk_at 5) false ctx0)
    as (req & Hp & Hd); [split; [lia|reflexivity]|vm_compute; congruence|vm_compute; congruence|].
  exists req. split; [exact Hp|exact Hd].
Defined.

(** Where the stream of a [PSYNC] starts: [seekg] takes the offset as a signed
    number, and one that is negative then leaves the position at the start. *)
Definition stream_from (offset : Z) : Z := if offset <=? INT64_MAX then offset else 0.

(** C24. The primary streams only its file: for every offset of 64 bits that a
    [PSYNC] can ask for, whatever lengths the file has while it grows and
    whatever the network does, the bytes sent after the answer are a prefix of
    the file from the offset on, when the offset is at most [INT64_MAX], and of
    the whole file when it is larger. On a connection that does not fail all of
    these bytes are sent, within two rounds per byte and one more. A replica
    whose log has failed asks for the offset [UINT64_MAX], and so is sent the
    whole file again. *)
Theorem psync_sends_file `{N : Net} conn files F offset out :
  net_sound N -> Forall (fun f => f `prefix_of` F) files -> 0 <= offset < two64 ->
  (forall ok s' out', psync_stream conn files (open_stream offset) out = Ok (ok, s', out') ->
   exists d, out' = out ++ d /\ d `prefix_of` drop (Z.to_nat (stream_from offset)) F) /\
  (forall rounds, net_open N -> 0 <= fd_ conn -> (2 * length F + 1 <= rounds)%nat ->
   exists s', psync_stream conn (replicate rounds F) (open_stream offset) out =
     Ok (true, s', out ++ drop (Z.to_nat (stream_from offset)) F)) /\
  (forall l, is_open l = true -> good l = false -> stream_from (get_file_size l) = 0).
Proof.
  intros HN Hfs Ho.
  assert (spos (open_stream offset) = stream_from offset /\ 0 <= stream_from offset) as [Hpos Hge].
  { unfold open_stream, stream_from. destruct (offset <=? INT64_MAX); cbn; lia. }
  split_and!.
  - intros ok s' out' E. eapply psync_stream_prefix in E as (d & -> & Hd); [|done|done|lia].
    rewrite Hpos in Hd. eauto.
  - intros rounds HO Hfd Hr. rewrite <- Hpos. apply psync_stream_all; [done|done|lia|].
    destruct (failed _); lia.
  - intros l Hop Hg. unfold get_file_size. by rewrite Hop, Hg.
Qed.

Lemma psync_sends_file_witness :
  let F := lit "0123456789" in
  (exists s' out', @psync_stream open_net (mkConn 5) [take 4 F; take 4 F; F] (open_stream 2) [] =
      Ok (true, s', out') /\ out' = lit "23456789" /\
    exists d, out' = [] ++ d /\ d `prefix_of` drop 2 F) /\
  exists s', @psync_stream open_net (mkConn 5) (replicate 21 F) (open_stream UINT64_MAX) [] = Ok (true, s', [] ++ F).
Proof.
  intros F. split.
  - eexists _, _. split; [vm_compute; reflexivity|]. split; [reflexivity|].
    destruct (@psync_sends_file open_net (mkConn 5) [take 4 F; take 4 F; F] F 2 []) as [H _].
    + apply open_net_sound.
    + repeat constructor; [by exists (drop 4 F)|by exists (drop 4 F)|by exists []].
    + unfold two64. lia.
    + eapply H. vm_compute. reflexivity.
  - destruct (@psync_sends_file open_net (mkConn 5) [] F UINT64_MAX []) as (_ & H & _).
    + apply open_net_sound.
    + constructor.
    + unfold UINT64_MAX, two64. lia.
    + exact (H 21%nat open_net_open ltac:(cbn; lia) ltac:(cbn; lia)).
Defined.

(** C6. A replica converges: starting from a local file that is a prefix of
    the primary's and ends between commands, the primary sends the rest of its
    file within two rounds per byte, and however these bytes are cut into
    reads, the replica's file becomes equal to the primary's, the commands in
    them are applied in order, and an unfinished command waits in the
    buffer. *)
Theorem replica_converges `{PlatformLaws} `{D : Disk} `{VectorAlloc} `{N : Net}
    clocks conn rounds l vs tail F n c :
  reliable D -> aof c = Some l -> ready l -> net_open N -> 0 <= fd_ conn ->
  all_wf vs -> torn tail -> F = file l ++ flat_map serialize vs ++ tail ->
  size_of F + 11 <= INT64_MAX -> (2 * length F <= rounds)%nat ->
  exists s' out,
    psync_stream conn (replicate rounds F) (open_stream (get_file_size l))
      (serialize (create_simple_string (lit "CONTINUE"))) = Ok (true, s', out) /\
    forall reads, concat reads = out ->
      worker_session clocks true reads (mkWorker [] false n c) =
        c' ← run_null clocks true vs n c;
        Ok (mkWorker tail true (n + length vs)%nat
              (mkCtx (storage c') (Some (mkAOF (filepath l) true true F)) (metrics c'))).
Proof. apply replica_stream. Qed.

Lemma replica_converges_witness :
  exists s' out,
    @psync_stream open_net (mkConn 5) (replicate 500 (flat_map serialize three_requests ++ half_request))
      (open_stream 0) (serialize (create_simple_string (lit "CONTINUE"))) = Ok (true, s', out) /\
    (fun w => (client_buffer w, applied w, file <$> aof (wctx w)))
      <$> match @worker_session _ perfect_disk libstdcxx_alloc clocks0 true
                  [take 5 out; take 20 (drop 5 out); drop 20 (drop 5 out)] (mkWorker [] false 0 ctx0) with
          | Ok w => Some w | _ => None end =
    Some (half_request, 3%nat, Some (flat_map serialize three_requests ++ half_request)).
Proof.
  destruct (@replica_converges _ _ perfect_disk libstdcxx_alloc open_net clocks0 (mkConn 5) 500
    (mkAOF (lit "appendonly.aof") true true []) three_requests half_request
    (flat_map serialize three_requests ++ half_request) 0 ctx0)
    as (s' & out & E & Hw).
  - apply perfect_disk_reliable.
  - reflexivity.
  - split; reflexivity.
  - apply open_net_open.
  - cbn. lia.
  - apply three_requests_wf.
  - apply half_request_torn.
  - reflexivity.
  - vm_compute. congruence.
  - apply Nat.leb_le. vm_compute. reflexivity.
  - exists s', out. split; [exact E|].
    rewrite Hw by (cbn [concat]; rewrite app_nil_r, !take_drop; reflexivity).
    vm_compute. reflexivity.
Defined.

(** The first connection brings one command, the second cannot be made, the
    third brings two more. *)
Definition resumed_attempts : list attempt := [
  received [continue_line; crlf ++ flat_map serialize (take 1 three_requests)];
  no_connection;
  received [continue_line ++ crlf; take 9 (flat_map serialize (drop 1 three_requests));
            drop 9 (flat_map serialize (drop 1 three_requests))]
].

Lemma resumed_attempts_whole :
  @whole libstdcxx_alloc resumed_attempts [take 1 three_requests; drop 1 three_requests].
Proof. repeat constructor. Qed.

(** C11. A replica resumes where it stopped. However often its connection is
    lost or cannot be made, as long as each connection that is lost breaks
    between commands, the worker asks each time for exactly the offset its
    file has reached, applies every command once and in order, and its file is
    at last the concatenation of what it was sent. *)
Theorem replica_resumes `{PlatformLaws} `{D : Disk} `{VectorAlloc} clocks ro atts vss n c l :
  reliable D -> aof c = Some l -> ready l -> whole atts vss ->
  size_of (flat_map serialize (concat vss)) + 11 <= INT64_MAX ->
  run_replica_worker clocks ro atts n c =
    c' ← run_null clocks ro (concat vss) n c;
    Ok (handshakes (size_of (file l)) vss, (n + length (concat vss))%nat,
        mkCtx (storage c')
          (Some (mkAOF (filepath l) true true (file l ++ flat_map serialize (concat vss)))) (metrics c')).
Proof. apply worker_resumes. Qed.

Lemma replica_resumes_witness :
  (fun '(hs, n, c) => (hs, n, file <$> aof c, value <$> elookup (lit "a") (storage c))) <$>
    match @run_replica_worker _ perfect_disk libstdcxx_alloc clocks0 true resumed_attempts 0 ctx0 with
    | Ok x => Some x | _ => None end =
  Some ([psync_cmd 0; psync_cmd 28], 3%nat, Some (flat_map serialize three_requests), Some (lit "42")).
Proof.
  rewrite (@replica_resumes _ _ perfect_disk libstdcxx_alloc clocks0 true resumed_attempts
    [take 1 three_requests; drop 1 three_requests] 0 ctx0 (mkAOF (lit "appendonly.aof") true true [])
    perfect_disk_reliable eq_refl (conj eq_refl eq_refl) resumed_attempts_whole
    ltac:(vm_compute; congruence)).
  vm_compute. reflexivity.
Defined.

(** A client of the primary that sets a key and then asks for the file: what
    it receives is the two answers and the file. *)
Example client_thread_ex :
  (fun st => (sent st, connected_clients (metrics (sctx st)))) <$>
    match @client_thread _ perfect_disk libstdcxx_alloc open_net clocks0 false 5
            [serialize (request ["SET"; "k"; "v"]) ++ psync_cmd 0]
            [serialize (request ["SET"; "k"; "v"])]
            (mkCtx engine0 (aof ctx0) (client_connected initial_metrics)) with
    | Ok st => Some st | _ => None end =
  Some (lit "+OK" ++ crlf ++ continue_line ++ crlf ++ serialize (request ["SET"; "k"; "v"]), 0).
Proof. vm_compute. reflexivity. Qed.




