(* ===== verification/Effects.v ===== *)
(** * The effect of journal entries, key by key

    What a list of logged commands leaves under a key when it is replayed, as a
    function that reads no clock ([effects]), and the proof that replaying the
    list at any times of a replay gives it. The function is right when every
    entry finds the key it touches either with a deadline after the end of the
    replay or expired before its start ([chain]). *)

From S2P Require Import Prelude CppStd RESP RESPProofs UnorderedMap Storage StdPlatform StorageProofs StorageSpec StorageRefine AOF Dispatcher DispatcherProofs Connection Server ServerProofs.

(** ** Deadlines against the end of a replay *)

(** The deadline is none, or later than [T]. *)
Definition late (T d : Z) : bool := (d =? 0) || (T <? d).

Lemma late_alive T r d : r <= T -> late T d = true -> alive r d = true.
Proof.
  unfold late, alive. intros Hr [?%Z.eqb_eq|?%Z.ltb_lt]%orb_true_iff; [by subst|].
  destruct (Z.leb_spec d r); [lia|]. by rewrite andb_false_r.
Qed.

(** The key whose old entry decides what the command does. *)
Definition touched (op : kv_op) : option bytes :=
  match op with
  | KIncr k | KDecr k | KExpire k _ | KExpireAt k _ | KPersist k => Some k
  | _ => None
  end.

(** The clocks during replay. *)
Definition replay_clocks (T0 T : Z) (clocks : nat -> Clock) : Prop :=
  T < two64 /\ forall i, T0 <= engine_now (clocks i) <= T /\
    engine_now (clocks i) <= engine_now (clocks (S i)).

(** The clock of a replay at the times 5000, 5001, ... up to 6000. *)
Definition replay_clock (i : nat) : Clock := clk_at (Z.min 6000 (5000 + Z.of_nat i)).

Lemma replay_clock_ok : replay_clocks 5000 6000 replay_clock.
Proof. split; [done|]. intros i. cbn. lia. Qed.

(** ** The effect of a command on one key *)

(** The keys a call names. *)
Definition op_keys (op : kv_op) : list bytes :=
  match op with
  | KSet k _ | KGet k | KIncr k | KDecr k | KExpire k _ | KExpireAt k _ | KPttl k | KPersist k => [k]
  | KDel ks | KExists ks => ks
  end.

(** The part of an entry that is live at time [t]. *)
Definition at_time (t : Z) (o : option (bytes * Z)) : option (bytes * Z) :=
  match o with Some (v, d) => if alive t d then o else None | None => None end.

(** The entry if its deadline is late for [T]. *)
Definition lasting (T : Z) (o : option (bytes * Z)) : option (bytes * Z) :=
  match o with Some (v, d) => if late T d then o else None | None => None end.

Definition counter_effect (T delta : Z) (o : option (bytes * Z)) : option (bytes * Z) :=
  match counter_start (lasting T o) with
  | Some (n, d) => Some (to_string (n + delta), d)
  | None => o
  end.

(** What a journaled call leaves of the entry of a key it names. *)
Definition named_effect (T : Z) (op : kv_op) (o : option (bytes * Z)) : option (bytes * Z) :=
  match op with
  | KSet _ v => Some (v, 0)
  | KDel _ => None
  | KIncr _ => counter_effect T 1 o
  | KDecr _ => counter_effect T (-1) o
  | KExpireAt _ t => (fun vd => (vd.1, t)) <$> lasting T o
  | KPersist _ => (fun vd => (vd.1, 0)) <$> lasting T o
  | _ => o
  end.

Definition key_effect (T : Z) (op : kv_op) (k : bytes) (o : option (bytes * Z)) : option (bytes * Z) :=
  if bool_decide (k ∈ op_keys op) then named_effect T op o else o.

(** The deadline is late for [T], or passed at [T0]. *)
Definition settled (T0 T : Z) (o : option (bytes * Z)) : bool :=
  match o with Some (_, d) => late T d || ((0 <? d) && (d <=? T0)) | None => true end.

Definition counter_fits (T delta : Z) (o : option (bytes * Z)) : bool :=
  match counter_start (lasting T o) with Some (n, _) => is_i64 (n + delta) | None => true end.

(** The call can be replayed at any time between [T0] and [T]. *)
Definition key_ready (T0 T : Z) (op : kv_op) (k : bytes) (o : option (bytes * Z)) : bool :=
  negb (bool_decide (k ∈ op_keys op)) ||
  match op with
  | KIncr _ => settled T0 T o && counter_fits T 1 o
  | KDecr _ => settled T0 T o && counter_fits T (-1) o
  | KExpire _ _ | KExpireAt _ _ | KPersist _ => settled T0 T o
  | _ => true
  end.

(** Lists of journal entries. *)
Definition entry_effect (T : Z) (k : bytes) (o : option (bytes * Z)) (e : RESPValue) : option (bytes * Z) :=
  match request_op e with Some op => key_effect T op k o | None => o end.

Definition effects (T : Z) (k : bytes) (es : list RESPValue) (o : option (bytes * Z)) : option (bytes * Z) :=
  foldl (entry_effect T k) o es.

Fixpoint chain (T0 T : Z) (k : bytes) (es : list RESPValue) (o : option (bytes * Z)) : bool :=
  match es with
  | [] => true
  | e :: es' =>
      match request_op e with Some op => key_ready T0 T op k o | None => true end &&
      chain T0 T k es' (entry_effect T k o e)
  end.

(** The entries that name [k]. *)
Definition names (k : bytes) (e : RESPValue) : Prop :=
  match request_op e with Some op => k ∈ op_keys op | None => False end.

#[global] Instance names_dec k e : Decision (names k e).
Proof. unfold names. destruct (request_op e); apply _. Defined.

Definition about (k : bytes) (es : list RESPValue) : list RESPValue := filter (names k) es.

Arguments effects : simpl never.
Arguments about : simpl never.

Lemma effects_cons T k e es o : effects T k (e :: es) o = effects T k es (entry_effect T k o e).
Proof. done. Qed.

Lemma effects_app T k es es' o : effects T k (es ++ es') o = effects T k es' (effects T k es o).
Proof. apply foldl_app. Qed.

Lemma chain_app T0 T k es es' o :
  chain T0 T k (es ++ es') o = chain T0 T k es o && chain T0 T k es' (effects T k es o).
Proof. revert o. induction es as [|e es IH]; intros o; cbn; [done|]. by rewrite IH, andb_assoc. Qed.

Lemma entry_effect_other T k o e : ~ names k e -> entry_effect T k o e = o.
Proof.
  unfold entry_effect, names, key_effect. destruct (request_op e); [|done]. intros Hn.
  by rewrite bool_decide_eq_false_2.
Qed.

(** Only the entries that name a key matter to it. *)
Lemma effects_about T k es o : effects T k (about k es) o = effects T k es o.
Proof.
  revert o. induction es as [|e es IH]; intros o; [done|]. unfold about. rewrite effects_cons.
  destruct (decide (names k e)) as [Hn|Hn].
  - rewrite filter_cons_True, effects_cons by done. apply IH.
  - rewrite filter_cons_False, entry_effect_other by done. apply IH.
Qed.

Lemma chain_about T0 T k es o : chain T0 T k (about k es) o = chain T0 T k es o.
Proof.
  revert o. induction es as [|e es IH]; intros o; [done|]. unfold about. cbn [chain].
  destruct (decide (names k e)) as [Hn|Hn].
  - rewrite filter_cons_True by done. cbn [chain]. by rewrite IH.
  - rewrite filter_cons_False, entry_effect_other, IH by done.
    unfold names in Hn. destruct (request_op e) as [op|]; [|done]. unfold key_ready.
    by rewrite bool_decide_eq_false_2.
Qed.

Lemma about_app k es es' : about k (es ++ es') = about k es ++ about k es'.
Proof. apply filter_app. Qed.

(** ** Effects against the specification *)

(** The map [m] holds what is live of [F] at time [t]. *)
Definition views (t : Z) (m : kv_state) (F : bytes -> option (bytes * Z)) : Prop :=
  forall k, m !! k = at_time t (F k).

Lemma views_time t t' m F : t <= t' -> views t m F -> views t' (purge t' m) F.
Proof.
  intros Ht Hv k. rewrite lookup_purge, (Hv k). unfold at_time.
  destruct (F k) as [[v d]|]; [|done]. destruct (alive t d) eqn:A; [done|]. cbn.
  destruct (alive t' d) eqn:B; [|done]. by rewrite (alive_mono t t' d Ht B) in A.
Qed.

Lemma lookup_delete_all ks m k : delete_all ks m !! k = if bool_decide (k ∈ ks) then None else m !! k.
Proof.
  revert m. induction ks as [|k0 ks IH]; intros m; [done|]. cbn [delete_all foldl].
  fold (delete_all ks (delete k0 m)). rewrite IH. destruct (decide (k = k0)) as [->|Hn].
  - rewrite lookup_delete_eq. rewrite (bool_decide_eq_true_2 (k0 ∈ k0 :: ks)) by left.
    by case_bool_decide.
  - rewrite lookup_delete_ne by done. do 2 case_bool_decide; try done; set_solver.
Qed.

(** A settled entry is live exactly when it lasts. *)
Lemma at_time_settled r T o : r <= T -> settled r T o = true -> at_time r o = lasting T o.
Proof.
  intros Hr Hs. destruct o as [[v d]|]; [|done]. cbn in *. destruct (late T d) eqn:L.
  - by rewrite (late_alive T r d Hr L).
  - cbn in Hs. unfold alive. by rewrite Hs.
Qed.

Lemma settled_mono T0 T0' T o : T0 <= T0' -> settled T0 T o = true -> settled T0' T o = true.
Proof.
  intros H0. destruct o as [[v d]|]; [|done]. cbn. intros [->|Hd]%orb_true_iff; [done|]. zb.
  apply orb_true_iff. right. apply andb_true_iff. split; [by apply Z.ltb_lt|apply Z.leb_le; lia].
Qed.

(** The start of a counter is live when its entry lasts. *)
Lemma counter_start_lasting T r o n d : r <= T -> counter_start (lasting T o) = Some (n, d) -> alive r d = true.
Proof.
  intros Hr. destruct o as [[v d0]|]; cbn; [|by intros [= _ <-]].
  destruct (late T d0) eqn:L; cbn; [|by intros [= _ <-]].
  destruct (_ && _); [|done]. intros [= _ <-]. by apply (late_alive T).
Qed.

(** Every touched entry is settled. *)
Definition touch_settled (t T : Z) (op : kv_op) (F : bytes -> option (bytes * Z)) : Prop :=
  forall k, touched op = Some k -> settled t T (F k) = true.

(** Only the entry of [k] changes. *)
Lemma views_put now m F k F' : views now m F -> (forall j, j <> k -> F' j = F j) ->
  views now (match at_time now (F' k) with Some y => <[k := y]> m | None => delete k m end) F'.
Proof.
  intros Hv Hj j. destruct (decide (j = k)) as [->|Hn].
  - destruct (at_time now (F' k)); [by rewrite lookup_insert_eq|by rewrite lookup_delete_eq].
  - rewrite (Hj j Hn). destruct (at_time now (F' k));
      [rewrite lookup_insert_ne by done|rewrite lookup_delete_ne by done]; apply Hv.
Qed.

Lemma views_same now m F F' : views now m F -> (forall k, at_time now (F' k) = at_time now (F k)) -> views now m F'.
Proof. intros Hv Hk k. by rewrite Hk. Qed.

Lemma key_effect_one T op k o : op_keys op = [k] -> key_effect T op k o = named_effect T op o.
Proof. intros E. unfold key_effect. rewrite bool_decide_eq_true_2; [done|]. rewrite E. left. Qed.

Lemma key_effect_other T op k j o : op_keys op = [k] -> j <> k -> key_effect T op j o = o.
Proof. intros E Hn. unfold key_effect. rewrite bool_decide_eq_false_2; [done|]. rewrite E. set_solver. Qed.

Lemma key_effect_id T op j o : (forall o, named_effect T op o = o) -> key_effect T op j o = o.
Proof. intros E. unfold key_effect. by case_bool_decide. Qed.

Lemma views_counter T now delta op k o m m1 F :
  now <= T -> op_keys op = [k] -> (forall o, named_effect T op o = counter_effect T delta o) ->
  settled now T (F k) = true -> views now m F -> counter_step false delta k o m m1 ->
  views now m1 (fun j => key_effect T op j (F j)) /\ counter_fits T delta (F k) = true.
Proof.
  intros Hr Hk Hop Hset Hv Hs.
  assert (m !! k = lasting T (F k)) as Hmk by (rewrite (Hv k); by apply at_time_settled).
  unfold counter_fits. inversion Hs as [? Hst|? ? n d Hst Hin [_ Hkept] _|]; subst;
    [rewrite Hmk in Hst..|done].
  - split; [|by rewrite Hst]. eapply views_same; [done|]. intros j. f_equal.
    destruct (decide (j = k)) as [->|Hn]; [|by eapply key_effect_other].
    rewrite key_effect_one, Hop by done. unfold counter_effect. by rewrite Hst.
  - split; [|by rewrite Hst]. rewrite Hkept by done.
    pose proof (views_put now m F k (fun j => key_effect T op j (F j)) Hv) as HP. cbn in HP.
    rewrite key_effect_one, Hop in HP by done. unfold counter_effect in HP at 1. rewrite Hst in HP. cbn in HP.
    rewrite (counter_start_lasting T now _ _ _ Hr Hst) in HP. apply HP. intros j Hj.
    by eapply key_effect_other.
Qed.

(** [EXPIRE], [PEXPIREAT] and [PERSIST] on a live key. *)
Lemma views_deadline T now op k v d t m F :
  now <= T -> op_keys op = [k] -> (forall o, named_effect T op o = (fun vd => (vd.1, t)) <$> lasting T o) ->
  settled now T (F k) = true -> views now m F -> m !! k = Some (v, d) ->
  views now (put_deadline now k v t m) (fun j => key_effect T op j (F j)).
Proof.
  intros Hr Hk Hop Hset Hv Hm.
  assert (lasting T (F k) = Some (v, d)) as Hl by (by rewrite <- (at_time_settled now), <- (Hv k)).
  pose proof (views_put now m F k (fun j => key_effect T op j (F j)) Hv) as HP. cbn in HP.
  rewrite key_effect_one, Hop, Hl in HP by done. unfold put_deadline. cbn in HP.
  destruct (alive now t); apply HP; intros j Hj; by eapply key_effect_other.
Qed.

(** ... and on a key that is not live, or already has that deadline. *)
Lemma views_no_deadline T now op k t m F :
  now <= T -> op_keys op = [k] -> (forall o, named_effect T op o = (fun vd => (vd.1, t)) <$> lasting T o) ->
  settled now T (F k) = true -> views now m F -> (m !! k = None \/ exists v, m !! k = Some (v, t)) ->
  views now m (fun j => key_effect T op j (F j)).
Proof.
  intros Hr Hk Hop Hset Hv Hm. eapply views_same; [done|]. intros j.
  destruct (decide (j = k)) as [->|Hn]; [|by rewrite (key_effect_other T op k) by done].
  rewrite key_effect_one, Hop by done.
  rewrite (Hv k) in Hm. rewrite <- (at_time_settled now T (F k) Hr Hset).
  destruct (F k) as [[v0 d0]|]; [|done]. cbn in *. destruct (alive now d0) eqn:A; [|done].
  destruct Hm as [|[v Hm]]; [done|]. simplify_eq. cbn. by rewrite A.
Qed.

Lemma key_ready_one T0 T op k (F : bytes -> option (bytes * Z)) :
  op_keys op = [k] -> key_ready T0 T op k (F k) = true -> forall j, key_ready T0 T op j (F j) = true.
Proof.
  intros Hk Hr j. destruct (decide (j = k)) as [->|Hn]; [done|]. unfold key_ready.
  rewrite bool_decide_eq_false_2; [done|]. rewrite Hk. set_solver.
Qed.

Lemma key_ready_untouched T0 T op j o : touched op = None -> key_ready T0 T op j o = true.
Proof. intros Ht. unfold key_ready. destruct op; try done; apply orb_true_r. Qed.

Ltac ready S := eapply key_ready_one; [done|]; unfold key_ready; rewrite S;
  first [done|by rewrite orb_true_r|match goal with V : counter_fits _ _ _ = true |- _ => by rewrite V, orb_true_r end].

(** A step of the specification acts on every key as its effect says, and can
    be replayed later. *)
Lemma effect_step T0 T now op res m m1 F :
  now <= T0 -> T0 <= T -> touch_settled now T op F -> views now m F ->
  spec_step false now op res m m1 ->
  views now m1 (fun k => key_effect T (replay_of now op) k (F k)) /\
  forall k, key_ready T0 T (replay_of now op) k (F k) = true.
Proof.
  intros H0 HT Hset Hv Hs.
  assert (forall op', (forall o, named_effect T op' o = o) -> views now m (fun j => key_effect T op' j (F j))) as Hid.
  { intros op' Hop. eapply views_same; [done|]. intros j. by rewrite key_effect_id. }
  assert (forall k, touched op = Some k -> settled now T (F k) = true /\ settled T0 T (F k) = true) as Hset2.
  { intros k Hk. split; [auto|]. apply (settled_mono now); auto. }
  assert (now <= T) as HnT by lia.
  inversion Hs as [k v ? ? [_ Hk] _|k v ? ? Hb _|k|ks n ? ? Hd _|ks|k o ? ? Hc|k o ? ? Hc
    |k off ? v d Hm|k off ? Hm|k t ? v d Hm|k t ? Hm|k|k ? v d Hm Hd|k ? Hm]; subst; cbn [replay_of]; try done;
    try (split; [by apply Hid|intros j; by apply key_ready_untouched]);
    try (destruct (Hset2 k eq_refl) as [S1 S2]).
  - split; [|intros j; by apply key_ready_untouched]. rewrite Hk by done.
    pose proof (views_put now m F k (fun j => key_effect T (KSet k v) j (F j)) Hv) as HP. cbn in HP.
    rewrite key_effect_one in HP by done. apply HP. intros j Hj. by apply (key_effect_other T _ k).
  - split; [|intros j; by apply key_ready_untouched]. intros j. rewrite lookup_delete_all, (Hv j).
    unfold key_effect. cbn. by case_bool_decide.
  - destruct (views_counter T now 1 (KIncr k) k o m m1 F) as [V1 V2]; try done. split; [done|].
    ready S2.
  - destruct (views_counter T now (-1) (KDecr k) k o m m1 F) as [V1 V2]; try done. split; [done|].
    ready S2.
  - split; [by eapply views_deadline|]. ready S2.
  - split; [eapply views_no_deadline; eauto; done|].
    ready S2.
  - split; [by eapply views_deadline|]. ready S2.
  - split; [eapply views_no_deadline; eauto; done|].
    ready S2.
  - split; [|ready S2].
    pose proof (views_deadline T now (KPersist k) k v d 0 m F) as HP. unfold put_deadline in HP.
    by apply HP.
  - split; [eapply views_no_deadline; eauto; done|].
    ready S2.
Qed.

(** ** Replaying a list of entries *)

(** A journal entry: a command whose deadline, if any, is absolute, on no more
    keys than an [int] can count. *)
Definition replay_entry (e : RESPValue) : Prop :=
  exists op, request_op e = Some op /\ (forall r, replay_of r op = op) /\
    Z.of_nat (length (loop_keys op)) <= INT_MAX.

Section replay.
Context `{PL : PlatformLaws} `{D : Disk} `{VA : VectorAlloc}.

Lemma dispatch_null_data clk ro e c op : request_op e = Some op ->
  exists cmd, dispatch_null clk ro e c =
    '(r, eng) ← run_op op (engine_now clk) (evict_seed clk) (storage c);
    Ok (reply (render cmd op r), mkCtx eng (aof c) (count_command (metrics c))).
Proof.
  intros Hop. destruct (request_op_inv _ _ Hop) as (cmd & Hn & _). exists cmd. unfold dispatch_null.
  assert (blocked ro true cmd = false) as Hb by (by destruct ro).
  rewrite (dispatch_data _ _ _ _ _ _ _ Hn Hb Hop). cbn [storage].
  rewrite bind_assoc. apply bind_ext. intros [r eng]. cbn. by rewrite log_all_bypass.
Qed.

Lemma request_op_wf req op : request_op req = Some op -> op_wf op = true.
Proof.
  intros Hreq. destruct (request_op_inv _ _ Hreq) as (cmd & _ & Hop & _).
  clear Hreq. op_cases Hop; injection Hop as <-; try done.
  cbn. zb. match goal with H : bool_decide _ = true |- _ => apply bool_decide_eq_true in H end.
  apply is_u64_spec. destruct (from_chars_range_ok false 0 UINT64_MAX (arg req 2)); [done|].
  unfold from_chars_u64, UINT64_MAX, two64 in *. lia.
Qed.

Lemma ready_settled T0 T r op F : T0 <= r -> (forall k, key_ready T0 T op k (F k) = true) -> touch_settled r T op F.
Proof.
  intros Hr Hk k Ht. apply (settled_mono T0); [done|]. specialize (Hk k). unfold key_ready in Hk.
  assert (k ∈ op_keys op) as Hin by (destruct op; simplify_eq/=; left).
  rewrite bool_decide_eq_true_2 in Hk by done. cbn in Hk.
  destruct op; simplify_eq/=; try done; by apply andb_true_iff in Hk as [Hk _].
Qed.

Lemma ready_in_range T0 T r op eng m F : T0 <= r <= T -> (forall k, key_ready T0 T op k (F k) = true) ->
  views r m F -> Z.of_nat (length (loop_keys op)) <= INT_MAX -> op_in_range op eng m = true.
Proof.
  intros Hr Hk Hv Hlen. pose proof (ready_settled T0 T r op F ltac:(lia) Hk) as Hset.
  assert (forall k delta, touched op = Some k -> counter_fits T delta (F k) = true ->
    match counter_start (m !! k) with Some (n, _) => is_i64 (n + delta) | None => true end = true) as Hc.
  { intros k delta Ht Hf. rewrite (Hv k), (at_time_settled r T) by (auto; lia). exact Hf. }
  destruct op; try done; cbn;
    try (apply Z.leb_le; etrans; [apply stored_count_le || apply mem_count_le|exact Hlen]);
    (apply Hc; [done|]); specialize (Hk k); unfold key_ready in Hk;
    rewrite bool_decide_eq_true_2 in Hk by left; cbn in Hk; by apply andb_true_iff in Hk as [_ Hk].
Qed.

(** One entry, on an engine that holds what [F] says. *)
Definition holds (t : Z) (eng : StorageEngine) (F : bytes -> option (bytes * Z)) : Prop :=
  engine_wf eng /\ bounded eng = false /\ exists m, R t eng m /\ views t m F.

Lemma holds_time t t' eng F : t <= t' -> holds t eng F -> holds t' eng F.
Proof.
  intros Ht (Hw & Hb & m & HR & Hv). split_and!; [done|done|]. exists (purge t' m).
  split; [by eapply R_time|by eapply views_time].
Qed.

Lemma holds_op T now op seed res eng eng' F :
  0 <= now <= T -> T < two64 -> op_wf op = true -> touch_settled now T op F -> holds now eng F ->
  run_op op now seed eng = Ok (res, eng') ->
  holds now eng' (fun k => key_effect T (replay_of now op) k (F k)) /\
  (forall clk req, journal clk req op res = [] -> holds now eng' F) /\
  forall T0 k, now <= T0 <= T -> key_ready T0 T (replay_of now op) k (F k) = true.
Proof.
  intros Hn HT Hop Hset (Hw & Hb & m & HR & Hv) E.
  destruct (run_op_refines _ _ _ _ _ _ _ Hw HR E) as (m1 & Hs & HR1). rewrite Hb in Hs.
  assert (engine_wf eng') as Hw' by (apply (run_op_wf op now seed eng res); done || lia).
  assert (bounded eng' = false) as Hb' by (by rewrite (run_op_bounded _ _ _ _ _ _ E)).
  split_and!.
  - split_and!; [done|done|]. exists m1. split; [done|].
    eapply (effect_step now T now op res m m1 F); [lia|lia|done|done|done].
  - intros clk req Hj. split_and!; [done|done|]. exists m1. split; [done|].
    by rewrite (journal_nil_unchanged _ _ _ _ _ _ _ Hs Hj).
  - intros T0 k H0. eapply (effect_step T0 T now op res m m1 F); [lia|lia|done|done|done].
Qed.

Lemma replay_effects T0 T clocks ro es n cR r F :
  replay_clocks T0 T clocks -> 0 <= T0 -> Forall replay_entry es ->
  (forall k, chain T0 T k es (F k) = true) -> holds r (storage cR) F -> T0 <= r <= engine_now (clocks n) ->
  exists cR' r', run_null clocks ro es n cR = Ok cR' /\ r' <= T /\
    holds r' (storage cR') (fun k => effects T k es (F k)).
Proof.
  intros [HT Hck] H0 Hes. revert n cR r F. induction Hes as [|e es (op & Hop & Hre & Hlen) Hes IH]; intros n cR r F Hch HF Hr.
  { exists cR, r. destruct (Hck n). split_and!; [done|lia|done]. }
  destruct (Hck n) as [Hn Hn1].
  assert (forall k, key_ready T0 T op k (F k) = true /\ chain T0 T k es (key_effect T op k (F k)) = true) as Hk.
  { intros k. specialize (Hch k). cbn in Hch. unfold entry_effect in Hch. rewrite Hop in Hch.
    by apply andb_true_iff in Hch. }
  apply (holds_time r (engine_now (clocks n)) _ _ ltac:(lia)) in HF as HFn.
  pose proof HFn as (Hw & Hb & m & HR & Hv).
  pose proof (run_op_total op (engine_now (clocks n)) (evict_seed (clocks n)) (storage cR) m Hw HR) as HTot.
  rewrite (ready_in_range T0 T (engine_now (clocks n)) op (storage cR) m F) in HTot; [|lia|apply Hk|done|done].
  destruct HTot as ([x eng'] & E).
  destruct (holds_op T (engine_now (clocks n)) op (evict_seed (clocks n)) x (storage cR) eng' F)
    as (HF' & _ & _); [lia|done|by eapply request_op_wf|eapply ready_settled; [|apply Hk]; lia|done|done|].
  rewrite Hre in HF'. cbn [run_null].
  destruct (dispatch_null_data (clocks n) ro e cR op Hop) as [cmd ->]. rewrite E. cbn [mbind res_bind].
  destruct (IH (S n) (mkCtx eng' (aof cR) (count_command (metrics cR))) (engine_now (clocks n))
    (fun k => key_effect T op k (F k))) as (cR' & r' & E2 & Hr' & HF2); [apply Hk|done|lia|].
  exists cR', r'. split_and!; [done|done|]. destruct HF2 as (W & B & m2 & HR2 & Hv2). split_and!; [done|done|].
  exists m2. split; [done|]. intros k. rewrite (Hv2 k), effects_cons. unfold entry_effect. by rewrite Hop.
Qed.

End replay.
