(* ===== verification/Interleaving.v ===== *)
(** * Concurrent clients

    A client thread runs [dispatch]: the call of the engine, under the lock of a
    shard, and then the write to the file, under the lock of the logger
    ([CommandDispatcher.cpp], for instance lines 65 to 68; the locks are in
    [StorageEngine.cpp] and [AOFLogger.cpp]). Nothing holds the two together,
    and [DEL] and [EXISTS] lock once per key. Here the steps of the threads and
    the passes of the sweeper interleave. A step is made of the dispatcher's own
    code: the engine part of a request is [dispatch] on a scratch logger, and
    what it wrote there is what the thread then writes to the file; the loops of
    [DEL] and [EXISTS] go key by key and [DEL] ends with [del_finish].

    The theorems compare the writes with the journal of [DispatcherProofs]: no
    entry is lost, doubled or invented, but the order of the file can differ
    from the order of the engine. *)

From S2P Require Import Prelude CppStd RESP RESPProofs UnorderedMap Storage StdPlatform StorageProofs StorageSpec StorageRefine AOF Dispatcher DispatcherProofs Connection Server ServerProofs ServerTheorems Effects.

(** A thread that serves a request: in the loop of [DEL], with the keys left and
    the keys deleted so far; in the loop of [EXISTS], with the clock reading; or
    about to write [data] to the file. *)
Inductive thread :=
  | Deleting (req : RESPValue) (keys : list bytes) (deleted : Z)
  | Counting (now : Z) (req : RESPValue) (keys : list bytes) (count : Z)
  | Writing (req : RESPValue) (data : bytes).

(** The steps: a thread starts a request, handles the next key of its loop, ends
    the loop, or writes; the sweeper passes. *)
Inductive action :=
  | ARequest (i : nat) (clk : Clock) (req : RESPValue)
  | AKey (i : nat)
  | AEnd (i : nat)
  | AWrite (i : nat)
  | ASweep (now : Z) (owns_lock : nat -> bool).

Section threads.
Context `{Platform} `{D : Disk}.

(** The shared state, the threads between two steps, the writes to the file in
    their order, and, for the statements, the journal entries of the requests in
    the order of the engine. *)
Record CState := mkCState {
  shared : Ctx;
  pending : gmap nat thread;
  writes : list bytes;
  executed : list RESPValue
}.

(** The dispatcher's context with an empty scratch logger. *)
Definition scratch (c : Ctx) : Ctx := mkCtx (storage c) (Some (mkAOF [] true true [])) (metrics c).

Definition scratch_data (c : Ctx) : bytes := from_option file [] (aof c).

(** A thread has done its engine part, in the scratch context [c]: it goes on to
    write, or it is done. *)
Definition called (i : nat) (req : RESPValue) (c : Ctx) (es : list RESPValue) (s : CState) : CState :=
  mkCState (mkCtx (storage c) (aof (shared s)) (metrics c))
    (match scratch_data c with
     | [] => delete i (pending s)
     | data => <[i := Writing req data]> (pending s)
     end) (writes s) (executed s ++ es).

(** What the journal has for a request on this engine. *)
Definition due (clk : Clock) (req : RESPValue) (eng : StorageEngine) : list RESPValue :=
  match request_op req with
  | Some op =>
      match run_op op (engine_now clk) (evict_seed clk) eng with
      | Ok (r, _) => journal clk req op r
      | _ => []
      end
  | None => []
  end.

Definition due_del (req : RESPValue) (deleted : Z) : list RESPValue :=
  journal (mkClock 0 0 0) req (KDel (arg_keys req)) (RInt deleted).

(** One round of a key loop of a thread; [None] is an overflow of the count. *)
Definition key_round (f : Dict -> Atomics -> res (bool * Dict * Atomics)) (key : bytes) (count : Z)
    (eng : StorageEngine) : option (Z * StorageEngine) :=
  match with_shard key f eng with
  | Ok (b, eng') =>
      if b : bool then if INT_MAX <? count + 1 then None else Some (count + 1, eng') else Some (count, eng')
  | _ => None
  end.

Definition act (x : action) (s : CState) : option CState :=
  match x with
  | ARequest i clk req =>
      match pending s !! i, request_op req with
      | Some _, _ => None
      | None, Some (KDel ks) =>
          Some (mkCState (counted (shared s)) (<[i := Deleting req ks 0]> (pending s)) (writes s) (executed s))
      | None, Some (KExists ks) =>
          Some (mkCState (counted (shared s)) (<[i := Counting (engine_now clk) req ks 0]> (pending s))
                  (writes s) (executed s))
      | None, _ =>
          match @dispatch _ perfect_disk clk false false req (scratch (shared s)) with
          | Ok (_, c) => Some (called i req c (due clk req (storage (shared s))) s)
          | _ => None
          end
      end
  | AKey i =>
      match pending s !! i with
      | Some (Deleting req (k :: ks) n) =>
          '(n, eng) ← key_round (del_locked k) k n (storage (shared s));
          Some (mkCState (with_storage eng (shared s)) (<[i := Deleting req ks n]> (pending s))
                  (writes s) (executed s))
      | Some (Counting now req (k :: ks) n) =>
          '(n, eng) ← key_round (exists_locked k now) k n (storage (shared s));
          Some (mkCState (with_storage eng (shared s)) (<[i := Counting now req ks n]> (pending s))
                  (writes s) (executed s))
      | _ => None
      end
  | AEnd i =>
      match pending s !! i with
      | Some (Deleting req [] n) =>
          let '(_, c) := @del_finish _ perfect_disk false req n (scratch (shared s)) in
          Some (called i req c (due_del req n) s)
      | Some (Counting _ _ [] _) =>
          Some (mkCState (shared s) (delete i (pending s)) (writes s) (executed s))
      | _ => None
      end
  | AWrite i =>
      match pending s !! i with
      | Some (Writing _ data) =>
          Some (mkCState (mkCtx (storage (shared s)) (log data <$> aof (shared s)) (metrics (shared s)))
                  (delete i (pending s)) (writes s ++ [data]) (executed s))
      | _ => None
      end
  | ASweep now owns =>
      Some (mkCState (with_storage (sweep_pass owns now (storage (shared s))) (shared s))
              (pending s) (writes s) (executed s))
  end.

Definition cstep (s s' : CState) : Prop := exists x, act x s = Some s'.

Fixpoint acts (xs : list action) (s : CState) : option CState :=
  match xs with
  | [] => Some s
  | x :: xs' => s ← act x s; acts xs' s
  end.

Lemma acts_cstep xs s s' : acts xs s = Some s' -> rtc cstep s s'.
Proof.
  revert s. induction xs as [|x xs IH]; intros s E; cbn in E; [by simplify_eq|].
  apply bind_Some in E as (s1 & E1 & E). eapply rtc_l; [by exists x|auto].
Qed.

Lemma acts_app xs ys s : acts (xs ++ ys) s = acts xs s ≫= acts ys.
Proof. revert s. induction xs as [|x xs IH]; intros s; cbn; [done|]. destruct (act x s); cbn; auto. Qed.

(** The data that threads are about to write. *)
Definition flight (t : thread) : list bytes := match t with Writing _ data => [data] | _ => [] end.

Definition in_flight (th : gmap nat thread) : list bytes := concat (flight <$> (map_to_list th).*2).

Lemma in_flight_insert i t th : th !! i = None -> in_flight (<[i := t]> th) ≡ₚ flight t ++ in_flight th.
Proof. intros Hi. unfold in_flight. by rewrite map_to_list_insert. Qed.

Lemma in_flight_lookup i t th : th !! i = Some t -> in_flight th ≡ₚ flight t ++ in_flight (delete i th).
Proof.
  intros Hi. rewrite <- (insert_delete_id th i t Hi) at 1. by rewrite in_flight_insert by apply lookup_delete_eq.
Qed.

Lemma in_flight_put i t th : in_flight (<[i := t]> th) ≡ₚ flight t ++ in_flight (delete i th).
Proof.
  rewrite (in_flight_lookup i t (<[i := t]> th)) by apply lookup_insert_eq. by rewrite delete_insert_eq.
Qed.

(** A thread that is not about to write does not count. *)
Lemma in_flight_quiet i th : (forall t, th !! i = Some t -> flight t = []) -> in_flight th ≡ₚ in_flight (delete i th).
Proof.
  intros Hq. destruct (th !! i) as [t|] eqn:Hi; [|by rewrite delete_id].
  rewrite (in_flight_lookup i t th Hi). by rewrite (Hq t).
Qed.

End threads.

Section log.
Context `{PL : PlatformLaws} `{D : Disk}.

Lemma serialize_nonempty v : serialize v <> [].
Proof. intros E. pose proof (serialize_min v) as Hm. rewrite E in Hm. cbn in Hm. lia. Qed.

(** What a thread leaves pending after its engine part. *)
Definition after_call (i : nat) (req : RESPValue) (es : list RESPValue) (th : gmap nat thread) : gmap nat thread :=
  match es with [e] => <[i := Writing req (serialize e)]> th | _ => delete i th end.

Lemma called_eq i req c es s : (length es <= 1)%nat -> scratch_data c = flat_map serialize es ->
  called i req c es s =
    mkCState (mkCtx (storage c) (aof (shared s)) (metrics c)) (after_call i req es (pending s)) (writes s)
      (executed s ++ es).
Proof.
  intros Hl Hd. unfold called. rewrite Hd. destruct es as [|e [|]]; [done| |cbn in Hl; lia].
  cbn [flat_map after_call]. rewrite app_nil_r. pose proof (serialize_nonempty e). by destruct (serialize e).
Qed.

Lemma journal_length clk req op r : (length (journal clk req op r) <= 1)%nat.
Proof. destruct op, r as [[]| |n|[]]; cbn; try lia. destruct (0 <? n); cbn; lia. Qed.

Lemma log_all_scratch es c : scratch_data (@log_all _ perfect_disk false es (scratch c)) = flat_map serialize es.
Proof.
  unfold scratch_data. rewrite (log_all_appends es (scratch c) (mkAOF [] true true []) perfect_disk_reliable eq_refl
    (conj eq_refl eq_refl)). done.
Qed.

(** The engine part of a request that is no loop: its data are the journal's. *)
Lemma dispatch_scratch clk req c res c' :
  @dispatch _ perfect_disk clk false false req (scratch c) = Ok (res, c') ->
  scratch_data c' = flat_map serialize (due clk req (storage c)) /\ (length (due clk req (storage c)) <= 1)%nat.
Proof.
  pose (VA := {| reserve_limit := 0; vector_max_size := 0 |} : VectorAlloc).
  intros E. apply (dispatch_inv (D := perfect_disk)) in E as
    [(cmd & op & r & eng & Hn & _ & Hop & Er & _ & ->)|((_ & _ & Ha & _) & _ & Hcase & _)]; unfold due.
  - assert (request_op req = Some op) as -> by (unfold request_op; by rewrite Hn).
    cbn [storage scratch] in Er. rewrite Er.
    change (with_storage eng (counted (scratch c))) with (scratch (with_storage eng (counted c))).
    split; [apply log_all_scratch|apply journal_length].
  - assert (request_op req = None) as ->.
    { unfold request_op. destruct Hcase as [->|(cmd & -> & [(Hb & _)|(_ & Hop)])]; [done|done|exact Hop]. }
    unfold scratch_data. rewrite Ha. cbn. split; [done|lia].
Qed.

Lemma del_finish_scratch req n c :
  scratch_data (@del_finish _ perfect_disk false req n (scratch c)).2 = flat_map serialize (due_del req n) /\
  (length (due_del req n) <= 1)%nat /\
  storage (@del_finish _ perfect_disk false req n (scratch c)).2 = storage c /\
  metrics (@del_finish _ perfect_disk false req n (scratch c)).2 = metrics c.
Proof.
  unfold due_del. split_and!; [| |by unfold del_finish, log_if; cbn; destruct (0 <? n)..].
  - unfold del_finish. cbn [snd]. rewrite (log_if_journal (D := perfect_disk)), log_all_scratch. done.
  - apply journal_length.
Qed.

(** The file holds the writes, and the entries of the executed requests are, up
    to their order, written or in flight. *)
Definition log_inv (l : AOFLogger) (s : CState) : Prop :=
  aof (shared s) = Some (mkAOF (filepath l) true true (file l ++ concat (writes s))) /\
  (serialize <$> executed s) ≡ₚ writes s ++ in_flight (pending s).

(** The engine part of a request moves its entry from the journal to the flight. *)
Lemma log_inv_called l i req es s c :
  log_inv l s -> (length es <= 1)%nat -> (forall t, pending s !! i = Some t -> flight t = []) ->
  log_inv l (mkCState (mkCtx (storage c) (aof (shared s)) (metrics c)) (after_call i req es (pending s))
    (writes s) (executed s ++ es)).
Proof.
  intros [Ha HP] Hl Hq. split; [done|]. cbn [executed writes pending]. rewrite fmap_app, HP, <- app_assoc. f_equiv.
  rewrite (in_flight_quiet i (pending s) Hq).
  destruct es as [|e [|]]; [cbn; by rewrite app_nil_r| |cbn in Hl; lia].
  cbn [after_call fmap list_fmap]. rewrite in_flight_put. cbn [flight]. apply Permutation_app_comm.
Qed.

Lemma log_inv_step l x s s' : reliable D -> log_inv l s -> act x s = Some s' -> log_inv l s'.
Proof.
  intros HD HI E. pose proof HI as [Ha HP].
  assert (forall i t c ex, (forall t, pending s !! i = Some t -> flight t = []) -> flight t = [] ->
    aof c = aof (shared s) -> ex = executed s ->
    log_inv l (mkCState c (<[i := t]> (pending s)) (writes s) ex)) as Hloop.
  { intros i t c ex Hq Ht Hc ->. split; cbn [shared writes executed pending]; [by rewrite Hc|].
    rewrite HP. f_equiv. by rewrite in_flight_put, Ht, (in_flight_quiet i (pending s) Hq). }
  destruct x as [i clk req|i|i|i|now owns]; cbn [act] in E.
  - destruct (pending s !! i) eqn:Hi; [done|].
    assert (forall t, pending s !! i = Some t -> flight t = []) as Hq by congruence.
    assert (match @dispatch _ perfect_disk clk false false req (scratch (shared s)) with
      | Ok (_, c) => Some (called i req c (due clk req (storage (shared s))) s) | _ => None end = Some s' ->
      log_inv l s') as Hcall.
    { destruct (dispatch _ _ _ _ _) as [[res c]| | |] eqn:Ed; [|done..]. intros [= <-].
      destruct (dispatch_scratch _ _ _ _ _ Ed) as [Hd Hl]. rewrite called_eq by done. by apply log_inv_called. }
    destruct (request_op req) as [[]|]; try by apply Hcall.
    + injection E as <-. by apply Hloop.
    + injection E as <-. by apply Hloop.
  - destruct (pending s !! i) as [[req [|k ks] n|t req [|k ks] n|req d]|] eqn:Hi; try done;
      apply bind_Some in E as ([n' eng] & _ & [= <-]); apply Hloop; try done; rewrite Hi; by intros ? [= <-].
  - destruct (pending s !! i) as [[req [|k ks] n|t req [|k ks] n|req d]|] eqn:Hi; try done.
    + destruct (del_finish_scratch req n (shared s)) as (Hd & Hl & _).
      destruct (del_finish _ _ _ _) as [res c]. injection E as <-. cbn [snd] in Hd.
      rewrite called_eq by done. apply log_inv_called; [done|done|]. rewrite Hi. by intros t [= <-].
    + injection E as <-. split; [done|]. cbn [executed writes pending]. rewrite HP. f_equiv.
      apply in_flight_quiet. rewrite Hi. by intros t' [= <-].
  - destruct (pending s !! i) as [[| |req d]|] eqn:Hi; try done. injection E as <-. split.
    + cbn [shared aof writes]. rewrite Ha. cbn [fmap option_fmap option_map].
      destruct (log_app d (mkAOF (filepath l) true true (file l ++ concat (writes s))) HD (conj eq_refl eq_refl)) as [-> _].
      cbn. by rewrite concat_app, <- app_assoc; cbn; rewrite app_nil_r.
    + cbn [executed writes pending]. rewrite HP, <- app_assoc. f_equiv.
      exact (in_flight_lookup i _ _ Hi).
  - injection E as <-. done.
Qed.

Lemma log_inv_reachable l s s' : reliable D -> log_inv l s -> rtc cstep s s' -> log_inv l s'.
Proof. intros HD Hs Hr. induction Hr as [|s s1 s2 [x Hx] _ IH]; eauto using log_inv_step. Qed.

Lemma log_inv_start l c : aof c = Some l -> ready l -> log_inv l (mkCState c ∅ [] []).
Proof.
  intros Ha [Ho Hg]. split; cbn; [|by unfold in_flight; rewrite map_to_list_empty].
  rewrite Ha, app_nil_r. by destruct l; cbn in *; subst.
Qed.

(** ** A thread alone *)

Lemma request_del_keys req ks : request_op req = Some (KDel ks) -> arg_keys req = ks.
Proof. intros Hop. destruct (request_op_inv _ _ Hop) as (? & _ & Hnm & _). op_cases Hnm; by injection Hnm. Qed.

(** The loop of a thread that nobody disturbs. *)
Lemma keys_alone (mk : list bytes -> Z -> thread) f i ks n eng n' eng' s :
  (forall k ks n s, pending s !! i = Some (mk (k :: ks) n) ->
     act (AKey i) s = ('(n, eng) ← key_round (f k) k n (storage (shared s));
       Some (mkCState (with_storage eng (shared s)) (<[i := mk ks n]> (pending s)) (writes s) (executed s)))) ->
  pending s !! i = Some (mk ks n) -> storage (shared s) = eng -> count_keys f ks n eng = Ok (n', eng') ->
  acts (replicate (length ks) (AKey i)) s =
    Some (mkCState (with_storage eng' (shared s)) (<[i := mk [] n']> (pending s)) (writes s) (executed s)).
Proof.
  intros Hmk. revert n eng s. induction ks as [|k ks IH]; intros n eng s Hi Hs E; cbn [count_keys] in E.
  - res_inv. cbn. f_equal. rewrite insert_id by done. by destruct s as [[] ? ? ?].
  - apply bind_Ok in E as ([b eng1] & E0 & E). cbn [length replicate acts]. rewrite (Hmk _ _ _ _ Hi), Hs.
    unfold key_round. rewrite E0.
    assert (exists n1, (if b then if INT_MAX <? n + 1 then None else Some (n + 1, eng1) else Some (n, eng1)) =
      Some (n1, eng1) /\ count_keys f ks n1 eng1 = Ok (n', eng')) as (n1 & -> & E1).
    { apply count_step in E as [Hb E]. destruct b; [|by eauto].
      destruct (Z.ltb_spec INT_MAX (n + 1)); [specialize (Hb eq_refl); lia|eauto]. }
    cbn [mbind option_bind]. erewrite IH; [|cbn; apply lookup_insert_eq|done|exact E1].
    cbn. by rewrite insert_insert_eq.
Qed.

(** The steps of thread [i] after the start of its request. *)
Definition own (i : nat) (x : action) : Prop := x = AKey i \/ x = AEnd i \/ x = AWrite i.

Lemma write_alone i req es th s : (length es <= 1)%nat -> pending s = after_call i req es th ->
  exists xs s', acts xs s = Some s' /\ Forall (own i) xs /\ shared s' = log_all false es (shared s) /\
    pending s' = delete i th.
Proof.
  intros Hl Hp. destruct es as [|e [|]]; [| |cbn in Hl; lia].
  - by exists [], s.
  - assert (pending s !! i = Some (Writing req (serialize e))) as Hi by (rewrite Hp; apply lookup_insert_eq).
    exists [AWrite i]. eexists. cbn [acts act]. rewrite Hi. split_and!; [done| | |].
    + apply Forall_singleton. by right; right.
    + cbn. unfold log_if. destruct (aof (shared s)) eqn:Ha; [done|]. cbn. by destruct (shared s); cbn in *; subst.
    + cbn. rewrite Hp. cbn. apply delete_insert_eq.
Qed.

(** A request whose steps are not separated is [dispatch]: without a loop, ... *)
Lemma call_alone i clk req s res c' :
  pending s !! i = None -> cmd_name req <> Some (lit "CONFIG") ->
  match request_op req with Some (KDel _) | Some (KExists _) => False | _ => True end ->
  dispatch clk false false req (shared s) = Ok (res, c') ->
  exists xs s', acts (ARequest i clk req :: xs) s = Some s' /\ Forall (own i) xs /\
    shared s' = c' /\ pending s' = pending s.
Proof.
  pose (VA := {| reserve_limit := 0; vector_max_size := 0 |} : VectorAlloc). intros Hi Hcfg Hk E.
  assert (exists res2 c2 es, @dispatch _ perfect_disk clk false false req (scratch (shared s)) = Ok (res2, c2) /\
    due clk req (storage (shared s)) = es /\
    log_all false es (mkCtx (storage c2) (aof (shared s)) (metrics c2)) = c') as (res2 & c2 & es & E2 & Hes & Hc').
  { unfold due. destruct (request_op req) as [op|] eqn:Hop.
    - destruct (request_op_inv _ _ Hop) as (cmd & Hn & _).
      rewrite (dispatch_data clk false false _ _ _ _ Hn eq_refl Hop) in E.
      apply bind_Ok in E as ([r eng] & Er & E). res_inv.
      rewrite (dispatch_data (D := perfect_disk) clk false false _ _ _ _ Hn eq_refl Hop). cbn [storage scratch].
      rewrite Er. cbn [mbind res_bind]. eexists _, _, _. split_and!; [done|done|].
      by destruct (storage_log_all (D := perfect_disk) false (journal clk req op r)
        (with_storage eng (counted (scratch (shared s))))) as [-> ->].
    - pose proof (dispatch_other clk false false req (shared s) Hop) as H1.
      pose proof (dispatch_other (D := perfect_disk) clk false false req (scratch (shared s)) Hop) as H2.
      destruct (expire_overflows req && _); [congruence|].
      destruct H1 as (r1 & c1 & E1 & (_ & _ & Ha1 & Hm1) & Hs1), H2 as (r2 & c2 & E2 & (_ & _ & Ha2 & Hm2) & Hs2).
      rewrite E in E1. injection E1 as <- <-. exists r2, c2, []. split_and!; [done|done|].
      cbn. rewrite Hm2, (Hs2 Hcfg). cbn. rewrite <- (Hs1 Hcfg). destruct c'; cbn in *. by subst. }
  destruct (dispatch_scratch _ _ _ _ _ E2) as [Hd Hl]. rewrite Hes in Hd, Hl.
  destruct (write_alone i req es (pending s) (called i req c2 es s)) as (xs & s' & Hx & Hxs & Hsh & Hps); [done| |].
  { by rewrite called_eq. }
  exists xs, s'. split_and!; [|done|rewrite Hsh; exact Hc'|by rewrite Hps, delete_id].
  cbn [acts act]. rewrite Hi. assert (act (ARequest i clk req) s = Some (called i req c2 es s)) as Ha.
  { cbn [act]. rewrite Hi, E2, Hes. by destruct (request_op req) as [[]|]. }
  cbn [act] in Ha. rewrite Hi in Ha. rewrite Ha. exact Hx.
Qed.

(** ... and with one. *)
Lemma loop_alone i clk req s res c' ks :
  pending s !! i = None -> request_op req = Some (KDel ks) \/ request_op req = Some (KExists ks) ->
  dispatch clk false false req (shared s) = Ok (res, c') ->
  exists xs s', acts (ARequest i clk req :: xs) s = Some s' /\ Forall (own i) xs /\
    shared s' = c' /\ pending s' = pending s.
Proof.
  intros Hi Hop E. assert (forall n, Forall (own i) (replicate n (AKey i))) as Hkeys.
  { intros n. apply Forall_replicate. by left. }
  assert (exists cmd, cmd_name req = Some cmd) as [cmd Hn].
  { destruct Hop as [Hop|Hop]; destruct (request_op_inv _ _ Hop) as (cmd & ? & _); eauto. }
  destruct Hop as [Hop|Hop]; rewrite (dispatch_data clk false false _ _ _ _ Hn eq_refl Hop) in E;
    apply bind_Ok in E as ([r eng] & Er & E); cbn [run_op] in Er;
    apply bind_Ok in Er as ([n eng'] & Er & E'); res_inv; unfold del, exists_ in Er.
  - set (s0 := mkCState (counted (shared s)) (<[i := Deleting req ks 0]> (pending s)) (writes s) (executed s)).
    assert (acts (replicate (length ks) (AKey i)) s0 = Some (mkCState (with_storage eng (counted (shared s)))
      (<[i := Deleting req [] n]> (pending s)) (writes s) (executed s))) as HK.
    { erewrite (keys_alone (Deleting req) del_locked i ks 0); [|by intros k ks' n' s' Hs'; cbn [act]; rewrite Hs'|
        apply lookup_insert_eq|done|exact Er]. cbn. by rewrite insert_insert_eq. }
    destruct (del_finish_scratch req n (with_storage eng (counted (shared s)))) as (Hd & Hl & Hst & Hme).
    destruct (del_finish false req n (scratch _)) as [res2 c2] eqn:Hfin. cbn [snd] in *.
    set (s1 := mkCState (with_storage eng (counted (shared s))) (<[i := Deleting req [] n]> (pending s))
      (writes s) (executed s)) in *.
    destruct (write_alone i req (due_del req n) (pending s1) (called i req c2 (due_del req n) s1))
      as (xs & s' & Hx & Hxs & Hsh & Hps); [done|by rewrite called_eq|].
    exists (replicate (length ks) (AKey i) ++ AEnd i :: xs), s'. split_and!.
    + cbn [acts act]. rewrite Hi, Hop. cbn [mbind option_bind]. fold s0. rewrite acts_app, HK. cbn [mbind option_bind acts act].
      cbn [pending s1]. rewrite lookup_insert_eq. cbn [shared s1]. rewrite Hfin. exact Hx.
    + apply Forall_app. split; [done|]. constructor; [by right; left|done].
    + rewrite Hsh. rewrite called_eq by done. cbn [shared]. rewrite Hst, Hme. unfold due_del.
      by rewrite (request_del_keys _ _ Hop).
    + rewrite Hps. cbn. by rewrite delete_insert_id.
  - set (s0 := mkCState (counted (shared s)) (<[i := Counting (engine_now clk) req ks 0]> (pending s)) (writes s) (executed s)).
    assert (acts (replicate (length ks) (AKey i)) s0 = Some (mkCState (with_storage eng (counted (shared s)))
      (<[i := Counting (engine_now clk) req [] n]> (pending s)) (writes s) (executed s))) as HK.
    { erewrite (keys_alone (Counting (engine_now clk) req) (fun key => exists_locked key (engine_now clk)) i ks 0);
        [|by intros k ks' n' s' Hs'; cbn [act]; rewrite Hs'|apply lookup_insert_eq|done|exact Er].
      cbn. by rewrite insert_insert_eq. }
    exists (replicate (length ks) (AKey i) ++ [AEnd i]). eexists. split_and!.
    + cbn [acts act]. rewrite Hi, Hop. cbn [mbind option_bind]. fold s0. rewrite acts_app, HK. cbn [mbind option_bind acts act].
      cbn [pending]. rewrite lookup_insert_eq. done.
    + apply Forall_app. split; [done|]. constructor; [by right; left|done].
    + done.
    + cbn. by rewrite delete_insert_id.
Qed.

(** A request whose steps are not separated is [dispatch]. *)
Lemma request_alone i clk req s res c' :
  pending s !! i = None -> cmd_name req <> Some (lit "CONFIG") ->
  dispatch clk false false req (shared s) = Ok (res, c') ->
  exists xs s', acts (ARequest i clk req :: xs) s = Some s' /\ Forall (own i) xs /\
    shared s' = c' /\ pending s' = pending s.
Proof.
  intros Hi Hcfg E. destruct (request_op req) as [[]|] eqn:Hop;
    try (by eapply loop_alone; [done|eauto|done]); eapply call_alone; try done; by rewrite Hop.
Qed.

End log.

(** ** Properties *)

(** C38. Concurrent clients lose no log entry: whatever the interleaving of the
    steps of any number of threads (engine calls, the rounds of [DEL] and
    [EXISTS], writes to the file) and of the sweeper, on a disk that works the
    file holds its old content and then exactly the writes in their order; and
    what the dispatcher hands to these writes are, up to the order, the
    serialized journal entries of the executed requests, each once: those
    written and those of threads that are about to write. When no thread is in
    between, the file has them all. *)
Theorem concurrent_log_complete `{PlatformLaws} `{D : Disk} c l s :
  reliable D -> aof c = Some l -> ready l -> rtc cstep (mkCState c ∅ [] []) s ->
  aof (shared s) = Some (mkAOF (filepath l) true true (file l ++ concat (writes s))) /\
  (serialize <$> executed s) ≡ₚ writes s ++ in_flight (pending s) /\
  (pending s = ∅ -> (serialize <$> executed s) ≡ₚ writes s).
Proof.
  intros HD Ha Hl Hr. destruct (log_inv_reachable l (mkCState c ∅ [] []) s HD (log_inv_start l c Ha Hl) Hr) as [H1 H2].
  split_and!; [done|done|]. intros Hp. rewrite H2, Hp. unfold in_flight. rewrite map_to_list_empty.
  cbn. by rewrite app_nil_r.
Qed.

(** Two clients set the same key; the one that was later in the engine is
    first in the file. *)
Definition set_a : RESPValue := request ["SET"; "k"; "a"].
Definition set_b : RESPValue := request ["SET"; "k"; "b"].

Definition race0 : CState := mkCState ctx0 ∅ [] [].

Definition race_actions : list action :=
  [ARequest 1 (clk_at 1000) set_a; ARequest 2 (clk_at 1001) set_b; AWrite 2; AWrite 1].

Definition after_acts (xs : list action) : CState := default race0 (acts xs race0).
Definition can_act (xs : list action) : bool := match acts xs race0 with Some _ => true | None => false end.

Lemma after_acts_eq xs : can_act xs = true -> acts xs race0 = Some (after_acts xs).
Proof. unfold can_act, after_acts. by destruct (acts xs race0). Qed.

Definition race4 : CState := after_acts race_actions.

Lemma race_steps : rtc cstep race0 race4.
Proof. apply (acts_cstep race_actions), after_acts_eq. vm_compute. reflexivity. Qed.

(** A client deletes two keys; between its two rounds another one sets the first
    key again, and the sweeper passes. *)
Definition del_actions : list action :=
  [ARequest 1 (clk_at 1000) set_a; AWrite 1; ARequest 2 (clk_at 1001) (request ["DEL"; "k"; "q"]);
   AKey 2; ARequest 1 (clk_at 1002) set_b; ASweep 1003 (fun _ => true); AKey 2; AEnd 2; AWrite 1].

Lemma concurrent_log_complete_witness :
  (serialize <$> executed (after_acts del_actions)) ≡ₚ
    writes (after_acts del_actions) ++ in_flight (pending (after_acts del_actions)) /\
  executed (after_acts del_actions) = [set_a; set_b; request ["DEL"; "k"; "q"]] /\
  writes (after_acts del_actions) = [serialize set_a; serialize set_b] /\
  (file <$> aof (shared race4) = Some (concat (writes race4)) /\ (serialize <$> executed race4) ≡ₚ writes race4).
Proof.
  destruct (concurrent_log_complete ctx0 (mkAOF (lit "appendonly.aof") true true []) (after_acts del_actions)
    perfect_disk_reliable eq_refl (conj eq_refl eq_refl)
    (acts_cstep del_actions _ _ (after_acts_eq del_actions ltac:(vm_compute; reflexivity)))) as (_ & H1 & _).
  destruct (concurrent_log_complete ctx0 (mkAOF (lit "appendonly.aof") true true []) race4
    perfect_disk_reliable eq_refl (conj eq_refl eq_refl) race_steps) as (H2 & _ & H3).
  split; [exact H1|]. split; [vm_compute; reflexivity|]. split; [vm_compute; reflexivity|].
  split; [by rewrite H2|]. apply H3, map_size_empty_iff. vm_compute. reflexivity.
Defined.

(** C39. The order is not kept: two clients that set the same key at the same
    time can leave the engine with the value of one and the file with the
    value of the other in last place, so that a restart, and every replica,
    has a different value from then on. *)
Theorem concurrent_set_diverges :
  rtc cstep race0 race4 /\ pending race4 = ∅ /\
  live 6000 (elookup (lit "k") (storage (shared race4))) = Some (lit "b", 0) /\
  let log := from_option file [] (aof (shared race4)) in
  let restarted := got (@load_aof _ perfect_disk libstdcxx_alloc replay_clock false (Some log) ctx0)
                     (0%nat, ctx0) in
  live 6000 (elookup (lit "k") (storage restarted.2)) = Some (lit "a", 0).
Proof.
  split; [apply race_steps|]. split; [apply map_size_empty_iff; vm_compute; reflexivity|].
  split_and!; vm_compute; reflexivity.
Qed.
