(* ===== verification/Recovery.v ===== *)
(** * Restart after concurrent commands

    [Interleaving] shows that commands of different clients on one key can be
    logged in the other order. Here the converse: when no two commands that are
    in flight at the same time name a common key, the file keeps the order of
    the commands of every key, and a restart, even from a crash while commands
    are in flight, recovers every key that none of these names.

    The two readings of the clock that [EXPIRE] makes, one in the engine and one
    for the log, may differ by [delta]: then the deadlines of the restarted
    server are later than those of the running one by at most [delta]. *)

From S2P Require Import Prelude CppStd RESP RESPProofs UnorderedMap Storage StdPlatform StorageProofs StorageSpec StorageRefine AOF Dispatcher DispatcherProofs Connection Server ServerProofs ServerTheorems Effects Interleaving.

(** ** Entries that differ by the skew of a clock *)

(** [o] is live on the running server at time [t]; [b] is what the log makes of
    the key: the same value with a deadline later by at most [delta], or an entry
    that has expired when the replay starts. *)
Definition near (delta t : Z) (o b : option (bytes * Z)) : Prop :=
  match o, b with
  | Some (v, d), Some (v', d') => v = v' /\ ((d = 0 /\ d' = 0) \/ 0 < d <= d' /\ d' <= d + delta)
  | None, None => True
  | None, Some (_, d') => 0 < d' <= t + delta
  | Some _, None => False
  end.

(** What a client sees at time [now] of a key on the running server ([o]) and on
    the restarted one ([o']): the same, except that deadlines may be later by at
    most [delta], so that a key may outlive its deadline by [delta]. *)
Definition agrees (delta now : Z) (o o' : option (bytes * Z)) : Prop :=
  match o, o' with
  | Some (v, d), Some (v', d') => v = v' /\ (d' = d \/ 0 < d < d' /\ d' <= d + delta)
  | None, None => True
  | None, Some (_, d') => now < d' <= now + delta
  | Some _, None => False
  end.

Lemma agrees_0 now o o' : agrees 0 now o o' <-> o = o'.
Proof.
  destruct o as [[v d]|], o' as [[v' d']|]; cbn; split; try done; try lia.
  - intros [-> [->|?]]; [done|lia].
  - intros [= -> ->]. auto.
Qed.

Lemma near_agrees delta now o b :
  match o with Some (_, d) => alive now d = true | None => True end ->
  near delta now o b -> agrees delta now o (at_time now b).
Proof.
  unfold alive. destruct o as [[v d]|], b as [[v' d']|]; cbn; try done; unfold alive.
  - intros Ha [-> Hd]. destruct (Z.ltb_spec 0 d), (Z.leb_spec d now), (Z.ltb_spec 0 d'), (Z.leb_spec d' now);
      cbn in *; try done; try lia; split; auto; destruct Hd as [[-> ->]|Hd]; auto;
      destruct (decide (d' = d)); auto; right; lia.
  - intros _ Hd. destruct (Z.ltb_spec 0 d'), (Z.leb_spec d' now); cbn; try done; lia.
Qed.

(** A live map against the effects of a log, and what time does to both. *)
Lemma near_time delta t t' o b : 0 <= delta -> t <= t' -> near delta t o b ->
  near delta t' (match o with Some x => if alive t' x.2 then Some x else None | None => None end) b.
Proof.
  intros Hd Ht. destruct o as [[v d]|], b as [[v' d']|]; cbn; try done; [|lia].
  intros [-> H]. unfold alive. destruct (Z.ltb_spec 0 d), (Z.leb_spec d t'); cbn; auto; lia.
Qed.

(** ** One command *)

(** The two readings of [EXPIRE] are equal, or the second is later by at most
    [delta] and neither deadline wraps around or is the 0 that means none. *)
Definition skew_ok (delta : Z) (clk : Clock) (op : kv_op) : bool :=
  match op with
  | KExpire _ off =>
      (dispatch_now clk =? engine_now clk) ||
      ((engine_now clk <=? dispatch_now clk) && (dispatch_now clk <=? engine_now clk + delta) &&
       (0 <? engine_now clk + off) && (dispatch_now clk + off <? two64))
  | _ => true
  end.

(** The entry of a live map that the call touches does not expire before [T]. *)
Definition touch_ok (T : Z) (op : kv_op) (m : kv_state) : Prop :=
  forall k v d, touched op = Some k -> m !! k = Some (v, d) -> late T d = true.

Lemma near_lasting delta t T0 T o b : 0 <= delta -> t + delta <= T0 -> T0 <= T ->
  near delta t o b -> (forall v d, o = Some (v, d) -> late T d = true) ->
  settled T0 T b = true /\
  match o with
  | Some (v, d) => exists d', lasting T b = Some (v, d') /\ ((d = 0 /\ d' = 0) \/ 0 < d <= d' /\ d' <= d + delta)
  | None => lasting T b = None
  end.
Proof.
  intros H0 H1 H2 Hn Hl. destruct o as [[v d]|], b as [[v' d']|]; cbn in *; try done.
  - destruct Hn as [<- Hd]. specialize (Hl v d eq_refl).
    assert (late T d' = true) as Hl'.
    { unfold late in *. destruct (Z.eqb_spec d 0), (Z.eqb_spec d' 0), (Z.ltb_spec T d), (Z.ltb_spec T d');
        cbn in *; try done; lia. }
    rewrite Hl'. eauto.
  - assert (late T d' = false) as ->.
    { unfold late. destruct (Z.eqb_spec d' 0), (Z.ltb_spec T d'); cbn; done || lia. }
    split; [|done]. cbn. apply andb_true_iff. split; [apply Z.ltb_lt|apply Z.leb_le]; lia.
Qed.

Lemma key_ready_settled T0 T op k b : settled T0 T b = true ->
  (forall delta, op = KIncr k /\ delta = 1 \/ op = KDecr k /\ delta = -1 -> counter_fits T delta b = true) ->
  op_keys op = [k] -> key_ready T0 T op k b = true.
Proof.
  intros Hs Hc Hk. unfold key_ready. apply orb_true_iff. right.
  destruct op; try done; cbn in Hk; simplify_eq; rewrite Hs; cbn; auto.
Qed.

Lemma counter_start_near o b n d T : counter_start o = Some (n, d) ->
  match o with Some (v, d) => exists d', lasting T b = Some (v, d') | None => lasting T b = None end ->
  exists d', counter_start (lasting T b) = Some (n, d').
Proof.
  destruct o as [[v d0]|]; cbn; [|intros [= <- <-] ->; by eexists].
  intros Hs [d' ->]. cbn. destruct (_ && _); [|done]. injection Hs as -> _. by eexists.
Qed.

(** A call changes no key it does not name. *)
Lemma spec_step_other now op res m m1 j :
  spec_step false now op res m m1 -> j ∉ op_keys op -> m1 !! j = m !! j.
Proof.
  intros Hs Hni. inversion Hs as [k v ? ? [_ Hk] _| | |ks n ? ? Hd _| |k o ? ? Hc|k o ? ? Hc
    |k off ? v d Hm| |k t0 ? v d Hm| | |k ? v d Hm Hd|]; subst; cbn in Hni; try done;
    try (rewrite list_elem_of_singleton in Hni).
  - by rewrite Hk, lookup_insert_ne by congruence.
  - by rewrite lookup_delete_all, bool_decide_eq_false_2.
  - inversion Hc as [|? ? ? ? _ _ [_ Hk] _|]; subst; [done| |done]. by rewrite Hk, lookup_insert_ne by congruence.
  - inversion Hc as [|? ? ? ? _ _ [_ Hk] _|]; subst; [done| |done]. by rewrite Hk, lookup_insert_ne by congruence.
  - unfold put_deadline. destruct (alive _ _); [rewrite lookup_insert_ne|rewrite lookup_delete_ne]; congruence.
  - unfold put_deadline. destruct (alive _ _); [rewrite lookup_insert_ne|rewrite lookup_delete_ne]; congruence.
  - by rewrite lookup_insert_ne by congruence.
Qed.

Section step.
Context (delta t T0 T : Z) (H0 : 0 <= delta) (H1 : t + delta <= T0) (H2 : T0 <= T).

(** The counters. *)
Lemma near_counter dl k o m m1 b : is_Some o ->
  counter_step false dl k o m m1 -> (forall v d, m !! k = Some (v, d) -> late T d = true) ->
  near delta t (m !! k) b ->
  near delta t (m1 !! k) (counter_effect T dl b) /\ settled T0 T b = true /\ counter_fits T dl b = true.
Proof.
  intros [n1 ->] Hs Hl Hn. destruct (near_lasting delta t T0 T _ _ H0 H1 H2 Hn Hl) as [Hset Hlast].
  inversion Hs as [|? ? n d Hst Hin [_ Hkept] _|]; subst. rewrite Hkept, lookup_insert_eq by done.
  unfold counter_effect, counter_fits.
  destruct (m !! k) as [[v d0]|]; cbn in Hst.
  - destruct Hlast as (d' & -> & Hd). cbn. destruct (_ && _); [|done]. injection Hst as <- <-. done.
  - rewrite Hlast. cbn. injection Hst as <- <-. split_and!; try done. auto.
Qed.

(** A deadline given to a live key. *)
Lemma near_deadline k v d D D' m b : (forall v d, m !! k = Some (v, d) -> late T d = true) ->
  near delta t (m !! k) b -> m !! k = Some (v, d) ->
  (D = D' /\ 0 <= D \/ 0 < D <= D' /\ D' <= D + delta) ->
  near delta t (put_deadline t k v D m !! k) ((fun vd => (vd.1, D')) <$> lasting T b) /\ settled T0 T b = true.
Proof.
  intros Hl Hn Hm HD. destruct (near_lasting delta t T0 T _ _ H0 H1 H2 Hn Hl) as [Hset Hlast].
  rewrite Hm in Hlast. destruct Hlast as (d' & -> & _). split; [|done]. cbn. unfold put_deadline.
  unfold alive. destruct (Z.ltb_spec 0 D), (Z.leb_spec D t); cbn;
    rewrite ?lookup_insert_eq, ?lookup_delete_eq; cbn; try lia; split; try done; lia.
Qed.

(** A command of the running server against its journal entry in the log. *)
Lemma near_step clk req op res m m1 j b :
  engine_now clk = t -> op_wf op = true -> skew_ok delta clk op = true -> touch_ok T op m ->
  spec_step false t op res m m1 -> journal clk req op res <> [] ->
  near delta t (m !! j) b ->
  near delta t (m1 !! j) (key_effect T (replay_of (dispatch_now clk) op) j b) /\
  key_ready T0 T (replay_of (dispatch_now clk) op) j b = true.
Proof.
  intros Hclk Hw Hsk Htl Hs Hj Hn.
  assert (engine_now clk - t = 0) as Hct by lia. clear Hclk.
  destruct (decide (j ∈ op_keys (replay_of (dispatch_now clk) op))) as [Hin|Hni].
  2: { unfold key_effect, key_ready. rewrite bool_decide_eq_false_2 by done. split; [|done].
       rewrite (spec_step_other _ _ _ _ _ _ Hs); [done|]. by destruct op. }
  unfold key_effect. rewrite bool_decide_eq_true_2 by done.
  assert (forall k, touched op = Some k -> op_keys (replay_of (dispatch_now clk) op) = [k] ->
    j = k /\ (forall v d, m !! j = Some (v, d) -> late T d = true)) as Htk.
  { intros k Hk Ho. rewrite Ho, list_elem_of_singleton in Hin. subst. split; [done|]. intros v d. by apply Htl. }
  inversion Hs as [k v ? ? [_ Hk] _|k v ? ? Hb _| |ks n ? ? Hd _| |k o ? ? Hc|k o ? ? Hc
    |k off ? v d Hm|k off ? Hm|k t0 ? v d Hm|k t0 ? Hm| |k ? v d Hm Hd|k ? Hm]; subst m1 op res; subst;
    cbn in Hj; try done; cbn [replay_of named_effect] in *.
  - apply list_elem_of_singleton in Hin as ->. rewrite Hk, lookup_insert_eq by done.
    split; [cbn; auto|by apply key_ready_untouched].
  - rewrite lookup_delete_all, bool_decide_eq_true_2 by done. split; [done|by apply key_ready_untouched].
  - destruct (Htk k eq_refl eq_refl) as [-> Hl].
    destruct (near_counter 1 k o m m' b) as (N1 & N2 & N3); try done; [by destruct o|].
    split; [done|]. apply key_ready_settled; [done| |done]. by intros ? [[_ ->]|[? _]].
  - destruct (Htk k eq_refl eq_refl) as [-> Hl].
    destruct (near_counter (-1) k o m m' b) as (N1 & N2 & N3); try done; [by destruct o|].
    split; [done|]. apply key_ready_settled; [done| |done]. by intros ? [[? _]|[_ ->]].
  - destruct (Htk k eq_refl eq_refl) as [-> Hl].
    destruct (near_deadline k v d (u64 (t + off)) (u64 (dispatch_now clk + off)) m b) as [N1 N2]; try done.
    { cbn in Hsk. apply orb_true_iff in Hsk as [Hsk|Hsk]; zb.
      - left. split; [f_equal; lia|]. apply u64_range.
      - right. rewrite !u64_small by lia. lia. }
    split; [done|]. apply key_ready_settled; [done| |done]. by intros ? [[? _]|[? _]].
  - destruct (Htk k eq_refl eq_refl) as [-> Hl].
    destruct (near_deadline k v d t0 t0 m b) as [N1 N2]; try done.
    { left. split; [done|]. by apply is_u64_spec in Hw as [? _]. }
    split; [done|]. apply key_ready_settled; [done| |done]. by intros ? [[? _]|[? _]].
  - destruct (Htk k eq_refl eq_refl) as [-> Hl].
    destruct (near_deadline k v d 0 0 m b) as [N1 N2]; try done; [by left|].
    unfold put_deadline in N1. cbn in N1.
    split; [done|]. apply key_ready_settled; [done| |done]. by intros ? [[? _]|[? _]].
Qed.

End step.

(** ** Interleavings in which commands in flight are apart *)

(** The keys a request names, and those of a thread that has still to log. *)
Definition request_keys (req : RESPValue) : list bytes := from_option op_keys [] (request_op req).

Definition flight_keys (t : thread) : list bytes :=
  match t with Deleting req _ _ | Writing req _ => request_keys req | Counting _ _ _ _ => [] end.

Section recover.
Context `{PL : PlatformLaws} `{D : Disk} `{VA : VectorAlloc}.

(** The touched entry of the engine does not expire before [T]. *)
Definition touch_late (T now : Z) (op : kv_op) (eng : StorageEngine) : bool :=
  match touched op ≫= (fun k => live now (elookup k eng)) with
  | Some (_, d) => late T d
  | None => true
  end.

(** A safe request: well-formed, with no more arguments than an [int] can count,
    not a change of the memory limit; for [EXPIRE], clock readings within [delta];
    and the key it touches is not live with a deadline up to [T]. *)
Definition safe_request (T delta : Z) (clk : Clock) (req : RESPValue) (eng : StorageEngine) : bool :=
  wf req && (Z.of_nat (argc req) <=? INT_MAX) && negb (bool_decide (cmd_name req = Some (lit "CONFIG"))) &&
  match request_op req with
  | Some op => skew_ok delta clk op && touch_late T (engine_now clk) op eng
  | None => true
  end.

Lemma safe_request_inv T delta clk req eng : safe_request T delta clk req eng = true ->
  wf req = true /\ Z.of_nat (argc req) <= INT_MAX /\ cmd_name req <> Some (lit "CONFIG") /\
  forall op, request_op req = Some op -> skew_ok delta clk op = true /\ touch_late T (engine_now clk) op eng = true.
Proof.
  intros [[[Hw Hl]%andb_true_iff Hc]%andb_true_iff Hop]%andb_true_iff. split_and!; [done|lia| |].
  - apply negb_true_iff, bool_decide_eq_false in Hc. done.
  - intros op Ho. rewrite Ho in Hop. by apply andb_true_iff.
Qed.

(** A command names no key of a command in flight; reading commands need not
    care. *)
Definition apart (req : RESPValue) (s : CState) : bool :=
  match request_op req with
  | Some op =>
      negb (mutates op) ||
      forallb (fun p => forallb (fun k => negb (bool_decide (k ∈ flight_keys p.2))) (op_keys op))
        (map_to_list (pending s))
  | None => true
  end.

Lemma apart_inv req s op i t k : apart req s = true -> request_op req = Some op -> mutates op = true ->
  pending s !! i = Some t -> k ∈ op_keys op -> k ∉ flight_keys t.
Proof.
  unfold apart. intros Ha Hop Hm Hp Hk. rewrite Hop, Hm in Ha. cbn in Ha. rewrite forallb_forall in Ha.
  specialize (Ha (i, t)). rewrite <- list_elem_of_In, elem_of_map_to_list in Ha. specialize (Ha Hp). cbn in Ha.
  rewrite forallb_forall in Ha. specialize (Ha k). rewrite <- list_elem_of_In in Ha. specialize (Ha Hk).
  by apply negb_true_iff, bool_decide_eq_false in Ha.
Qed.

Lemma apart_alone req s : pending s = ∅ -> apart req s = true.
Proof. unfold apart. intros ->. destruct (request_op req); [|done]. rewrite map_to_list_empty. apply orb_true_r. Qed.

Definition safe_action (T0 T delta t : Z) (x : action) (s : CState) : bool :=
  match x with
  | ARequest _ clk req =>
      (t <=? engine_now clk) && (engine_now clk + delta <=? T0) &&
      safe_request T delta clk req (storage (shared s)) && apart req s
  | ASweep now _ => (t <=? now) && (now + delta <=? T0)
  | _ => true
  end.

Definition action_time (t : Z) (x : action) : Z :=
  match x with ARequest _ clk _ => engine_now clk | ASweep now _ => now | _ => t end.

(** The interleavings of the theorem: the steps of [cstep] that are safe, with
    the last clock reading. *)
Definition dstep (T0 T delta : Z) (x y : Z * CState) : Prop :=
  exists a, act a x.2 = Some y.2 /\ safe_action T0 T delta x.1 a x.2 = true /\ y.1 = action_time x.1 a.

Lemma dstep_cstep T0 T delta x y : dstep T0 T delta x y -> cstep x.2 y.2.
Proof. intros (a & Ha & _). by exists a. Qed.

(** A list of steps that are safe. *)
Fixpoint safe_acts (T0 T delta t : Z) (xs : list action) (s : CState) : option (Z * CState) :=
  match xs with
  | [] => Some (t, s)
  | x :: xs' => if safe_action T0 T delta t x s then s ← act x s; safe_acts T0 T delta (action_time t x) xs' s else None
  end.

Lemma safe_acts_dstep T0 T delta xs t s y : safe_acts T0 T delta t xs s = Some y -> rtc (dstep T0 T delta) (t, s) y.
Proof.
  revert t s. induction xs as [|x xs IH]; intros t s E; cbn in E; [by simplify_eq|].
  destruct (safe_action _ _ _ _ _ _) eqn:Hs; [|done]. apply bind_Some in E as (s1 & E1 & E).
  apply (rtc_l _ _ (action_time t x, s1)); [by exists x|by apply IH].
Qed.

(** ** The order of the file *)

(** The file has the entries about [k] in the order of the engine; only the
    last of them may still be with its thread. *)
Definition key_order (k : bytes) (ex lg : list RESPValue) (du : gmap nat RESPValue) : Prop :=
  (about k ex = about k lg /\ forall i e, du !! i = Some e -> ~ names k e) \/
  (exists i e, du !! i = Some e /\ names k e /\ about k ex = about k lg ++ [e] /\
   forall j e', j <> i -> du !! j = Some e' -> ~ names k e').

(** An entry that can be written to the file and replayed. *)
Definition good_entry (e : RESPValue) : Prop := replay_entry e /\ wf e = true.

(** The log part of the invariant: [lg] are the entries of the file, [du] those
    of the threads about to write. *)
Record linv (l : AOFLogger) (s : CState) (du : gmap nat RESPValue) (lg : list RESPValue) : Prop := {
  l_file : aof (shared s) = Some (mkAOF (filepath l) true true (file l ++ flat_map serialize lg));
  l_writes : writes s = serialize <$> lg;
  l_due i e : du !! i = Some e -> good_entry e /\
    exists req, pending s !! i = Some (Writing req (serialize e)) /\ forall k, names k e -> k ∈ request_keys req;
  l_writing i req d : pending s !! i = Some (Writing req d) -> is_Some (du !! i);
  l_order k : key_order k (executed s) lg du;
  l_good : Forall good_entry lg;
  l_apart i j t t' k : i <> j -> pending s !! i = Some t -> pending s !! j = Some t' ->
    k ∈ flight_keys t -> k ∉ flight_keys t'
}.

Definition not_writing (t : thread) : Prop := match t with Writing _ _ => False | _ => True end.

Lemma du_none l s du lg i : linv l s du lg -> (forall t, pending s !! i = Some t -> not_writing t) -> du !! i = None.
Proof.
  intros HI Hi. destruct (du !! i) as [e|] eqn:E; [|done].
  destruct (l_due _ _ _ _ HI _ _ E) as (_ & req & Hp & _). by destruct (Hi _ Hp).
Qed.

(** A thread that does not write is added, replaced or removed. *)
Lemma linv_alter l s du lg i o c :
  linv l s du lg -> (forall t, pending s !! i = Some t -> not_writing t) ->
  (forall t, o = Some t -> not_writing t) -> aof c = aof (shared s) ->
  (forall t j t' k, o = Some t -> j <> i -> pending s !! j = Some t' -> k ∈ flight_keys t -> k ∉ flight_keys t') ->
  linv l (mkCState c (partial_alter (fun _ => o) i (pending s)) (writes s) (executed s)) du lg.
Proof.
  intros HI Hi Ho Hc Hap. pose proof (du_none _ _ _ _ i HI Hi) as Hdu. destruct HI as [I1 I1' I2 I3 I4 I5 I6].
  assert (forall j, j <> i -> partial_alter (fun _ => o) i (pending s) !! j = pending s !! j) as Hne
    by (intros j Hj; by rewrite lookup_partial_alter_ne).
  split; cbn [shared pending writes executed]; try done; [congruence|..].
  - intros j e Hj. destruct (decide (j = i)) as [->|Hn]; [congruence|]. rewrite (Hne j Hn). by apply I2.
  - intros j req d. destruct (decide (j = i)) as [->|Hn].
    + rewrite lookup_partial_alter_eq. intros ->. by destruct (Ho _ eq_refl).
    + rewrite (Hne j Hn). apply I3.
  - intros a b t t' k Hab. destruct (decide (a = i)) as [->|Ha], (decide (b = i)) as [->|Hb]; [done|..];
      rewrite ?lookup_partial_alter_eq, ?(Hne a), ?(Hne b) by done; [| |by apply I6].
    + intros -> Hb'. by apply (Hap t b).
    + intros Ha' -> Hk Hk'. by apply (Hap t' a t k).
Qed.

Lemma about_single k e : about k [e] = if decide (names k e) then [e] else [].
Proof. unfold about. rewrite filter_cons. by case_decide. Qed.

Lemma after_call_lookup i req es th : (length es <= 1)%nat ->
  after_call i req es th !! i = match es with [e] => Some (Writing req (serialize e)) | _ => None end /\
  forall j, j <> i -> after_call i req es th !! j = th !! j.
Proof.
  intros Hl. destruct es as [|e [|]]; [| |cbn in Hl; lia]; cbn.
  - split; [apply lookup_delete_eq|]. intros j Hj. by apply lookup_delete_ne.
  - split; [apply lookup_insert_eq|]. intros j Hj. by apply lookup_insert_ne.
Qed.

(** The engine part of a request is done. *)
Lemma linv_called l s du lg i req es c :
  linv l s du lg -> (length es <= 1)%nat -> (forall t, pending s !! i = Some t -> not_writing t) ->
  aof c = aof (shared s) ->
  (forall e, e ∈ es -> good_entry e /\ forall k, names k e -> k ∈ request_keys req) ->
  (forall j t k, es <> [] -> j <> i -> pending s !! j = Some t -> k ∈ request_keys req -> k ∉ flight_keys t) ->
  linv l (mkCState c (after_call i req es (pending s)) (writes s) (executed s ++ es))
    (match es with [e] => <[i := e]> du | _ => du end) lg.
Proof.
  intros HI Hl Hi Hc Hes Hap. pose proof (du_none _ _ _ _ i HI Hi) as Hdu.
  destruct (after_call_lookup i req es (pending s) Hl) as [Hat Hne].
  destruct es as [|e [|]]; [|clear Hl|cbn in Hl; lia].
  { rewrite app_nil_r. cbn [after_call].
    by apply (linv_alter l s du lg i None c). }
  destruct HI as [I1 I1' I2 I3 I4 I5 I6].
  destruct (Hes e ltac:(left)) as [Hg Hnm]. cbn [after_call] in *.
  split; cbn [shared pending writes executed]; try done; [congruence|..].
  - intros j e' Hj. destruct (decide (j = i)) as [->|Hn].
    + rewrite lookup_insert_eq in Hj. rewrite lookup_insert_eq. simplify_eq. eauto.
    + rewrite lookup_insert_ne in Hj by done. rewrite lookup_insert_ne by done. by apply I2.
  - intros j req' d. destruct (decide (j = i)) as [->|Hn].
    + rewrite !lookup_insert_eq. by eexists.
    + rewrite !lookup_insert_ne by done. apply I3.
  - intros k. unfold key_order. rewrite about_app, about_single. case_decide as Hk.
    + right. exists i, e. rewrite lookup_insert_eq.
      assert (forall j e', j <> i -> du !! j = Some e' -> ~ names k e') as Hoth.
      { intros j e' Hj He' Hk'. destruct (I2 _ _ He') as (_ & req' & Hp & Hnm').
        apply (Hap j _ k ltac:(done) Hj Hp (Hnm k Hk)). by apply Hnm'. }
      split_and!; [done|done| |].
      * destruct (I4 k) as [[-> _]|(j & e' & He' & Hk' & _)]; [done|].
        destruct (decide (j = i)) as [->|Hj]; [congruence|]. by destruct (Hoth j e' Hj He').
      * intros j e' Hj. rewrite lookup_insert_ne by done. by apply Hoth.
    + rewrite app_nil_r. destruct (I4 k) as [[E1 E2]|(j & e' & He' & Hk' & E & Hoth)].
      * left. split; [done|]. intros j e'. destruct (decide (j = i)) as [->|Hj];
          [rewrite lookup_insert_eq; by intros [= <-]|rewrite lookup_insert_ne by done; apply E2].
      * right. exists j, e'. assert (j <> i) by congruence. rewrite lookup_insert_ne by done.
        split_and!; [done..|]. intros j2 e2 Hj2. destruct (decide (j2 = i)) as [->|Hj3];
          [rewrite lookup_insert_eq; by intros [= <-]|rewrite lookup_insert_ne by done; by apply Hoth].
  - intros a b t t' k Hab. destruct (decide (a = i)) as [->|Ha], (decide (b = i)) as [->|Hb]; [done|..];
      rewrite ?lookup_insert_eq, ?lookup_insert_ne by done; [| |by apply I6].
    + intros [= <-] Hb'. by apply (Hap b).
    + intros Ha' [= <-] Hk Hk'. by apply (Hap a t k).
Qed.

(** A thread writes its entry. *)
Lemma linv_write l s du lg i req d : reliable D -> linv l s du lg -> pending s !! i = Some (Writing req d) ->
  exists e, linv l (mkCState (mkCtx (storage (shared s)) (log d <$> aof (shared s)) (metrics (shared s)))
    (delete i (pending s)) (writes s ++ [d]) (executed s)) (delete i du) (lg ++ [e]).
Proof.
  intros HD [I1 I1' I2 I3 I4 I5 I6] Hi. destruct (I3 _ _ _ Hi) as [e He].
  destruct (I2 _ _ He) as (Hg & req' & Hp & Hnm). simplify_eq. exists e.
  split; cbn [shared pending writes executed aof].
  - rewrite I1. cbn [fmap option_fmap option_map]. destruct (log_app (serialize e) (mkAOF (filepath l) true true (file l ++ flat_map serialize lg)) HD
      (conj eq_refl eq_refl)) as [-> _]. cbn. rewrite flat_map_app. cbn.
    by rewrite app_nil_r, app_assoc.
  - by rewrite I1', fmap_app.
  - intros j e' [Hn Hj]%lookup_delete_Some. rewrite lookup_delete_ne by done. by apply I2.
  - intros j r d' [Hn Hj]%lookup_delete_Some. rewrite lookup_delete_ne by done. by eapply I3.
  - intros k. unfold key_order. rewrite about_app, about_single.
    destruct (I4 k) as [[E1 E2]|(j & e' & He' & Hk' & E & Hoth)].
    + left. rewrite decide_False by (by eapply E2). rewrite app_nil_r. split; [done|].
      intros j e' [_ Hj]%lookup_delete_Some. by eapply E2.
    + destruct (decide (j = i)) as [->|Hj].
      * simplify_eq. left. rewrite decide_True by done. split; [done|].
        intros j e' [Hn Hj]%lookup_delete_Some. by eapply (Hoth j).
      * right. exists j, e'. rewrite lookup_delete_ne by done.
        rewrite decide_False by (by eapply (Hoth i)). rewrite app_nil_r. split_and!; [done..|].
        intros j2 e2 Hj2 [_ He2]%lookup_delete_Some. by eapply (Hoth j2).
  - apply Forall_app. split; [done|]. by constructor.
  - intros a b t t' k Hab [_ Ha]%lookup_delete_Some [_ Hb]%lookup_delete_Some. by eapply I6.
Qed.

(** ** The data *)

(** A thread that is deleting has removed keys, [k] is one it names. *)
Definition removing (k : bytes) (th : gmap nat thread) : Prop :=
  exists i req ks n, th !! i = Some (Deleting req ks n) /\ 0 < n /\ k ∈ arg_keys req.

(** What a thread in a loop has done: the keys that [DEL] has behind it are
    gone; [EXISTS] has read its clock. *)
Definition thread_ok (t : Z) (m : kv_state) (th : thread) : Prop :=
  match th with
  | Deleting req ks n =>
      request_op req = Some (KDel (arg_keys req)) /\ wf req = true /\ Z.of_nat (argc req) <= INT_MAX /\ 0 <= n /\
      (forall k, k ∈ ks -> k ∈ arg_keys req) /\ forall k, k ∈ arg_keys req -> k ∈ ks \/ m !! k = None
  | Counting now _ _ _ => 0 <= now <= t
  | Writing _ _ => True
  end.

(** The data part of the invariant: [m] are the live keys. *)
Record dinv (T0 T delta t : Z) (s : CState) (m : kv_state) : Prop := {
  d_time : 0 <= t /\ t + delta <= T0;
  d_wf : engine_wf (storage (shared s));
  d_bounded : bounded (storage (shared s)) = false;
  d_live : R t (storage (shared s)) m;
  d_near k : near delta t (m !! k) (effects T k (executed s) None) \/ (m !! k = None /\ removing k (pending s));
  d_chain k : chain T0 T k (executed s) None = true;
  d_threads i th : pending s !! i = Some th -> thread_ok t m th
}.

Lemma thread_ok_mono t t' m m' th : t <= t' -> (forall k, k ∈ flight_keys th -> m !! k = None -> m' !! k = None) ->
  thread_ok t m th -> thread_ok t' m' th.
Proof.
  intros Ht Hm. destruct th as [req ks n|now req ks n|req d]; cbn; [|lia|done].
  intros (H1 & H2 & H3 & H4 & H5 & H6). split_and!; try done. intros k Hk.
  destruct (H6 k Hk) as [?|?]; [by left|right]. apply Hm; [|done]. cbn. unfold request_keys. by rewrite H1.
Qed.

Lemma dinv_time T0 T delta t t' s m : 0 <= delta -> t <= t' -> t' + delta <= T0 ->
  dinv T0 T delta t s m -> dinv T0 T delta t' s (purge t' m).
Proof.
  intros Hd Ht H0 [I1 I2 I3 I4 I5 I6 I7]. split; try done.
  - lia.
  - by apply (R_time t).
  - intros k. rewrite lookup_purge. destruct (I5 k) as [Hn|[-> Hr]]; [left|by right]. by apply (near_time delta t).
  - intros i th Hi. apply (thread_ok_mono t t' m); [done| |by eapply I7]. intros k _ Hk. by rewrite lookup_purge, Hk.
Qed.

Lemma removing_put k i t th : (forall req ks n, th !! i = Some (Deleting req ks n) ->
    exists ks' n', t = Some (Deleting req ks' n') /\ n <= n') ->
  removing k th -> removing k (partial_alter (fun _ => t) i th).
Proof.
  intros Hi (j & req & ks & n & Hj & Hn & Hk). destruct (decide (j = i)) as [->|Hne].
  - destruct (Hi _ _ _ Hj) as (ks' & n' & -> & Hn'). exists i, req, ks', n'.
    rewrite lookup_partial_alter_eq. split_and!; [done|lia|done].
  - exists j, req, ks, n. by rewrite lookup_partial_alter_ne.
Qed.

(** The pending thread [i] changes, and the engine at most in what is not live. *)
Lemma dinv_alter T0 T delta t s m i o c ws :
  dinv T0 T delta t s m -> engine_wf (storage c) -> bounded (storage c) = false -> R t (storage c) m ->
  (forall req ks n, pending s !! i = Some (Deleting req ks n) -> exists ks' n', o = Some (Deleting req ks' n') /\ n <= n') ->
  (forall th, o = Some th -> thread_ok t m th) ->
  dinv T0 T delta t (mkCState c (partial_alter (fun _ => o) i (pending s)) ws (executed s)) m.
Proof.
  intros [I1 I2 I3 I4 I5 I6 I7] Hw Hb HR Hold Hnew. split; cbn [shared pending executed]; try done.
  - intros k. destruct (I5 k) as [?|[? ?]]; [by left|right]. split; [done|]. by apply removing_put.
  - intros j th. destruct (decide (j = i)) as [->|Hn];
      [rewrite lookup_partial_alter_eq|rewrite lookup_partial_alter_ne by done]; eauto.
Qed.

Lemma touch_late_ok T now op eng m : R now eng m -> touch_late T now op eng = true -> touch_ok T op m.
Proof.
  intros HR Ht k v d Hk Hm. unfold touch_late in Ht. rewrite Hk in Ht. cbn in Ht. by rewrite (HR k), Hm in Ht.
Qed.

(** What a command journals names only its keys. *)
Lemma journal_names clk req op r k e : request_op req = Some op ->
  e ∈ journal clk req op r -> names k e -> k ∈ request_keys req.
Proof.
  intros Hop He Hn. unfold request_keys. rewrite Hop. cbn.
  destruct (journal_entry clk req op r Hop) as [Hj|(e' & Hj & He')]; rewrite Hj in He.
  - by apply not_elem_of_nil in He.
  - apply list_elem_of_singleton in He as ->. unfold names in Hn. rewrite He' in Hn. by destruct op.
Qed.

Lemma journal_good clk req op r e : wf req = true -> Z.of_nat (argc req) <= INT_MAX -> request_op req = Some op ->
  e ∈ journal clk req op r -> good_entry e.
Proof.
  intros Hw Hl Hop He. split; [|by eapply journal_wf].
  destruct (journal_entry clk req op r Hop) as [Hj|(e' & Hj & He')]; rewrite Hj in He; [by apply not_elem_of_nil in He|].
  apply list_elem_of_singleton in He as ->. exists (replay_of (dispatch_now clk) op). split_and!; [done|by destruct op|].
  destruct (request_op_inv _ _ Hop) as (cmd & _ & Hnm & _). pose proof (named_op_keys _ _ _ Hnm).
  assert (length (loop_keys (replay_of (dispatch_now clk) op)) <= length (loop_keys op))%nat by (destruct op; cbn; lia). lia.
Qed.

Lemma after_call_removing i req es k th : (length es <= 1)%nat -> th !! i = None ->
  removing k th -> removing k (after_call i req es th).
Proof.
  intros Hl Hi (j & r & ks & n & Hj & Hn & Hk). exists j, r, ks, n.
  destruct (after_call_lookup i req es th Hl) as [_ Hne]. rewrite Hne by congruence. done.
Qed.

(** A call of the engine that is no loop, at its own time. *)
Lemma dinv_call T0 T delta s m i clk req op r eng c ws :
  0 <= delta -> T0 <= T -> T < two64 -> dinv T0 T delta (engine_now clk) s m -> pending s !! i = None ->
  safe_request T delta clk req (storage (shared s)) = true -> apart req s = true -> request_op req = Some op ->
  run_op op (engine_now clk) (evict_seed clk) (storage (shared s)) = Ok (r, eng) -> storage c = eng ->
  exists m', dinv T0 T delta (engine_now clk)
    (mkCState c (after_call i req (journal clk req op r) (pending s)) ws (executed s ++ journal clk req op r)) m'.
Proof.
  intros Hd HT0 HT [I1 I2 I3 I4 I5 I6 I7] Hi Hsafe Hap Hop E Hc.
  destruct (safe_request_inv _ _ _ _ _ Hsafe) as (_ & _ & _ & Hs0). destruct (Hs0 op Hop) as [Hsk Htl]. clear Hs0.
  pose proof (touch_late_ok _ _ _ _ _ I4 Htl) as Hto. pose proof (request_op_wf _ _ Hop) as Hw.
  destruct (run_op_refines _ _ _ _ _ _ _ I2 I4 E) as (m' & Hs & HR'). rewrite I3 in Hs.
  destruct (after_call_lookup i req (journal clk req op r) (pending s) (journal_length clk req op r)) as [Hat Hne].
  assert (forall k j t, journal clk req op r <> [] -> pending s !! j = Some t -> k ∈ flight_keys t -> m' !! k = m !! k) as Hother.
  { intros k j t Hj Hp Hk. apply (spec_step_other _ _ _ _ _ _ Hs). intros Hin.
    apply (apart_inv _ _ op j t k Hap Hop); try done. destruct (mutates op) eqn:Hm; [done|]. by rewrite reads_no_journal in Hj. }
  assert (journal clk req op r = [] -> m' = m) as Hsame by (by apply (journal_nil_unchanged _ _ _ _ _ _ _ Hs)).
  exists m'. split; cbn [shared pending executed]; rewrite ?Hc; try done.
  - apply (run_op_wf op (engine_now clk) (evict_seed clk) (storage (shared s)) r); try done. lia.
  - by rewrite (run_op_bounded _ _ _ _ _ _ E).
  - intros k. destruct (journal_entry clk req op r Hop) as [Hj|(e & Hj & He)].
    + rewrite (Hsame Hj), Hj, app_nil_r. cbn [after_call]. rewrite delete_id by done. apply I5.
    + assert (journal clk req op r <> []) as Hjn by (by rewrite Hj).
      destruct (I5 k) as [Hn|[Hm Hr]].
      * left. rewrite Hj, effects_app, effects_cons. unfold entry_effect. rewrite He.
        by apply (near_step delta (engine_now clk) T0 T Hd ltac:(lia) HT0 clk req op r m m' k).
      * right. split; [|apply after_call_removing; try done; apply journal_length].
        destruct Hr as (j & r' & ks & n & Hp & _ & Hk). rewrite (Hother k j _ Hjn Hp); [done|].
        destruct (I7 _ _ Hp) as [Hr _]. cbn. unfold request_keys. by rewrite Hr.
  - intros k. rewrite chain_app, I6. destruct (journal_entry clk req op r Hop) as [->|(e & Hj & He)]; [done|].
    assert (journal clk req op r <> []) as Hjn by (by rewrite Hj).
    rewrite Hj. cbn. rewrite He, andb_true_r. destruct (I5 k) as [Hn|[Hm Hr]].
    + by apply (near_step delta (engine_now clk) T0 T Hd ltac:(lia) HT0 clk req op r m m' k).
    + unfold key_ready. rewrite bool_decide_eq_false_2; [done|].
      destruct Hr as (j & r' & ks & n & Hp & _ & Hk). destruct (I7 _ _ Hp) as [Hr _]. intros Hin.
      apply (apart_inv _ _ op j (Deleting r' ks n) k Hap Hop); [|exact Hp|by destruct op|cbn; unfold request_keys; by rewrite Hr].
      destruct (mutates op) eqn:Hm'; [done|]. by rewrite reads_no_journal in Hjn.
  - intros j th Hj. destruct (decide (j = i)) as [->|Hji].
    { rewrite Hat in Hj. destruct (journal clk req op r) as [|e [|]]; simplify_eq; done. }
    rewrite Hne in Hj by done. apply (thread_ok_mono (engine_now clk) (engine_now clk) m); [done| |by eapply I7].
    intros k Hk Hm. destruct (decide (journal clk req op r = [])) as [Hjn|Hjn]; [by rewrite (Hsame Hjn)|].
    by rewrite (Hother k j th Hjn Hj Hk).
Qed.

(** A round of a key loop is a loop over one key. *)
Lemma key_round_count f k n eng n' eng' :
  key_round (f k) k n eng = Some (n', eng') -> count_keys f [k] n eng = Ok (n', eng').
Proof.
  unfold key_round. cbn [count_keys]. destruct (with_shard _ _ _) as [[b e]| | |]; [|done..].
  cbn [mbind res_bind]. destruct b; [destruct (_ <? _)|]; intros [= <- <-]; done.
Qed.

(** [DEL] handles a key. *)
Lemma dinv_del_key T0 T delta t s m i req k ks n n' eng :
  dinv T0 T delta t s m -> pending s !! i = Some (Deleting req (k :: ks) n) ->
  key_round (del_locked k) k n (storage (shared s)) = Some (n', eng) ->
  dinv T0 T delta t (mkCState (with_storage eng (shared s)) (<[i := Deleting req ks n']> (pending s))
    (writes s) (executed s)) (delete k m).
Proof.
  intros [I1 I2 I3 I4 I5 I6 I7] Hi E%key_round_count. pose proof (I7 _ _ Hi) as (H1 & H2 & H3 & H4 & H5 & H6).
  destruct (del_refines _ _ _ _ _ _ _ I4 E) as [Hc HR]. cbn [delete_all foldl] in Hc, HR.
  assert (n <= n' /\ (is_Some (m !! k) -> 0 < n')) as [Hn Hn'].
  { destruct (m !! k) as [x|] eqn:Em; [|rewrite delete_id in Hc by done; split; [lia|by intros [? ?]]].
    pose proof (map_size_delete_Some k m (mk_is_Some _ _ Em)).
    assert (size m <> 0%nat) by (intros Hz%map_size_empty_iff; subst; by rewrite lookup_empty in Em).
    split; [|intros _]; lia. }
  split; cbn [shared pending executed storage with_storage]; try done.
  - eapply count_keys_wf; [done| |exact E]. intros *. apply del_locked_frame.
  - rewrite <- I3. eapply count_keys_bounded; [|exact E]. intros * Ef. unfold del_locked in Ef. by locked_cases Ef.
  - intros j. assert (removing j (pending s) -> removing j (<[i := Deleting req ks n']> (pending s))) as Hrm.
    { apply removing_put. rewrite Hi. intros ? ? ? [= <- <- <-]. eauto. }
    destruct (decide (j = k)) as [->|Hjk]; [rewrite lookup_delete_eq|rewrite lookup_delete_ne by done].
    + pose proof (I5 k) as Hk. destruct (m !! k) eqn:Em; [right|destruct Hk as [?|[_ ?]]; auto].
      split; [done|]. exists i, req, ks, n'. rewrite lookup_insert_eq. split_and!; [done|auto|]. apply H5. by left.
    + destruct (I5 j) as [?|[? ?]]; auto.
  - intros j th. destruct (decide (j = i)) as [->|Hj]; [rewrite lookup_insert_eq|rewrite lookup_insert_ne by done].
    + intros [= <-]. split_and!; try done; [lia|intros; apply H5; by right|]. intros k' Hk'.
      destruct (decide (k' = k)) as [->|Hkk]; [rewrite lookup_delete_eq; by right|rewrite lookup_delete_ne by done].
      destruct (H6 k' Hk') as [[->|?]%elem_of_cons|?]; auto. done.
    + intros Hth. apply (thread_ok_mono t t m); [done| |by eapply I7]. intros k' _ Hk'.
      by apply lookup_delete_None; right.
Qed.

(** [EXISTS] handles a key: with its clock reading of some time ago, it changes
    nothing that is live. *)
Lemma dinv_exists_key T0 T delta t s m i now req k ks n n' eng :
  0 <= delta -> T0 < two64 ->
  dinv T0 T delta t s m -> pending s !! i = Some (Counting now req (k :: ks) n) ->
  key_round (exists_locked k now) k n (storage (shared s)) = Some (n', eng) ->
  dinv T0 T delta t (mkCState (with_storage eng (shared s)) (<[i := Counting now req ks n']> (pending s))
    (writes s) (executed s)) m.
Proof.
  intros Hd HT HI Hi E. pose proof HI as [I1 I2 I3 I4 I5 I6 I7]. pose proof (I7 _ _ Hi) as Hnow. cbn in Hnow.
  apply (dinv_alter _ _ _ _ _ _ i (Some (Counting now req ks n'))); cbn [storage with_storage]; try done.
  - apply (key_round_count (fun k => exists_locked k now)) in E. eapply count_keys_wf; [done| |exact E].
    intros * Ef. apply exists_locked_frame in Ef as [? Hf]. split; [done|]. intros; apply Hf; try done. lia.
  - apply (key_round_count (fun k => exists_locked k now)) in E. rewrite <- I3.
    eapply count_keys_bounded; [|exact E]. intros * Ef. unfold exists_locked in Ef. by locked_cases Ef.
  - unfold key_round in E. destruct (with_shard _ _ _) as [[b e]| | |] eqn:Es; [|done..].
    assert (e = eng) as -> by (destruct b; [destruct (_ <? _)|]; congruence).
    destruct (with_shard_lookup _ _ _ _ _ Es) as (d & d' & _ & E1 & E2 & Ef & Hf & _).
    destruct (exists_locked_frame _ _ _ _ _ _ _ Ef) as [Hs _].
    destruct (exists_locked_view _ _ _ _ _ _ _ Ef) as [_ Hv].
    apply (R_same t k (storage (shared s))); [done|by apply Hf|].
    by rewrite E1, E2, !(live_mono now t) by lia; rewrite Hv.
  - rewrite Hi. by intros.
  - by intros th [= <-].
Qed.

(** [DEL] ends, and its request is due for the log when it deleted a key. *)
Lemma dinv_del_end T0 T delta t s m i req n c ws :
  dinv T0 T delta t s m -> pending s !! i = Some (Deleting req [] n) -> storage c = storage (shared s) ->
  dinv T0 T delta t (mkCState c (after_call i req (due_del req n) (pending s)) ws (executed s ++ due_del req n)) m.
Proof.
  intros [I1 I2 I3 I4 I5 I6 I7] Hi Hc. pose proof (I7 _ _ Hi) as (H1 & H2 & H3 & H4 & H5 & H6).
  assert (length (due_del req n) <= 1)%nat as Hl by apply journal_length.
  destruct (after_call_lookup i req (due_del req n) (pending s) Hl) as [Hat Hne].
  assert (forall k, k ∈ arg_keys req -> m !! k = None) as Hgone.
  { intros k Hk. destruct (H6 k Hk) as [?%not_elem_of_nil|]; done. }
  assert (forall k, k ∉ arg_keys req \/ n <= 0 -> removing k (pending s) ->
    removing k (after_call i req (due_del req n) (pending s))) as Hrm.
  { intros k Hk (j & r' & ks' & n1 & Hj & Hn1 & Hin). exists j, r', ks', n1. rewrite Hne; [done|].
    intros ->. rewrite Hi in Hj. injection Hj as <- <- <-. destruct Hk; [done|lia]. }
  split; cbn [shared pending executed]; rewrite ?Hc; try done.
  - intros k. rewrite effects_app. unfold due_del, journal in *. destruct (Z.ltb_spec 0 n) as [Hn|Hn]; cbn in Hl |- *.
    + rewrite effects_cons. unfold entry_effect, key_effect. rewrite H1. cbn [op_keys].
      destruct (decide (k ∈ arg_keys req)) as [Hk|Hk].
      * left. by rewrite bool_decide_eq_true_2, (Hgone k) by done.
      * rewrite bool_decide_eq_false_2 by done. destruct (I5 k) as [?|[? ?]]; [by left|right]. auto.
    + destruct (I5 k) as [?|[? ?]]; [by left|right]. auto.
  - intros k. rewrite chain_app, I6. unfold due_del, journal. destruct (0 <? n); [|done].
    cbn. rewrite H1. by rewrite key_ready_untouched.
  - intros j th Hj. destruct (decide (j = i)) as [->|Hji].
    { rewrite Hat in Hj. destruct (due_del req n) as [|e [|]]; simplify_eq; done. }
    rewrite Hne in Hj by done. by eapply I7.
Qed.

Lemma dinv_sweep T0 T delta t s m owns : dinv T0 T delta t s m ->
  dinv T0 T delta t (mkCState (with_storage (sweep_pass owns t (storage (shared s))) (shared s))
    (pending s) (writes s) (executed s)) m.
Proof.
  intros [I1 I2 I3 I4 I5 I6 I7]. split; cbn [shared pending executed storage with_storage]; try done.
  - by apply sweep_pass_wf.
  - by rewrite sweep_pass_bounded.
  - by apply R_sweep.
Qed.

(** ** Every step *)

Definition inv (T0 T delta : Z) (l : AOFLogger) (x : Z * CState) : Prop :=
  (exists du lg, linv l x.2 du lg) /\ exists m, dinv T0 T delta x.1 x.2 m.

(** The engine part of a request that is no loop. *)
Lemma inv_call T0 T delta l s m i clk req du lg res c :
  0 <= delta -> T0 <= T -> T < two64 -> linv l s du lg -> dinv T0 T delta (engine_now clk) s m ->
  pending s !! i = None -> safe_request T delta clk req (storage (shared s)) = true -> apart req s = true ->
  @dispatch _ perfect_disk clk false false req (scratch (shared s)) = Ok (res, c) ->
  inv T0 T delta l (engine_now clk, called i req c (due clk req (storage (shared s))) s).
Proof.
  intros Hd HT0 HT HL HM Hi Hsafe Hap Ed.
  destruct (safe_request_inv _ _ _ _ _ Hsafe) as (Hw & Hargc & Hcfg & _).
  assert (forall t, pending s !! i = Some t -> not_writing t) as Hnw by congruence.
  destruct (dispatch_scratch _ _ _ _ _ Ed) as [Hdat Hl]. rewrite called_eq by done.
  unfold due in *. destruct (request_op req) as [op|] eqn:Hop.
  - destruct (request_op_inv _ _ Hop) as (cmd & Hn & _).
    rewrite (dispatch_data (D := perfect_disk) clk false false _ _ _ _ Hn eq_refl Hop) in Ed.
    apply bind_Ok in Ed as ([r eng] & Er & Ed). cbn [storage scratch] in Er. rewrite Er in *. res_inv.
    destruct (storage_log_all (D := perfect_disk) false (journal clk req op r)
      (with_storage eng (counted (scratch (shared s))))) as [Hst _].
    split; cbn [fst snd].
    + do 2 eexists. apply linv_called; [done|done|done|done| |].
      * intros e He. split; [by eapply journal_good|]. intros k. by apply (journal_names clk req op r).
      * intros j th k Hj Hji Hp Hk. apply (apart_inv _ _ op j th k Hap Hop); [|done|].
        -- destruct (mutates op) eqn:Hm; [done|]. by rewrite reads_no_journal in Hj.
        -- unfold request_keys in Hk. by rewrite Hop in Hk.
    + apply (dinv_call T0 T delta s m i clk req op r eng); try done.
  - pose proof (dispatch_other (D := perfect_disk) clk false false req (scratch (shared s)) Hop) as HO.
    destruct (expire_overflows req && _); [congruence|].
    destruct HO as (r2 & c2 & E2 & _ & Hs2). rewrite E2 in Ed. injection Ed as <- <-.
    specialize (Hs2 Hcfg). cbn in Hs2. split; cbn [fst snd].
    + exists du, lg. apply (linv_called l s du lg i req [] _ HL Hl Hnw); [done| |done].
      by intros e ?%not_elem_of_nil.
    + exists m. rewrite app_nil_r. cbn [after_call].
      apply (dinv_alter _ _ _ _ _ _ i None); cbn [storage]; rewrite ?Hs2; try done; try apply HM. by rewrite Hi.
Qed.

(** The start of a request. *)
Lemma inv_request T0 T delta l t s s' i clk req :
  reliable D -> 0 <= delta -> T0 <= T -> T < two64 -> inv T0 T delta l (t, s) ->
  safe_action T0 T delta t (ARequest i clk req) s = true -> act (ARequest i clk req) s = Some s' ->
  inv T0 T delta l (engine_now clk, s').
Proof.
  intros HD Hd HT0 HT [(du & lg & HL) (m & HM)] Hsa E. cbn in Hsa.
  apply andb_true_iff in Hsa as [[[Ht Ht0]%andb_true_iff Hsafe]%andb_true_iff Hap].
  apply Z.leb_le in Ht, Ht0.
  apply (dinv_time _ _ _ _ (engine_now clk)) in HM; [|done..]. cbn [fst snd] in *. cbn [act] in E.
  destruct (pending s !! i) as [th|] eqn:Hi; [done|].
  assert (forall t, pending s !! i = Some t -> not_writing t) as Hnw by congruence.
  destruct (safe_request_inv _ _ _ _ _ Hsafe) as (Hw & Hargc & Hcfg & _).
  assert (match @dispatch _ perfect_disk clk false false req (scratch (shared s)) with
      | Ok (_, c) => Some (called i req c (due clk req (storage (shared s))) s) | _ => None end = Some s' ->
      inv T0 T delta l (engine_now clk, s')) as Hcall.
  { destruct (dispatch _ _ _ _ _) as [[res c]| | |] eqn:Ed; [|done..]. intros [= <-]. by eapply inv_call. }
  destruct (request_op req) as [op|] eqn:Hop; [|by apply Hcall].
  destruct op as [| |ks|ks| | | | | |]; try by apply Hcall.
  - injection E as <-. split; cbn [fst snd].
    + exists du, lg. apply (linv_alter l s du lg i (Some (Deleting req ks 0))); try done; [by intros ? [= <-]|].
      intros th j t' k [= <-] Hj Hp Hk. apply (apart_inv _ _ (KDel ks) j t' k Hap Hop eq_refl Hp).
      cbn in Hk. unfold request_keys in Hk. by rewrite Hop in Hk.
    + exists (purge (engine_now clk) m).
      apply (dinv_alter _ _ _ _ _ _ i (Some (Deleting req ks 0))); try done; try apply HM; [by rewrite Hi|].
      intros th [= <-]. cbn. rewrite (request_del_keys _ _ Hop). split_and!; auto; done.
  - injection E as <-. split; cbn [fst snd].
    + exists du, lg. apply (linv_alter l s du lg i (Some (Counting (engine_now clk) req ks 0))); try done;
        [by intros ? [= <-]|]. by intros th j t' k [= <-] _ _ ?%not_elem_of_nil.
    + exists (purge (engine_now clk) m).
      apply (dinv_alter _ _ _ _ _ _ i (Some (Counting (engine_now clk) req ks 0))); try done; try apply HM;
        [by rewrite Hi|].
      intros th [= <-]. destruct HM as [? _]. cbn. lia.
Qed.

Lemma inv_step T0 T delta l x y :
  reliable D -> 0 <= delta -> T0 <= T -> T < two64 -> inv T0 T delta l x -> dstep T0 T delta x y -> inv T0 T delta l y.
Proof.
  intros HD Hd HT0 HT HI (a & Ha & Hsafe & Ht). destruct x as [t s], y as [t' s']. cbn [fst snd] in *. subst t'.
  destruct a as [i clk req|i|i|i|now owns]; cbn [action_time]; [by eapply inv_request|..];
    destruct HI as [(du & lg & HL) (m & HM)]; cbn [fst snd] in *; cbn [act] in Ha.
  - destruct (pending s !! i) as [[req [|k ks] n|now req [|k ks] n|req d]|] eqn:Hi; try done;
      apply bind_Some in Ha as ([n' eng] & E & [= <-]);
      assert (forall t, pending s !! i = Some t -> not_writing t) as Hnw by (rewrite Hi; by intros ? [= <-]).
    + split; [|eexists; by eapply dinv_del_key]. exists du, lg.
      apply (linv_alter l s du lg i (Some (Deleting req ks n'))); try done; [by intros ? [= <-]|].
      intros th j t' k' [= <-] Hj Hp. cbn. intros Hk.
      apply (l_apart _ _ _ _ HL i j (Deleting req (k :: ks) n)); done.
    + split; [|exists m; eapply dinv_exists_key; eauto; lia]. exists du, lg.
      apply (linv_alter l s du lg i (Some (Counting now req ks n'))); try done; [by intros ? [= <-]|].
      by intros th j t' k' [= <-] _ _ ?%not_elem_of_nil.
  - destruct (pending s !! i) as [[req [|k ks] n|now req [|k ks] n|req d]|] eqn:Hi; try done;
      assert (forall t, pending s !! i = Some t -> not_writing t) as Hnw by (rewrite Hi; by intros ? [= <-]).
    + destruct (del_finish_scratch req n (shared s)) as (Hdat & Hl & Hst & _).
      destruct (del_finish _ _ _ _) as [res c]. injection Ha as <-. cbn [snd] in *.
      destruct (d_threads _ _ _ _ _ _ HM _ _ Hi) as (H1 & H2 & H3 & _).
      rewrite called_eq by done. split; [|exists m; by apply dinv_del_end].
      do 2 eexists. apply linv_called; [done..| |].
      * intros e He. unfold due_del in He. split; [by eapply journal_good|]. intros k. by eapply journal_names.
      * intros j th k _ Hj Hp Hk. by apply (l_apart _ _ _ _ HL i j (Deleting req [] n)).
    + injection Ha as <-. split; [exists du, lg; by apply (linv_alter l s du lg i None)|exists m].
      apply (dinv_alter _ _ _ _ _ _ i None); try done; try apply HM. by rewrite Hi.
  - destruct (pending s !! i) as [[| |req d]|] eqn:Hi; try done. injection Ha as <-. split.
    + destruct (linv_write l s du lg i req d HD HL Hi) as [e ?]. eauto.
    + exists m. apply (dinv_alter _ _ _ _ _ _ i None); try done; try apply HM. by rewrite Hi.
  - injection Ha as <-. cbn in Hsafe. apply andb_true_iff in Hsafe as [Ht%Z.leb_le Ht0%Z.leb_le]. split.
    + exists du, lg. destruct HL. by split.
    + exists (purge now m). by apply dinv_sweep, (dinv_time _ _ _ t).
Qed.

Lemma inv_reachable T0 T delta l x y :
  reliable D -> 0 <= delta -> T0 <= T -> T < two64 -> inv T0 T delta l x -> rtc (dstep T0 T delta) x y ->
  inv T0 T delta l y.
Proof. intros HD Hd HT0 HT Hx Hr. induction Hr; eauto using inv_step. Qed.

Lemma inv_start T0 T delta n path c :
  (0 < n)%nat -> delta <= T0 -> storage c = new_engine n -> aof c = Some (mkAOF path true true []) ->
  inv T0 T delta (mkAOF path true true []) (0, mkCState c ∅ [] []).
Proof.
  intros Hn Hd Hc Ha. split; cbn [fst snd].
  - exists ∅, []. split; cbn; try done; try (by intros *; rewrite lookup_empty).
    left. split; [done|]. intros *. by rewrite lookup_empty.
  - exists ∅. split; cbn [shared pending executed]; rewrite ?Hc; try done.
    + by apply new_engine_wf.
    + apply R_new.
    + intros k. left. by rewrite lookup_empty.
Qed.

(** The replay of the file, which the invariant says. *)
Lemma inv_replayed T0 T delta t s clocks ro n path cR :
  0 <= delta -> 0 <= T0 -> (0 < n)%nat -> storage cR = new_engine n -> replay_clocks T0 T clocks ->
  inv T0 T delta (mkAOF path true true []) (t, s) ->
  exists lg cR', aof (shared s) = Some (mkAOF path true true (flat_map serialize lg)) /\
    writes s = serialize <$> lg /\ all_wf lg /\ (forall k, about k lg `prefix_of` about k (executed s)) /\
    run_null clocks ro lg 0 cR = Ok cR' /\
    forall now k, T <= now -> (forall i th, pending s !! i = Some th -> k ∉ flight_keys th) ->
      agrees delta now (live now (elookup k (storage (shared s)))) (live now (elookup k (storage cR'))).
Proof.
  intros Hd HT0 Hn HcR HC [(du & lg & [L1 L2 L3 L4 L5 L6 L7]) (m & [I1 I2 I3 I4 I5 I6 I7])]. cbn [fst snd] in *.
  assert (forall k, exists rest, about k (executed s) = about k lg ++ rest) as Hpre.
  { intros k. destruct (L5 k) as [[-> _]|(? & e & _ & _ & -> & _)]; [exists []; by rewrite app_nil_r|eauto]. }
  assert (forall k, chain T0 T k lg None = true) as Hch.
  { intros k. destruct (Hpre k) as [rest Hr]. pose proof (I6 k) as Hk.
    rewrite <- chain_about, Hr, chain_app, chain_about in Hk. by apply andb_true_iff in Hk as [Hk _]. }
  destruct (proj2 HC 0%nat) as [HC0 _].
  destruct (replay_effects T0 T clocks ro lg 0 cR T0 (fun _ => None)) as (cR' & r & En & Hr & HF); try done.
  { eapply Forall_impl; [exact L6|]. by intros e [? _]. }
  { rewrite HcR. split_and!; [by apply new_engine_wf|done|]. exists ∅. split; [apply R_new|].
    intros k. by rewrite lookup_empty. }
  { lia. }
  exists lg, cR'. split_and!; try done.
  { eapply Forall_impl; [exact L6|]. by intros e [_ ?]. }
  intros now k Hnow Hfl. destruct HF as (_ & _ & m2 & HR2 & Hv2).
  rewrite (R_time t now _ _ ltac:(lia) I4 k), (R_time r now _ _ ltac:(lia) HR2 k).
  rewrite (views_time r now _ _ ltac:(lia) Hv2 k).
  assert (effects T k lg None = effects T k (executed s) None) as ->.
  { rewrite <- (effects_about T k lg), <- (effects_about T k (executed s)).
    destruct (L5 k) as [[-> _]|(i & e & He & Hk & _)]; [done|].
    destruct (L3 _ _ He) as (_ & req & Hp & Hnm). destruct (Hfl _ _ Hp). by apply Hnm. }
  destruct (I5 k) as [Hnr|[_ (i & req & ks & n' & Hp & _ & Hk)]].
  - apply near_agrees; rewrite lookup_purge; [|by apply (near_time delta t); [done|lia|]].
    destruct (m !! k) as [[v d]|]; [|done]. cbn. by destruct (alive now d) eqn:A.
  - destruct (Hfl _ _ Hp). cbn. unfold request_keys. destruct (I7 _ _ Hp) as [Hr0 _]. by rewrite Hr0.
Qed.

End recover.

(** ** Properties *)

(** C10. A restart after concurrent commands. Any number of threads serve
    requests on a primary without memory limit whose file works, from an empty
    engine and an empty file; their steps interleave with each other and with
    the sweeper as in [cstep], under these conditions ([dstep]): a command that
    changes data starts only when no command in flight names one of its keys;
    the clock readings do not go back and are at least [delta] before the replay
    starts; a command that depends on the old entry of a key ([INCR], [DECR],
    the deadlines, [PERSIST]) does not find it with a deadline before the end
    [T] of the replay; the two readings of [EXPIRE] are equal or the second is
    later by at most [delta]; nobody changes the memory limit; requests are
    well-formed. Then the writes to the file are journal entries, for every key
    those of the engine in its order or all but the last of them; and when the
    process dies at any moment, even inside a write, the replay into an empty
    engine returns, and from its end on agrees with the state at the crash, up
    to [delta] on the deadlines, on every key that no command in flight names. *)
Theorem concurrent_restart_recovers `{PlatformLaws} `{D : Disk} `{VectorAlloc}
    T0 T delta clocks ro n1 n2 path tail c cR t s :
  reliable D -> 0 <= delta <= T0 -> (0 < n1)%nat -> (0 < n2)%nat ->
  storage c = new_engine n1 -> aof c = Some (mkAOF path true true []) -> storage cR = new_engine n2 ->
  replay_clocks T0 T clocks -> rtc (dstep T0 T delta) (0, mkCState c ∅ [] []) (t, s) ->
  torn tail -> size_of (concat (writes s) ++ tail) <= INT64_MAX ->
  file <$> aof (shared s) = Some (concat (writes s)) /\
  exists logged cR', writes s = serialize <$> logged /\
    (forall k, about k logged `prefix_of` about k (executed s)) /\
    load_aof clocks ro (Some (concat (writes s) ++ tail)) cR = Ok (length logged, cR') /\
    forall now k, T <= now -> (forall i th, pending s !! i = Some th -> k ∉ flight_keys th) ->
      agrees delta now (live now (elookup k (storage (shared s)))) (live now (elookup k (storage cR'))).
Proof.
  intros HD Hd Hn1 Hn2 Hc Ha HcR HC Hr Htorn Hsz. destruct (proj2 HC 0%nat) as [HC0 _]. pose proof (proj1 HC) as HT.
  apply (inv_reachable T0 T delta (mkAOF path true true [])) in Hr; [|done|lia|lia|lia|by eapply inv_start; [..|done|done]; lia].
  destruct (inv_replayed T0 T delta t s clocks ro n2 path cR) as (lg & cR' & Haof & Hw & Hwf & Hpre & En & Hag);
    try done; try lia.
  assert (concat (writes s) = flat_map serialize lg) as Hcat.
  { rewrite Hw, flat_map_concat_map. done. }
  rewrite Hcat in *. split; [by rewrite Haof|]. exists lg, cR'. split_and!; try done.
  unfold load_aof. rewrite replay_apply, apply_loop_stream by (done || unfold loop_fuel; lia). by rewrite En.
Qed.

(** Two clients set different keys and write in the other order; one gives its
    key a deadline, with clock readings 2 ms apart; a third deletes two keys; a
    fourth is about to log a [SET] when the process dies. *)
Definition apart_actions : list action :=
  [ARequest 1 (clk_at 1000) (request ["SET"; "p"; "a"]); ARequest 2 (clk_at 1001) (request ["SET"; "q"; "b"]);
   AWrite 2; ARequest 2 (mkClock 1002 0 1004) (request ["EXPIRE"; "q"; "3600"]); AWrite 1; AWrite 2;
   ARequest 3 (clk_at 1005) (request ["DEL"; "p"; "x"]); AKey 3; ARequest 4 (clk_at 1006) (request ["SET"; "r"; "c"]);
   ASweep 1007 (fun _ => true); AKey 3; AEnd 3; AWrite 3].

Definition apart_end : Z * CState := default (0, race0) (safe_acts (VA := libstdcxx_alloc) 5000 6000 2 0 apart_actions race0).

Definition can_be_safe : bool := match safe_acts (VA := libstdcxx_alloc) 5000 6000 2 0 apart_actions race0 with Some _ => true | None => false end.

Lemma apart_end_eq : can_be_safe = true -> safe_acts (VA := libstdcxx_alloc) 5000 6000 2 0 apart_actions race0 = Some apart_end.
Proof. unfold can_be_safe, apart_end. by destruct (safe_acts _ _ _ _ _ _). Qed.

Lemma concurrent_restart_recovers_witness :
  executed apart_end.2 = [request ["SET"; "p"; "a"]; request ["SET"; "q"; "b"]; request ["PEXPIREAT"; "q"; "3601004"];
    request ["SET"; "r"; "c"]; request ["DEL"; "p"; "x"]] /\
  writes apart_end.2 = serialize <$> [request ["SET"; "q"; "b"]; request ["SET"; "p"; "a"];
    request ["PEXPIREAT"; "q"; "3601004"]; request ["DEL"; "p"; "x"]] /\
  live 6000 (elookup (lit "q") (storage (shared apart_end.2))) = Some (lit "b", 3601002) /\
  exists (logged : list RESPValue) cR', @load_aof _ perfect_disk libstdcxx_alloc replay_clock false
      (Some (concat (writes apart_end.2) ++ half_request)) ctx0 = Ok (length logged, cR') /\
    agrees 2 6000 (Some (lit "b", 3601002)) (live 6000 (elookup (lit "q") (storage cR'))) /\
    agrees 2 6000 None (live 6000 (elookup (lit "p") (storage cR'))).
Proof.
  assert (live 6000 (elookup (lit "q") (storage (shared apart_end.2))) = Some (lit "b", 3601002)) as Hq
    by (vm_compute; reflexivity).
  split; [vm_compute; reflexivity|]. split; [vm_compute; reflexivity|]. split; [exact Hq|].
  destruct (@concurrent_restart_recovers _ _ perfect_disk libstdcxx_alloc 5000 6000 2 replay_clock false 16 16
    (lit "appendonly.aof") half_request ctx0 ctx0 apart_end.1 apart_end.2) as (_ & logged & cR' & _ & _ & E & Hag).
  - apply perfect_disk_reliable.
  - lia.
  - lia.
  - lia.
  - reflexivity.
  - reflexivity.
  - reflexivity.
  - apply replay_clock_ok.
  - rewrite <- surjective_pairing. apply (safe_acts_dstep _ _ _ apart_actions), apart_end_eq. vm_compute. reflexivity.
  - apply half_request_torn.
  - vm_compute. congruence.
  - exists logged, cR'. split; [exact E|].
    assert (forall k, existsb (fun th => bool_decide (k ∈ flight_keys th.2)) (map_to_list (pending apart_end.2)) = false ->
      forall i th, pending apart_end.2 !! i = Some th -> k ∉ flight_keys th) as Hfl.
    { intros k Hk i th Hi Hin. apply elem_of_map_to_list, list_elem_of_In in Hi.
      assert (existsb (fun th => bool_decide (k ∈ flight_keys th.2)) (map_to_list (pending apart_end.2)) = true) as Ht;
        [|congruence]. apply existsb_exists. exists (i, th). split; [done|]. by apply bool_decide_eq_true_2. }
    split.
    + rewrite <- Hq. apply Hag; [lia|]. apply Hfl. vm_compute. reflexivity.
    + replace (None : option (bytes * Z)) with (live 6000 (elookup (lit "p") (storage (shared apart_end.2))))
        by (vm_compute; reflexivity). apply Hag; [lia|]. apply Hfl. vm_compute. reflexivity.
Defined.
