(* ===== verification/Durability.v ===== *)
(** * Durability: what a restart brings back

    A primary runs client commands and sweeper passes, one after the other, and
    logs to its file; later the server is started again, or a replica reads the
    file, and replays it into an empty engine. The theorems of this file compare
    the two engines. Replay reads the clock anew, so a deadline that was in the
    future when a command was logged can be in the past when it is replayed: the
    condition [safe_history] asks that no command touched a key whose deadline
    passes before the end of the replay. The counterexamples show what happens
    otherwise, and what a torn write does to the file. *)

From S2P Require Import Prelude CppStd RESP RESPProofs UnorderedMap Storage StdPlatform StorageProofs StorageSpec StorageRefine StorageClock AOF Dispatcher DispatcherProofs Connection Server ServerProofs ServerTheorems Effects Interleaving Recovery.

(** ** Histories of a primary *)

(** A client request, or a pass of the sweeper. *)
Inductive live_event :=
  | LReq (clk : Clock) (req : RESPValue)
  | LSweep (now : Z) (owns_lock : nat -> bool).

Section history.
Context `{PL : PlatformLaws} `{D : Disk} `{VA : VectorAlloc}.

Definition live_step (ev : live_event) (c : Ctx) : res Ctx :=
  match ev with
  | LReq clk req => '(_, c) ← dispatch clk false false req c; Ok c
  | LSweep now owns => Ok (with_storage (sweep_pass owns now (storage c)) c)
  end.

Fixpoint run_live (evs : list live_event) (c : Ctx) : res Ctx :=
  match evs with
  | [] => Ok c
  | ev :: evs' => c ← live_step ev c; run_live evs' c
  end.

(** Histories of safe requests (see [Recovery]) whose clock readings do not go
    back and end at least [delta] before [T0]; every step returns. *)
Fixpoint safe_history (T0 T delta t : Z) (evs : list live_event) (c : Ctx) : bool :=
  match evs with
  | [] => true
  | ev :: evs' =>
      let now := match ev with LReq clk _ => engine_now clk | LSweep now _ => now end in
      (t <=? now) && (now + delta <=? T0) &&
      match ev with LReq clk req => safe_request T delta clk req (storage c) | LSweep _ _ => true end &&
      match live_step ev c with
      | Ok c' => safe_history T0 T delta now evs' c'
      | _ => false
      end
  end.

(** The steps of one thread after the start of its request are safe. *)
Lemma own_dstep T0 T delta t i xs s s' : acts xs s = Some s' -> Forall (own i) xs ->
  rtc (dstep T0 T delta) (t, s) (t, s').
Proof.
  intros E Hx. revert s E. induction Hx as [|x xs Hx _ IH]; intros s E; cbn in E; [by simplify_eq|].
  apply bind_Some in E as (s1 & E1 & E). apply (rtc_l _ _ (t, s1)); [|by apply IH].
  exists x. by destruct Hx as [->|[->| ->]].
Qed.

(** A history is an interleaving in which nothing interleaves. *)
Lemma history_interleaving T0 T delta evs t c c' s :
  safe_history T0 T delta t evs c = true -> run_live evs c = Ok c' -> shared s = c -> pending s = ∅ ->
  exists t' s', rtc (dstep T0 T delta) (t, s) (t', s') /\ shared s' = c' /\ pending s' = ∅.
Proof.
  revert t c s. induction evs as [|ev evs IH]; intros t c s Hs E Hc Hp; cbn [safe_history run_live] in *.
  { res_inv. by exists t, s. }
  apply andb_true_iff in Hs as [[[Ht%Z.leb_le Ht0%Z.leb_le]%andb_true_iff Hsafe]%andb_true_iff Hrest].
  apply bind_Ok in E as (c1 & E1 & E). rewrite E1 in Hrest. destruct ev as [clk req|now owns].
  - apply bind_Ok in E1 as ([res c1'] & Ed & [= ->]).
    destruct (safe_request_inv _ _ _ _ _ Hsafe) as (_ & _ & Hcfg & _).
    destruct (request_alone 0 clk req s res c1) as (xs & s1 & Hx & Hown & Hs1 & Hp1); [by rewrite Hp|done|by rewrite Hc|].
    cbn [acts] in Hx. apply bind_Some in Hx as (s0 & Hx0 & Hx).
    destruct (IH (engine_now clk) c1 s1) as (t' & s' & Hr & Hs' & Hp'); [done..|by rewrite Hp1|].
    exists t', s'. split_and!; [|done|done]. apply (rtc_l _ _ (engine_now clk, s0)).
    + exists (ARequest 0 clk req). split_and!; [done| |done]. cbn. rewrite Hc, Hsafe, (apart_alone req s Hp).
      apply Z.leb_le in Ht as ->. by apply Z.leb_le in Ht0 as ->.
    + etrans; [by eapply own_dstep|done].
  - injection E1 as <-.
    set (s1 := mkCState (with_storage (sweep_pass owns now (storage (shared s))) (shared s)) (pending s) (writes s) (executed s)).
    destruct (IH now (with_storage (sweep_pass owns now (storage c)) c) s1) as (t' & s' & Hr & Hs' & Hp');
      [done|done|by cbn; rewrite Hc|done|].
    exists t', s'. split_and!; [|done|done]. apply (rtc_l _ _ (now, s1)); [|done].
    exists (ASweep now owns). split_and!; [done| |done]. cbn.
    apply Z.leb_le in Ht as ->. by apply Z.leb_le in Ht0 as ->.
Qed.

(** A history that starts from nothing: its file is a list of commands, and
    dispatching these to an empty engine gives the live keys of the history. *)
Lemma history_replayed T0 T delta evs n1 n2 path c c' l' ro clocks cR :
  reliable D -> (0 < n1)%nat -> (0 < n2)%nat -> 0 <= delta <= T0 ->
  storage c = new_engine n1 -> aof c = Some (mkAOF path true true []) ->
  storage cR = new_engine n2 -> replay_clocks T0 T clocks ->
  safe_history T0 T delta 0 evs c = true -> run_live evs c = Ok c' -> aof c' = Some l' ->
  exists es cR', file l' = flat_map serialize es /\ all_wf es /\ run_null clocks ro es 0 cR = Ok cR' /\
    forall now k, T <= now ->
      agrees delta now (live now (elookup k (storage c'))) (live now (elookup k (storage cR'))).
Proof.
  intros HD Hn1 Hn2 Hd Hc Ha HcR HC Hs Hrun Ha'. destruct (proj2 HC 0%nat) as [HC0 _]. pose proof (proj1 HC) as HT.
  destruct (history_interleaving T0 T delta evs 0 c c' (mkCState c ∅ [] [])) as (t & s & Hr & <- & Hp); try done.
  apply (inv_reachable T0 T delta (mkAOF path true true [])) in Hr; [|done|lia|lia|lia|by eapply inv_start; [..|done|done]; lia].
  destruct (inv_replayed T0 T delta t s clocks ro n2 path cR) as (lg & cR' & Haof & _ & Hwf & _ & En & Hag);
    try done; try lia.
  rewrite Haof in Ha'. injection Ha' as <-. exists lg, cR'. split_and!; [done..|]. intros now k Hnow.
  apply Hag; [done|]. intros i th. by rewrite Hp, lookup_empty.
Qed.

End history.

(** ** One key of a server *)

(** What a call on one key does to its live entry, without a memory limit. *)
Definition key_step (now : Z) (op : kv_op) (o : option (bytes * Z)) : kv_res * option (bytes * Z) :=
  match op with
  | KSet _ v => (RBool true, Some (v, 0))
  | KExpire _ off =>
      match o with Some (v, _) => (RBool true, at_time now (Some (v, u64 (now + off)))) | None => (RBool false, None) end
  | KExpireAt _ t =>
      match o with Some (v, _) => (RBool true, at_time now (Some (v, t))) | None => (RBool false, None) end
  | KPersist _ =>
      match o with
      | Some (v, d) => if d =? 0 then (RBool false, o) else (RBool true, Some (v, 0))
      | None => (RBool false, None)
      end
  | KIncr _ =>
      match counter_start o with
      | Some (n, d) => (RNum (Some (n + 1)), Some (to_string (n + 1), d))
      | None => (RNum None, o)
      end
  | _ => (RBool false, o)
  end.

(** The calls of [key_step] on [k]. *)
Definition key_call (k : bytes) (op : kv_op) : bool :=
  match op with
  | KSet k' _ | KExpire k' _ | KPersist k' | KIncr k' => bool_decide (k' = k)
  | KExpireAt k' d => bool_decide (k' = k) && is_u64 d
  | _ => false
  end.

Definition incr_fits (op : kv_op) (o : option (bytes * Z)) : Prop :=
  match op with KIncr _ => forall n d, counter_start o = Some (n, d) -> is_i64 (n + 1) = true | _ => True end.

Section one_key.
Context `{PL : PlatformLaws} `{D : Disk} `{VA : VectorAlloc}.

(** A server without memory limit that has [o] under [k] at time [t]. *)
Definition server (t : Z) (k : bytes) (o : option (bytes * Z)) (c : Ctx) : Prop :=
  engine_wf (storage c) /\ bounded (storage c) = false /\ live t (elookup k (storage c)) = o.

Lemma server_at t t' k o c : t <= t' -> server t k o c -> live t' (elookup k (storage c)) = at_time t' o.
Proof.
  intros Ht (_ & _ & Hk). rewrite (live_mono t t') by done. rewrite Hk. unfold at_time.
  by destruct o as [[v d]|].
Qed.

Lemma key_spec now k op o res m m1 : key_call k op = true -> spec_step false now op res m m1 -> m !! k = o ->
  res = (key_step now op o).1 /\ m1 !! k = (key_step now op o).2.
Proof.
  intros Hk Hs Hm. inversion Hs as [k' v ? ? [_ Hkept] _|k' v ? ? Hb _| |ks n ? ? Hd _| |k' o' ? ? Hc|k' o' ? ? Hc
    |k' off ? v d Hl|k' off ? Hl|k' t ? v d Hl|k' t ? Hl| |k' ? v d Hl Hd|k' ? Hl]; subst; cbn in Hk; try done; zb;
    repeat match goal with H : bool_decide (_ = _) = true |- _ => apply bool_decide_eq_true in H; subst end;
    cbn [key_step]; try rewrite Hl; cbn [fst snd].
  - by rewrite Hkept, lookup_insert_eq.
  - inversion Hc as [? Hst|? ? n d Hst Hin [_ Hkept] _|]; subst; try done; rewrite Hst; [done|].
    by rewrite Hkept, lookup_insert_eq.
  - unfold put_deadline. cbn. destruct (alive now _); [by rewrite lookup_insert_eq|by rewrite lookup_delete_eq].
  - done.
  - unfold put_deadline. cbn. destruct (alive now _); [by rewrite lookup_insert_eq|by rewrite lookup_delete_eq].
  - done.
  - apply Z.eqb_neq in Hd as ->. by rewrite lookup_insert_eq.
  - destruct Hl as [->|[v ->]]; done.
Qed.

Lemma server_op t now seed k op o c :
  key_call k op = true -> server t k o c -> 0 <= t <= now -> now < two64 -> incr_fits op (at_time now o) ->
  exists eng, run_op op now seed (storage c) = Ok ((key_step now op (at_time now o)).1, eng) /\
    forall a m, server now k (key_step now op (at_time now o)).2 (mkCtx eng a m).
Proof.
  intros Hk HS Ht Hn Hfit. pose proof HS as (Hw & Hb & _). pose proof (server_at t now k o c ltac:(lia) HS) as Hl.
  pose proof (stores_R now _ _ (stored_map_stores (storage c))) as HR. set (m := purge now (stored_map (storage c))) in *.
  assert (m !! k = at_time now o) as Hm by (by rewrite <- (HR k)).
  pose proof (run_op_total op now seed (storage c) m Hw HR) as HT.
  assert (op_in_range op (storage c) m = true) as Hr.
  { destruct op; try done. cbn in Hk |- *. apply bool_decide_eq_true in Hk as ->. rewrite Hm. cbn in Hfit.
    destruct (counter_start _) as [[n d]|]; [by eapply Hfit|done]. }
  rewrite Hr in HT. destruct HT as ([res eng] & E). exists eng.
  destruct (run_op_refines _ _ _ _ _ _ _ Hw HR E) as (m1 & Hs & HR1). rewrite Hb in Hs.
  destruct (key_spec now k op _ res m m1 Hk Hs Hm) as [<- Hk1]. split; [done|]. intros a me. split_and!; cbn [storage].
  - apply (run_op_wf op now seed (storage c) res); try done; [|lia]. destruct op; try done. cbn in *. by zb.
  - by rewrite (run_op_bounded _ _ _ _ _ _ E).
  - by rewrite (HR1 k).
Qed.

(** A client request on the key, and a command of the file. *)
Lemma server_live clk req op t k o c l :
  reliable D -> aof c = Some l -> ready l -> request_op req = Some op -> key_call k op = true -> server t k o c ->
  0 <= t <= engine_now clk -> engine_now clk < two64 -> incr_fits op (at_time (engine_now clk) o) ->
  let '(res, o') := key_step (engine_now clk) op (at_time (engine_now clk) o) in
  exists c', live_step (LReq clk req) c = Ok c' /\ aof c' = Some (appended l (journal clk req op res)) /\
    server (engine_now clk) k o' c'.
Proof.
  intros HD Ha Hl Hop Hk HS Ht Hn Hfit. destruct (request_op_inv _ _ Hop) as (cmd & Hc & _).
  destruct (server_op t (engine_now clk) (evict_seed clk) k op o c Hk HS Ht Hn Hfit) as (eng & E & HS').
  destruct (key_step _ _ _) as [res o']. cbn [fst snd] in *. cbn [live_step].
  rewrite (dispatch_data clk false false _ _ _ _ Hc eq_refl Hop), E. cbn [mbind res_bind].
  eexists. split; [done|]. split; [by apply log_all_appends|].
  destruct (storage_log_all false (journal clk req op res) (with_storage eng (counted c))) as [Hst Hme].
  destruct (HS' None (metrics c)) as (W & B & L). split_and!; rewrite Hst; done.
Qed.

Lemma server_null clk ro req op t k o c :
  request_op req = Some op -> key_call k op = true -> server t k o c ->
  0 <= t <= engine_now clk -> engine_now clk < two64 -> incr_fits op (at_time (engine_now clk) o) ->
  exists res c', dispatch_null clk ro req c = Ok (res, c') /\
    server (engine_now clk) k (key_step (engine_now clk) op (at_time (engine_now clk) o)).2 c'.
Proof.
  intros Hop Hk HS Ht Hn Hfit. destruct (dispatch_null_data clk ro req c op Hop) as [cmd ->].
  destruct (server_op t (engine_now clk) (evict_seed clk) k op o c Hk HS Ht Hn Hfit) as (eng & -> & HS').
  cbn [mbind res_bind]. eauto.
Qed.

Lemma alive_before t d : t < d -> alive t d = true.
Proof. intros Ht. unfold alive. destruct (Z.leb_spec d t); [lia|]. by rewrite andb_false_r. Qed.

Lemma alive_after t d : 0 < d <= t -> alive t d = false.
Proof. intros Ht. unfold alive. destruct (Z.ltb_spec 0 d), (Z.leb_spec d t); done || lia. Qed.

Lemma key_call_one k v off d : is_u64 d = true ->
  key_call k (KSet k v) = true /\ key_call k (KExpire k off) = true /\ key_call k (KExpireAt k d) = true.
Proof. intros Hd. cbn. by rewrite !bool_decide_eq_true_2, Hd by done. Qed.

Section late.
Context (k v : bytes) (off : Z) (clk1 clk2 clk3 : Clock) (r1 r2 r3 : RESPValue) (op3 : kv_op).
Context (O1 : request_op r1 = Some (KSet k v)) (O2 : request_op r2 = Some (KExpire k off))
        (O3 : request_op r3 = Some op3) (K3 : key_call k op3 = true)
        (F3 : incr_fits op3 (Some (v, engine_now clk2 + off)))
        (J3 : journal clk3 r3 op3 (key_step (engine_now clk3) op3 (Some (v, engine_now clk2 + off))).1 = [r3])
        (T4 : 0 < dispatch_now clk2 + off < two64).

(** What the three requests log. *)
Definition late_entries : list RESPValue := [r1; pexpireat_cmd k (dispatch_now clk2 + off); r3].

(** A key is set, given the deadline [engine_now clk2 + off], and changed before
    that by [op3]. *)
Lemma late_live c l :
  reliable D -> engine_wf (storage c) -> bounded (storage c) = false -> aof c = Some l -> ready l ->
  0 <= engine_now clk1 <= engine_now clk2 ->
  engine_now clk2 <= engine_now clk3 < engine_now clk2 + off -> engine_now clk2 + off < two64 ->
  exists c', run_live [LReq clk1 r1; LReq clk2 r2; LReq clk3 r3] c = Ok c' /\
    aof c' = Some (appended l late_entries) /\
    forall now, engine_now clk3 <= now -> live now (elookup k (storage c')) =
      at_time now (key_step (engine_now clk3) op3 (Some (v, engine_now clk2 + off))).2.
Proof.
  intros HD Hw Hb Ha Hl T1 T2 T3.
  destruct (key_call_one k v off 0 eq_refl) as (KS & KE & _).
  assert (u64 (engine_now clk2 + off) = engine_now clk2 + off) as UD by (apply u64_small; lia).
  assert (u64 (dispatch_now clk2 + off) = dispatch_now clk2 + off) as UD' by (apply u64_small; lia).
  pose proof (server_live clk1 r1 _ (engine_now clk1) k _ c l HD Ha Hl O1 KS (conj Hw (conj Hb eq_refl))
    ltac:(lia) ltac:(lia) I) as (c1 & E1 & A1 & S1).
  pose proof (server_live clk2 r2 _ _ k _ c1 _ HD A1 (conj eq_refl eq_refl) O2 KE S1 ltac:(lia) ltac:(lia) I) as HL2.
  cbn [at_time key_step] in HL2. change (alive (engine_now clk2) 0) with true in HL2. cbn iota in HL2.
  rewrite UD, (alive_before (engine_now clk2)) in HL2 by lia. destruct HL2 as (c2 & E2 & A2 & S2).
  assert (at_time (engine_now clk3) (Some (v, engine_now clk2 + off)) = Some (v, engine_now clk2 + off)) as At3
    by (cbn; by rewrite alive_before by lia).
  pose proof (server_live clk3 r3 op3 _ k _ c2 _ HD A2 (conj eq_refl eq_refl) O3 K3 S2 ltac:(lia) ltac:(lia)) as HL3.
  rewrite At3 in HL3. specialize (HL3 F3). clear F3 At3.
  destruct (key_step (engine_now clk3) op3 _) as [res3 o3]. cbn [fst snd] in *. destruct HL3 as (c3 & E3 & A3 & S3).
  rewrite J3 in A3. cbn [journal] in A3. rewrite UD' in A3.
  exists c3. cbn [run_live]. rewrite E1. cbn [mbind res_bind]. rewrite E2. cbn [mbind res_bind]. rewrite E3.
  split; [done|]. split; [|intros now Hnow; by apply (server_at (engine_now clk3))].
  rewrite A3. unfold appended, late_entries. cbn. by rewrite !app_nil_r, <- !app_assoc.
Qed.

(** The entries are replayed after the deadline in them. *)
Lemma late_replay clocks ro n c :
  engine_wf (storage c) -> bounded (storage c) = false ->
  (forall i, (n <= i)%nat -> dispatch_now clk2 + off <= engine_now (clocks i) < two64 /\
     engine_now (clocks i) <= engine_now (clocks (S i))) ->
  exists c', run_null clocks ro late_entries n c = Ok c' /\
    forall now, engine_now (clocks (n + 2)%nat) <= now ->
      live now (elookup k (storage c')) = at_time now (key_step (engine_now (clocks (n + 2)%nat)) op3 None).2.
Proof.
  intros Hw Hb HC. assert (is_u64 (dispatch_now clk2 + off) = true) as IU by (apply is_u64_spec; lia).
  destruct (key_call_one k v off _ IU) as (KS & _ & KA).
  destruct (HC n ltac:(lia)) as [C0 C0'], (HC (S n) ltac:(lia)) as [C1 C1'], (HC (S (S n)) ltac:(lia)) as [C2 _].
  cbn [run_null late_entries].
  destruct (server_null (clocks n) ro r1 _ (engine_now (clocks n)) k _ c O1 KS (conj Hw (conj Hb eq_refl))
    ltac:(lia) ltac:(lia) I) as (x1 & d1 & -> & R1).
  cbn [mbind res_bind key_step snd] in *.
  destruct (server_null (clocks (S n)) ro _ _ _ k _ d1 (pexpireat_op k (dispatch_now clk2 + off) ltac:(lia)) KA R1 ltac:(lia) ltac:(lia) I)
    as (x2 & d2 & -> & R2).
  cbn [mbind res_bind]. cbn [at_time key_step] in R2. change (alive (engine_now (clocks (S n))) 0) with true in R2.
  cbn [snd] in R2. rewrite alive_after in R2 by lia.
  destruct (server_null (clocks (S (S n))) ro r3 op3 _ k _ d2 O3 K3 R2 ltac:(lia) ltac:(lia)) as (x3 & d3 & -> & R3).
  { clear - K3. destruct op3; try done. cbn. by intros ? ? [= <- <-]. }
  cbn [mbind res_bind at_time] in *. exists d3. split; [done|].
  replace (n + 2)%nat with (S (S n)) by lia. intros now Hnow. by apply (server_at (engine_now (clocks (S (S n))))).
Qed.

Lemma late_entries_wf : wf r1 = true -> wf r2 = true -> wf r3 = true -> all_wf late_entries.
Proof.
  intros W1 W2 W3. unfold all_wf, late_entries. rewrite !Forall_cons. split_and!; [done| |done|constructor].
  rewrite <- (u64_small (dispatch_now clk2 + off)) by lia.
  apply (journal_wf clk2 r2 (KExpire k off) (RBool true)); [done..|left].
Qed.

(** A restart from the file of such a server. *)
Lemma late_restart c l vs cR cR1 clocks ro :
  reliable D -> engine_wf (storage c) -> bounded (storage c) = false -> aof c = Some l -> ready l ->
  file l = flat_map serialize vs -> all_wf vs ->
  run_null clocks ro vs 0 cR = Ok cR1 -> engine_wf (storage cR1) -> bounded (storage cR1) = false ->
  wf r1 = true -> wf r2 = true -> wf r3 = true ->
  0 <= engine_now clk1 <= engine_now clk2 ->
  engine_now clk2 <= engine_now clk3 < engine_now clk2 + off -> engine_now clk2 + off < two64 ->
  (forall i, (length vs <= i)%nat -> dispatch_now clk2 + off <= engine_now (clocks i) < two64 /\
     engine_now (clocks i) <= engine_now (clocks (S i))) ->
  exists c' l', run_live [LReq clk1 r1; LReq clk2 r2; LReq clk3 r3] c = Ok c' /\ aof c' = Some l' /\
    (forall now, engine_now clk3 <= now -> live now (elookup k (storage c')) =
       at_time now (key_step (engine_now clk3) op3 (Some (v, engine_now clk2 + off))).2) /\
    (size_of (file l') <= INT64_MAX ->
     exists cR', load_aof clocks ro (Some (file l')) cR = Ok (length vs + 3, cR')%nat /\
       forall now, engine_now (clocks (length vs + 2)%nat) <= now ->
         live now (elookup k (storage cR')) = at_time now (key_step (engine_now (clocks (length vs + 2)%nat)) op3 None).2).
Proof.
  intros HD Hw Hb Ha Hl Hf Hvs Hrun HwR HbR W1 W2 W3 T1 T2 T3 HC.
  destruct (late_live c l HD Hw Hb Ha Hl T1 T2 T3) as (c' & E & A & L).
  exists c', (appended l late_entries). split_and!; [done|done|done|]. cbn [file appended]. rewrite Hf, <- flat_map_app. intros Hsz.
  destruct (late_replay clocks ro (length vs) cR1 HwR HbR HC) as (cR' & ER & LR). exists cR'. split; [|done].
  rewrite <- (app_nil_r (flat_map _ _)) in Hsz |- *. unfold load_aof.
  rewrite replay_apply, apply_loop_stream; [|by apply Forall_app; split; [|apply late_entries_wf]|apply torn_nil|done|unfold loop_fuel; lia].
  rewrite run_null_app, Hrun. cbn [mbind res_bind Nat.add]. rewrite ER. cbn [mbind res_bind]. by rewrite length_app.
Qed.

End late.

End one_key.

(** ** A file with a torn command in it *)

Section poison.
Context `{PL : PlatformLaws} `{D : Disk} `{VA : VectorAlloc}.

Definition live_wf (ev : live_event) : Prop := match ev with LReq _ req => wf req = true | LSweep _ _ => True end.

(** Whatever a server does, it appends whole commands to its file. *)
Lemma live_appends evs c c' l :
  reliable D -> Forall live_wf evs -> aof c = Some l -> ready l -> run_live evs c = Ok c' ->
  exists news, all_wf news /\ aof c' = Some (appended l news).
Proof.
  intros HD Hw. revert c l. induction Hw as [|ev evs Hev _ IH]; intros c l Ha Hl E; cbn [run_live] in E.
  { res_inv. exists []. rewrite appended_nil by done. by split; [constructor|]. }
  apply bind_Ok in E as (c1 & E1 & E).
  assert (exists es, all_wf es /\ aof c1 = Some (appended l es)) as (es & Hes & Ha1).
  { destruct ev as [clk req|now owns]; cbn [live_step] in E1.
    - apply bind_Ok in E1 as ([res c2] & Ed & [= ->]). apply dispatch_inv in Ed as
        [(cmd & op & r & eng & Hn & _ & Hop & _ & _ & ->)|((_ & _ & Ha1 & _) & _)].
      + exists (journal clk req op r). split; [|by apply log_all_appends].
        apply Forall_forall. intros e He. apply (journal_wf clk req op r); try done. unfold request_op. by rewrite Hn.
      + exists []. rewrite appended_nil by done. split; [constructor|]. rewrite Ha1. exact Ha.
    - injection E1 as <-. exists []. rewrite appended_nil by done. by split; [constructor|]. }
  destruct (IH c1 (appended l es) Ha1 (conj eq_refl eq_refl) E) as (es2 & Hes2 & Ha2).
  exists (es ++ es2). split; [by apply Forall_app|]. rewrite Ha2. unfold appended. cbn.
  by rewrite flat_map_app, app_assoc.
Qed.

(** The header line of an array. *)
Definition array_header (n : nat) : bytes := lit "*" ++ to_string (Z.of_nat n) ++ crlf.

Lemma serialize_array es : serialize (create_array es) = array_header (length es) ++ flat_map serialize es.
Proof. unfold array_header. cbn. by rewrite <- app_assoc. Qed.

Lemma wf_array es : wf (create_array es) = true <-> all_wf es /\ Z.of_nat (length es) <= reserve_limit.
Proof.
  cbn. rewrite andb_true_iff, Z.leb_le, forallb_forall.
  unfold all_wf. rewrite Forall_forall. setoid_rewrite list_elem_of_In. done.
Qed.

Lemma nulls_size k : size_of (flat_map serialize (replicate k create_null)) = 5 * Z.of_nat k.
Proof. induction k as [|k IH]; [done|]. cbn [replicate flat_map]. rewrite size_of_app, IH. change (size_of (serialize create_null)) with 5. lia. Qed.

(** An array of [m] elements of which fewer are there is torn. *)
Lemma torn_array m es : all_wf es -> (length es < m)%nat -> Z.of_nat m <= reserve_limit ->
  size_of (array_header m ++ flat_map serialize es) + 5 * Z.of_nat m <= INT64_MAX ->
  torn (array_header m ++ flat_map serialize es).
Proof.
  intros Hes Hm Hr Hsz. set (k := (m - length es)%nat).
  assert (length (es ++ replicate k create_null) = m) as Hlen by (rewrite length_app, length_replicate; lia).
  exists (create_array (es ++ replicate k create_null)). rewrite serialize_array, Hlen, flat_map_app.
  assert (0 < size_of (flat_map serialize (replicate k create_null))) as Hpos by (rewrite nulls_size; lia).
  split_and!.
  - apply wf_array. rewrite Hlen. split; [|done]. apply Forall_app. split; [done|]. by apply Forall_replicate.
  - rewrite !size_of_app in *. rewrite nulls_size. lia.
  - rewrite app_assoc. by eexists.
  - rewrite app_assoc. intros E. apply (f_equal size_of) in E. rewrite (size_of_app _ (flat_map _ (replicate _ _))) in E. lia.
Qed.

Lemma load_stream clocks ro vs tail cR : all_wf vs -> torn tail -> size_of (flat_map serialize vs ++ tail) <= INT64_MAX ->
  load_aof clocks ro (Some (flat_map serialize vs ++ tail)) cR = c ← run_null clocks ro vs 0 cR; Ok (length vs, c).
Proof.
  intros Hvs Ht Hsz. unfold load_aof. rewrite replay_apply, apply_loop_stream by (done || unfold loop_fuel; lia).
  by rewrite !bind_assoc.
Qed.

End poison.

(** ** Properties *)

(** C2. A restart recovers the data. Take a history of client requests and
    sweeper passes, one after the other, on a primary without memory limit whose
    file works, from an empty engine and an empty file, that is safe: requests
    are well-formed and none is a [CONFIG]; the clock readings do not go back and
    end at least [delta] before the replay starts; the two readings of an
    [EXPIRE] are equal, or the second is later by at most [delta]; and a command
    that depends on the old entry of a key ([INCR], [DECR], the deadlines,
    [PERSIST]) does not find it with a deadline before the end [T] of the replay.
    Then replaying the file, even with a torn command at its end, into an empty
    engine succeeds, and from then on the restarted server has every key the
    running one has, with the same value and a deadline that is the same or, by
    at most [delta], later; it has no other key, except one whose deadline passed
    on the running server less than [delta] ago. Without skew the two agree. *)
Theorem restart_recovers_data `{PlatformLaws} `{D : Disk} `{VectorAlloc}
    T0 T delta evs clocks ro n1 n2 path tail c c' l' cR :
  reliable D -> (0 < n1)%nat -> (0 < n2)%nat -> 0 <= delta <= T0 ->
  storage c = new_engine n1 -> aof c = Some (mkAOF path true true []) ->
  storage cR = new_engine n2 -> replay_clocks T0 T clocks ->
  safe_history T0 T delta 0 evs c = true -> run_live evs c = Ok c' -> aof c' = Some l' ->
  torn tail -> size_of (file l' ++ tail) <= INT64_MAX ->
  exists n cR', load_aof clocks ro (Some (file l' ++ tail)) cR = Ok (n, cR') /\
    forall now k, T <= now ->
      agrees delta now (live now (elookup k (storage c'))) (live now (elookup k (storage cR'))) /\
      (delta = 0 -> live now (elookup k (storage cR')) = live now (elookup k (storage c'))).
Proof.
  intros HD Hn1 Hn2 Hd Hc Ha HcR HC Hs Hrun Ha' Htorn Hsz.
  destruct (history_replayed T0 T delta evs n1 n2 path c c' l' ro clocks cR)
    as (es & cR' & Hf & Hw & En & Hlive); try done.
  rewrite Hf in *. exists (length es), cR'. split.
  - unfold load_aof. rewrite replay_apply, apply_loop_stream by (done || unfold loop_fuel; lia). by rewrite En.
  - intros now k Hnow. specialize (Hlive now k Hnow). split; [done|]. intros ->. by apply agrees_0 in Hlive.
Qed.

(** A primary that sets, increments, expires and deletes; the two clock readings
    of one [EXPIRE] are 3 ms apart. *)
Definition demo_history : list live_event := [
  LReq (clk_at 1000) (request ["SET"; "a"; "41"]);
  LReq (clk_at 1001) (request ["INCR"; "a"]);
  LReq (mkClock 1002 0 1005) (request ["EXPIRE"; "a"; "3600"]);
  LReq (clk_at 1006) (request ["SET"; "b"; "x"]);
  LReq (clk_at 1007) (request ["PEXPIRE"; "b"; "10"]);
  LSweep 1100 (fun _ => true);
  LReq (clk_at 1101) (request ["GET"; "b"]);
  LReq (clk_at 1102) (request ["SET"; "c"; "y"]);
  LReq (clk_at 1103) (request ["DEL"; "c"; "d"])
].

Definition demo_after : Ctx := got (run_live demo_history ctx0) ctx0.
Definition demo_file : AOFLogger := default (mkAOF [] false false []) (aof demo_after).

Lemma restart_recovers_data_witness :
  (file demo_file <> [] /\ live 6000 (elookup (lit "a") (storage demo_after)) = Some (lit "42", 3601002)) /\
  exists n cR', @load_aof _ perfect_disk libstdcxx_alloc replay_clock false
      (Some (file demo_file ++ half_request)) ctx0 = Ok (n, cR') /\
    forall now k, 6000 <= now ->
      agrees 3 now (live now (elookup k (storage demo_after))) (live now (elookup k (storage cR'))).
Proof.
  split; [split; [vm_compute; congruence|vm_compute; reflexivity]|].
  destruct (@restart_recovers_data _ _ perfect_disk libstdcxx_alloc 5000 6000 3 demo_history replay_clock
    false 16 16 (lit "appendonly.aof") half_request ctx0 demo_after demo_file ctx0) as (n & cR' & E & Hag).
  - apply perfect_disk_reliable.
  - lia.
  - lia.
  - lia.
  - reflexivity.
  - reflexivity.
  - reflexivity.
  - apply replay_clock_ok.
  - vm_compute. reflexivity.
  - apply got_ok. vm_compute. reflexivity.
  - reflexivity.
  - apply half_request_torn.
  - vm_compute. congruence.
  - exists n, cR'. split; [exact E|]. intros now k Hnow. exact (proj1 (Hag now k Hnow)).
Defined.

(** C9. A new replica mirrors the primary. After a safe history, as for a
    restart, what the primary streams to a replica that connects with an empty
    file is its whole file; and however these bytes are cut into reads, the
    replica, which may have another number of shards and applies the commands at
    its own times between [T0] and [T], ends with the same file, nothing left in
    its buffer, and, from [T] on, the same live keys with the same values and
    deadlines, up to [delta] on the deadlines. *)
Theorem replica_mirrors_primary `{PlatformLaws} `{D : Disk} `{VectorAlloc} `{N : Net}
    T0 T delta evs clocks conn rounds n1 n2 path path' c c' l' cR :
  reliable D -> net_open N -> 0 <= fd_ conn -> (0 < n1)%nat -> (0 < n2)%nat -> 0 <= delta <= T0 ->
  storage c = new_engine n1 -> aof c = Some (mkAOF path true true []) ->
  storage cR = new_engine n2 -> aof cR = Some (mkAOF path' true true []) ->
  replay_clocks T0 T clocks ->
  safe_history T0 T delta 0 evs c = true -> run_live evs c = Ok c' -> aof c' = Some l' ->
  size_of (file l') + 11 <= INT64_MAX -> (2 * length (file l') <= rounds)%nat ->
  exists s' out,
    psync_stream conn (replicate rounds (file l')) (open_stream 0)
      (serialize (create_simple_string (lit "CONTINUE"))) = Ok (true, s', out) /\
    forall reads, concat reads = out ->
      exists w, worker_session clocks true reads (mkWorker [] false 0 cR) = Ok w /\
        aof (wctx w) = Some (mkAOF path' true true (file l')) /\ client_buffer w = [] /\
        forall now k, T <= now ->
          agrees delta now (live now (elookup k (storage c'))) (live now (elookup k (storage (wctx w)))) /\
          (delta = 0 -> live now (elookup k (storage (wctx w))) = live now (elookup k (storage c'))).
Proof.
  intros HD HN Hfd Hn1 Hn2 Hd Hc Ha HcR HaR HC Hs Hrun Ha' Hsz Hr.
  destruct (history_replayed T0 T delta evs n1 n2 path c c' l' true clocks cR)
    as (es & cR' & Hf & Hw & En & Hlive); try done.
  destruct (replica_stream clocks conn rounds (mkAOF path' true true []) es [] (file l') 0 cR)
    as (s' & out & E & Hreads); [done|done|done|done|done|done|apply torn_nil| |done|done|].
  { by rewrite Hf, app_nil_r. }
  exists s', out. split; [exact E|]. intros reads Hrd. rewrite (Hreads reads Hrd), En.
  eexists. split; [reflexivity|]. split_and!; [done|done|]. intros now k Hnow. specialize (Hlive now k Hnow).
  split; [done|]. intros ->. by apply agrees_0 in Hlive.
Qed.

Lemma replica_mirrors_primary_witness :
  exists s' out,
    @psync_stream open_net (mkConn 5) (replicate 1000 (file demo_file)) (open_stream 0)
      (serialize (create_simple_string (lit "CONTINUE"))) = Ok (true, s', out) /\
    exists w, @worker_session _ perfect_disk libstdcxx_alloc replay_clock true
        [take 30 out; drop 30 out] (mkWorker [] false 0 ctx0) = Ok w /\
      forall now k, 6000 <= now ->
        agrees 3 now (live now (elookup k (storage demo_after))) (live now (elookup k (storage (wctx w)))).
Proof.
  destruct (@replica_mirrors_primary _ _ perfect_disk libstdcxx_alloc open_net 5000 6000 3 demo_history
    replay_clock (mkConn 5) 1000 16 16 (lit "appendonly.aof") (lit "appendonly.aof") ctx0 demo_after
    demo_file ctx0) as (s' & out & E & Hw).
  - apply perfect_disk_reliable.
  - apply open_net_open.
  - cbn. lia.
  - lia.
  - lia.
  - lia.
  - reflexivity.
  - reflexivity.
  - reflexivity.
  - reflexivity.
  - apply replay_clock_ok.
  - vm_compute. reflexivity.
  - apply got_ok. vm_compute. reflexivity.
  - reflexivity.
  - vm_compute. congruence.
  - apply Nat.leb_le. vm_compute. reflexivity.
  - exists s', out. split; [exact E|].
    destruct (Hw [take 30 out; drop 30 out]) as (w & E1 & _ & _ & E2).
    { cbn [concat]. by rewrite app_nil_r, take_drop. }
    exists w. split; [exact E1|]. intros now k Hnow. exact (proj1 (E2 now k Hnow)).
Defined.

(** C36. The condition on deadlines is needed. On any primary without memory
    limit whose file works, let a client set a key [k] to [v], give it a deadline
    by an [EXPIRE] or [PEXPIRE], and before that deadline make it persistent, or
    increment it. When the server is restarted so late that the replay of these
    three entries runs after the logged deadline, the replayed [PEXPIREAT]
    deletes the key. So the persistent key, which the running server keeps for
    ever, is lost, because the replayed [PERSIST] finds nothing; and the counter,
    which the running server has until its deadline and not after, comes back
    with the value 1 and without a deadline, because the replayed [INCR] starts
    anew. *)
Theorem late_replay_diverges `{PlatformLaws} `{D : Disk} `{VectorAlloc}
    c l vs cR cR1 clocks ro k v off clk1 clk2 clk3 r1 r2 r3 :
  reliable D -> engine_wf (storage c) -> bounded (storage c) = false -> aof c = Some l -> ready l ->
  file l = flat_map serialize vs -> all_wf vs ->
  run_null clocks ro vs 0 cR = Ok cR1 -> engine_wf (storage cR1) -> bounded (storage cR1) = false ->
  wf r1 = true -> wf r2 = true -> wf r3 = true ->
  request_op r1 = Some (KSet k v) -> request_op r2 = Some (KExpire k off) ->
  let deadline := engine_now clk2 + off in
  let logged := dispatch_now clk2 + off in
  0 <= engine_now clk1 <= engine_now clk2 -> engine_now clk2 <= engine_now clk3 < deadline -> deadline < two64 ->
  0 < logged < two64 ->
  (forall i, (length vs <= i)%nat -> logged <= engine_now (clocks i) < two64 /\
     engine_now (clocks i) <= engine_now (clocks (S i))) ->
  let last := engine_now (clocks (length vs + 2)%nat) in
  (request_op r3 = Some (KPersist k) ->
   exists c' l', run_live [LReq clk1 r1; LReq clk2 r2; LReq clk3 r3] c = Ok c' /\ aof c' = Some l' /\
     (forall now, engine_now clk3 <= now -> live now (elookup k (storage c')) = Some (v, 0)) /\
     (size_of (file l') <= INT64_MAX ->
      exists cR', load_aof clocks ro (Some (file l')) cR = Ok (length vs + 3, cR')%nat /\
        forall now, last <= now -> live now (elookup k (storage cR')) = None)) /\
  (forall x, request_op r3 = Some (KIncr k) -> counter_start (Some (v, 0)) = Some (x, 0) -> is_i64 (x + 1) = true ->
   exists c' l', run_live [LReq clk1 r1; LReq clk2 r2; LReq clk3 r3] c = Ok c' /\ aof c' = Some l' /\
     (forall now, engine_now clk3 <= now < deadline ->
        live now (elookup k (storage c')) = Some (to_string (x + 1), deadline)) /\
     (forall now, deadline <= now -> live now (elookup k (storage c')) = None) /\
     (size_of (file l') <= INT64_MAX ->
      exists cR', load_aof clocks ro (Some (file l')) cR = Ok (length vs + 3, cR')%nat /\
        forall now, last <= now -> live now (elookup k (storage cR')) = Some (to_string 1, 0))).
Proof.
  intros HD Hw Hb Ha Hl Hf Hvs Hrun HwR HbR W1 W2 W3 O1 O2 deadline logged T1 T2 T3 T4 HC last. split.
  - intros O3. assert ((deadline =? 0) = false) as Hd0 by (apply Z.eqb_neq; unfold deadline; lia).
    assert (key_call k (KPersist k) = true) as K3 by (cbn; by rewrite bool_decide_eq_true_2).
    assert (journal clk3 r3 (KPersist k) (key_step (engine_now clk3) (KPersist k) (Some (v, deadline))).1 = [r3]) as J3
      by (cbn; by rewrite Hd0).
    destruct (late_restart k v off clk1 clk2 clk3 r1 r2 r3 (KPersist k) O1 O2 O3 K3 I J3 T4 c l vs cR cR1 clocks ro)
      as (c' & l' & E & A & L & R); try done.
    cbn [key_step] in L, R. fold deadline in L. rewrite Hd0 in L. exists c', l'. split_and!; done.
  - intros x O3 Hx Hfit.
    assert (counter_start (Some (v, deadline)) = Some (x, deadline)) as Hs.
    { cbn in Hx |- *. destruct (_ && _); [|done]. by injection Hx as ->. }
    assert (key_call k (KIncr k) = true) as K3 by (cbn; by rewrite bool_decide_eq_true_2).
    assert (incr_fits (KIncr k) (Some (v, deadline))) as F3 by (cbn [incr_fits]; rewrite Hs; by intros ? ? [= <- <-]).
    assert (journal clk3 r3 (KIncr k) (key_step (engine_now clk3) (KIncr k) (Some (v, deadline))).1 = [r3]) as J3
      by (cbn [key_step]; by rewrite Hs).
    destruct (late_restart k v off clk1 clk2 clk3 r1 r2 r3 (KIncr k) O1 O2 O3 K3 F3 J3 T4 c l vs cR cR1 clocks ro)
      as (c' & l' & E & A & L & R); try done.
    unfold key_step in L. fold deadline in L. rewrite Hs in L. exists c', l'. split_and!; try done.
    + intros now Hn. rewrite L by lia. cbn. by rewrite alive_before by lia.
    + intros now Hn. rewrite L by lia. cbn. by rewrite alive_after by lia.
Qed.

(** The file after a history from the start fits. *)
Definition log_fits (evs : list live_event) : bool :=
  match run_live evs ctx0 with
  | Ok c => match aof c with Some l => size_of (file l) <=? INT64_MAX | None => false end
  | _ => false
  end.

Lemma log_fits_size evs c l : log_fits evs = true -> run_live evs ctx0 = Ok c -> aof c = Some l ->
  size_of (file l) <= INT64_MAX.
Proof. unfold log_fits. intros H E A. rewrite E, A in H. by apply Z.leb_le. Qed.

Definition late_history (set last : RESPValue) : list live_event :=
  [LReq (clk_at 1000) set; LReq (mkClock 1001 0 1003) (request ["PEXPIRE"; "k"; "1000"]); LReq (clk_at 1500) last].

Lemma late_replay_diverges_witness :
  (exists c' l' cR', run_live (late_history (request ["SET"; "k"; "v"]) (request ["PERSIST"; "k"])) ctx0 = Ok c' /\
     aof c' = Some l' /\ live 6000 (elookup (lit "k") (storage c')) = Some (lit "v", 0) /\
     @load_aof _ perfect_disk libstdcxx_alloc replay_clock false (Some (file l')) ctx0 = Ok (3%nat, cR') /\
     live 6000 (elookup (lit "k") (storage cR')) = None) /\
  (exists c' l' cR', run_live (late_history (request ["SET"; "k"; "5"]) (request ["INCR"; "k"])) ctx0 = Ok c' /\
     aof c' = Some l' /\ live 1500 (elookup (lit "k") (storage c')) = Some (lit "6", 2001) /\
     live 6000 (elookup (lit "k") (storage c')) = None /\
     @load_aof _ perfect_disk libstdcxx_alloc replay_clock false (Some (file l')) ctx0 = Ok (3%nat, cR') /\
     live 6000 (elookup (lit "k") (storage cR')) = Some (lit "1", 0)).
Proof.
  assert (forall i, (0 <= i)%nat -> 1003 + 1000 <= engine_now (replay_clock i) < two64 /\
    engine_now (replay_clock i) <= engine_now (replay_clock (S i))) as HC.
  { intros i _. cbn. unfold two64. lia. }
  split.
  - destruct (@late_replay_diverges _ _ perfect_disk libstdcxx_alloc ctx0 (mkAOF (lit "appendonly.aof") true true []) []
      ctx0 ctx0 replay_clock false (lit "k") (lit "v") 1000 (clk_at 1000) (mkClock 1001 0 1003) (clk_at 1500)
      (request ["SET"; "k"; "v"]) (request ["PEXPIRE"; "k"; "1000"]) (request ["PERSIST"; "k"])) as [H1 _];
      try exact HC; try exact engine0_wf; try exact perfect_disk_reliable; try reflexivity; try (split; reflexivity);
      try (cbn; unfold two64; lia); try constructor.
    destruct (H1 eq_refl) as (c' & l' & E & A & L & R).
    destruct R as (cR' & ER & LR).
    { apply (log_fits_size (late_history (request ["SET"; "k"; "v"]) (request ["PERSIST"; "k"])) c' l'); [vm_compute; reflexivity|exact E|exact A]. }
    exists c', l', cR'. split; [exact E|]. split; [exact A|]. split; [apply L; cbn; lia|]. split; [exact ER|]. apply LR. cbn. lia.
  - destruct (@late_replay_diverges _ _ perfect_disk libstdcxx_alloc ctx0 (mkAOF (lit "appendonly.aof") true true []) []
      ctx0 ctx0 replay_clock false (lit "k") (lit "5") 1000 (clk_at 1000) (mkClock 1001 0 1003) (clk_at 1500)
      (request ["SET"; "k"; "5"]) (request ["PEXPIRE"; "k"; "1000"]) (request ["INCR"; "k"])) as [_ H1];
      try exact HC; try exact engine0_wf; try exact perfect_disk_reliable; try reflexivity; try (split; reflexivity);
      try (cbn; unfold two64; lia); try constructor.
    destruct (H1 5 eq_refl ltac:(vm_compute; reflexivity) eq_refl) as (c' & l' & E & A & L & L2 & R).
    destruct R as (cR' & ER & LR).
    { apply (log_fits_size (late_history (request ["SET"; "k"; "5"]) (request ["INCR"; "k"])) c' l'); [vm_compute; reflexivity|exact E|exact A]. }
    exists c', l', cR'. split; [exact E|]. split; [exact A|]. split; [apply L; cbn; lia|]. split; [apply L2; cbn; lia|].
    split; [exact ER|]. apply LR. cbn. lia.
Defined.

(** C37. A torn command poisons the file. Let the file of a server end in a
    command that was torn between two of its elements: the header of an array
    and [els], with the elements [missing] lost. The replay of this file skips
    the torn command but leaves its bytes there, and the server, whatever it
    does, appends the commands [news] after them. Then a second restart still
    reads the commands before the tear; but as long as there are fewer new
    commands than missing elements, it reads none of the new ones, and later it
    reads the first of them, as many as elements were missing, as elements of
    the torn command: it dispatches that array, and of the new commands only
    those after it. *)
Theorem torn_tail_poisons_file `{PlatformLaws} `{D : Disk} `{VectorAlloc}
    clocks ro cR c c' l vs els missing evs :
  reliable D -> all_wf vs -> wf (create_array (els ++ missing)) = true -> missing <> [] ->
  file l = flat_map serialize vs ++ array_header (length (els ++ missing)) ++ flat_map serialize els ->
  aof c = Some l -> ready l -> Forall live_wf evs -> run_live evs c = Ok c' ->
  (exists news, all_wf news /\ aof c' = Some (appended l news)) /\
  forall news l', all_wf news -> aof c' = Some l' -> l' = appended l news ->
    size_of (file l') + 5 * Z.of_nat (length (els ++ missing)) <= INT64_MAX ->
    load_aof clocks ro (Some (file l)) cR = (c ← run_null clocks ro vs 0 cR; Ok (length vs, c)) /\
    ((length news < length missing)%nat ->
       load_aof clocks ro (Some (file l')) cR = (c ← run_null clocks ro vs 0 cR; Ok (length vs, c))) /\
    (forall ws ws', news = ws ++ ws' -> length ws = length missing ->
       load_aof clocks ro (Some (file l')) cR =
         c ← run_null clocks ro (vs ++ create_array (els ++ ws) :: ws') 0 cR;
         Ok (length (vs ++ create_array (els ++ ws) :: ws'), c)).
Proof.
  intros HD Hvs Hw Hm Hf Ha Hl Hevs E. apply wf_array in Hw as [[Hels _]%Forall_app Hlim].
  split; [by apply (live_appends evs c)|]. intros news l' Hnews Ha' ->. cbn [appended file]. intros Hsz.
  assert (forall es, all_wf es -> (length es < length missing)%nat ->
    size_of (file l ++ flat_map serialize es) + 5 * Z.of_nat (length (els ++ missing)) <= INT64_MAX ->
    load_aof clocks ro (Some (file l ++ flat_map serialize es)) cR = (c ← run_null clocks ro vs 0 cR; Ok (length vs, c))) as Hshort.
  { intros es Hes Hlen Hs. rewrite Hf in Hs |- *. rewrite <- !app_assoc, <- flat_map_app in *.
    apply load_stream; [done| |lia]. rewrite size_of_app in Hs. pose proof (size_of_nonneg (flat_map serialize vs)).
    apply torn_array; [by apply Forall_app|rewrite !length_app; lia|done|lia]. }
  split_and!.
  - pose proof (Hshort [] ltac:(constructor) ltac:(destruct missing; [done|cbn; lia])) as Hs. cbn [flat_map] in Hs.
    rewrite app_nil_r in Hs. apply Hs. rewrite size_of_app in Hsz.
    pose proof (size_of_nonneg (flat_map serialize news)). lia.
  - intros Hlen. by apply Hshort.
  - intros ws ws' -> Hlen. apply Forall_app in Hnews as [Hws Hws'].
    assert (file l ++ flat_map serialize (ws ++ ws') = flat_map serialize (vs ++ create_array (els ++ ws) :: ws') ++ []) as Hall.
    { rewrite Hf, !flat_map_app. cbn [flat_map]. rewrite serialize_array, !flat_map_app, !length_app, Hlen.
      by rewrite app_nil_r, <- !app_assoc. }
    rewrite Hall in *. apply load_stream; [|apply torn_nil|lia].
    apply Forall_app. split; [done|]. constructor; [|done]. apply wf_array. split; [by apply Forall_app|].
    rewrite length_app in *. lia.
Qed.

(** A crash inside the [SET] of [b]; the server starts again and stores [c]
    and [d]. *)
Definition crashed_file : bytes :=
  flat_map serialize [request ["SET"; "a"; "1"]] ++ array_header 3 ++
  flat_map serialize (create_bulk_string <$> [lit "SET"; lit "b"]).

Definition started_on (f : bytes) : Ctx :=
  (got (@load_aof _ perfect_disk libstdcxx_alloc replay_clock false (Some f)
          (mkCtx engine0 (Some (mkAOF (lit "appendonly.aof") true true f)) initial_metrics)) (0%nat, ctx0)).2.

Definition two_more : list live_event :=
  [LReq (clk_at 7000) (request ["SET"; "c"; "y"]); LReq (clk_at 7001) (request ["SET"; "d"; "z"])].

Definition poisoned : Ctx := got (run_live two_more (started_on crashed_file)) ctx0.

Definition key_at (now : Z) (k : string) (c : Ctx) : option (bytes * Z) := live now (elookup (lit k) (storage c)).

Definition poisoned_file : AOFLogger := default (mkAOF [] false false []) (aof poisoned).

Lemma torn_tail_poisons_file_witness :
  (key_at 8000 "a" (started_on crashed_file) = Some (lit "1", 0) /\
   key_at 8000 "c" poisoned = Some (lit "y", 0) /\ key_at 8000 "d" poisoned = Some (lit "z", 0)) /\
  @load_aof _ perfect_disk libstdcxx_alloc replay_clock false (Some (file poisoned_file)) ctx0 =
    (c ← run_null replay_clock false [request ["SET"; "a"; "1"];
       create_array [create_bulk_string (lit "SET"); create_bulk_string (lit "b"); request ["SET"; "c"; "y"]];
       request ["SET"; "d"; "z"]] 0 ctx0; Ok (3%nat, c)) /\
  (key_at 8000 "a" (started_on (file poisoned_file)) = Some (lit "1", 0) /\
   key_at 8000 "c" (started_on (file poisoned_file)) = None).
Proof.
  split; [split; [|split]; vm_compute; reflexivity|].
  split; [|split; vm_compute; reflexivity].
  destruct (@torn_tail_poisons_file _ _ perfect_disk libstdcxx_alloc replay_clock false ctx0 (started_on crashed_file) poisoned
    (mkAOF (lit "appendonly.aof") true true crashed_file) [request ["SET"; "a"; "1"]]
    (create_bulk_string <$> [lit "SET"; lit "b"]) [create_bulk_string (lit "x")] two_more) as (_ & H).
  - apply perfect_disk_reliable.
  - repeat constructor.
  - reflexivity.
  - discriminate.
  - reflexivity.
  - vm_compute. reflexivity.
  - split; reflexivity.
  - repeat constructor.
  - apply got_ok. vm_compute. reflexivity.
  - destruct (H [request ["SET"; "c"; "y"]; request ["SET"; "d"; "z"]] poisoned_file) as (_ & _ & H3).
    + repeat constructor.
    + vm_compute. reflexivity.
    + vm_compute. reflexivity.
    + vm_compute. congruence.
    + exact (H3 [request ["SET"; "c"; "y"]] [request ["SET"; "d"; "z"]] eq_refl eq_refl).
Defined.

(** The condition on the memory limit is needed too: evictions are not logged
    and the limit is not either, so a restart brings evicted keys back. *)
Example evicted_key_returns :
  let evs := [LReq (clk_at 1000) (request ["CONFIG"; "SET"; "maxmemory"; "150"]);
              LReq (clk_at 1001) (request ["SET"; "a"; "1"]);
              LReq (clk_at 1002) (request ["SET"; "q"; "2"])] in
  let primary := got (run_live evs ctx0) ctx0 in
  key_at 5000 "a" primary = None /\ key_at 5000 "q" primary = Some (lit "2", 0) /\
  key_at 6000 "a" (started_on (from_option file [] (aof primary))) = Some (lit "1", 0).
Proof. split_and!; vm_compute; reflexivity. Qed.
