(* ===== verification/Main.v ===== *)
(** * The command line: [src/main.cpp]

    The loop over the arguments, with [std::stoi] and the conversion of its
    [int] to [uint16_t], the signal handler, and the life of the process from
    the command line to the destruction of the server. *)

From S2P Require Import Prelude CppStd RESP RESPProofs UnorderedMap Storage StdPlatform StorageProofs StorageSpec StorageRefine AOF Dispatcher DispatcherProofs Connection Server.

(** ** [std::stoi] *)

(** [isspace] in the C locale. *)
Definition is_space (c : ascii) : bool :=
  let n := Z.of_nat (nat_of_ascii c) in (n =? 32) || ((9 <=? n) && (n <=? 13)).

Fixpoint skip_spaces (s : bytes) : bytes :=
  match s with
  | c :: s' => if is_space c then skip_spaces s' else s
  | [] => []
  end.


(** Leading blanks, a sign, digits; what follows the digits is ignored. *)
Definition stoi (s : bytes) : res Z :=
  let s := skip_spaces s in
  let '(neg, body) :=
    match s with
    | c :: t => if bool_decide (c = minus_sign) then (true, t)
                else if bool_decide (c = "+"%char) then (false, t) else (false, s)
    | [] => (false, [])
    end in
  match take_digits body with
  | [] => Throw invalid_argument
  | ds =>
      let v := if neg : bool then - dec_value ds else dec_value ds in
      if (INT_MIN <=? v) && (v <=? INT_MAX) then Ok v else Throw out_of_range
  end.

(** Conversion to [uint16_t]. *)
Definition u16 (z : Z) : Z := z mod 2 ^ 16.

(** ** [main] *)

Record Options := mkOptions { opt_port : Z; opt_replica_host : bytes; opt_replica_port : Z }.

Definition default_options : Options := mkOptions 6379 [] 0.

(** The [for] loop on [argv[1..]]. An option without enough arguments behind
    it is skipped like an unknown word. *)
Fixpoint parse_args (argv : list bytes) (o : Options) : res Options :=
  match argv with
  | [] => Ok o
  | arg :: rest =>
      match bool_decide (arg = lit "--port"), rest with
      | true, p :: rest' =>
          port ← stoi p;
          parse_args rest' (mkOptions (u16 port) (opt_replica_host o) (opt_replica_port o))
      | _, _ =>
          match bool_decide (arg = lit "--replicaof"), rest with
          | true, h :: p :: rest' =>
              port ← stoi p;
              parse_args rest' (mkOptions (opt_port o) h (u16 port))
          | _, _ => parse_args rest o
          end
      end
  end.

Section main.
Context `{Platform} `{Disk} `{VectorAlloc}.


(** The server [main] builds. *)
Definition make_server (argv : list bytes) (c : Ctx) : res Server :=
  o ← parse_args argv default_options;
  Ok (new_server (opt_port o) (opt_replica_host o) (opt_replica_port o) c).




End main.

(** ** Lemmas *)

Lemma digit_not_space c : is_digit c = true ->
  is_space c = false /\ c <> minus_sign /\ c <> "+"%char.
Proof.
  unfold is_digit, is_space. intros Hd. zb. split_and!; [|by intros ->..].
  apply orb_false_iff. split; [by apply Z.eqb_neq; lia|]. apply andb_false_iff. right.
  apply Z.leb_gt. lia.
Qed.

Lemma stoi_to_string n : 0 <= n ->
  stoi (to_string n) = if n <=? INT_MAX then Ok n else Throw out_of_range.
Proof.
  intros Hn. unfold to_string. destruct (Z.ltb_spec n 0); [lia|].
  destruct (to_string_nonneg_spec n Hn) as [Hd Hv]. pose proof (to_string_nonneg_nonempty n) as Hne.
  remember (to_string_nonneg n) as s eqn:Es. clear Es.
  pose proof (take_digits_all s [] Hd ltac:(done)) as Ht. rewrite app_nil_r in Ht.
  destruct Hd as [|c ds Hc Hds]; [done|]. destruct (digit_not_space c Hc) as (Hsp & Hm & Hp).
  unfold stoi. cbn [skip_spaces]. rewrite Hsp, !bool_decide_eq_false_2 by done. rewrite Ht, Hv.
  replace (INT_MIN <=? n) with true; [done|]. symmetry. apply Z.leb_le. unfold INT_MIN. lia.
Qed.

(** ** What an argument vector says *)

(** The parts of an argument vector: a port, a primary, a word of no meaning. *)
Inductive item :=
  | OptPort (number : bytes)
  | OptReplica (host number : bytes)
  | Other (word : bytes).

Definition words (it : item) : list bytes :=
  match it with
  | OptPort w => [lit "--port"; w]
  | OptReplica h w => [lit "--replicaof"; h; w]
  | Other w => [w]
  end.

Definition plain (it : item) : Prop :=
  match it with Other w => w <> lit "--port" /\ w <> lit "--replicaof" | _ => True end.

(** An option at the end without its arguments. *)
Definition dangling (tail : list bytes) : Prop :=
  tail = [] \/ tail = [lit "--port"] \/ tail = [lit "--replicaof"] \/ exists w, tail = [lit "--replicaof"; w].

(** Every argument vector has this form. *)
Lemma argv_items argv : exists items tail, argv = flat_map words items ++ tail /\ Forall plain items /\ dangling tail.
Proof.
  assert (forall n argv, (length argv <= n)%nat ->
    exists items tail, argv = flat_map words items ++ tail /\ Forall plain items /\ dangling tail) as H;
    [|by apply (H (length argv))].
  clear argv. induction n as [|n IH]; intros argv Hn.
  { destruct argv; [|cbn in Hn; lia]. exists [], []. split_and!; [done|constructor|by left]. }
  assert (forall it rest, argv = words it ++ rest -> plain it ->
    exists items tail, argv = flat_map words items ++ tail /\ Forall plain items /\ dangling tail) as Hit.
  { intros it rest E Hp. destruct (IH rest) as (items & tail & Er & Hi & Ht).
    { rewrite E in Hn. destruct it; cbn in Hn; lia. }
    exists (it :: items), tail. split_and!; [|by constructor|done]. cbn. by rewrite E, Er, app_assoc. }
  destruct argv as [|a rest]; [exists [], []; split_and!; [done|constructor|by left]|].
  destruct (decide (a = lit "--port")) as [->|Hp].
  { destruct rest as [|w rest]; [exists [], [lit "--port"]; split_and!; [done|constructor|right; by left]|].
    by apply (Hit (OptPort w) rest). }
  destruct (decide (a = lit "--replicaof")) as [->|Hr]; [|by apply (Hit (Other a) rest)].
  destruct rest as [|h [|w rest]]; [..|by apply (Hit (OptReplica h w) rest)].
  - exists [], [lit "--replicaof"]. split_and!; [done|constructor|right; right; by left].
  - exists [], [lit "--replicaof"; h]. split_and!; [done|constructor|]. right; right; right. by exists h.
Qed.

(** The number of an item, and what [stoi] throws at it. *)
Definition item_error (it : item) : option exn :=
  match it with
  | OptPort w | OptReplica _ w => match stoi w with Throw e => Some e | _ => None end
  | Other _ => None
  end.

Definition port_number (w : bytes) : Z := match stoi w with Ok n => u16 n | _ => 0 end.

(** The last port, and the last primary, that the items name. *)
Definition said_port (items : list item) : Z :=
  default 6379 (last (omap (fun it => match it with OptPort w => Some (port_number w) | _ => None end) items)).

Definition said_primary (items : list item) : bytes * Z :=
  default ([], 0) (last (omap (fun it => match it with OptReplica h w => Some (h, port_number w) | _ => None end) items)).

Lemma stoi_cases w : (exists n, stoi w = Ok n) \/ exists e, stoi w = Throw e.
Proof.
  unfold stoi. destruct (match skip_spaces w with [] => _ | _ :: _ => _ end) as [neg body].
  destruct (take_digits body); [eauto|]. destruct (_ && _); eauto.
Qed.

Lemma port_number_ok w n : stoi w = Ok n -> port_number w = u16 n.
Proof. unfold port_number. by intros ->. Qed.

Lemma parse_dangling tail o : dangling tail -> parse_args tail o = Ok o.
Proof.
  intros [->|[->|[->|[w ->]]]]; try done.
  cbn [parse_args]. rewrite (bool_decide_eq_false_2 (lit "--replicaof" = lit "--port")) by done.
  by destruct (bool_decide (lit "--replicaof" = lit "--replicaof")), (bool_decide (w = lit "--port")),
    (bool_decide (w = lit "--replicaof")).
Qed.

Lemma last_cons_default {A} (x d : A) l : default d (last (x :: l)) = default x (last l).
Proof. rewrite last_cons. by destruct (last l). Qed.

(** The loop on such a vector. *)
Lemma parse_items items tail o : Forall plain items -> dangling tail ->
  parse_args (flat_map words items ++ tail) o =
    match head (omap item_error items) with
    | Some e => Throw e
    | None =>
        let primary := default (opt_replica_host o, opt_replica_port o)
          (last (omap (fun it => match it with OptReplica h w => Some (h, port_number w) | _ => None end) items)) in
        Ok (mkOptions
             (default (opt_port o) (last (omap (fun it => match it with OptPort w => Some (port_number w) | _ => None end) items)))
             primary.1 primary.2)
    end.
Proof.
  intros Hi Ht. revert o. induction Hi as [|it items Hp _ IH]; intros o.
  { cbn. rewrite parse_dangling by done. by destruct o. }
  destruct it as [w|h w|w]; cbn [flat_map words app parse_args].
  - rewrite bool_decide_eq_true_2 by done. cbn [omap list_omap item_error].
    destruct (stoi_cases w) as [[n E]|[e E]]; rewrite E; cbn [mbind res_bind head]; [|done].
    rewrite IH. destruct (head _); [done|]. cbn [opt_port opt_replica_host opt_replica_port].
    rewrite last_cons_default. by rewrite (port_number_ok w n E).
  - rewrite (bool_decide_eq_false_2 (lit "--replicaof" = lit "--port")), bool_decide_eq_true_2 by done.
    cbn [omap list_omap item_error].
    destruct (stoi_cases w) as [[n E]|[e E]]; rewrite E; cbn [mbind res_bind head]; [|done].
    rewrite IH. destruct (head _); [done|]. cbn [opt_port opt_replica_host opt_replica_port].
    rewrite last_cons_default. by rewrite (port_number_ok w n E).
  - destruct Hp as [H1 H2]. rewrite !bool_decide_eq_false_2 by done. cbn [omap list_omap item_error]. apply IH.
Qed.

(** ** Properties *)

(** C30. The command line means what it says. Every argument vector is a sequence
    of [--port n], [--replicaof host n] and other words, in any order and number,
    with perhaps an option without its arguments at the end; that one and the
    other words are ignored. When [std::stoi] takes every number, the server
    gets the last port named, or 6379, and the last primary named, or none, both
    ports reduced modulo 65536, and is a replica exactly when the host is not
    empty and the reduced port is not 0; otherwise the exception of the first
    number that [stoi] refuses is thrown. Of a decimal number that is written
    plainly, [stoi] takes those that fit an [int] and throws [out_of_range] for
    the others. *)
Theorem command_line_understood `{Platform} items tail c :
  Forall plain items -> dangling tail ->
  make_server (flat_map words items ++ tail) c =
    match head (omap item_error items) with
    | Some e => Throw e
    | None =>
        let '(host, port) := said_primary items in
        Ok (mkServer (said_port items) (-1) false host port (negb (bool_decide (host = [])) && (0 <? port)) c)
    end /\
  (forall argv, exists items tail, argv = flat_map words items ++ tail /\ Forall plain items /\ dangling tail) /\
  (forall n, 0 <= n -> stoi (to_string n) = if n <=? INT_MAX then Ok n else Throw out_of_range).
Proof.
  intros Hi Ht. split_and!; [|apply argv_items|apply stoi_to_string].
  unfold make_server. rewrite parse_items by done. unfold said_primary, said_port, new_server.
  destruct (head _); [done|]. cbn [mbind res_bind opt_port opt_replica_host opt_replica_port default_options].
  by destruct (default ([], 0) _) as [h p].
Qed.

Lemma command_line_understood_witness :
  (exists s, make_server [lit "--port"; to_string 70000; lit "x"; lit "--replicaof"; lit "10.0.0.1"; to_string 65543;
      lit "--port"; to_string 7001; lit "--replicaof"; lit "--port"] ctx0 = Ok s /\
    port_ s = 7001 /\ replica_host_ s = lit "10.0.0.1" /\ replica_port_ s = 7 /\ is_replica_ s = true) /\
  (exists s, make_server [lit "--port"] ctx0 = Ok s /\ port_ s = 6379 /\ is_replica_ s = false) /\
  make_server [lit "--port"; lit "4294967296"; lit "--port"; lit "x"] ctx0 = Throw out_of_range.
Proof.
  split; [|split].
  - eexists. split.
    + apply (command_line_understood [OptPort (to_string 70000); Other (lit "x"); OptReplica (lit "10.0.0.1") (to_string 65543);
        OptPort (to_string 7001)] [lit "--replicaof"; lit "--port"] ctx0).
      * repeat constructor; discriminate.
      * right; right; right. by exists (lit "--port").
    + split_and!; vm_compute; reflexivity.
  - eexists. split.
    + apply (command_line_understood [] [lit "--port"] ctx0); [constructor|]. right; by left.
    + split; vm_compute; reflexivity.
  - apply (command_line_understood [OptPort (lit "4294967296"); OptPort (lit "x")] [] ctx0); [repeat constructor|by left].
Defined.












