(* ===== verification/Concurrent.v ===== *)
(** * The storage engine under concurrency

    In [Storage] a critical section is one function of the shard's table and
    of the engine's atomic members. A real one runs beside critical sections
    of other shards, and its accesses to the atomics are separate events. Here
    every critical section of [src/storage/StorageEngine.cpp] is the sequence
    of its atomic accesses: a tree [cs] whose nodes are the [load]s and the
    [fetch_add]s and [fetch_sub]s in the order of the source, and whose leaves
    hold the result and the table at the release of the lock. [Machine] is a
    pool of threads that run such sections, one per locked shard, in any
    interleaving of their accesses and of changes of the memory limit. *)

From S2P Require Import Prelude CppStd UnorderedMap Storage RESP RESPProofs StdPlatform StorageProofs StorageSpec.

(** ** Critical sections as sequences of atomic accesses *)

(** The accesses that change an atomic; none of their results is used. *)
Inductive update :=
  | add_total (n : Z)
  | sub_total (n : Z)
  | add_hit
  | add_miss
  | add_evicted
  | add_expired.

Definition apply_update (u : update) (a : Atomics) : Atomics :=
  match u with
  | add_total n => fetch_add_total n a
  | sub_total n => fetch_sub_total n a
  | add_hit => count_hit a
  | add_miss => count_miss a
  | add_evicted => count_evicted a
  | add_expired => count_expired a
  end.

(** [max_memory_bytes_ = v]. *)
Definition with_max (v : Z) (a : Atomics) : Atomics :=
  mkAtomics (total_memory_usage a) v (keyspace_hits a) (keyspace_misses a) (evicted_keys a) (expired_keys a).

Section sections.
Context `{Platform}.

(** The rest of a critical section; [cs_ub] is undefined behaviour, [cs_nofuel]
    a loop that has not ended within its fuel. *)
Inductive cs :=
  | cs_ret (r : kv_res) (shard : Dict)
  | cs_upd (u : update) (p : cs)
  | cs_load_total (k : Z -> cs)
  | cs_load_max (k : Z -> cs)
  | cs_ub
  | cs_nofuel.

(** [evict_from_shard], with what follows it. *)
Fixpoint evict_cs (fuel : nat) (needed_bytes freed : Z) (rng : Rng) (shard : Dict)
    (k : Z -> Dict -> cs) : cs :=
  match fuel with
  | O => cs_nofuel
  | S f =>
      match um_elements shard with
      | [] => k freed shard
      | first :: _ =>
          if freed <? needed_bytes then
            if um_bucket_count shard =? 0 then k freed shard
            else
              let '(best_it, _, rng) := sample_five shard rng in
              let '(key, e) := default first best_it in
              let cost := entry_cost key (value_cap e) in
              cs_upd (sub_total cost)
                (cs_upd add_evicted
                   (evict_cs f needed_bytes (u64 (freed + cost)) rng (um_erase key shard) k))
          else k freed shard
      end
  end.

(** The admission test: the counter and the limit are read one after the
    other, and both before the eviction. *)
Definition room_cs (new_cost old_cost seed : Z) (shard : Dict) (k : bool -> Dict -> cs) : cs :=
  cs_load_total (fun current_mem => cs_load_max (fun max_mem =>
    if (0 <? max_mem) && (u64 (max_mem + old_cost) <? u64 (current_mem + new_cost)) then
      let needed := u64 (u64 (current_mem + new_cost) - u64 (max_mem + old_cost)) in
      evict_cs (S (length (um_elements shard))) needed 0 (rng_seed seed) shard
        (fun freed shard => k (negb (freed <? needed)) shard)
    else k true shard)).

Definition set_cs (key val : bytes) (now seed : Z) (shard : Dict) : cs :=
  let new_cost := entry_cost key (cap_copy (size_of val)) in
  let old_cost := match um_find key shard with
                  | Some e => entry_cost key (value_cap e)
                  | None => 0
                  end in
  room_cs new_cost old_cost seed shard (fun ok shard =>
    if negb ok then cs_ret (RBool false) shard
    else
      cs_upd (add_total (u64 (new_cost - old_cost)))
        match um_find key shard with
        | None => cs_ret (RBool true) (um_insert key (mkEntry val (cap_copy (size_of val)) 0 now) shard)
        | Some e =>
            cs_ret (RBool true)
              (um_update key (mkEntry val (cap_assign (value_cap e) (size_of val)) 0 now) shard)
        end).

Definition get_cs (key : bytes) (now : Z) (shard : Dict) : cs :=
  match um_find key shard with
  | Some e =>
      if is_expired e now then
        cs_upd (sub_total (entry_cost key (value_cap e)))
          (cs_upd add_expired (cs_upd add_miss (cs_ret (RValue None) (um_erase key shard))))
      else
        cs_upd add_hit
          (cs_ret (RValue (Some (value e)))
             (um_update key (mkEntry (value e) (value_cap e) (expire_at_ms e) now) shard))
  | None => cs_upd add_miss (cs_ret (RValue None) shard)
  end.

Definition del_cs (key : bytes) (shard : Dict) : cs :=
  match um_find key shard with
  | Some e =>
      cs_upd (sub_total (entry_cost key (value_cap e))) (cs_ret (RBool true) (um_erase key shard))
  | None => cs_ret (RBool false) shard
  end.

Definition exists_cs (key : bytes) (now : Z) (shard : Dict) : cs :=
  match um_find key shard with
  | Some e =>
      if is_expired e now then
        cs_upd (sub_total (entry_cost key (value_cap e)))
          (cs_upd add_expired (cs_upd add_miss (cs_ret (RBool false) (um_erase key shard))))
      else
        cs_upd add_hit
          (cs_ret (RBool true)
             (um_update key (mkEntry (value e) (value_cap e) (expire_at_ms e) now) shard))
  | None => cs_upd add_miss (cs_ret (RBool false) shard)
  end.

Definition store_cs (delta : Z) (key : bytes) (it : option DictEntry) (val expire_at : Z)
    (now seed : Z) (shard : Dict) : cs :=
  let val := val + delta in
  if negb (is_i64 val) then cs_ub
  else
    let new_val_str := to_string val in
    let new_cost := entry_cost key (cap_copy (size_of new_val_str)) in
    let old_cost := match it with
                    | Some e => entry_cost key (value_cap e)
                    | None => 0
                    end in
    room_cs new_cost old_cost seed shard (fun ok shard =>
      if negb ok then cs_ret (RNum None) shard
      else
        cs_upd (add_total (u64 (new_cost - old_cost)))
          (let old_cap := match um_find key shard with
                          | Some e => value_cap e
                          | None => cap_copy 0
                          end in
           cs_ret (RNum (Some val))
             (um_put key (mkEntry new_val_str (cap_move old_cap (size_of new_val_str)) expire_at now)
                shard))).

Definition counter_cs (delta : Z) (key : bytes) (now seed : Z) (shard : Dict) : cs :=
  match um_find key shard with
  | Some e =>
      if is_expired e now then
        cs_upd (sub_total (entry_cost key (value_cap e)))
          (store_cs delta key None 0 0 now seed (um_erase key shard))
      else
        let r := from_chars_i64 (value e) in
        if bool_decide (fc_ec r <> errc_ok) || negb (fc_ptr r =? size_of (value e)) then
          cs_ret (RNum None) shard
        else store_cs delta key (Some e) (fc_val r) (expire_at_ms e) now seed shard
  | None => store_cs delta key None 0 0 now seed shard
  end.

Definition expire_at_cs (key : bytes) (deadline now : Z) (shard : Dict) : cs :=
  match um_find key shard with
  | Some e =>
      if is_expired e now then
        cs_upd (sub_total (entry_cost key (value_cap e)))
          (cs_upd add_expired (cs_ret (RBool false) (um_erase key shard)))
      else
        cs_ret (RBool true) (um_update key (mkEntry (value e) (value_cap e) deadline now) shard)
  | None => cs_ret (RBool false) shard
  end.

Definition pttl_cs (key : bytes) (now : Z) (shard : Dict) : cs :=
  match um_find key shard with
  | Some e =>
      if 0 <? expire_at_ms e then
        if expire_at_ms e <=? now then
          cs_upd (sub_total (entry_cost key (value_cap e))) (cs_ret (RInt (-2)) (um_erase key shard))
        else cs_ret (RInt (i64 (expire_at_ms e - now))) shard
      else cs_ret (RInt (-1)) shard
  | None => cs_ret (RInt (-2)) shard
  end.

Definition persist_cs (key : bytes) (now : Z) (shard : Dict) : cs :=
  match um_find key shard with
  | Some e =>
      if is_expired e now then
        cs_upd (sub_total (entry_cost key (value_cap e))) (cs_ret (RBool false) (um_erase key shard))
      else if expire_at_ms e =? 0 then cs_ret (RBool false) shard
      else cs_ret (RBool true) (um_update key (mkEntry (value e) (value_cap e) 0 now) shard)
  | None => cs_ret (RBool false) shard
  end.

(** The sweeper in one shard; it has no result. *)
Fixpoint sweep_cs (its : list (bytes * DictEntry)) (checked : Z) (now : Z) (shard : Dict) : cs :=
  match its with
  | [] => cs_ret (RInt 0) shard
  | (k, e) :: its' =>
      if checked <? 20 then
        if is_expired e now then
          cs_upd (sub_total (entry_cost k (value_cap e)))
            (cs_upd add_expired (sweep_cs its' (checked + 1) now (um_erase k shard)))
        else sweep_cs its' (checked + 1) now shard
      else cs_ret (RInt 0) shard
  end.

(** What a thread does between taking and releasing the lock of a shard. The
    multi-key calls are one section per key. *)
Inductive section :=
  | SSet (k v : bytes)
  | SGet (k : bytes)
  | SDel (k : bytes)
  | SExists (k : bytes)
  | SIncr (k : bytes)
  | SDecr (k : bytes)
  | SExpire (k : bytes) (ms_offset : Z)
  | SExpireAt (k : bytes) (absolute_ms : Z)
  | SPttl (k : bytes)
  | SPersist (k : bytes)
  | SSweep (i : nat).

Definition section_cs (sec : section) (now seed : Z) (shard : Dict) : cs :=
  match sec with
  | SSet k v => set_cs k v now seed shard
  | SGet k => get_cs k now shard
  | SDel k => del_cs k shard
  | SExists k => exists_cs k now shard
  | SIncr k => counter_cs 1 k now seed shard
  | SDecr k => counter_cs (-1) k now seed shard
  | SExpire k off => expire_at_cs k (u64 (now + off)) now shard
  | SExpireAt k t => expire_at_cs k t now shard
  | SPttl k => pttl_cs k now shard
  | SPersist k => persist_cs k now shard
  | SSweep _ => sweep_cs (um_elements shard) 0 now shard
  end.

(** The shard a section locks, with [n] shards. *)
Definition section_shard (n : nat) (sec : section) : nat :=
  match sec with
  | SSet k _ | SGet k | SDel k | SExists k | SIncr k | SDecr k | SExpire k _ | SExpireAt k _
  | SPttl k | SPersist k => Z.to_nat (std_hash k mod Z.of_nat n)
  | SSweep i => i
  end.

(** ** Threads *)

(** A thread inside a critical section: the section, its clock readings, what
    it has left to do, and, for the statements, the updates it has made. *)
Record busy := mkBusy {
  b_sec : section;
  b_now : Z;
  b_seed : Z;
  b_prog : cs;
  b_done : list update
}.

(** A finished section with its clock readings and its result. *)
Record finished := mkFinished { f_sec : section; f_now : Z; f_seed : Z; f_res : kv_res }.

(** The shared state, the threads that hold a lock, and the finished sections
    in the order of their releases. The table of a locked shard is the one at
    the time the lock was taken: nobody else can see it. *)
Record Machine := mkMachine {
  tables : list Dict;
  matomics : Atomics;
  threads : gmap nat busy;
  history : list finished
}.

Definition shard_free (i : nat) (m : Machine) : Prop :=
  forall t b, threads m !! t = Some b -> section_shard (length (tables m)) (b_sec b) <> i.

(** One event: a thread takes the lock of a free shard, having read the clock
    at any time before; or makes its next atomic access; or releases; or a
    client changes the memory limit, which takes no lock. [limits] are the
    values it may set. *)
Inductive mstep (limits : Z -> Prop) : Machine -> Machine -> Prop :=
  | step_lock t sec now seed shard m :
      threads m !! t = None -> shard_free (section_shard (length (tables m)) sec) m ->
      tables m !! section_shard (length (tables m)) sec = Some shard ->
      mstep limits m (mkMachine (tables m) (matomics m)
                 (<[t := mkBusy sec now seed (section_cs sec now seed shard) []]> (threads m))
                 (history m))
  | step_update t sec now seed u p ds m :
      threads m !! t = Some (mkBusy sec now seed (cs_upd u p) ds) ->
      mstep limits m (mkMachine (tables m) (apply_update u (matomics m))
                 (<[t := mkBusy sec now seed p (ds ++ [u])]> (threads m)) (history m))
  | step_load_total t sec now seed k ds m :
      threads m !! t = Some (mkBusy sec now seed (cs_load_total k) ds) ->
      mstep limits m (mkMachine (tables m) (matomics m)
                 (<[t := mkBusy sec now seed (k (total_memory_usage (matomics m))) ds]> (threads m))
                 (history m))
  | step_load_max t sec now seed k ds m :
      threads m !! t = Some (mkBusy sec now seed (cs_load_max k) ds) ->
      mstep limits m (mkMachine (tables m) (matomics m)
                 (<[t := mkBusy sec now seed (k (max_memory_bytes (matomics m))) ds]> (threads m))
                 (history m))
  | step_release t sec now seed r shard ds m :
      threads m !! t = Some (mkBusy sec now seed (cs_ret r shard) ds) ->
      mstep limits m (mkMachine (<[section_shard (length (tables m)) sec := shard]> (tables m)) (matomics m)
                 (delete t (threads m)) (history m ++ [mkFinished sec now seed r]))
  | step_config v m :
      limits (u64 v) ->
      mstep limits m (mkMachine (tables m) (with_max (u64 v) (matomics m)) (threads m) (history m)).

(** The engine with no call in progress. *)
Definition idle (eng : StorageEngine) : Machine := mkMachine (shards eng) (atomics eng) ∅ [].

(** ** A scheduler

    The same events as a function, to run examples. *)

Inductive sched :=
  | Lock (t : nat) (sec : section) (now seed : Z)
  | Run (t : nat)
  | Config (v : Z).

Definition shard_freeb (i : nat) (m : Machine) : bool :=
  forallb (fun tb => negb (bool_decide (section_shard (length (tables m)) (b_sec tb.2) = i)))
    (map_to_list (threads m)).

Definition exec_one (x : sched) (m : Machine) : option Machine :=
  match x with
  | Lock t sec now seed =>
      let i := section_shard (length (tables m)) sec in
      match threads m !! t, tables m !! i with
      | None, Some shard =>
          if shard_freeb i m then
            Some (mkMachine (tables m) (matomics m)
                    (<[t := mkBusy sec now seed (section_cs sec now seed shard) []]> (threads m)) (history m))
          else None
      | _, _ => None
      end
  | Run t =>
      match threads m !! t with
      | Some (mkBusy sec now seed p ds) =>
          let continue p ds a :=
            Some (mkMachine (tables m) a (<[t := mkBusy sec now seed p ds]> (threads m)) (history m)) in
          match p with
          | cs_upd u p => continue p (ds ++ [u]) (apply_update u (matomics m))
          | cs_load_total k => continue (k (total_memory_usage (matomics m))) ds (matomics m)
          | cs_load_max k => continue (k (max_memory_bytes (matomics m))) ds (matomics m)
          | cs_ret r shard =>
              Some (mkMachine (<[section_shard (length (tables m)) sec := shard]> (tables m)) (matomics m)
                      (delete t (threads m)) (history m ++ [mkFinished sec now seed r]))
          | cs_ub | cs_nofuel => None
          end
      | None => None
      end
  | Config v => Some (mkMachine (tables m) (with_max (u64 v) (matomics m)) (threads m) (history m))
  end.

Fixpoint exec (xs : list sched) (m : Machine) : option Machine :=
  match xs with
  | [] => Some m
  | x :: xs' => m ← exec_one x m; exec xs' m
  end.

Lemma shard_freeb_spec i m : shard_freeb i m = true -> shard_free i m.
Proof.
  unfold shard_freeb. rewrite forallb_forall. intros Hf t b Hb E.
  specialize (Hf (t, b)). cbn in Hf. rewrite bool_decide_eq_true_2 in Hf by done.
  discriminate Hf. by apply list_elem_of_In, elem_of_map_to_list.
Qed.

(** The limits a schedule sets. *)
Definition allows (limits : Z -> Prop) (x : sched) : Prop :=
  match x with Config v => limits (u64 v) | _ => True end.

Lemma exec_one_sound limits x m m' : exec_one x m = Some m' -> allows limits x -> mstep limits m m'.
Proof.
  destruct x as [t sec now seed|t|v]; cbn.
  - destruct (threads m !! t) eqn:Ht; [done|]. destruct (tables m !! _) eqn:Hl; [|done].
    destruct (shard_freeb _ m) eqn:Hf; [|done]. intros [= <-] _.
    constructor; [done|by apply shard_freeb_spec|done].
  - destruct (threads m !! t) as [[sec now seed [r s|u p|k|k| |] ds]|] eqn:Ht; [..|done]; intros [= <-] _.
    + by eapply step_release.
    + by eapply step_update.
    + by eapply step_load_total.
    + by eapply step_load_max.
  - intros [= <-] Hv. by apply step_config.
Qed.

(** Every schedule is an execution of the machine. *)
Lemma exec_sound limits xs m m' : exec xs m = Some m' -> Forall (allows limits) xs -> rtc (mstep limits) m m'.
Proof.
  intros E Hx. revert m E. induction Hx as [|x xs Hx _ IH]; intros m E; cbn in E; [by simplify_eq|].
  apply bind_Some in E as (m1 & E1 & E). eapply rtc_l; [by eapply exec_one_sound|auto].
Qed.

Definition exec' (xs : list sched) (m : Machine) : Machine := default m (exec xs m).
Definition can_exec (xs : list sched) (m : Machine) : bool := match exec xs m with Some _ => true | None => false end.

Lemma exec_reaches limits xs m : Forall (allows limits) xs -> can_exec xs m = true ->
  rtc (mstep limits) m (exec' xs m).
Proof.
  intros Hx. unfold can_exec, exec'. destruct (exec xs m) eqn:E; [|done]. intros _.
  by apply (exec_sound limits xs).
Qed.

End sections.
