(* ===== verification/ConcurrentProofs.v ===== *)
(** * Interleaved critical sections are serializable

    The accesses of a critical section in sequence are the [..._locked] function
    of [Storage]; updates of the atomics commute; and a section reads the memory
    counter at most once. From these, the invariant of the machine: its tables
    and counters are those of a sequential run of the finished sections, in the
    order of their releases, plus the updates of the sections in progress. With
    a memory limit a section of that run may have read another value of the
    counter, or an older limit, than the run has at that point. *)

From S2P Require Import Prelude CppStd UnorderedMap Storage RESP RESPProofs StdPlatform StorageProofs StorageSpec StorageRefine StorageMemory Concurrent.

(** ** Updates commute *)

Definition apply_all (ds : list update) (a : Atomics) : Atomics := foldl (fun a u => apply_update u a) a ds.

(** What an update adds to the memory counter. *)
Definition total_delta (u : update) : Z :=
  match u with add_total n => n | sub_total n => - n | _ => 0 end.

Lemma apply_update_comm u v a : apply_update u (apply_update v a) = apply_update v (apply_update u a).
Proof. destruct u, v; cbn; unfold fetch_add_total, fetch_sub_total; cbn; f_equal; u64_ring. Qed.

Lemma apply_all_cons u ds a : apply_all (u :: ds) a = apply_all ds (apply_update u a).
Proof. done. Qed.

Lemma apply_all_app ds ds' a : apply_all (ds ++ ds') a = apply_all ds' (apply_all ds a).
Proof. apply foldl_app. Qed.

Lemma apply_all_perm ds ds' a : Permutation ds ds' -> apply_all ds a = apply_all ds' a.
Proof.
  intros HP. revert a. induction HP as [|u ds ds' _ IH|u v ds|ds1 ds2 ds3 _ IH1 _ IH2]; intros a.
  - done.
  - apply IH.
  - unfold apply_all. cbn. by rewrite apply_update_comm.
  - by rewrite IH1.
Qed.

Lemma apply_update_max u a : max_memory_bytes (apply_update u a) = max_memory_bytes a.
Proof. by destruct u. Qed.

Lemma apply_all_max ds a : max_memory_bytes (apply_all ds a) = max_memory_bytes a.
Proof. revert a. induction ds as [|u ds IH]; intros a; [done|]. rewrite apply_all_cons, IH. apply apply_update_max. Qed.

Lemma apply_all_with_max ds v a : apply_all ds (with_max v a) = with_max v (apply_all ds a).
Proof.
  revert a. induction ds as [|u ds IH]; intros a; [done|]. rewrite !apply_all_cons, <- IH. f_equal. by destruct u.
Qed.

(** The atomics with another value of the memory counter. *)
Definition at_total (z : Z) (a : Atomics) : Atomics :=
  mkAtomics z (max_memory_bytes a) (keyspace_hits a) (keyspace_misses a) (evicted_keys a) (expired_keys a).

Lemma apply_update_total u a : 0 <= total_memory_usage a < two64 ->
  total_memory_usage (apply_update u a) = u64 (total_memory_usage a + total_delta u).
Proof. intros Ha. destruct u; cbn; rewrite ?Z.add_0_r, ?(u64_small _ Ha); done. Qed.

Lemma apply_update_range u a : 0 <= total_memory_usage a < two64 ->
  0 <= total_memory_usage (apply_update u a) < two64.
Proof. intros Ha. rewrite apply_update_total by done. apply u64_range. Qed.

(** What a section does to the atomics does not depend on the counter. *)
Lemma apply_all_at_total ds z a : 0 <= z < two64 -> 0 <= total_memory_usage a < two64 ->
  apply_all ds a =
    at_total (u64 (total_memory_usage a + (total_memory_usage (apply_all ds (at_total z a)) - z)))
      (apply_all ds (at_total z a)).
Proof.
  intros Hz. revert z a Hz. induction ds as [|u ds IH]; intros z a Hz Ha.
  - cbn. replace (total_memory_usage a + (z - z)) with (total_memory_usage a) by lia.
    rewrite u64_small by done. by destruct a.
  - rewrite !apply_all_cons.
    assert (apply_update u (at_total z a) = at_total (u64 (z + total_delta u)) (apply_update u a)) as ->.
    { destruct u; cbn; unfold at_total; cbn; rewrite ?Z.add_0_r, ?(u64_small z) by done; done. }
    rewrite (IH (u64 (z + total_delta u))); [|apply u64_range|by apply apply_update_range].
    rewrite apply_update_total by done. rewrite u64_add_l. f_equal.
    rewrite Z.add_sub_assoc, u64_sub_r. f_equal. lia.
Qed.

(** ** A section alone *)

Section alone.
Context `{Platform}.

(** A section that no other thread disturbs. *)
Fixpoint run_cs (p : cs) (a : Atomics) : res (kv_res * Dict * Atomics) :=
  match p with
  | cs_ret r s => Ok (r, s, a)
  | cs_upd u p => run_cs p (apply_update u a)
  | cs_load_total k => run_cs (k (total_memory_usage a)) a
  | cs_load_max k => run_cs (k (max_memory_bytes a)) a
  | cs_ub => UB
  | cs_nofuel => NoFuel
  end.

(** The critical sections of [Storage], with their results in one type. *)
Definition result {T} (c : T -> kv_res) (x : res (T * Dict * Atomics)) : res (kv_res * Dict * Atomics) :=
  '(r, s, a) ← x; Ok (c r, s, a).

Definition section_locked (sec : section) (now seed : Z) (s : Dict) (a : Atomics)
    : res (kv_res * Dict * Atomics) :=
  match sec with
  | SSet k v => result RBool (set_locked k v now seed s a)
  | SGet k => result RValue (get_locked k now s a)
  | SDel k => result RBool (del_locked k s a)
  | SExists k => result RBool (exists_locked k now s a)
  | SIncr k => result RNum (counter_locked 1 k now seed s a)
  | SDecr k => result RNum (counter_locked (-1) k now seed s a)
  | SExpire k off => result RBool (expire_locked k off now s a)
  | SExpireAt k t => result RBool (expire_at_locked k t now s a)
  | SPttl k => result RInt (pttl_locked k now s a)
  | SPersist k => result RBool (persist_locked k now s a)
  | SSweep _ => let '(s, a) := sweep_shard now s a in Ok (RInt 0, s, a)
  end.

Lemma run_evict fuel needed freed g s k a :
  run_cs (evict_cs fuel needed freed g s k) a =
    ('(freed, s, a) ← evict_loop fuel needed freed g s a; run_cs (k freed s) a).
Proof.
  revert freed g s a. induction fuel as [|f IH]; intros freed g s a; cbn [evict_cs evict_loop]; [done|].
  destruct (um_elements s) as [|first l]; [done|]. destruct (freed <? needed); [|done].
  destruct (um_bucket_count s =? 0); [done|].
  destruct (sample_five s g) as [[best old] g']. destruct (default first best) as [key e].
  apply IH.
Qed.

Lemma run_room nc oc seed s k a :
  run_cs (room_cs nc oc seed s k) a =
    ('(ok, s, a) ← make_room nc oc seed s a; run_cs (k ok s) a).
Proof.
  unfold room_cs. cbn [run_cs]. unfold make_room, evict_from_shard. destruct (_ && _); [|done].
  cbn zeta. rewrite run_evict. by destruct (evict_loop _ _ _ _ _ _) as [[[freed s1] a1]| | |].
Qed.

Lemma run_store delta key it val exp now seed s a :
  run_cs (store_cs delta key it val exp now seed s) a =
    result RNum (store_counter delta key it val exp now seed s a).
Proof.
  unfold store_cs, store_counter. destruct (is_i64 _); [|done]. cbn [negb]. rewrite run_room.
  destruct (make_room _ _ _ _ _) as [[[ok s1] a1]| | |]; [|done..]. by destruct ok.
Qed.

Lemma run_sweep its checked now s a :
  run_cs (sweep_cs its checked now s) a =
    let '(s, a) := sweep_loop its checked now s a in Ok (RInt 0, s, a).
Proof.
  revert checked s a. induction its as [|[k e] its IH]; intros checked s a; [done|].
  cbn [sweep_cs sweep_loop]. destruct (checked <? 20); [|done]. destruct (is_expired e now); apply IH.
Qed.

(** The accesses in sequence are the critical section of [Storage]. *)
Lemma run_section_cs sec now seed s a :
  run_cs (section_cs sec now seed s) a = section_locked sec now seed s a.
Proof.
  destruct sec; cbn [section_cs section_locked].
  - unfold set_cs, set_locked. rewrite run_room.
    destruct (make_room _ _ _ _ _) as [[[ok s1] a1]| | |]; [|done..]. destruct ok; [|done]. cbn.
    by destruct (um_find k s1).
  - unfold get_cs, get_locked. destruct (um_find k s); [|done]. by destruct (is_expired _ _).
  - unfold del_cs, del_locked. by destruct (um_find k s).
  - unfold exists_cs, exists_locked. destruct (um_find k s); [|done]. by destruct (is_expired _ _).
  - unfold counter_cs, counter_locked. destruct (um_find k s) as [e|]; [|apply run_store].
    destruct (is_expired _ _); [apply run_store|]. destruct (_ || _); [done|apply run_store].
  - unfold counter_cs, counter_locked. destruct (um_find k s) as [e|]; [|apply run_store].
    destruct (is_expired _ _); [apply run_store|]. destruct (_ || _); [done|apply run_store].
  - unfold expire_at_cs, expire_locked, expire_at_locked. destruct (um_find k s); [|done].
    by destruct (is_expired _ _).
  - unfold expire_at_cs, expire_at_locked. destruct (um_find k s); [|done].
    by destruct (is_expired _ _).
  - unfold pttl_cs, pttl_locked. destruct (um_find k s) as [e|]; [|done].
    destruct (0 <? _); [|done]. by destruct (_ <=? _).
  - unfold persist_cs, persist_locked. destruct (um_find k s); [|done].
    destruct (is_expired _ _); [done|]. by destruct (_ =? _).
  - apply run_sweep.
Qed.

(** ** A section among others *)

(** What [p] can become by its own accesses when it reads any value in the
    memory counter, and in the limit any value of [PM]. *)
Inductive path (PM : Z -> Prop) : cs -> list update -> cs -> Prop :=
  | path_refl p : path PM p [] p
  | path_upd u p ds q : path PM p ds q -> path PM (cs_upd u p) (u :: ds) q
  | path_total z k ds q : 0 <= z < two64 -> path PM (k z) ds q -> path PM (cs_load_total k) ds q
  | path_max M k ds q : PM M -> path PM (k M) ds q -> path PM (cs_load_max k) ds q.

Lemma path_trans PM p ds q ds' q' : path PM p ds q -> path PM q ds' q' -> path PM p (ds ++ ds') q'.
Proof. induction 1; cbn; eauto using path. Qed.

(** [p] only updates. *)
Fixpoint no_load (p : cs) : Prop :=
  match p with
  | cs_ret _ _ | cs_ub | cs_nofuel => True
  | cs_upd _ p => no_load p
  | cs_load_total _ | cs_load_max _ => False
  end.

(** [p] reads the limit, or nothing. *)
Definition max_once (p : cs) : Prop :=
  match p with cs_load_max k => forall M, no_load (k M) | _ => no_load p end.

(** [p] reads the memory counter at most once, and the limit right after. *)
Fixpoint one_total (p : cs) : Prop :=
  match p with
  | cs_ret _ _ | cs_ub | cs_nofuel => True
  | cs_upd _ p => one_total p
  | cs_load_total k => forall z, max_once (k z)
  | cs_load_max k => False
  end.

(** With no limit, what it reads makes no difference. *)
Fixpoint steady (p : cs) : Prop :=
  match p with
  | cs_upd _ p => steady p
  | cs_load_total k =>
      forall z z' a, max_memory_bytes a = 0 -> run_cs (k z) a = run_cs (k z') a
  | _ => True
  end.

Lemma no_load_path PM p ds r s a : path PM p ds (cs_ret r s) -> no_load p ->
  run_cs p a = Ok (r, s, apply_all ds a).
Proof.
  intros Hp. remember (cs_ret r s) as q eqn:Eq. revert a.
  induction Hp as [p|u p ds q Hp IH|z k ds q Hz Hp IH|M k ds q HM Hp IH]; intros a Hn; cbn; [by subst|by apply IH|done..].
Qed.

Lemma max_once_path PM M0 p ds r s : PM M0 -> path PM p ds (cs_ret r s) -> max_once p ->
  exists M, PM M /\ forall a, max_memory_bytes a = M -> run_cs p a = Ok (r, s, apply_all ds a).
Proof.
  intros H0 Hp Ho. destruct p as [r0 s0|u p|k|k| |]; cbn in Ho;
    try (exists M0; split; [done|]; intros a _; by eapply no_load_path).
  inversion Hp as [| | |M k' ds' q' HM Hp']; subst. exists M. split; [done|]. intros a Ha. cbn. rewrite Ha.
  by eapply no_load_path.
Qed.

(** Any path is a run from some value of the memory counter, with some limit. *)
Lemma one_total_path PM M0 p ds r s : PM M0 -> path PM p ds (cs_ret r s) -> one_total p ->
  exists z M, 0 <= z < two64 /\ PM M /\
    forall a, total_memory_usage a = z -> max_memory_bytes a = M -> run_cs p a = Ok (r, s, apply_all ds a).
Proof.
  intros H0 Hp. remember (cs_ret r s) as q.
  induction Hp as [p|u p ds q Hp IH|z k ds q Hz Hp IH|M k ds q HM Hp IH]; intros Hn; subst.
  - by exists 0, M0.
  - destruct (IH eq_refl Hn) as (z & M & Hz & HM & Hr). exists (u64 (z - total_delta u)), M.
    split; [apply u64_range|]. split; [done|]. intros a Ha Hm. cbn. apply Hr; [|by rewrite apply_update_max].
    rewrite apply_update_total by (rewrite Ha; apply u64_range). rewrite Ha.
    autorewrite with kv. rewrite Z.sub_add. by apply u64_small.
  - destruct (max_once_path PM M0 (k z) ds r s H0 Hp (Hn z)) as (M & HM & Hr). exists z, M.
    split_and!; [lia..|done|]. intros a Ha Hm. cbn. rewrite Ha. by apply Hr.
  - done.
Qed.

(** When the limit was never set, it is a run from every value. *)
Lemma steady_path PM M0 p ds r s a : (forall M, PM M -> M = 0) -> PM M0 -> path PM p ds (cs_ret r s) ->
  one_total p -> steady p -> max_memory_bytes a = 0 -> run_cs p a = Ok (r, s, apply_all ds a).
Proof.
  intros HPM H0 Hp. remember (cs_ret r s) as q. revert a.
  induction Hp as [p|u p ds q Hp IH|z k ds q Hz Hp IH|M k ds q HM Hp IH]; intros a Ho Hs Ha; subst; cbn.
  - done.
  - apply IH; [done|done|done|]. by rewrite apply_update_max.
  - rewrite (Hs _ z) by done. destruct (max_once_path PM M0 (k z) ds r s H0 Hp (Ho z)) as (M & HM & Hr).
    apply Hr. by rewrite (HPM M HM).
  - done.
Qed.

Lemma no_load_total p : no_load p -> steady p /\ one_total p.
Proof. induction p; cbn; try done; auto. Qed.

Lemma evict_no_load fuel needed freed g s k :
  (forall z s, no_load (k z s)) -> no_load (evict_cs fuel needed freed g s k).
Proof.
  intros Hk. revert freed g s. induction fuel as [|f IH]; intros freed g s; cbn [evict_cs]; [done|].
  destruct (um_elements s) as [|first l]; [done|]. destruct (freed <? needed); [|done].
  destruct (um_bucket_count s =? 0); [done|].
  destruct (sample_five s g) as [[best old] g']. destruct (default first best) as [key e]. apply IH.
Qed.

Lemma room_total nc oc seed s k : (forall b s, no_load (k b s)) ->
  steady (room_cs nc oc seed s k) /\ one_total (room_cs nc oc seed s k).
Proof.
  intros Hk. split.
  - intros z z' a Ha. cbn. by rewrite Ha.
  - intros z M. destruct (_ && _); [|apply Hk]. cbn zeta. by apply evict_no_load.
Qed.

Lemma store_total delta key it val exp now seed s :
  steady (store_cs delta key it val exp now seed s) /\
  one_total (store_cs delta key it val exp now seed s).
Proof.
  unfold store_cs. destruct (is_i64 _); [|done]. apply room_total. intros b s'. by destruct b.
Qed.

Lemma sweep_no_load its checked now s : no_load (sweep_cs its checked now s).
Proof.
  revert checked s. induction its as [|[k e] its IH]; intros checked s; [done|]. cbn [sweep_cs].
  destruct (checked <? 20); [|done]. destruct (is_expired e now); apply IH.
Qed.

Lemma counter_total_once delta key now seed s :
  steady (counter_cs delta key now seed s) /\ one_total (counter_cs delta key now seed s).
Proof.
  unfold counter_cs. destruct (um_find key s) as [e|]; [|apply store_total].
  destruct (is_expired e now); [apply store_total|].
  destruct (_ || _); [done|apply store_total].
Qed.

(** A section reads the memory counter at most once, and to no effect when
    there is no limit. *)
Lemma section_total sec now seed s :
  steady (section_cs sec now seed s) /\ one_total (section_cs sec now seed s).
Proof.
  pose proof no_load_total as Hp.
  destruct sec; cbn [section_cs]; try apply counter_total_once.
  - apply room_total. intros b s'. destruct b; [|done]. by destruct (um_find k s').
  - apply Hp. unfold get_cs. destruct (um_find k s); [|done]. by destruct (is_expired _ _).
  - apply Hp. unfold del_cs. by destruct (um_find k s).
  - apply Hp. unfold exists_cs. destruct (um_find k s); [|done]. by destruct (is_expired _ _).
  - apply Hp. unfold expire_at_cs. destruct (um_find k s); [|done]. by destruct (is_expired _ _).
  - apply Hp. unfold expire_at_cs. destruct (um_find k s); [|done]. by destruct (is_expired _ _).
  - apply Hp. unfold pttl_cs. destruct (um_find k s); [|done]. destruct (0 <? _); [|done].
    by destruct (_ <=? _).
  - apply Hp. unfold persist_cs. destruct (um_find k s); [|done].
    destruct (is_expired _ _); [done|]. by destruct (_ =? _).
  - apply Hp, sweep_no_load.
Qed.

(** A section whose loops end. *)
Fixpoint ends (p : cs) : Prop :=
  match p with
  | cs_ret _ _ | cs_ub => True
  | cs_upd _ p => ends p
  | cs_load_total k | cs_load_max k => forall z, ends (k z)
  | cs_nofuel => False
  end.

Lemma path_ends PM p ds q : path PM p ds q -> ends p -> ends q.
Proof. induction 1; cbn; auto. Qed.

End alone.

Section ending.
Context `{PL : PlatformLaws}.

Lemma evict_ends fuel needed freed g s k :
  (length (um_elements s) < fuel)%nat -> (forall z s, ends (k z s)) ->
  ends (evict_cs fuel needed freed g s k).
Proof.
  intros Hl Hk. revert freed g s Hl. induction fuel as [|f IH]; intros freed g s Hl; [lia|]. cbn [evict_cs].
  destruct (um_elements s) as [|[k0 e0] l] eqn:El; [done|]. destruct (freed <? needed); [|done].
  destruct (um_bucket_count s =? 0); [done|].
  destruct (sample_five s g) as [[best old] g'] eqn:Es. destruct (default (k0, e0) best) as [key e] eqn:Ed.
  cbn. apply IH. pose proof (um_erase_length key e s) as Hlen.
  rewrite (victim_found _ _ _ _ _ _ _ _ _ _ El Es Ed), El in Hlen. cbn in *.
  specialize (Hlen eq_refl). lia.
Qed.

Lemma room_ends nc oc seed s k : (forall b s, ends (k b s)) -> ends (room_cs nc oc seed s k).
Proof.
  intros Hk z M. destruct (_ && _); [|done]. apply evict_ends; [lia|]. done.
Qed.

Lemma counter_ends delta key now seed s : ends (counter_cs delta key now seed s).
Proof.
  assert (forall it val exp s, ends (store_cs delta key it val exp now seed s)) as HS.
  { intros it val exp s'. unfold store_cs. destruct (is_i64 _); [|done]. apply room_ends. intros b s1.
    by destruct b. }
  unfold counter_cs. destruct (um_find key s) as [e|]; [|apply HS].
  destruct (is_expired e now); [apply HS|]. by destruct (_ || _).
Qed.

(** Every critical section ends, with enough fuel for the eviction. *)
Lemma section_ends sec now seed s : ends (section_cs sec now seed s).
Proof.
  destruct sec; cbn [section_cs]; try apply counter_ends.
  - apply room_ends. intros b s'. destruct b; [|done]. cbn. by destruct (um_find k s').
  - unfold get_cs. destruct (um_find k s); [|done]. by destruct (is_expired _ _).
  - unfold del_cs. by destruct (um_find k s).
  - unfold exists_cs. destruct (um_find k s); [|done]. by destruct (is_expired _ _).
  - unfold expire_at_cs. destruct (um_find k s); [|done]. by destruct (is_expired _ _).
  - unfold expire_at_cs. destruct (um_find k s); [|done]. by destruct (is_expired _ _).
  - unfold pttl_cs. destruct (um_find k s); [|done]. destruct (0 <? _); [|done]. by destruct (_ <=? _).
  - unfold persist_cs. destruct (um_find k s); [|done].
    destruct (is_expired _ _); [done|]. by destruct (_ =? _).
  - generalize (um_elements s), 0. intros its checked. revert checked s.
    induction its as [|[k e] its IH]; intros checked s; [done|]. cbn [sweep_cs].
    destruct (checked <? 20); [|done]. destruct (is_expired e now); apply IH.
Qed.

End ending.

(** ** Sequential runs of sections *)

Section serial.
Context `{Platform}.

Definition run_section (f : finished) (eng : StorageEngine) : res (kv_res * StorageEngine) :=
  let i := section_shard (length (shards eng)) (f_sec f) in
  match shards eng !! i with
  | None => UB
  | Some s =>
      '(r, s', a') ← section_locked (f_sec f) (f_now f) (f_seed f) s (atomics eng);
      Ok (r, mkEngine (<[i := s']> (shards eng)) a' (running eng))
  end.

(** The sections of [fs] one after the other. *)
Fixpoint run_history (fs : list finished) (eng : StorageEngine) : res (list kv_res * StorageEngine) :=
  match fs with
  | [] => Ok ([], eng)
  | f :: fs' =>
      '(r, eng) ← run_section f eng;
      '(rs, eng) ← run_history fs' eng;
      Ok (r :: rs, eng)
  end.

(** The engine as a section sees it that reads [z] in the memory counter and
    [M] in the limit. *)
Definition seen (z M : Z) (eng : StorageEngine) : StorageEngine :=
  mkEngine (shards eng) (with_max M (at_total z (atomics eng))) (running eng).

(** A sequential run, with changes of the limit, whose sections may read any
    value in the memory counter and any limit of [PM]; what they add to the
    counter is added to the real one. *)
Inductive serial (PM : Z -> Prop) : list finished -> StorageEngine -> StorageEngine -> Prop :=
  | serial_nil eng : serial PM [] eng eng
  | serial_snoc fs f z M eng eng1 eng2 :
      serial PM fs eng eng1 -> 0 <= z < two64 -> PM M ->
      run_section f (seen z M eng1) = Ok (f_res f, eng2) ->
      serial PM (fs ++ [f]) eng
        (seen (u64 (memory_usage eng1 + (memory_usage eng2 - z))) (get_max_memory eng1) eng2)
  | serial_config fs v eng eng1 :
      serial PM fs eng eng1 -> PM (u64 v) -> serial PM fs eng (set_max_memory v eng1).

Lemma run_history_snoc fs f eng rs eng1 r eng2 :
  run_history fs eng = Ok (rs, eng1) -> run_section f eng1 = Ok (r, eng2) ->
  run_history (fs ++ [f]) eng = Ok (rs ++ [r], eng2).
Proof.
  revert eng rs. induction fs as [|g fs IH]; intros eng rs E1 E2; cbn in *.
  - res_inv. by rewrite E2.
  - apply bind_Ok in E1 as ([r0 eng0] & E0 & E1). rewrite E0. cbn.
    apply bind_Ok in E1 as ([rs0 eng3] & E3 & E1). res_inv. by rewrite (IH _ _ E3 E2).
Qed.

(** ** The invariant of the machine *)

(** The updates of the sections in progress. *)
Definition in_progress (th : gmap nat busy) : list update := concat (b_done <$> (map_to_list th).*2).

Lemma in_progress_insert t b th : th !! t = None ->
  Permutation (in_progress (<[t := b]> th)) (b_done b ++ in_progress th).
Proof. intros Ht. unfold in_progress. by rewrite map_to_list_insert. Qed.

Lemma in_progress_lookup t b th : th !! t = Some b ->
  Permutation (in_progress th) (b_done b ++ in_progress (delete t th)).
Proof.
  intros Ht. rewrite <- (insert_delete_id th t b Ht) at 1.
  by rewrite in_progress_insert by apply lookup_delete_eq.
Qed.

(** Replacing a thread's state. *)
Lemma in_progress_replace t b b' th : th !! t = Some b -> b_done b' = b_done b ->
  Permutation (in_progress (<[t := b']> th)) (in_progress th).
Proof.
  intros Ht Hb. rewrite (in_progress_lookup t b th Ht), <- Hb.
  rewrite (in_progress_lookup t b' (<[t := b']> th)) by apply lookup_insert_eq.
  by rewrite delete_insert_eq.
Qed.

Definition slot (n : nat) (b : busy) : nat := section_shard n (b_sec b).

(** A thread has come from the start of its section on the table it locked. *)
Definition on_path (PM : Z -> Prop) (ts : list Dict) (b : busy) : Prop :=
  exists s, ts !! slot (length ts) b = Some s /\
    path PM (section_cs (b_sec b) (b_now b) (b_seed b) s) (b_done b) (b_prog b).

(** [eng'] is the engine after the finished sections alone. *)
Record minv (PM : Z -> Prop) (eng : StorageEngine) (m : Machine) (eng' : StorageEngine) : Prop := {
  inv_serial : serial PM (history m) eng eng';
  inv_exact : (forall M, PM M -> M = 0) ->
    run_history (history m) eng = Ok (f_res <$> history m, eng');
  inv_tables : tables m = shards eng';
  inv_max : PM (get_max_memory eng');
  inv_range : 0 <= memory_usage eng' < two64;
  inv_atomics : matomics m = apply_all (in_progress (threads m)) (atomics eng');
  inv_paths t b : threads m !! t = Some b -> on_path PM (tables m) b;
  inv_locks t t' b b' : threads m !! t = Some b -> threads m !! t' = Some b' -> t <> t' ->
    slot (length (tables m)) b <> slot (length (tables m)) b'
}.

Lemma minv_idle PM eng : 0 <= memory_usage eng < two64 -> PM (get_max_memory eng) -> minv PM eng (idle eng) eng.
Proof. intros Hr. split; cbn; try done. constructor. Qed.

(** A thread moves along its section. *)
Lemma minv_move PM eng m eng' t b b' a' :
  minv PM eng m eng' -> threads m !! t = Some b -> b_sec b' = b_sec b ->
  on_path PM (tables m) b' ->
  a' = apply_all (in_progress (<[t := b']> (threads m))) (atomics eng') ->
  minv PM eng (mkMachine (tables m) a' (<[t := b']> (threads m)) (history m)) eng'.
Proof.
  intros [I1 I2 I3 I4 I5 I6 I7 I8] Ht Hs Hp Ha. split; cbn; try done.
  - intros t0 b0. destruct (decide (t0 = t)) as [->|Hn].
    + rewrite lookup_insert_eq. by intros [= <-].
    + rewrite lookup_insert_ne by done. apply I7.
  - assert (forall t0 b0, <[t := b']> (threads m) !! t0 = Some b0 ->
      exists b1, threads m !! t0 = Some b1 /\ slot (length (tables m)) b0 = slot (length (tables m)) b1)
      as Hl.
    { intros t0 b0. destruct (decide (t0 = t)) as [->|Hn].
      - rewrite lookup_insert_eq. intros [= <-]. exists b. unfold slot. by rewrite Hs.
      - rewrite lookup_insert_ne by done. eauto. }
    intros t1 t2 b1 b2 (c1 & L1 & ->)%Hl (c2 & L2 & ->)%Hl. by apply (I8 t1 t2).
Qed.

Lemma path_here PM ts sec now seed p ds q :
  on_path PM ts (mkBusy sec now seed p ds) -> path PM p [] q ->
  on_path PM ts (mkBusy sec now seed q ds).
Proof. intros (s & Hs & Hp) Hq. exists s. split; [done|]. cbn in *. rewrite <- (app_nil_r ds). by eapply path_trans. Qed.

Lemma memory_range ds a : 0 <= total_memory_usage a < two64 ->
  0 <= total_memory_usage (apply_all ds a) < two64.
Proof. revert a. induction ds as [|u ds IH]; intros a Ha; [done|]. apply IH. by apply apply_update_range. Qed.

(** A finished path is a run of the section from some value of the counter and
    some limit, and from the real ones when there is no limit. *)
Lemma finish_section PM eng sec now seed s r s' ds i :
  i = section_shard (length (shards eng)) sec -> shards eng !! i = Some s ->
  0 <= memory_usage eng < two64 -> PM (get_max_memory eng) ->
  path PM (section_cs sec now seed s) ds (cs_ret r s') ->
  let eng' := mkEngine (<[i := s']> (shards eng)) (apply_all ds (atomics eng)) (running eng) in
  (exists z M eng2, 0 <= z < two64 /\ PM M /\
     run_section (mkFinished sec now seed r) (seen z M eng) = Ok (r, eng2) /\
     eng' = seen (u64 (memory_usage eng + (memory_usage eng2 - z))) (get_max_memory eng) eng2) /\
  ((forall M, PM M -> M = 0) -> run_section (mkFinished sec now seed r) eng = Ok (r, eng')).
Proof.
  intros Hi Hs Hr HPM Hp. destruct (section_total sec now seed s) as [Hst Hone]. split.
  - destruct (one_total_path PM _ _ _ _ _ HPM Hp Hone) as (z & M & Hz & HM & Hrun).
    specialize (Hrun (with_max M (at_total z (atomics eng))) eq_refl eq_refl). rewrite run_section_cs in Hrun.
    exists z, M, (mkEngine (<[i := s']> (shards eng))
      (apply_all ds (with_max M (at_total z (atomics eng)))) (running eng)).
    split_and!; [lia..|done| |].
    + unfold run_section. cbn. rewrite <- Hi, Hs, Hrun. done.
    + unfold seen, memory_usage. cbn [shards atomics running]. f_equal. rewrite apply_all_with_max.
      rewrite (apply_all_at_total ds z (atomics eng)) at 1 by done. unfold with_max, at_total. cbn.
      f_equal. by rewrite apply_all_max.
  - intros H0. pose proof (steady_path PM _ _ _ _ _ (atomics eng) H0 HPM Hp Hone Hst (H0 _ HPM)) as Hrun.
    rewrite run_section_cs in Hrun. unfold run_section. cbn. rewrite <- Hi, Hs, Hrun. done.
Qed.

Lemma minv_release PM eng m eng' t sec now seed r s' ds :
  minv PM eng m eng' -> threads m !! t = Some (mkBusy sec now seed (cs_ret r s') ds) ->
  exists eng'', minv PM eng (mkMachine (<[section_shard (length (tables m)) sec := s']> (tables m)) (matomics m)
    (delete t (threads m)) (history m ++ [mkFinished sec now seed r])) eng''.
Proof.
  intros [I1 I2 I3 I4 I5 I6 I7 I8] Ht. destruct (I7 _ _ Ht) as (s & Hs & Hp). cbn in Hs, Hp.
  unfold slot in Hs. cbn in Hs. rewrite I3 in Hs |- *.
  destruct (finish_section PM eng' sec now seed s r s' ds _ eq_refl Hs I5 I4 Hp)
    as [(z & M & eng2 & Hz & HM & Hrun & Eeng) Hex].
  set (eng'' := mkEngine (<[section_shard (length (shards eng')) sec := s']> (shards eng'))
    (apply_all ds (atomics eng')) (running eng')) in *.
  exists eng''. split; cbn [tables matomics threads history].
  - rewrite Eeng. by eapply serial_snoc.
  - intros Hm. rewrite fmap_app. cbn. by rewrite (run_history_snoc _ _ _ _ _ _ _ (I2 Hm) (Hex Hm)).
  - done.
  - unfold get_max_memory, eng''. cbn. by rewrite apply_all_max.
  - by apply memory_range.
  - rewrite I6. rewrite (apply_all_perm _ _ _ (in_progress_lookup _ _ _ Ht)). apply apply_all_app.
  - intros t0 b0 [Hn Ht0]%lookup_delete_Some. destruct (I7 _ _ Ht0) as (s0 & Hs0 & Hp0).
    exists s0. split; [|done]. unfold slot. rewrite length_insert, list_lookup_insert_ne; [by rewrite <- I3|].
    rewrite <- I3. exact (I8 _ _ _ _ Ht Ht0 Hn).
  - intros t1 t2 b1 b2 [_ H1]%lookup_delete_Some [_ H2]%lookup_delete_Some Hn. rewrite length_insert, <- I3.
    by apply (I8 t1 t2).
Qed.

Lemma minv_config PM eng m eng' v : minv PM eng m eng' -> PM (u64 v) ->
  minv PM eng (mkMachine (tables m) (with_max (u64 v) (matomics m)) (threads m) (history m)) (set_max_memory v eng').
Proof.
  intros [I1 I2 I3 I4 I5 I6 I7 I8] Hv. split; cbn; try done.
  - by constructor.
  - intros H0. rewrite (I2 H0). do 2 f_equal. unfold set_max_memory. rewrite (H0 _ Hv), <- (H0 _ I4).
    by destruct eng' as [ss [] b].
  - rewrite I6, <- apply_all_with_max. done.
Qed.

Lemma minv_step PM limits eng m m' eng' : (forall v, limits (u64 v) -> PM (u64 v)) ->
  minv PM eng m eng' -> mstep limits m m' -> exists eng'', minv PM eng m' eng''.
Proof.
  intros HL HI Hs. pose proof HI as [I1 I2 I3 I4 I5 I6 I7 I8].
  destruct Hs as [t sec now seed shard m Ht Hf Hl|t sec now seed u p ds m Ht|t sec now seed k ds m Ht|
    t sec now seed k ds m Ht|t sec now seed r shard ds m Ht|v m Hv].
  - exists eng'. split; cbn; try done.
    + rewrite I6. by rewrite (apply_all_perm _ _ _ (in_progress_insert _ _ _ Ht)).
    + intros t0 b0. destruct (decide (t0 = t)) as [->|Hn].
      * rewrite lookup_insert_eq. intros [= <-]. exists shard. split; [done|constructor].
      * rewrite lookup_insert_ne by done. apply I7.
    + intros t1 t2 b1 b2. unfold shard_free in Hf.
      destruct (decide (t1 = t)) as [->|H1], (decide (t2 = t)) as [->|H2];
        rewrite ?lookup_insert_eq, ?lookup_insert_ne by done; intros L1 L2 Hn; simplify_eq.
      * intros E. apply (Hf _ _ L2). by symmetry.
      * apply (Hf _ _ L1).
      * by apply (I8 t1 t2).
  - exists eng'. eapply minv_move; [done|done|done| |].
    + destruct (I7 _ _ Ht) as (s & Hs & Hp). exists s. split; [done|]. cbn in *.
      eapply path_trans; [done|]. constructor. constructor.
    + rewrite I6. rewrite (apply_all_perm _ _ _ (in_progress_lookup _ _ _ Ht)).
      rewrite (apply_all_perm (in_progress (<[t := _]> _)) _ _
        (in_progress_lookup t _ _ (lookup_insert_eq _ _ _))), delete_insert_eq.
      cbn [b_done]. change (apply_update u ?a) with (apply_all [u] a).
      rewrite <- apply_all_app. apply apply_all_perm. rewrite <- !app_assoc. f_equiv. apply Permutation_app_comm.
  - exists eng'. eapply minv_move; [done|done|done| |].
    + eapply path_here; [exact (I7 _ _ Ht)|]. apply (path_total _ (total_memory_usage (matomics m))).
      * rewrite I6. by apply memory_range.
      * constructor.
    + rewrite I6. symmetry. by apply apply_all_perm, (in_progress_replace t _ _ _ Ht).
  - exists eng'. eapply minv_move; [done|done|done| |].
    + eapply path_here; [exact (I7 _ _ Ht)|]. apply (path_max _ (max_memory_bytes (matomics m)));
      [|constructor]. by rewrite I6, apply_all_max.
    + rewrite I6. symmetry. by apply apply_all_perm, (in_progress_replace t _ _ _ Ht).
  - by eapply minv_release.
  - eexists. apply minv_config; [done|]. by apply HL.
Qed.

(** The limits a thread can read: the first one and those that are set. *)
Definition limits_of (limits : Z -> Prop) (eng : StorageEngine) (M : Z) : Prop :=
  M = get_max_memory eng \/ (limits M /\ 0 <= M < two64).

Lemma minv_reachable limits eng m : 0 <= memory_usage eng < two64 -> rtc (mstep limits) (idle eng) m ->
  exists eng', minv (limits_of limits eng) eng m eng'.
Proof.
  intros Hr Hs.
  assert (exists eng', minv (limits_of limits eng) eng (idle eng) eng') as HI
    by (eexists; apply minv_idle; [done|by left]).
  revert HI. induction Hs as [m|m m1 m2 Hs _ IH]; [done|]. intros [eng' HI].
  apply IH. eapply minv_step; [|done|done]. intros v Hv. right. split; [done|apply u64_range].
Qed.

End serial.
