(* ===== verification/ConcurrentTheorems.v ===== *)
(** * Theorems about the engine under concurrency

    Sections are calls of the public interface, so the sequential run that
    [ConcurrentProofs] gives for an interleaving is a history of calls. Without a
    memory limit it is exactly a history of [Storage]; with one, what a section
    reads decides only how much it evicts, so that the specification of
    [StorageSpec] still holds. The limit itself is not kept: the admission test
    and the update are separate accesses. No state is a deadlock. *)

From S2P Require Import Prelude CppStd UnorderedMap Storage RESP RESPProofs StdPlatform StorageProofs StorageSpec StorageRefine StorageClock StorageMemory Concurrent ConcurrentProofs.

(** ** Sections are calls of the public interface *)

Section calls.
Context `{PL : PlatformLaws}.

(** The call of a section; [DEL] and [EXISTS] are one call per key. *)
Definition section_event (f : finished) : event :=
  let op := EvOp (f_now f) (f_seed f) in
  match f_sec f with
  | SSet k v => op (KSet k v)
  | SGet k => op (KGet k)
  | SDel k => op (KDel [k])
  | SExists k => op (KExists [k])
  | SIncr k => op (KIncr k)
  | SDecr k => op (KDecr k)
  | SExpire k off => op (KExpire k off)
  | SExpireAt k t => op (KExpireAt k t)
  | SPttl k => op (KPttl k)
  | SPersist k => op (KPersist k)
  | SSweep i => EvSweep (f_now f) (fun j => bool_decide (j = i))
  end.

(** The result of that call; a sweep has none. *)
Definition call_result (sec : section) (r : kv_res) : list kv_res :=
  match sec, r with
  | SDel _, RBool b | SExists _, RBool b => [RInt (if b then 1 else 0)]
  | SSweep _, _ => []
  | _, _ => [r]
  end.

Definition results (fs : list finished) : list kv_res :=
  concat ((fun f => call_result (f_sec f) (f_res f)) <$> fs).

Lemma sweep_shards_none j owns now ss a : (forall i, owns (j + i)%nat = false) ->
  sweep_shards j owns now ss a = (ss, a).
Proof.
  revert j. induction ss as [|s ss IH]; intros j Ho; cbn; [done|].
  pose proof (Ho O) as Hj. rewrite Nat.add_0_r in Hj. rewrite Hj, IH; [done|].
  intros i. rewrite <- (Ho (S i)). f_equal. lia.
Qed.

Lemma sweep_shards_one j i now ss a s : ss !! i = Some s ->
  sweep_shards j (fun x => bool_decide (x = (j + i)%nat)) now ss a =
    let '(s', a') := sweep_shard now s a in (<[i := s']> ss, a').
Proof.
  revert j i. induction ss as [|s0 ss IH]; intros j i Hi; [done|]. destruct i as [|i]; cbn in Hi.
  - simplify_eq. cbn. rewrite bool_decide_eq_true_2 by lia.
    destruct (sweep_shard now s a) as [s' a']. rewrite sweep_shards_none; [done|].
    intros i. apply bool_decide_eq_false_2. lia.
  - cbn. rewrite bool_decide_eq_false_2 by lia.
    assert (forall ss a, sweep_shards (S j) (fun x => bool_decide (x = (j + S i)%nat)) now ss a =
      sweep_shards (S j) (fun x => bool_decide (x = (S j + i)%nat)) now ss a) as ->.
    { intros ss' a'. by replace (j + S i)%nat with (S j + i)%nat by lia. }
    rewrite (IH _ _ Hi). by destruct (sweep_shard now s a).
Qed.

(** A section of a key is a call on the shard of the key. *)
Lemma run_section_with_shard {T} (c : T -> kv_res) key f (g : Dict -> Atomics -> res (T * Dict * Atomics)) eng :
  (forall n, section_shard n (f_sec f) = Z.to_nat (std_hash key mod Z.of_nat n)) ->
  (forall s a, section_locked (f_sec f) (f_now f) (f_seed f) s a = result c (g s a)) ->
  run_section f eng = ('(r, eng) ← with_shard key g eng; Ok (c r, eng)).
Proof.
  intros Hi Hg. unfold run_section, with_shard, get_shard_index. rewrite Hi.
  destruct (shards eng !! _) as [s|]; [|done]. rewrite Hg. unfold result.
  by destruct (g s (atomics eng)) as [[[r s'] a']| | |].
Qed.

Lemma run_section_event f eng r eng' :
  run_section f eng = Ok (r, eng') ->
  run_events [section_event f] eng = Ok (call_result (f_sec f) r, eng').
Proof.
  destruct f as [sec now seed r0]. unfold section_event. cbn [f_sec f_now f_seed].
  destruct sec; cbn [call_result run_events run_op];
    try (erewrite (run_section_with_shard _ k) by reflexivity; cbn [f_now f_seed];
         intros ([x eng1] & E & [= <- <-])%bind_Ok;
         unfold set, get, del, exists_, incr, decr, expire, expire_at, pttl, persist, count_keys;
         rewrite E; cbn; try done; by destruct x).
  unfold run_section. cbn. unfold sweep_pass.
  destruct (shards eng !! i) as [s|] eqn:Hs; [|done].
  rewrite (sweep_shards_one 0 i now _ _ s Hs). destruct (sweep_shard now s (atomics eng)) as [s' a'].
  cbn. by intros [= <- <-].
Qed.

Lemma run_events_app evs evs' eng rs eng1 rs' eng2 :
  run_events evs eng = Ok (rs, eng1) -> run_events evs' eng1 = Ok (rs', eng2) ->
  run_events (evs ++ evs') eng = Ok (rs ++ rs', eng2).
Proof.
  revert eng rs. induction evs as [|[now seed op|now owns] evs IH]; intros eng rs E1 E2; cbn in *.
  - by res_inv.
  - apply bind_Ok in E1 as ([r0 eng0] & E0 & E1). rewrite E0. cbn.
    apply bind_Ok in E1 as ([rs0 eng3] & E3 & E1). res_inv. by rewrite (IH _ _ E3 E2).
  - by apply IH.
Qed.

(** A sequential run of sections is a history of calls. *)
Lemma run_history_events fs eng rs eng' : run_history fs eng = Ok (rs, eng') -> rs = f_res <$> fs ->
  run_events (section_event <$> fs) eng = Ok (results fs, eng').
Proof.
  revert eng rs. induction fs as [|f fs IH]; intros eng rs E Hrs; cbn in E; [by res_inv|].
  apply bind_Ok in E as ([r eng1] & E1 & E). apply bind_Ok in E as ([rs1 eng2] & E2 & E).
  rewrite fmap_cons in Hrs. res_inv.
  change (section_event <$> f :: fs) with ([section_event f] ++ (section_event <$> fs)).
  change (results (f :: fs)) with (call_result (f_sec f) (f_res f) ++ results fs).
  eapply run_events_app; [by apply run_section_event|]. eauto.
Qed.

(** ** Sequential runs refine the specification *)

(** The last clock reading of a history that starts at [t]. *)
Definition event_now (ev : event) : Z := match ev with EvOp now _ _ => now | EvSweep now _ => now end.
Definition last_now (t : Z) (evs : list event) : Z := foldl (fun _ ev => event_now ev) t evs.

Lemma events_wf_app t evs evs' :
  events_wf t (evs ++ evs') = events_wf t evs && events_wf (last_now t evs) evs'.
Proof.
  revert t. induction evs as [|[now seed op|now owns] evs IH]; intros t; cbn; [done|..];
    rewrite IH; cbn; by rewrite !andb_assoc.
Qed.

Lemma spec_run_app b t evs rs m m1 evs' rs' m' :
  spec_run b t evs rs m m1 -> spec_run b (last_now t evs) evs' rs' m1 m' ->
  spec_run b t (evs ++ evs') (rs ++ rs') m m'.
Proof. induction 1; cbn; eauto using spec_run. Qed.

(** One event, from the state at an earlier time. *)
Lemma run_event_refines ev t eng m rs eng' :
  engine_wf eng -> R t eng m -> events_wf t [ev] = true -> run_events [ev] eng = Ok (rs, eng') ->
  exists m', spec_run (bounded eng) t [ev] rs m m' /\ R (event_now ev) eng' m' /\ engine_wf eng' /\
    bounded eng' = bounded eng.
Proof.
  intros Hw HR He E. destruct ev as [now seed op|now owns]; cbn in He; wf_split He.
  - cbn in E. apply bind_Ok in E as ([r eng1] & E1 & E). cbn in E. res_inv.
    destruct (run_op_refines _ _ _ _ _ _ _ Hw (R_time _ _ _ _ He HR) E1) as (m1 & Hs & HR1).
    exists m1. split_and!; [|done|eapply run_op_wf; eauto; by apply is_u64_spec|by eapply run_op_bounded].
    econstructor; [done|done|constructor].
  - cbn [run_events] in E. res_inv. exists (purge now m). split_and!; [|by apply R_sweep, (R_time t)|
      by apply sweep_pass_wf|apply sweep_pass_bounded]. constructor; [done|constructor].
Qed.

Lemma seen_wf z M eng : 0 <= z < two64 -> 0 <= M < two64 -> engine_wf eng -> engine_wf (seen z M eng).
Proof.
  intros Hz HM [W1 W2 W3 (A1 & A2 & A3)]. split; [exact W1|exact W2|exact W3|exact (conj Hz (conj HM A3))].
Qed.

Lemma spec_run_weaken b b' t evs rs m m' : (b = true -> b' = true) ->
  spec_run b t evs rs m m' -> spec_run b' t evs rs m m'.
Proof. intros Hb. induction 1; econstructor; eauto using spec_step_weaken. Qed.

Lemma serial_refines PM b fs eng eng' t m :
  (forall M, PM M -> 0 <= M < two64 /\ (b = false -> M = 0)) ->
  serial PM fs eng eng' -> engine_wf eng -> R t eng m -> events_wf t (section_event <$> fs) = true ->
  exists m', spec_run b t (section_event <$> fs) (results fs) m m' /\
    R (last_now t (section_event <$> fs)) eng' m' /\ engine_wf eng'.
Proof.
  intros HPM Hs Hw HR. induction Hs as [eng|fs f z M eng eng1 eng2 Hs IH Hz HM E|fs v eng eng1 Hs IH Hv]; intros He.
  - exists m. split_and!; try done. constructor.
  - rewrite fmap_app, events_wf_app in He. apply andb_true_iff in He as [He1 He2].
    destruct (IH Hw HR He1) as (m1 & Hr1 & HR1 & Hw1). destruct (HPM M HM) as [HMr HM0].
    destruct (run_event_refines (section_event f) (last_now t (section_event <$> fs)) (seen z M eng1) m1
      (call_result (f_sec f) (f_res f)) eng2) as (m2 & Hr2 & HR2 & Hw2 & _);
      [by apply seen_wf|exact HR1|exact He2|by apply run_section_event|].
    exists m2. rewrite fmap_app. split_and!.
    + unfold results. rewrite fmap_app, concat_app. cbn [fmap list_fmap concat]. rewrite app_nil_r.
      eapply spec_run_app; [exact Hr1|]. eapply spec_run_weaken; [|exact Hr2].
      destruct b; [done|]. unfold bounded. cbn. by rewrite (HM0 eq_refl).
    + unfold last_now. rewrite foldl_app. exact HR2.
    + destruct (wf_atomics _ Hw1) as (_ & Hmax & _). apply seen_wf; [apply u64_range|done|done].
  - destruct (IH Hw HR He) as (m1 & Hr1 & HR1 & Hw1). exists m1. split_and!; [done|exact HR1|].
    by apply set_max_memory_wf.
Qed.

(** The same for readings in any order. *)
Lemma serial_racy PM b fs eng eng' M :
  (forall M, PM M -> 0 <= M < two64 /\ (b = false -> M = 0)) ->
  serial PM fs eng eng' -> engine_wf eng -> stores eng M ->
  forallb event_ok (section_event <$> fs) = true ->
  exists M', racy_run b (section_event <$> fs) (results fs) M M' /\ stores eng' M' /\ engine_wf eng'.
Proof.
  intros HPM Hs Hw HS. induction Hs as [eng|fs f z L eng eng1 eng2 Hs IH Hz HL E|fs v eng eng1 Hs IH Hv]; intros He.
  - exists M. split_and!; try done. constructor.
  - rewrite fmap_app in He |- *. rewrite forallb_app in He. apply andb_true_iff in He as [He1 He2].
    destruct (IH Hw HS He1) as (M1 & Hr1 & HS1 & Hw1). destruct (HPM L HL) as [HLr HL0].
    destruct (run_event_racy (section_event f) (seen z L eng1) M1
      (call_result (f_sec f) (f_res f)) eng2) as (M2 & Hr2 & HS2 & Hw2);
      [by apply seen_wf|exact HS1|by apply andb_true_iff in He2 as [? _]|by apply run_section_event|].
    exists M2. split_and!; [|exact HS2|].
    + unfold results. rewrite fmap_app, concat_app. cbn [fmap list_fmap concat]. rewrite app_nil_r.
      eapply racy_run_app; [exact Hr1|]. eapply racy_run_weaken; [|exact Hr2].
      destruct b; [done|]. unfold bounded. cbn. by rewrite (HL0 eq_refl).
    + destruct (wf_atomics _ Hw1) as (_ & Hmax & _). apply seen_wf; [apply u64_range|done|done].
  - destruct (IH Hw HS He) as (M1 & Hr1 & HS1 & Hw1). exists M1. split_and!; [done|exact HS1|].
    by apply set_max_memory_wf.
Qed.

(** ** Progress *)

(** Whatever the others do not do, a thread reaches the end of its section, or
    the overflow of a counter. *)
Lemma thread_finishes limits p t sec now seed ds m :
  ends p -> threads m !! t = Some (mkBusy sec now seed p ds) ->
  exists m', rtc (mstep limits) m m' /\
    (threads m' = delete t (threads m) \/
     exists ds', threads m' = <[t := mkBusy sec now seed cs_ub ds']> (threads m)).
Proof.
  revert m ds. induction p as [r s|u p IH|k IH|k IH| |]; intros m ds He Ht; [| | | | |done].
  - eexists. split; [by eapply rtc_once, step_release|]. by left.
  - destruct (IH (mkMachine (tables m) (apply_update u (matomics m))
      (<[t := mkBusy sec now seed p (ds ++ [u])]> (threads m)) (history m)) (ds ++ [u]))
      as (m' & Hs & Hm); [apply He|apply lookup_insert_eq|].
    exists m'. split; [by eapply rtc_l; [eapply step_update|]|]. cbn in Hm.
    rewrite delete_insert_eq in Hm. setoid_rewrite insert_insert_eq in Hm. done.
  - destruct (IH (total_memory_usage (matomics m)) (mkMachine (tables m) (matomics m)
      (<[t := mkBusy sec now seed (k (total_memory_usage (matomics m))) ds]> (threads m)) (history m)) ds)
      as (m' & Hs & Hm); [apply He|apply lookup_insert_eq|].
    exists m'. split; [by eapply rtc_l; [eapply step_load_total|]|]. cbn in Hm.
    rewrite delete_insert_eq in Hm. setoid_rewrite insert_insert_eq in Hm. done.
  - destruct (IH (max_memory_bytes (matomics m)) (mkMachine (tables m) (matomics m)
      (<[t := mkBusy sec now seed (k (max_memory_bytes (matomics m))) ds]> (threads m)) (history m)) ds)
      as (m' & Hs & Hm); [apply He|apply lookup_insert_eq|].
    exists m'. split; [by eapply rtc_l; [eapply step_load_max|]|]. cbn in Hm.
    rewrite delete_insert_eq in Hm. setoid_rewrite insert_insert_eq in Hm. done.
  - exists m. split; [done|]. right. exists ds. by rewrite insert_id.
Qed.

Lemma threads_finish limits (ts : list nat) m :
  (forall t b, threads m !! t = Some b -> ends (b_prog b)) ->
  (forall t b, threads m !! t = Some b -> t ∈ ts \/ b_prog b = cs_ub) ->
  exists m', rtc (mstep limits) m m' /\ forall t b, threads m' !! t = Some b -> b_prog b = cs_ub.
Proof.
  revert m. induction ts as [|t ts IH]; intros m Hends Hm.
  { exists m. split; [done|]. intros t b Ht. by destruct (Hm _ _ Ht) as [?%not_elem_of_nil|]. }
  destruct (threads m !! t) as [[sec now seed p ds]|] eqn:Ht.
  - destruct (thread_finishes limits _ _ _ _ _ _ _ (Hends _ _ Ht) Ht) as (m1 & Hs & Hc).
    destruct (IH m1) as (m2 & Hs2 & Hm2).
    + intros t0 b0 Ht0. destruct Hc as [Hc|[ds' Hc]]; rewrite Hc in Ht0.
      * apply lookup_delete_Some in Ht0 as [_ Ht0]. by eapply Hends.
      * apply lookup_insert_Some in Ht0 as [[_ <-]|[_ Ht0]]; [done|]. by eapply Hends.
    + intros t0 b0 Ht0. destruct (decide (t0 = t)) as [->|Hn].
      * right. destruct Hc as [Hc|[ds' Hc]]; rewrite Hc in Ht0;
          [by rewrite lookup_delete_eq in Ht0|rewrite lookup_insert_eq in Ht0; by simplify_eq].
      * assert (threads m !! t0 = Some b0) as Ht1.
        { destruct Hc as [Hc|[ds' Hc]]; rewrite Hc in Ht0;
            [by rewrite lookup_delete_ne in Ht0|by rewrite lookup_insert_ne in Ht0]. }
        destruct (Hm _ _ Ht1) as [[|]%elem_of_cons|]; auto. done.
    + exists m2. split; [by etrans|done].
  - apply IH; [done|]. intros t0 b0 Ht0. destruct (Hm _ _ Ht0) as [[->|]%elem_of_cons|]; auto. congruence.
Qed.

End calls.

(** ** Properties *)

(** C8. Without a memory limit the engine is serializable: whatever the
    interleaving of the atomic accesses of the client threads and of the
    sweeper, the results and the tables are those of the calls made one after
    the other in the order in which they released their locks; the counters
    are those of that run plus the updates of the sections in progress, hence
    equal when none is; and no state is a deadlock: every section can be
    driven to its end, but for one that overflows a counter. *)
Theorem concurrent_serializable `{PlatformLaws} limits eng m :
  get_max_memory eng = 0 -> (forall M, limits M -> M = 0) -> 0 <= memory_usage eng < two64 ->
  rtc (mstep limits) (idle eng) m ->
  (exists eng', run_events (section_event <$> history m) eng = Ok (results (history m), eng') /\
     tables m = shards eng' /\
     matomics m = apply_all (in_progress (threads m)) (atomics eng') /\
     (threads m = ∅ -> matomics m = atomics eng')) /\
  exists m', rtc (mstep limits) m m' /\ forall t b, threads m' !! t = Some b -> b_prog b = cs_ub.
Proof.
  intros Hm HL Hr Hs. destruct (minv_reachable limits eng m Hr Hs) as [eng' [_ I2 I3 _ _ I6 I7 _]]. split.
  - exists eng'.
    split_and!; [eapply run_history_events; [apply I2|done]|done|done|].
    + intros M [->|[HM _]]; auto.
    + intros He. by rewrite I6, He.
  - apply (threads_finish limits (map_to_list (threads m)).*1).
    { intros t b (s & _ & Hp)%I7. eapply path_ends; [exact Hp|apply section_ends]. }
    intros t b Ht. left. apply list_elem_of_fmap. exists (t, b). split; [done|]. by apply elem_of_map_to_list.
Qed.

(** C7. Concurrent clients get the answers of the specification: every
    interleaving of the atomic accesses of client threads, of the sweeper, and
    of changes of the memory limit is, in the order of the lock releases, a run
    of the specification on the stored entries in which every call acts on what
    is live at its own clock reading, whatever the order of the readings. If a
    limit is ever set, keys may be dropped: what a section reads in the shared
    counter and limit decides which keys it evicts, never what it answers about
    the keys that are left. When the readings happen not to go back in that
    order, the interleaving is a run of the map of live keys, as for
    sequential calls. *)
Theorem concurrent_refines_spec `{PlatformLaws} limits (b : bool) eng M m :
  engine_wf eng -> stores eng M -> (b = false -> get_max_memory eng = 0 /\ forall M, limits M -> M = 0) ->
  rtc (mstep limits) (idle eng) m ->
  forallb event_ok (section_event <$> history m) = true ->
  exists eng' M', tables m = shards eng' /\ engine_wf eng' /\ stores eng' M' /\
    racy_run b (section_event <$> history m) (results (history m)) M M' /\
    forall t st, R t eng st -> events_wf t (section_event <$> history m) = true ->
      exists st', spec_run b t (section_event <$> history m) (results (history m)) st st' /\
        R (last_now t (section_event <$> history m)) eng' st'.
Proof.
  intros Hw HS Hb Hs He. destruct (wf_atomics _ Hw) as (Hr & Hmr & _).
  destruct (minv_reachable limits eng m Hr Hs) as [eng' [I1 _ I3 _ _ _ _ _]].
  assert (forall M, limits_of limits eng M -> 0 <= M < two64 /\ (b = false -> M = 0)) as HPM.
  { intros L [->|[HM HMr]]; (split; [done|]); intros E0; destruct (Hb E0) as [Hb1 Hb2]; auto. }
  destruct (serial_racy _ b _ _ _ _ HPM I1 Hw HS He) as (M' & Hrun & HS' & Hw').
  exists eng', M'. split_and!; try done. intros t st HR Hev.
  destruct (serial_refines _ b _ _ _ _ _ HPM I1 Hw HR Hev) as (st' & Hr1 & HR' & _). eauto.
Qed.

(** Two clients set a key each, in different shards, while the sweeper looks at
    a third; their accesses alternate. *)
Definition race_schedule : list sched := [
  Lock 1 (SSet (lit "a") (lit "1")) 1000 1000; Lock 2 (SSet (lit "b") (lit "2")) 1000 1000;
  Lock 3 (SSweep 0) 1000 0;
  Run 1; Run 1; Run 2; Run 2; Run 1; Run 2; Run 3; Run 2; Run 1].

Definition never (M : Z) : Prop := False.

Lemma race_allowed limits : Forall (allows limits) race_schedule.
Proof. by repeat constructor. Qed.

Lemma concurrent_serializable_witness :
  exists m eng', rtc (mstep never) (idle engine0) m /\
    f_res <$> history m = [RInt 0; RBool true; RBool true] /\
    run_events (section_event <$> history m) engine0 = Ok ([RBool true; RBool true], eng') /\
    tables m = shards eng' /\ matomics m = atomics eng'.
Proof.
  assert (Hs : rtc (mstep never) (idle engine0) (exec' race_schedule (idle engine0)))
    by (apply exec_reaches; [apply race_allowed|vm_compute; reflexivity]).
  destruct (concurrent_serializable never engine0 (exec' race_schedule (idle engine0)) eq_refl
    ltac:(intros M []) (conj (Z.le_refl 0) eq_refl) Hs) as [(eng' & H1 & H2 & _ & H3) _].
  exists (exec' race_schedule (idle engine0)), eng'.
  split; [exact Hs|]. split; [vm_compute; reflexivity|]. split.
  - rewrite H1. do 2 f_equal.
  - split; [exact H2|]. apply H3, map_size_empty_iff. vm_compute. reflexivity.
Defined.

(** The same race, with the limit set between the two admission tests. *)
Definition config_schedule : list sched := take 5 race_schedule ++ Config 150 :: drop 5 race_schedule.

(** A key with a deadline of 1011, read by a thread at 1020 and then by one that
    had read the clock at 1005 and waited for the lock. *)
Definition late_schedule : list sched := [
  Lock 1 (SSet (lit "a") (lit "1")) 1000 1000; Run 1; Run 1; Run 1; Run 1;
  Lock 2 (SExpire (lit "a") 10) 1001 1001; Run 2;
  Lock 3 (SGet (lit "a")) 1020 1020; Run 3; Run 3; Run 3; Run 3;
  Lock 4 (SGet (lit "a")) 1005 1005; Run 4; Run 4].

Lemma concurrent_refines_spec_witness :
  (exists m eng' M', rtc (mstep (eq 150)) (idle engine0) m /\ tables m = shards eng' /\
    results (history m) = [RBool true; RBool true] /\ max_memory_bytes (matomics m) = 150 /\
    racy_run true (section_event <$> history m) (results (history m)) ∅ M' /\ stores eng' M' /\
    exists st', spec_run true 0 (section_event <$> history m) (results (history m)) ∅ st') /\
  (exists m eng' M', rtc (mstep never) (idle engine0) m /\ tables m = shards eng' /\
    results (history m) = [RBool true; RBool true; RValue None; RValue None] /\
    event_now <$> (section_event <$> history m) = [1000; 1001; 1020; 1005] /\
    racy_run false (section_event <$> history m) (results (history m)) ∅ M' /\ stores eng' M').
Proof.
  split.
  - assert (Hs : rtc (mstep (eq 150)) (idle engine0) (exec' config_schedule (idle engine0)))
      by (apply exec_reaches; [by repeat constructor|vm_compute; reflexivity]).
    destruct (concurrent_refines_spec (eq 150) true engine0 ∅ (exec' config_schedule (idle engine0))
      (new_engine_wf 16 ltac:(lia)) (stores_new 16) ltac:(discriminate) Hs
      ltac:(vm_compute; reflexivity)) as (eng' & M' & H1 & _ & H2 & H3 & H4).
    exists (exec' config_schedule (idle engine0)), eng', M'.
    split; [exact Hs|]. split; [exact H1|]. split; [vm_compute; reflexivity|].
    split; [vm_compute; reflexivity|]. split; [exact H3|]. split; [exact H2|].
    destruct (H4 0 ∅ (R_new 0 16) ltac:(vm_compute; reflexivity)) as (st' & Hr & _). exists st'. exact Hr.
  - assert (Hs : rtc (mstep never) (idle engine0) (exec' late_schedule (idle engine0)))
      by (apply exec_reaches; [by repeat constructor|vm_compute; reflexivity]).
    destruct (concurrent_refines_spec never false engine0 ∅ (exec' late_schedule (idle engine0))
      (new_engine_wf 16 ltac:(lia)) (stores_new 16) (fun _ => conj eq_refl (fun M (F : never M) => match F with end)) Hs
      ltac:(vm_compute; reflexivity)) as (eng' & M' & H1 & _ & H2 & H3 & _).
    exists (exec' late_schedule (idle engine0)), eng', M'.
    split; [exact Hs|]. split; [exact H1|]. split; [vm_compute; reflexivity|].
    split; [vm_compute; reflexivity|]. split; [exact H3|exact H2].
Defined.

(** C40. The memory limit is not kept under concurrency: the admission test
    and the update of the counter are separate accesses, so two clients that
    set new keys in different shards can both pass the test; both succeed,
    nothing is evicted, and the usage ends above the limit, although one after
    the other, in either order, the second would have been refused. *)
Theorem concurrent_limit_overshoot :
  exists m, rtc (mstep never) (idle engine_limit) m /\ threads m = ∅ /\
    results (history m) = [RBool true; RBool true] /\
    max_memory_bytes (matomics m) = 200 /\ total_memory_usage (matomics m) = 220 /\
    evicted_keys (matomics m) = 0 /\
    forall op1 op2, Permutation [op1; op2] [KSet (lit "a") (lit "1"); KSet (lit "b") (lit "2")] ->
      exists eng', run_events [EvOp 1000 1000 op1; EvOp 1000 1000 op2] engine_limit =
        Ok ([RBool true; RBool false], eng').
Proof.
  exists (exec' race_schedule (idle engine_limit)).
  split; [apply exec_reaches; [apply race_allowed|vm_compute; reflexivity]|].
  split; [apply map_size_empty_iff; vm_compute; reflexivity|].
  split_and!; [vm_compute; reflexivity..|].
  intros op1 op2 [[-> ->]|[-> ->]]%Permutation_length_2;
    eexists; apply (got_pair _ _ engine_limit); vm_compute; reflexivity.
Qed.
